(** * cor-asv-ann: alignment and resegmentation engine of [transcode.py]

    A shallow embedding of the functions of
    [ocrd_cor_asv_ann/wrapper/transcode.py] that collect the text results of
    a page line by line ([_page_get_line_sequences_at]), concatenate them to
    line strings with their position maps
    ([_line_sequences2string_sequences]), turn a soft alignment into a
    hard path ([_alignment2path]), write a corrected line back onto the
    TextEquiv objects of a line ([_update_sequence]), repair the Word
    segmentation ([_resegment_sequence], [_merge_words],
    [_split_word_at_glyph], [_split_word_at_space]) and recompute the higher
    levels ([page_update_higher_textequiv_levels]).

    Conventions of the embedding:
    - Python [int] is [Z]; a Python [str] is a list of code points;
    - Python exceptions are the [Raise] case of [result]; loops run on fuel
      and the entry points supply a bound computed from their arguments;
    - scores of the alignment are kept abstract (any carrier with an
      addition, a rounding on store and a strict comparison), confidences
      are exact rationals, with [NaN] as the one special value;
    - mutable objects (TextEquiv, Word, TextLine) live in a store and are
      referred to by handles, so that aliasing is as in the source. *)

From Stdlib Require Import ZArith QArith Lia List Bool String Ascii.
From stdpp Require Import gmap list.

Local Open Scope Z_scope.

(** ** Exceptions and results *)

Inductive exn : Type :=
| IndexError
| ValueError
| TypeError
| KeyError
| StopIteration
| AttributeError
| AssertGapMapped          (* 'character "%s" must not be mapped' *)
| AssertSourceMismatch     (* 'source element does not match input section' *)
| AssertPathNotAtTop       (* 'alignment path did not reach top' *)
| AssertOutputLost.        (* 'output will be lost at (whitespace) element' *)

Inductive result (A : Type) : Type :=
| Ok (a : A)
| Raise (e : exn)
| OutOfFuel.
Arguments Ok {A} a.
Arguments Raise {A} e.
Arguments OutOfFuel {A}.

Definition bind {A B} (r : result A) (k : A -> result B) : result B :=
  match r with
  | Ok a => k a
  | Raise e => Raise e
  | OutOfFuel => OutOfFuel
  end.

Notation "'do' x <- e ; k" := (bind e (fun x => k))
  (at level 10, x name, e at level 100, k at level 200).

Definition assert (b : bool) (e : exn) : result unit :=
  if b then Ok tt else Raise e.

(** ** Python sequences *)

(** Index normalisation of Python and numpy: a negative index counts from
    the end, anything still out of range is an [IndexError]. *)
Definition norm_index (n k : Z) : option Z :=
  if 0 <=? k then (if k <? n then Some k else None)
  else if 0 <=? k + n then Some (k + n) else None.

Definition py_index {A} (l : list A) (k : Z) : result A :=
  match norm_index (Z.of_nat (length l)) k with
  | Some k' => match l !! Z.to_nat k' with
               | Some x => Ok x
               | None => Raise IndexError
               end
  | None => Raise IndexError
  end.

(** Bound normalisation of a slice: negative counts from the end, then
    clamped to [0, n]. *)
Definition slice_bound (n s : Z) : Z :=
  if s <? 0 then Z.max 0 (s + n) else Z.min s n.

(** ** The Aligner: [_alignment2path] *)

Module Aligner.
Section Viterbi.
(** Scores: Python floats in [alignment] and [min_score], float32 cells in
    [viterbi_fw].  [f32] is the rounding applied when a cell is stored. *)
Context {score : Type}.
Variable zero : score.
Variable add : score -> score -> score.
Variable f32 : score -> score.
Variable gtb : score -> score -> bool.

(** [np.zeros((n0, n1))]: cells not written yet read as [zero]. *)
Record ndarray : Type := NdArray {
  shape0 : Z;
  shape1 : Z;
  cells : gmap (Z * Z) score
}.

Definition np_zeros (n0 n1 : Z) : result ndarray :=
  if (n0 <? 0) || (n1 <? 0) then Raise ValueError
  else Ok (NdArray n0 n1 ∅).

Definition cell (v : ndarray) (i j : Z) : score :=
  default zero (cells v !! (i, j)).

Definition nd_get (v : ndarray) (i j : Z) : result score :=
  match norm_index (shape0 v) i, norm_index (shape1 v) j with
  | Some i', Some j' => Ok (cell v i' j')
  | _, _ => Raise IndexError
  end.

Definition nd_set (v : ndarray) (i j : Z) (x : score) : result ndarray :=
  match norm_index (shape0 v) i, norm_index (shape1 v) j with
  | Some i', Some j' =>
      Ok (NdArray (shape0 v) (shape1 v) (<[(i', j') := f32 x]> (cells v)))
  | _, _ => Raise IndexError
  end.

(** [v[s:, c]] and [v[r, s:]] *)
Definition nd_col_from (v : ndarray) (s c : Z) : result (list score) :=
  match norm_index (shape1 v) c with
  | Some c' =>
      let st := slice_bound (shape0 v) s in
      Ok (map (fun r => cell v r c') (seqZ st (shape0 v - st)))
  | None => Raise IndexError
  end.

Definition nd_row_from (v : ndarray) (r s : Z) : result (list score) :=
  match norm_index (shape0 v) r with
  | Some r' =>
      let st := slice_bound (shape1 v) s in
      Ok (map (fun c => cell v r' c) (seqZ st (shape1 v - st)))
  | None => Raise IndexError
  end.

(** Python's [max(a, b, c)]: the first of the largest. *)
Definition max3 (a b c : score) : score :=
  let m := if gtb b a then b else a in
  if gtb c m then c else m.

(** [np.argmax]: index of the first largest element. *)
Fixpoint argmax_from (best : score) (bi k : Z) (l : list score) : Z :=
  match l with
  | [] => bi
  | x :: l' => if gtb x best then argmax_from x k (k + 1) l'
               else argmax_from best bi (k + 1) l'
  end.

Definition np_argmax (l : list score) : result Z :=
  match l with
  | [] => Raise ValueError
  | x :: l' => Ok (argmax_from x 0 1 l')
  end.

Variable alignment : list (list score).
Variable i_max j_max : Z.
Variable min_score : score.

(** The matrix has a row for every output position below [j_max] and a
    column for every input position below [i_max]. *)
Definition well_sized : bool :=
  (j_max <=? Z.of_nat (length alignment))
  && forallb (fun row : list score => i_max <=? Z.of_nat (length row))
       (take (Z.to_nat j_max) alignment).

Definition alignment_at (j i : Z) : result score :=
  do row <- py_index alignment j; py_index row i.

(** One turn of the inner [while True] up to its test of the score: the
    new cursor, and whether the loop was left through [j == j_max]. *)
Definition bump (i j : Z) : Z * Z * bool :=
  let i := i + 1 in
  if i =? i_max then
    let j := j + 1 in
    if j =? j_max then (i, j, true) else (0, j, false)
  else (i, j, false).

Fixpoint advance (fuel : nat) (i j : Z) : result (Z * Z) :=
  match fuel with
  | O => OutOfFuel
  | S fuel' =>
      let '(i', j', stop) := bump i j in
      if stop then Ok (i', j')
      else
        do a <- alignment_at j' i';
        if gtb a min_score then Ok (i', j') else advance fuel' i' j'
  end.

Definition cells_fuel : nat := S (Z.to_nat (i_max * j_max)).

Fixpoint forward (fuel : nat) (v : ndarray) (i j : Z) : result ndarray :=
  if (i <? i_max) && (j <? j_max) then
    match fuel with
    | O => OutOfFuel
    | S fuel' =>
        do im1 <- (if 0 <? i then nd_get v (i - 1) j else Ok zero);
        do jm1 <- (if 0 <? j then nd_get v i (j - 1) else Ok zero);
        do ijm1 <- (if (0 <? i) && (0 <? j) then nd_get v (i - 1) (j - 1)
                    else Ok zero);
        do a <- alignment_at j i;
        do v' <- nd_set v i j (add a (max3 im1 jm1 ijm1));
        do ij <- advance cells_fuel i j;
        forward fuel' v' (fst ij) (snd ij)
    end
  else Ok v.

Fixpoint backward (fuel : nat) (v : ndarray) (i j : Z) (realignment : gmap Z Z)
  : result (gmap Z Z) :=
  if (0 <=? i) && (0 <=? j) then
    match fuel with
    | O => OutOfFuel
    | S fuel' =>
        let realignment := <[i := j]> realignment in
        do up <- nd_get v (i - 1) j;
        do lft <- nd_get v i (j - 1);
        if gtb up lft then
          do diag <- nd_get v (i - 1) (j - 1);
          if gtb up diag then backward fuel' v (i - 1) j realignment
          else backward fuel' v (i - 1) (j - 1) realignment
        else
          do diag <- nd_get v (i - 1) (j - 1);
          if gtb lft diag then backward fuel' v i (j - 1) realignment
          else backward fuel' v (i - 1) (j - 1) realignment
    end
  else Ok realignment.

Definition start_i (v : ndarray) : result Z :=
  if i_max <=? j_max then Ok (i_max - 1)
  else
    do col <- nd_col_from v (j_max - i_max - 2) (j_max - 1);
    do k <- np_argmax col;
    Ok (j_max - 2 + k).

Definition start_j (v : ndarray) : result Z :=
  if j_max <=? i_max then Ok (j_max - 1)
  else
    do row <- nd_row_from v (i_max - 1) (i_max - j_max - 2);
    do k <- np_argmax row;
    Ok (i_max - 2 + k).

Definition path_fuel : nat := S (Z.to_nat (i_max + j_max)).

Definition _alignment2path : result (gmap Z Z) :=
  do v0 <- np_zeros i_max j_max;
  do v <- forward cells_fuel v0 0 0;
  do i <- start_i v;
  do j <- start_j v;
  do realignment <- backward path_fuel v i j {[ i_max := j_max ]};
  Ok (<[0 := 0]> realignment).

(** Predicates used to state the properties of the walk. *)
Definition shaped (v : ndarray) : Prop :=
  shape0 v = i_max /\ shape1 v = j_max.

(** Row-major rank of the cursor. *)
Definition rank (i j : Z) : Z := j * i_max + i.

Definition in_rect (i j : Z) : Prop := 0 <= i < i_max /\ 0 <= j < j_max.

(** What the backward walk maintains about the map it fills, with the
    cursor at [(i, j)]. *)
Definition monotone (m : gmap Z Z) : Prop :=
  forall k1 x1 k2 x2, m !! k1 = Some x1 -> m !! k2 = Some x2 -> k1 < k2 -> x1 <= x2.

Definition path_inv (i j : Z) (m : gmap Z Z) : Prop :=
  m !! i_max = Some j_max
  /\ (forall k x, m !! k = Some x ->
        (k = i_max /\ x = j_max) \/ (0 <= k < i_max /\ 0 <= x < j_max /\ i <= k /\ j <= x))
  /\ monotone m.

End Viterbi.
End Aligner.

(** ** Scores as exact rationals *)

Definition Qgtb (a b : Q) : bool := negb (Qle_bool a b).

Definition path_of (alignment : list (list Q)) (i_max j_max : Z) (min_score : Q)
  : result (gmap Z Z) :=
  Aligner._alignment2path 0%Q Qplus (fun x => x) Qgtb alignment i_max j_max min_score.

Definition path_list (r : result (gmap Z Z)) : result (list (Z * Z)) :=
  do m <- r; Ok (map_to_list m).

Definition identity2 : list (list Q) := [[1%Q; 0%Q]; [0%Q; 1%Q]].

(** ** Python strings *)

(** A Python [str] is a sequence of code points. *)
Definition char : Type := N.
Definition str : Type := list char.

Definition SPACE : char := 32%N.
Definition NEWLINE : char := 10%N.

(** [py "ab"] is the Python string of an ASCII literal. *)
Definition py (s : string) : str := map N_of_ascii (list_ascii_of_string s).

Definition str_eqb (a b : str) : bool := bool_decide (a = b).

Definition len {A} (l : list A) : Z := Z.of_nat (length l).

(** [l[a:b]] *)
Definition py_slice {A} (l : list A) (a b : Z) : list A :=
  let a' := slice_bound (len l) a in
  let b' := slice_bound (len l) b in
  take (Z.to_nat (b' - a')) (drop (Z.to_nat a') l).

(** [l[:-1]] *)
Definition py_init {A} (l : list A) : list A := py_slice l 0 (-1).

(** The characters that [str.split()] and [str.isspace] treat as
    whitespace. *)
Definition is_space (c : char) : bool :=
  ((9 <=? c) && (c <=? 13) || (28 <=? c) && (c <=? 32)
   || (c =? 133) || (c =? 160) || (c =? 5760)
   || (8192 <=? c) && (c <=? 8202)
   || (c =? 8232) || (c =? 8233) || (c =? 8239) || (c =? 8287) || (c =? 12288))%N.

(** [c in (" ", "\n")] for a one-character string *)
Definition is_sp_nl (c : char) : bool := ((c =? SPACE) || (c =? NEWLINE))%N.

(** [s in (" ", "\n")] *)
Definition in_sp_nl (s : str) : bool :=
  str_eqb s [SPACE] || str_eqb s [NEWLINE].

(** [s.startswith((" ", "\n"))], [s.endswith((" ", "\n"))],
    [s.startswith(" ")] *)
Definition startswith_sp_nl (s : str) : bool :=
  match s with c :: _ => is_sp_nl c | [] => false end.

Definition endswith_sp_nl (s : str) : bool :=
  match last s with Some c => is_sp_nl c | None => false end.

Definition startswith_space (s : str) : bool :=
  match s with c :: _ => (c =? SPACE)%N | [] => false end.

(** [s.split()]: the maximal runs of non-whitespace. *)
Fixpoint split_ws_from (cur : str) (s : str) : list str :=
  match s with
  | [] => match cur with [] => [] | _ => [rev cur] end
  | c :: s' =>
      if is_space c then
        match cur with
        | [] => split_ws_from [] s'
        | _ => rev cur :: split_ws_from [] s'
        end
      else split_ws_from (c :: cur) s'
  end.

Definition split_ws (s : str) : list str := split_ws_from [] s.

(** Truth value of [s.split()] *)
Definition has_token (s : str) : bool :=
  match split_ws s with [] => false | _ => true end.

(** [s.split(sep)] for a one-character separator: never empty. *)
Fixpoint split_on (sep : char) (s : str) : list str :=
  match s with
  | [] => [[]]
  | c :: s' =>
      if (c =? sep)%N then [] :: split_on sep s'
      else match split_on sep s' with
           | t :: ts => (c :: t) :: ts
           | [] => [[c]]
           end
  end.

(** [s.split(" ")[-1]] *)
Definition last_field (s : str) : str := List.last (split_on SPACE s) [].

(** [sep.join(parts)] *)
Fixpoint join (sep : str) (parts : list str) : str :=
  match parts with
  | [] => []
  | [p] => p
  | p :: ps => p ++ sep ++ join sep ps
  end.

(** [s.index(c)], with the [ValueError] of a miss *)
Fixpoint str_index_from (k : Z) (c : char) (s : str) : result Z :=
  match s with
  | [] => Raise ValueError
  | x :: s' => if (x =? c)%N then Ok k else str_index_from (k + 1) c s'
  end.

Definition str_index (c : char) (s : str) : result Z := str_index_from 0 c s.

(** [c in s] *)
Definition contains (c : char) (s : str) : bool := existsb (N.eqb c) s.

(** ** Confidences *)

(** A Python float: an exact rational, or [nan]. *)
Inductive pyfloat : Type :=
| Float (q : Q)
| NaN.

Definition Qsum (l : list Q) : Q := fold_right Qplus 0%Q l.

(** [np.mean] of a list of floats; the mean of no values is [nan]. *)
Definition np_mean (l : list Q) : pyfloat :=
  match l with
  | [] => NaN
  | _ => Float (Qred (Qsum l / inject_Z (len l)))
  end.

(** ** Objects of the PAGE model *)

(** [TextEquivType]; [index = Some (-1)] marks the implicit whitespace that
    [_page_get_line_sequences_at] makes up. *)
Record TextEquivType : Type := TextEquiv {
  Unicode : str;
  conf : option pyfloat;
  index : option Z
}.

Definition is_synthetic (t : TextEquivType) : bool :=
  match index t with Some k => k =? -1 | None => false end.

(** Objects are referred to by handles; the store maps a handle to the
    current state of its object. *)
Definition handle : Type := nat.
Definition te_store : Type := handle -> TextEquivType.

Definition upd {A} (s : handle -> A) (h : handle) (x : A) : handle -> A :=
  fun h' => if Nat.eqb h' h then x else s h'.

Definition set_Unicode (s : te_store) (h : handle) (u : str) : te_store :=
  upd s h (TextEquiv u (conf (s h)) (index (s h))).

Definition set_conf (s : te_store) (h : handle) (c : option pyfloat) : te_store :=
  upd s h (TextEquiv (Unicode (s h)) c (index (s h))).

(** ** Python dicts in insertion order *)

Definition dict (V : Type) : Type := list (Z * V).

Fixpoint dict_get {V} (d : dict V) (k : Z) : result V :=
  match d with
  | [] => Raise KeyError
  | (k', v) :: d' => if k' =? k then Ok v else dict_get d' k
  end.

Definition dict_has {V} (d : dict V) (k : Z) : bool :=
  existsb (fun kv => fst kv =? k) d.

(** [d[k] = v] *)
Fixpoint dict_set {V} (d : dict V) (k : Z) (v : V) : dict V :=
  match d with
  | [] => [(k, v)]
  | (k', v') :: d' => if k' =? k then (k, v) :: d' else (k', v') :: dict_set d' k v
  end.

(** [d.setdefault(k, v)], for its effect on [d] *)
Definition setdefault {V} (d : dict V) (k : Z) (v : V) : dict V :=
  if dict_has d k then d else d ++ [(k, v)].

Definition keys {V} (d : dict V) : list Z := map fst d.
Definition values {V} (d : dict V) : list V := map snd d.

(** ** The EditDistributor: [_update_sequence] *)

Module EditDistributor.

(** One element of the returned sequence: the TextEquiv, the Word and the
    TextLine (each a reference, the latter two possibly [None]). *)
Definition entry : Type := handle * option handle * option handle.

(** [while cond(output): sequence[-1][0].Unicode += output[0];
     last[1] += 1; output = output[1:]], where [h] is [sequence[-1][0]].
    Each of the loop conditions in the source is false on the empty
    string. *)
Fixpoint shift_left (cond : str -> bool) (h : handle)
  (s : te_store) (lj : Z) (output : str) : te_store * Z * str :=
  match output with
  | [] => (s, lj, [])
  | c :: rest =>
      if cond output
      then shift_left cond h (set_Unicode s h (Unicode (s h) ++ [c])) (lj + 1) rest
      else (s, lj, output)
  end.

(** [while output.endswith((" ", "\n")): j -= 1; output = output[:-1]] *)
Fixpoint strip_right (fuel : nat) (j : Z) (output : str) : Z * str :=
  match fuel with
  | O => (j, output)
  | S fuel' =>
      if endswith_sp_nl output then strip_right fuel' (j - 1) (py_init output)
      else (j, output)
  end.

Definition nonempty {A} (l : list A) : bool :=
  match l with [] => false | _ => true end.

Definition lhs_cond (output : str) : bool :=
  nonempty output && negb (startswith_sp_nl output).

Section Line.
Variable input_line output_line : str.
Variable output_prob : list Q.
Variable realignment : gmap Z Z.
Variable textequivs : dict (option handle).
Variable words textlines : dict (option handle).

Definition i_max : Z := len input_line.
Definition j_max : Z := len output_line.

(** The loop state: [last] and [sequence]. *)
Definition loop_state : Type := option (Z * Z) * list entry.

(** The redistribution for a whitespace [input_]: returns the store, the
    new [last[1]], [j] and [output]. *)
Definition redistribute_space (s : te_store) (sequence : list entry)
  (lj j : Z) (output : str) : te_store * Z * Z * str :=
  let '(s, lj, output) :=
    match last sequence with
    | Some (h, _, _) =>
        if lhs_cond output then shift_left lhs_cond h s lj output
        else (s, lj, output)
    | None => (s, lj, output)
    end in
  let '(j, output) :=
    if nonempty output && negb (endswith_sp_nl output)
    then let j := j - len (last_field output) in (j, py_slice output_line lj j)
    else (j, output) in
  let '(s, lj, output) :=
    match last sequence with
    | Some (h, _, _) =>
        if has_token output then shift_left has_token h s lj output
        else (s, lj, output)
    | None => (s, lj, output)
    end in
  (s, lj, j, output).

(** The redistribution for any other [input_], ending at input offset
    [i]. *)
Definition redistribute_other (s : te_store) (sequence : list entry) (i : Z)
  (lj j : Z) (output : str) : result (te_store * Z * Z * str) :=
  let '(s, lj, output) :=
    match last sequence with
    | Some (h, _, _) =>
        if startswith_space output && is_synthetic (s h)
        then shift_left startswith_space h s lj output
        else (s, lj, output)
    | None => (s, lj, output)
    end in
  do next_is_space <-
    (if endswith_sp_nl output && (i <? i_max)
     then do c <- py_index input_line i; Ok (is_sp_nl c)
     else Ok false);
  let '(j, output) :=
    if next_is_space then strip_right (length output) j output
    else (j, output) in
  Ok (s, lj, j, output).

(** The redistribution of the segment between the offsets [(li, lj)] and
    [(i, j)]. *)
Definition redistribute (s : te_store) (sequence : list entry) (li lj i j : Z)
  : result (te_store * Z * Z * str) :=
  let input_ := py_slice input_line li i in
  let output := py_slice output_line lj j in
  if in_sp_nl input_
  then Ok (redistribute_space s sequence lj j output)
  else redistribute_other s sequence i lj j output.

(** The part of the loop body under [if last:], up to [sequence.append]. *)
Definition commit (s : te_store) (sequence : list entry) (li lj i j : Z)
  : te_store * result (Z * list entry) :=
  let input_ := py_slice input_line li i in
  match redistribute s sequence li lj i j with
  | Ok (s, lj, j, output) =>
      match dict_get textequivs li with
      | Ok (Some h) =>
          if str_eqb (Unicode (s h)) input_ then
            let s := set_Unicode s h output in
            let prob := py_slice output_prob lj j in
            let s := set_conf s h
                       (Some (np_mean (if nonempty prob then prob else [1%Q]))) in
            match dict_get words li, dict_get textlines li with
            | Ok word, Ok textline => (s, Ok (j, sequence ++ [(h, word, textline)]))
            | Raise e, _ | _, Raise e => (s, Raise e)
            | _, _ => (s, OutOfFuel)
            end
          else (s, Raise AssertSourceMismatch)
      | Ok None => (s, Raise AttributeError)
      | Raise e => (s, Raise e)
      | OutOfFuel => (s, OutOfFuel)
      end
  | Raise e => (s, Raise e)
  | OutOfFuel => (s, OutOfFuel)
  end.

(** One turn of [for i in textequivs]. *)
Definition step (s : te_store) (st : loop_state) (i : Z)
  : te_store * result loop_state :=
  let '(last_, sequence) := st in
  match (match realignment !! i, last_ with
         | Some j, _ => Ok j
         | None, Some (_, lj) => Ok lj          (* this element was deleted *)
         | None, None => Raise TypeError
         end) with
  | Ok j =>
      match last_ with
      | Some (li, lj) =>
          match commit s sequence li lj i j with
          | (s, Ok (j, sequence)) => (s, Ok (Some (i, j), sequence))
          | (s, Raise e) => (s, Raise e)
          | (s, OutOfFuel) => (s, OutOfFuel)
          end
      | None => (s, Ok (Some (i, j), sequence))
      end
  | Raise e => (s, Raise e)
  | OutOfFuel => (s, OutOfFuel)
  end.

Fixpoint loop (s : te_store) (st : loop_state) (ks : list Z)
  : te_store * result loop_state :=
  match ks with
  | [] => (s, Ok st)
  | i :: ks' =>
      match step s st i with
      | (s, Ok st) => loop s st ks'
      | r => r
      end
  end.

(** The closing [for] with its assertion on every element. *)
Definition check_not_lost (s : te_store) (e : entry) : bool :=
  negb (has_token (Unicode (s e.1.1))) || negb (is_synthetic (s e.1.1)).

(** [next(line for line in textlines.values() if line)] *)
Definition first_line : result handle :=
  match filter is_Some (values textlines) with
  | Some l :: _ => Ok l
  | _ => Raise StopIteration
  end.

End Line.

Definition _update_sequence (input_line output_line : str) (output_prob : list Q)
  (realignment : gmap Z Z)
  (textequivs : dict (option handle)) (words textlines : dict (option handle))
  (s : te_store) : te_store * result (list entry) :=
  let i_max := len input_line in
  let j_max := len output_line in
  let textequivs := setdefault textequivs i_max None in
  match first_line textlines with
  | Ok _ =>
      match loop input_line output_line output_prob realignment
              textequivs words textlines s (None, []) (keys textequivs) with
      | (s, Ok (last_, sequence)) =>
          if bool_decide (last_ = Some (i_max, j_max)) then
            if forallb (check_not_lost s) sequence then (s, Ok sequence)
            else (s, Raise AssertOutputLost)
          else (s, Raise AssertPathNotAtTop)
      | (s, Raise e) => (s, Raise e)
      | (s, OutOfFuel) => (s, OutOfFuel)
      end
  | Raise e => (s, Raise e)
  | OutOfFuel => (s, OutOfFuel)
  end.

End EditDistributor.

(** ** The LineExtractor: [_line_sequences2string_sequences] *)

Module LineExtractor.

Import EditDistributor.

(** [float(textequiv.conf or "1.0")]: an unset confidence and the falsy
    [0.0] both give 1.0. *)
Definition conf_or_one (c : option pyfloat) : pyfloat :=
  match c with
  | None => Float 1
  | Some (Float q) => if Qeq_bool q 0 then Float 1 else Float q
  | Some NaN => NaN
  end.

(** What the function has accumulated for the line it is working on: the
    offset [i] and the last elements of its five result lists. *)
Record line_acc : Type := LineAcc {
  acc_i : Z;
  input_line : str;
  conf_line : list pyfloat;
  textequiv_starts : dict (option handle);
  word_starts : dict (option handle);
  textline_starts : dict (option handle)
}.

Definition empty_acc : line_acc := LineAcc 0 [] [] [] [] [].

Section Extract.
(** [GAP] is imported from [lib/seq2seq.py]: one reserved character.
    [mapping] is the character table [s2s.mapping[0]] of the model. *)
Variable GAP : char.
Variable mapping : gmap char Z.

(** The body of [for textequiv, word, textline in line_sequence]. *)
Definition extract_span (s : te_store) (a : line_acc) (e : entry)
  : te_store * result line_acc :=
  let '(h, word, textline) := e in
  let i := acc_i a in
  let tes := dict_set (textequiv_starts a) i (Some h) in
  let wds := dict_set (word_starts a) i word in
  let tls := dict_set (textline_starts a) i textline in
  let j := len (Unicode (s h)) in
  match (if nonempty (Unicode (s h)) then Ok (s, j)
         else
           (* empty element (OCR rejection) *)
           if bool_decide (mapping !! GAP = None)
           then Ok (set_Unicode s h [GAP], 1)
           else Raise AssertGapMapped) with
  | Ok (s, j) =>
      (s, Ok (LineAcc (i + j)
                (input_line a ++ Unicode (s h))
                (conf_line a ++ replicate (Z.to_nat j) (conf_or_one (conf (s h))))
                tes wds tls))
  | Raise e => (s, Raise e)
  | OutOfFuel => (s, OutOfFuel)
  end.

Fixpoint extract_line (s : te_store) (a : line_acc) (line_sequence : list entry)
  : te_store * result line_acc :=
  match line_sequence with
  | [] => (s, Ok a)
  | e :: rest =>
      match extract_span s a e with
      | (s, Ok a) => extract_line s a rest
      | r => r
      end
  end.

(** The outer loop; the five result lists are kept zipped, one [line_acc]
    per line. *)
Fixpoint _line_sequences2string_sequences (s : te_store)
  (line_sequences : list (list entry)) : te_store * result (list line_acc) :=
  match line_sequences with
  | [] => (s, Ok [])
  | line_sequence :: rest =>
      match extract_line s empty_acc line_sequence with
      | (s, Ok a) =>
          match _line_sequences2string_sequences s rest with
          | (s, Ok accs) => (s, Ok (a :: accs))
          | r => r
          end
      | (s, Raise e) => (s, Raise e)
      | (s, OutOfFuel) => (s, OutOfFuel)
      end
  end.

End Extract.

(** The spans listed in a position map, in order. *)
Definition spans_of (d : dict (option handle)) : list handle :=
  omap id (values d).

(** [sum(len(span) for span in position_map)] *)
Definition total_length (s : te_store) (d : dict (option handle)) : Z :=
  foldr (fun h n => len (Unicode (s h)) + n) 0 (spans_of d).

End LineExtractor.

(** ** Example lines *)

(** A store holding the listed objects at handles 0, 1, ... *)
Definition store_of (l : list TextEquivType) : te_store :=
  fun h => nth h l (TextEquiv [] None None).

Definition real (s : string) (c : Q) : TextEquivType :=
  TextEquiv (py s) (Some (Float c)) None.

Definition synthetic (s : string) : TextEquivType :=
  TextEquiv (py s) (Some (Float 1)) (Some (-1)).

(** The sequence of a line whose elements are the handles [0 .. n-1], with
    Word references equal to the handles and TextLine 0. *)
Definition line_of (n : nat) : list EditDistributor.entry :=
  map (fun h => (h, Some h, Some 0%nat)) (seq 0 n).

(** The identity matrix of size [n]. *)
Definition identity_alignment (n : nat) : list (list Q) :=
  map (fun j => map (fun i => if Nat.eqb i j then 1%Q else 0%Q) (seq 0 n)) (seq 0 n).

Definition BELL : char := 7%N.

(** Extraction, alignment and update of a single line. *)
Definition correct_line (s : te_store) (line_sequence : list EditDistributor.entry)
  (output_line : str) (output_prob : list Q)
  (alignment : list (list Q)) (min_score : Q)
  : te_store * result (list EditDistributor.entry) :=
  match LineExtractor.extract_line BELL ∅ s LineExtractor.empty_acc line_sequence with
  | (s, Ok a) =>
      match path_of alignment (len (LineExtractor.input_line a)) (len output_line)
              min_score with
      | Ok realignment =>
          EditDistributor._update_sequence (LineExtractor.input_line a) output_line
            output_prob realignment (LineExtractor.textequiv_starts a)
            (LineExtractor.word_starts a) (LineExtractor.textline_starts a) s
      | Raise e => (s, Raise e)
      | OutOfFuel => (s, OutOfFuel)
      end
  | (s, Raise e) => (s, Raise e)
  | (s, OutOfFuel) => (s, OutOfFuel)
  end.

(** The contents of the first [n] objects of a store. *)
Definition contents (n : nat) (s : te_store) : list str :=
  map (fun h => Unicode (s h)) (seq 0 n).

(** ** The position maps of a line *)

(** The maps that [_line_sequences2string_sequences] builds for a line
    sequence [es], written out as functions of the store: the element at
    offset [i] is followed by the next one at [i + len(element)]. *)
Module Layout.

Import EditDistributor.

Definition content (s : te_store) (e : entry) : str := Unicode (s e.1.1).

Definition handles (es : list entry) : list handle := map (fun e => e.1.1) es.

Fixpoint starts (s : te_store) (i : Z) (es : list entry) : list Z :=
  match es with
  | [] => []
  | e :: es' => i :: starts s (i + len (content s e)) es'
  end.

(** The offsets at which the elements end; [starts] shifted by one. *)
Fixpoint ends (s : te_store) (i : Z) (es : list entry) : list Z :=
  match es with
  | [] => []
  | e :: es' => (i + len (content s e)) :: ends s (i + len (content s e)) es'
  end.

Definition line_string (s : te_store) (es : list entry) : str :=
  concat (map (content s) es).

Definition textequiv_map (s : te_store) (es : list entry) : dict (option handle) :=
  zip (starts s 0 es) (map (fun e : entry => Some e.1.1) es).

Definition word_map (s : te_store) (es : list entry) : dict (option handle) :=
  zip (starts s 0 es) (map (fun e : entry => e.1.2) es).

Definition textline_map (s : te_store) (es : list entry) : dict (option handle) :=
  zip (starts s 0 es) (map (fun e : entry => e.2) es).

(** Sum of the lengths of the contents of a sequence. *)
Definition seq_length (s : te_store) (es : list entry) : Z :=
  foldr (fun e n => len (content s e) + n) 0 es.

(** The three maps answer for every element of [es], laid out from offset
    [k]. *)
Fixpoint covers (tes wds tls : dict (option handle)) (s : te_store) (k : Z)
  (es : list entry) : Prop :=
  match es with
  | [] => True
  | e :: es' =>
      dict_get tes k = Ok (Some e.1.1)
      /\ dict_get wds k = Ok e.1.2
      /\ dict_get tls k = Ok e.2
      /\ covers tes wds tls s (k + len (content s e)) es'
  end.

(** No element of the sequence is empty. *)
Definition nonempty_contents (s : te_store) (es : list entry) : Prop :=
  forall e, e ∈ es -> content s e <> [].

(** What [_update_sequence] needs of a path: it starts at 0, does not
    decrease and stays within the output line. *)
Definition valid_path (j_max : Z) (path : gmap Z Z) : Prop :=
  path !! 0 = Some 0
  /\ Aligner.monotone path
  /\ forall k v, path !! k = Some v -> 0 <= v <= j_max.

(** The two halves of the length property for a line with the sequence
    [es] and the extraction result [a], [s] being the store after the
    extraction: the elements add up to the input line; and after a
    successful [_update_sequence], run while the elements still hold their
    extracted contents, they add up to the output line. *)
Definition lengths_agree (s : te_store) (es : list entry)
  (input_line : str) (tes wds tls : dict (option handle)) : Prop :=
  LineExtractor.total_length s tes = len input_line
  /\ forall s1 output_line output_prob path s' seq,
       (forall h, h ∈ handles es -> Unicode (s1 h) = Unicode (s h)) ->
       NoDup (handles es) ->
       valid_path (len output_line) path ->
       _update_sequence input_line output_line output_prob path tes wds tls s1
         = (s', Ok seq) ->
       LineExtractor.total_length s' tes = len output_line.

End Layout.

Module Redistribution.

Import EditDistributor.

(** What a redistribution does, whatever the branch: it moves [lj' - lj]
    characters onto the last element of [sequence], lowers [j] to [j'], and
    leaves an [output] of length [j' - lj']. *)
Definition redistributed (sequence : list entry) (s : te_store) (lj j : Z)
  (r : te_store * Z * Z * str) : Prop :=
  let '(s', lj', j', output') := r in
  lj <= lj' /\ lj' <= j' /\ j' <= j /\ len output' = j' - lj'
  /\ match last sequence with
     | Some (hp, _, _) =>
         len (Unicode (s' hp)) = len (Unicode (s hp)) + (lj' - lj)
         /\ index (s' hp) = index (s hp)
         /\ forall h', h' <> hp -> s' h' = s h'
     | None => lj' = lj /\ forall h', s' h' = s h'
     end.

End Redistribution.

(** ** Checks on the outcome of a line *)

Module Checks.

Import EditDistributor.

Definition starts_with_whitespace (u : str) : bool :=
  match u with c :: _ => is_space c | [] => false end.

Definition ends_with_whitespace (u : str) : bool :=
  match last u with Some c => is_space c | None => false end.

(** Whitespace purity of one object: content with a non-whitespace
    character only in a persisted object, and no persisted object starting
    or ending with whitespace. *)
Definition whitespace_pure (t : TextEquivType) : bool :=
  (negb (has_token (Unicode t)) || negb (is_synthetic t))
  && (is_synthetic t
      || negb (starts_with_whitespace (Unicode t))
         && negb (ends_with_whitespace (Unicode t))).

(** Every object of the position map holds exactly the slice of the input
    line between its offset and the next one. *)
Fixpoint mismatch_free (input_line : str) (s : te_store) (d : dict (option handle))
  : bool :=
  match d with
  | (k, Some h) :: (((k', _) :: _) as d') =>
      str_eqb (Unicode (s h)) (py_slice input_line k k')
      && mismatch_free input_line s d'
  | _ => true
  end.

Definition is_raise {A} (r : result A) : bool :=
  match r with Raise _ => true | _ => false end.

End Checks.

(** ** More example lines *)

Definition LF : string := String "010" "".

(** Word "ab" and the line end; the model answers " ab" and aligns each
    output position one to the right of its input position. *)
Definition store_ab : te_store := store_of [real "ab" (1 # 2); synthetic LF].
Definition shifted_alignment : list (list Q) :=
  [[0; 0; 0]; [1; 0; 0]; [0; 1; 0]; [0; 0; 1]]%Q.

(** Words "the" and "cat" with confidence 1/2; the model answers the same
    line with probability 9/10 for every character. *)
Definition store_the_cat : te_store :=
  store_of [real "the" (1 # 2); synthetic " "; real "cat" (1 # 2); synthetic LF].

(** A word " a" (with a leading space) after the word "x". *)
Definition store_x_a : te_store :=
  store_of [real "x" (1 # 2); synthetic " "; real " a" (1 # 2); synthetic LF].

(** A word without text (an OCR rejection) and the line end. *)
Definition store_rejected : te_store := store_of [real "" (1 # 2); synthetic LF].

(** Word "a" and the line end; the model answers "a b" without a line
    end. *)
Definition store_a : te_store := store_of [real "a" (1 # 2); synthetic LF].
Definition alignment_a_b : list (list Q) := [[1; 0]; [0; 0]; [0; 1]]%Q.

(** ** Alignments that are effectively the identity *)

(** The scores on the diagonal of the [n] by [n] square are above the
    threshold, and no other score of the square is. *)
Definition effectively_identity (alignment : list (list Q)) (n : Z) (min_score : Q)
  : bool :=
  forallb (fun j =>
    forallb (fun i =>
      match Aligner.alignment_at alignment j i with
      | Ok a => Bool.eqb (Qgtb a min_score) (i =? j)
      | _ => false
      end) (seqZ 0 n)) (seqZ 0 n).

(** The forward pass has filled the first [k] cells of the diagonal, with
    positive scores, and no other cell. *)
Definition diag_filled (n k : Z) (v : Aligner.ndarray (score:=Q)) : Prop :=
  Aligner.shaped n n v
  /\ (forall i, 0 <= i < k -> Qgtb (Aligner.cell 0%Q v i i) 0 = true)
  /\ (forall i j, i <> j \/ k <= i -> Aligner.cells v !! (i, j) = None).

(** ** Lines that an identical correction leaves alone *)

Module Unchanged.

Import EditDistributor Layout.

(** The element is a single space or newline, or it neither starts with a
    space nor ends with a space or newline. *)
Definition clean_edges (s : te_store) (e : entry) : bool :=
  in_sp_nl (content s e)
  || negb (startswith_space (content s e)) && negb (endswith_sp_nl (content s e)).

Definition filled (s : te_store) (e : entry) : bool := nonempty (content s e).

(** [np.mean(prob or [1.0])] for [prob = output_prob[a:b]] *)
Definition mean_prob (output_prob : list Q) (a b : Z) : pyfloat :=
  let prob := py_slice output_prob a b in
  np_mean (if nonempty prob then prob else [1%Q]).

(** Every element of [es], laid out from offset [k] with the contents of
    [s0], has in [s] the mean of the probabilities over its range as its
    confidence. *)
Fixpoint mean_confidences (output_prob : list Q) (s0 s : te_store) (k : Z)
  (es : list entry) : Prop :=
  match es with
  | [] => True
  | e :: es' =>
      let k' := k + len (content s0 e) in
      conf (s e.1.1) = Some (mean_prob output_prob k k')
      /\ mean_confidences output_prob s0 s k' es'
  end.

End Unchanged.

(** ** The PAGE hierarchy *)

Module Page.

Import EditDistributor.

(** The dict with keys x, y, w and h that [xywh_from_points] returns. *)
Record xywh : Type := XYWH { box_x : Q; box_y : Q; box_w : Q; box_h : Q }.

(** The parts of the generateDS classes that the functions use.  [Coords]
    is kept as its [points] string; lists hold references. *)
Record GlyphType : Type := Glyph {
  glyph_id : str;
  glyph_points : str;
  glyph_TextEquiv : list handle
}.

Record WordType : Type := Word {
  word_id : str;
  word_points : str;
  word_language : option str;
  word_TextStyle : option handle;
  word_Glyph : list handle;
  word_TextEquiv : list handle
}.

Record TextLineType : Type := TextLine {
  line_id : str;
  line_Word : list handle;
  line_TextEquiv : list handle
}.

Record TextRegionType : Type := TextRegion {
  region_id : str;
  region_TextLine : list handle;
  region_TextEquiv : list handle
}.

(** The objects of a page.  [te_next] and [word_next] are the handles that
    the next [TextEquivType(...)] and [WordType(...)] will get. *)
Record heap : Type := Heap {
  tes : te_store;
  te_next : handle;
  words : handle -> WordType;
  word_next : handle;
  glyphs : handle -> GlyphType;
  lines : handle -> TextLineType;
  regions : handle -> TextRegionType
}.

Definition with_tes (h : heap) (s : te_store) : heap :=
  Heap s (te_next h) (words h) (word_next h) (glyphs h) (lines h) (regions h).

(** [TextEquivType(Unicode=..., conf=...)] *)
Definition new_TextEquiv (h : heap) (t : TextEquivType) : heap * handle :=
  (Heap (upd (tes h) (te_next h) t) (S (te_next h)) (words h) (word_next h)
     (glyphs h) (lines h) (regions h),
   te_next h).

(** [WordType(id=...)] followed by its setters *)
Definition new_Word (h : heap) (w : WordType) : heap * handle :=
  (Heap (tes h) (te_next h) (upd (words h) (word_next h) w) (S (word_next h))
     (glyphs h) (lines h) (regions h),
   word_next h).

Definition set_word_TextEquiv (h : heap) (w : handle) (l : list handle) : heap :=
  let o := words h w in
  Heap (tes h) (te_next h)
    (upd (words h) w
       (Word (word_id o) (word_points o) (word_language o) (word_TextStyle o)
          (word_Glyph o) l))
    (word_next h) (glyphs h) (lines h) (regions h).

Definition set_line_Word (h : heap) (l : handle) (ws : list handle) : heap :=
  let o := lines h l in
  Heap (tes h) (te_next h) (words h) (word_next h) (glyphs h)
    (upd (lines h) l (TextLine (line_id o) ws (line_TextEquiv o))) (regions h).

Definition set_line_TextEquiv (h : heap) (l : handle) (ts : list handle) : heap :=
  let o := lines h l in
  Heap (tes h) (te_next h) (words h) (word_next h) (glyphs h)
    (upd (lines h) l (TextLine (line_id o) (line_Word o) ts)) (regions h).

Definition set_region_TextEquiv (h : heap) (r : handle) (ts : list handle) : heap :=
  let o := regions h r in
  Heap (tes h) (te_next h) (words h) (word_next h) (glyphs h) (lines h)
    (upd (regions h) r (TextRegion (region_id o) (region_TextLine o) ts)).

(** Truth values of a confidence ([None] and [0.0] are false) and of a
    string attribute ([None] and [''] are false). *)
Definition truthy_conf (c : option pyfloat) : bool :=
  match c with
  | Some (Float q) => negb (Qeq_bool q 0)
  | Some NaN => true
  | None => false
  end.

Definition truthy_str (o : option str) : bool :=
  match o with Some (_ :: _) => true | _ => false end.

Definition mul_float (a b : pyfloat) : pyfloat :=
  match a, b with
  | Float x, Float y => Float (Qred (x * y))
  | _, _ => NaN
  end.

(** [a * b] for two attribute values; [None] has no product. *)
Definition mul_conf (a b : option pyfloat) : result (option pyfloat) :=
  match a, b with
  | Some x, Some y => Ok (Some (mul_float x y))
  | _, _ => Raise TypeError
  end.

(** The handle of a reference that may be [None], for an attribute
    access. *)
Definition deref (o : option handle) : result handle :=
  match o with Some x => Ok x | None => Raise AttributeError end.

Inductive Level : Type := glyph | word | line | region.

Definition level_eqb (a b : Level) : bool :=
  match a, b with
  | glyph, glyph | word, word | line, line | region, region => true
  | _, _ => false
  end.

(** *** The Resegmenter *)

Section Resegmenter.
(** [xywh_from_points] and [points_from_xywh] are functions of
    [ocrd_utils]; [textequiv_eq] and [glyph_eq] are the [==] that the
    generated classes of [ocrd_models] define. *)
Variable xywh_from_points : str -> xywh.
Variable points_from_xywh : xywh -> str.
Variable textequiv_eq : heap -> handle -> handle -> bool.
Variable glyph_eq : heap -> handle -> handle -> bool.

Definition copy_language (o : option str) : option str :=
  if truthy_str o then o else None.

Definition _merge_words (h : heap) (prev_ next_ : handle) : result (heap * handle) :=
  let p := words h prev_ in
  let n := words h next_ in
  let merged :=
    Word (word_id p ++ py "." ++ word_id n)
      (points_from_xywh (xywh_from_points (word_points p ++ py " " ++ word_points n)))
      (copy_language (word_language p))
      (word_TextStyle p)
      (if nonempty (word_Glyph p) || nonempty (word_Glyph n)
       then word_Glyph p ++ word_Glyph n else [])
      [] in
  let '(h, textequivs) :=
    if nonempty (word_TextEquiv p) then (h, word_TextEquiv p)
    else let '(h, t) := new_TextEquiv h (TextEquiv [] (Some (Float 1)) None) in (h, [t]) in
  do h <-
    (if nonempty (word_TextEquiv n) then
       do textequiv <- py_index textequivs 0;
       do textequiv2 <- py_index (word_TextEquiv n) 0;
       let s := set_Unicode (tes h) textequiv
                  (Unicode (tes h textequiv) ++ Unicode (tes h textequiv2)) in
       if truthy_conf (conf (s textequiv)) && truthy_conf (conf (s textequiv2)) then
         do c <- mul_conf (conf (s textequiv)) (conf (s textequiv2));
         Ok (with_tes h (set_conf s textequiv c))
       else Ok (with_tes h s)
     else Ok h);
  Ok (new_Word h
        (Word (word_id merged) (word_points merged) (word_language merged)
           (word_TextStyle merged) (word_Glyph merged) textequivs)).

(** [glyphs.index(glyph)] *)
Fixpoint glyph_index (h : heap) (g : handle) (k : Z) (l : list handle) : result Z :=
  match l with
  | [] => Raise ValueError
  | g' :: l' => if Nat.eqb g' g || glyph_eq h g' g then Ok k
                else glyph_index h g (k + 1) l'
  end.

Definition _split_word_at_glyph (h : heap) (w g : handle)
  : result (heap * handle * handle) :=
  let o := words h w in
  let xywh_glyph := xywh_from_points (glyph_points (glyphs h g)) in
  let xywh_word := xywh_from_points (word_points o) in
  let xywh_prev :=
    XYWH (box_x xywh_word) (box_y xywh_word)
      (box_x xywh_glyph - box_x xywh_word) (box_h xywh_word) in
  let xywh_next :=
    XYWH (box_x xywh_glyph - box_w xywh_glyph) (box_y xywh_word)
      (box_w xywh_word - box_w xywh_prev) (box_h xywh_word) in
  do pos <- glyph_index h g 0 (word_Glyph o);
  let '(h, prev_) :=
    new_Word h (Word (word_id o ++ py "_l") (points_from_xywh xywh_prev)
                  (copy_language (word_language o)) (word_TextStyle o)
                  (py_slice (word_Glyph o) 0 pos) []) in
  let '(h, next_) :=
    new_Word h (Word (word_id o ++ py "_r") (points_from_xywh xywh_next)
                  (copy_language (word_language o)) (word_TextStyle o)
                  (py_slice (word_Glyph o) (pos + 1) (len (word_Glyph o))) []) in
  Ok (h, prev_, next_).

(** [pos / len(textequiv.Unicode)] *)
Definition fraction (pos n : Z) : Q := (inject_Z pos / inject_Z n)%Q.

Definition _split_word_at_space (h : heap) (w : handle)
  : result (heap * handle * handle) :=
  let o := words h w in
  let xywh := xywh_from_points (word_points o) in
  do textequiv <- py_index (word_TextEquiv o) 0;
  let u := Unicode (tes h textequiv) in
  do pos <- str_index SPACE u;
  let fract := fraction pos (len u) in
  let xywh_prev :=
    XYWH (box_x xywh) (box_y xywh) (box_w xywh * fract) (box_h xywh) in
  let xywh_next :=
    XYWH (box_x xywh + box_w xywh * fract) (box_y xywh)
      (box_w xywh * (1 - fract)) (box_h xywh) in
  let c := conf (tes h textequiv) in
  let '(h, textequiv_prev) :=
    new_TextEquiv h (TextEquiv (py_slice u 0 pos) c None) in
  let '(h, textequiv_next) :=
    new_TextEquiv h (TextEquiv (py_slice u (pos + 1) (len u)) c None) in
  let '(h, prev_) :=
    new_Word h (Word (word_id o ++ py "_l") (points_from_xywh xywh_prev)
                  (copy_language (word_language o)) (word_TextStyle o)
                  [] [textequiv_prev]) in
  let '(h, next_) :=
    new_Word h (Word (word_id o ++ py "_r") (points_from_xywh xywh_next)
                  (copy_language (word_language o)) (word_TextStyle o)
                  [] [textequiv_next]) in
  Ok (h, prev_, next_).

(** The [while True] that splits a word at every space. *)
Fixpoint split_at_spaces (fuel : nat) (h : heap) (next_ : handle) (parts : list handle)
  : result (heap * list handle) :=
  match fuel with
  | O => OutOfFuel
  | S fuel' =>
      do r <- _split_word_at_space h next_;
      let '(h, prev_, next_) := r in
      do t <- py_index (word_TextEquiv (words h next_)) 0;
      if contains SPACE (Unicode (tes h t))
      then split_at_spaces fuel' h next_ (parts ++ [prev_])
      else Ok (h, parts ++ [prev_; next_])
  end.

(** [next(glyph for glyph in word.get_Glyph()
          if textequiv in glyph.get_TextEquiv())] *)
Definition glyph_of (h : heap) (w t : handle) : result handle :=
  match filter (fun g => existsb (fun t' => Nat.eqb t' t || textequiv_eq h t' t)
                           (glyph_TextEquiv (glyphs h g)) = true)
          (word_Glyph (words h w)) with
  | g :: _ => Ok g
  | [] => Raise StopIteration
  end.

(** The body of the loop of [_resegment_sequence], for the element at
    index [i].  A message that is only logged leaves the heap as it is,
    after the attribute accesses of its arguments. *)
Definition resegment_step (level : Level) (sequence : list entry) (h : heap)
  (i : nat) (e : entry) : result heap :=
  let '(textequiv, word_, textline) := e in
  if is_synthetic (tes h textequiv) then
    if nonempty (Unicode (tes h textequiv)) then Ok h
    else
      (* whitespace was deleted: merge adjacent words *)
      if Nat.eqb i 0 || (Z.of_nat i =? len sequence - 1) then
        do _ <- deref textline; Ok h
      else
        do prev_e <- py_index sequence (Z.of_nat i - 1);
        do next_e <- py_index sequence (Z.of_nat i + 1);
        match prev_e.1.2, next_e.1.2 with
        | Some prev_word, Some next_word =>
            do r <- _merge_words h prev_word next_word;
            let '(h, merged) := r in
            do l <- deref textline;
            Ok (set_line_Word h l
                  (map (fun w => if Nat.eqb w prev_word then merged else w)
                     (filter (fun w => w <> next_word) (line_Word (lines h l)))))
        | _, _ => do _ <- deref textline; Ok h
        end
  else if contains SPACE (Unicode (tes h textequiv)) then
    (* whitespace was introduced: split word *)
    match word_ with
    | None => do _ <- deref textline; Ok h
    | Some w =>
        do r <-
          (if level_eqb level glyph then
             do g <- glyph_of h w textequiv;
             do r <- _split_word_at_glyph h w g;
             let '(h, prev_, next_) := r in Ok (h, [prev_; next_])
           else
             do t <- py_index (word_TextEquiv (words h w)) 0;
             split_at_spaces (S (length (Unicode (tes h t)))) h w []);
        let '(h, parts) := r in
        do l <- deref textline;
        Ok (set_line_Word h l
              (flat_map (fun w' => if Nat.eqb w' w then parts else [w'])
                 (line_Word (lines h l))))
    end
  else Ok h.

Fixpoint resegment_from (level : Level) (sequence : list entry) (h : heap)
  (i : nat) (rest : list entry) : result heap :=
  match rest with
  | [] => Ok h
  | e :: rest' =>
      do h <- resegment_step level sequence h i e;
      resegment_from level sequence h (S i) rest'
  end.

Definition _resegment_sequence (h : heap) (sequence : list entry) (level : Level)
  : result heap :=
  resegment_from level sequence h 0%nat sequence.

End Resegmenter.

End Page.

(** ** The LevelPropagator: [page_update_higher_textequiv_levels] *)

Module LevelPropagator.

Import Page.

(** [np.mean] of a list of confidences as the objects hold them: [nan] for
    no values or with a [nan] among them, a [TypeError] with a [None]. *)
Fixpoint float_sum (l : list (option pyfloat)) : result pyfloat :=
  match l with
  | [] => Ok (Float 0)
  | None :: _ => Raise TypeError
  | Some x :: l' =>
      do y <- float_sum l';
      Ok (match x, y with
          | Float a, Float b => Float (a + b)
          | _, _ => NaN
          end)
  end.

Definition np_mean_conf (l : list (option pyfloat)) : result pyfloat :=
  do total <- float_sum l;
  Ok (match l, total with
      | [], _ => NaN
      | _, Float q => Float (Qred (q / inject_Z (len l)))
      | _, NaN => NaN
      end).

(** [x.get_TextEquiv()[0].Unicode if x.get_TextEquiv() else u''] and
    [x.get_TextEquiv()[0].conf if x.get_TextEquiv() else 1.] *)
Definition first_Unicode (h : heap) (textequivs : list handle) : str :=
  match textequivs with
  | t :: _ => Unicode (tes h t)
  | [] => []
  end.

Definition first_conf (h : heap) (textequivs : list handle) : option pyfloat :=
  match textequivs with
  | t :: _ => conf (tes h t)
  | [] => Some (Float 1)
  end.

Definition word_unicode (h : heap) (w : handle) : str :=
  join [] (map (fun g => first_Unicode h (glyph_TextEquiv (glyphs h g)))
             (word_Glyph (words h w))).

Definition word_conf (h : heap) (w : handle) : result pyfloat :=
  np_mean_conf (map (fun g => first_conf h (glyph_TextEquiv (glyphs h g)))
                  (word_Glyph (words h w))).

Definition line_unicode (h : heap) (l : handle) : str :=
  join [SPACE] (map (fun w => first_Unicode h (word_TextEquiv (words h w)))
                  (line_Word (lines h l))).

Definition line_conf (h : heap) (l : handle) : result pyfloat :=
  np_mean_conf (map (fun w => first_conf h (word_TextEquiv (words h w)))
                  (line_Word (lines h l))).

Definition region_unicode (h : heap) (r : handle) : str :=
  join [NEWLINE] (map (fun l => first_Unicode h (line_TextEquiv (lines h l)))
                    (region_TextLine (regions h r))).

Definition region_conf (h : heap) (r : handle) : result pyfloat :=
  np_mean_conf (map (fun l => first_conf h (line_TextEquiv (lines h l)))
                  (region_TextLine (regions h r))).

(** The body of [for word in words]. *)
Definition update_word (h : heap) (w : handle) : result heap :=
  do c <- word_conf h w;
  let '(h', t) := new_TextEquiv h (TextEquiv (word_unicode h w) (Some c) None) in
  Ok (set_word_TextEquiv h' w [t]).

Fixpoint update_words (h : heap) (ws : list handle) : result heap :=
  match ws with
  | [] => Ok h
  | w :: ws' => do h <- update_word h w; update_words h ws'
  end.

(** [line.set_TextEquiv([TextEquivType(Unicode=line_unicode,
                                         conf=line_conf)])] *)
Definition finish_line (h : heap) (l : handle) : result heap :=
  do c <- line_conf h l;
  let '(h', t) := new_TextEquiv h (TextEquiv (line_unicode h l) (Some c) None) in
  Ok (set_line_TextEquiv h' l [t]).

(** The body of [for line in lines]. *)
Definition update_line (level : Level) (h : heap) (l : handle) : result heap :=
  do h <- (if negb (level_eqb level word)
           then update_words h (line_Word (lines h l)) else Ok h);
  finish_line h l.

Fixpoint update_lines (level : Level) (h : heap) (ls : list handle) : result heap :=
  match ls with
  | [] => Ok h
  | l :: ls' => do h <- update_line level h l; update_lines level h ls'
  end.

(** [region.set_TextEquiv([TextEquivType(Unicode=region_unicode,
                                           conf=region_conf)])] *)
Definition finish_region (h : heap) (r : handle) : result heap :=
  do c <- region_conf h r;
  let '(h', t) := new_TextEquiv h (TextEquiv (region_unicode h r) (Some c) None) in
  Ok (set_region_TextEquiv h' r [t]).

(** The body of [for region in regions]. *)
Definition update_region (level : Level) (h : heap) (r : handle) : result heap :=
  do h <- (if negb (level_eqb level line)
           then update_lines level h (region_TextLine (regions h r)) else Ok h);
  finish_region h r.

Fixpoint update_regions (level : Level) (h : heap) (rs : list handle) : result heap :=
  match rs with
  | [] => Ok h
  | r :: rs' => do h <- update_region level h r; update_regions level h rs'
  end.

(** [regions] is what [get_AllRegions(classes=['Text'],
    order='reading-order')] returns for the page. *)
Definition page_update_higher_textequiv_levels (level : Level) (h : heap)
  (regions : list handle) : result heap :=
  if negb (level_eqb level region) then update_regions level h regions
  else Ok h.

End LevelPropagator.

(** ** Example pages *)

Module Examples.

Import Page.

Definition no_glyph : GlyphType := Glyph [] [] [].
Definition no_word : WordType := Word [] [] None None [] [].
Definition no_line : TextLineType := TextLine [] [] [].
Definition no_region : TextRegionType := TextRegion [] [] [].

(** The bounding box functions are not needed to follow the text; the
    examples use constant ones, and identity as the [==] of objects. *)
Definition any_box (_ : str) : xywh := XYWH 0 0 0 0.
Definition any_points (_ : xywh) : str := [].
Definition same_object (_ : heap) (a b : handle) : bool := Nat.eqb a b.

Definition a_word (id : string) (t : handle) : WordType :=
  Word (py id) [] None None [] [t].

(** The line "a b c" at the word level, after a correction to "abc" has
    emptied both synthetic spaces: TextEquivs 0, 2 and 4 belong to the
    Words 0, 1 and 2 of TextLine 0; 1, 3 and 5 are synthetic. *)
Definition heap_abc : heap :=
  Heap (store_of [real "a" (9 # 10); synthetic ""; real "b" (9 # 10);
                  synthetic ""; real "c" (9 # 10); synthetic LF])
    6%nat
    (fun w => nth w [a_word "wa" 0%nat; a_word "wb" 2%nat; a_word "wc" 4%nat] no_word)
    3%nat
    (fun _ => no_glyph)
    (fun l => TextLine (py "l") [0%nat; 1%nat; 2%nat] [])
    (fun _ => no_region).

Definition sequence_abc : list EditDistributor.entry :=
  [(0%nat, Some 0%nat, Some 0%nat); (1%nat, Some 1%nat, Some 0%nat);
   (2%nat, Some 1%nat, Some 0%nat); (3%nat, Some 2%nat, Some 0%nat);
   (4%nat, Some 2%nat, Some 0%nat); (5%nat, Some 2%nat, Some 0%nat)].

(** The line "can not" after a correction to "cannot". *)
Definition heap_cannot : heap :=
  Heap (store_of [real "can" (9 # 10); synthetic ""; real "not" (8 # 10); synthetic LF])
    4%nat
    (fun w => nth w [a_word "w1" 0%nat; a_word "w2" 2%nat] no_word)
    2%nat
    (fun _ => no_glyph)
    (fun l => TextLine (py "l") [0%nat; 1%nat] [])
    (fun _ => no_region).

Definition sequence_cannot : list EditDistributor.entry :=
  [(0%nat, Some 0%nat, Some 0%nat); (1%nat, Some 1%nat, Some 0%nat);
   (2%nat, Some 1%nat, Some 0%nat); (3%nat, Some 1%nat, Some 0%nat)].

(** The same line with confidence 0.0 on the second word. *)
Definition heap_cannot_zero : heap :=
  Heap (store_of [real "can" (9 # 10); synthetic ""; real "not" 0; synthetic LF])
    4%nat
    (fun w => nth w [a_word "w1" 0%nat; a_word "w2" 2%nat] no_word)
    2%nat
    (fun _ => no_glyph)
    (fun l => TextLine (py "l") [0%nat; 1%nat] [])
    (fun _ => no_region).

(** A word "a lot" with a box of width 100 at the origin. *)
Definition box_100 (_ : str) : xywh := XYWH 0 0 100 20.

Definition heap_a_lot : heap :=
  Heap (store_of [real "a lot" (9 # 10)]) 1%nat
    (fun w => a_word "w" 0%nat) 1%nat
    (fun _ => no_glyph) (fun _ => no_line) (fun _ => no_region).

(** Region 0 with the line 0 of the words "the" (0.9) and "cat" (0.8), and
    the line 1 without words. *)
Definition heap_the_cat : heap :=
  Heap (store_of [real "the" (9 # 10); real "cat" (8 # 10)]) 2%nat
    (fun w => nth w [a_word "w1" 0%nat; a_word "w2" 1%nat] no_word) 2%nat
    (fun _ => no_glyph)
    (fun l => nth l [TextLine (py "l0") [0%nat; 1%nat] []] no_line)
    (fun r => TextRegion (py "r") [0%nat; 1%nat] []).

Definition resegment := _resegment_sequence any_box any_points same_object same_object.

(** The contents of the first TextEquivs of the words of a line. *)
Definition line_words_text (h : heap) (l : handle) : list str :=
  map (fun w => LevelPropagator.first_Unicode h (word_TextEquiv (words h w)))
    (line_Word (lines h l)).

End Examples.

(** ** Consistency of the levels *)

Module Consistency.

Import Page LevelPropagator.

(** Every TextEquiv that a glyph, word, line or region refers to has been
    created: its handle is below [te_next]. *)
Definition created (h : heap) : Prop :=
  (forall g t, t ∈ glyph_TextEquiv (glyphs h g) -> (t < te_next h)%nat)
  /\ (forall w t, t ∈ word_TextEquiv (words h w) -> (t < te_next h)%nat)
  /\ (forall l t, t ∈ line_TextEquiv (lines h l) -> (t < te_next h)%nat)
  /\ (forall r t, t ∈ region_TextEquiv (regions h r) -> (t < te_next h)%nat).

(** The word has exactly one TextEquiv, holding the concatenation of the
    texts of its glyphs and the mean of their confidences. *)
Definition word_done (h : heap) (w : handle) : Prop :=
  exists t c,
    word_TextEquiv (words h w) = [t]
    /\ word_conf h w = Ok c
    /\ tes h t = TextEquiv (word_unicode h w) (Some c) None.

(** The line has exactly one TextEquiv, holding the texts of its words
    joined by a space and the mean of their confidences. *)
Definition line_done (h : heap) (l : handle) : Prop :=
  exists t c,
    line_TextEquiv (lines h l) = [t]
    /\ line_conf h l = Ok c
    /\ tes h t = TextEquiv (line_unicode h l) (Some c) None.

(** The region has exactly one TextEquiv, holding the texts of its lines
    joined by a newline and the mean of their confidences. *)
Definition region_done (h : heap) (r : handle) : Prop :=
  exists t c,
    region_TextEquiv (regions h r) = [t]
    /\ region_conf h r = Ok c
    /\ tes h t = TextEquiv (region_unicode h r) (Some c) None.

(** The heap [h'] comes from [h] by creating TextEquivs and putting them
    into words, lines and regions: what existed is unchanged, and so are
    the glyphs and the lists of children. *)
Definition extends (h h' : heap) : Prop :=
  (te_next h <= te_next h')%nat
  /\ (forall t, (t < te_next h)%nat -> tes h' t = tes h t)
  /\ (forall g, glyphs h' g = glyphs h g)
  /\ (forall w, word_Glyph (words h' w) = word_Glyph (words h w))
  /\ (forall l, line_Word (lines h' l) = line_Word (lines h l))
  /\ (forall r, region_TextLine (regions h' r) = region_TextLine (regions h r)).

(** What has been brought up to date so far: the words [dw], the lines
    [dl] and the regions [dr].  Below the word level ([deep]) the words of a
    finished line are finished; below the line level ([lower]) the lines of
    a finished region are. *)
Definition progress (deep lower : bool) (dw dl dr : list handle) (h : heap) : Prop :=
  created h
  /\ (forall w, w ∈ dw -> word_done h w)
  /\ (forall l, l ∈ dl ->
        line_done h l
        /\ (deep = true -> forall w, w ∈ line_Word (lines h l) -> w ∈ dw))
  /\ (forall r, r ∈ dr ->
        region_done h r
        /\ (lower = true -> forall l, l ∈ region_TextLine (regions h r) -> l ∈ dl)).

End Consistency.

(** ** The text that a redistribution moves *)

Module Rewriting.

Import EditDistributor.

(** The outcome of a redistribution in terms of the output line: the
    characters between [lj] and [lj'] have gone onto the last element of
    [sequence], and the segment left for the current element is the slice
    between [lj'] and [j']. *)
Definition moved_text (output_line : str) (sequence : list entry) (s : te_store)
  (lj j : Z) (r : te_store * Z * Z * str) : Prop :=
  let '(s', lj', j', output') := r in
  lj <= lj' /\ lj' <= j' /\ j' <= j
  /\ output' = py_slice output_line lj' j'
  /\ match last sequence with
     | Some (hp, _, _) =>
         s' hp = TextEquiv (Unicode (s hp) ++ py_slice output_line lj lj')
                   (conf (s hp)) (index (s hp))
         /\ forall h', h' <> hp -> s' h' = s h'
     | None => lj' = lj /\ forall h', s' h' = s h'
     end.

(** The outcomes that [_update_sequence] has on the maps of an extracted
    line. *)
Definition line_outcome (r : result (list entry)) : Prop :=
  (exists seq, r = Ok seq)
  \/ r = Raise AssertPathNotAtTop
  \/ r = Raise AssertOutputLost
  \/ r = Raise StopIteration.

End Rewriting.

(** ** The sequences of a page: [_page_get_line_sequences_at] *)

Module Sequencer.

Import EditDistributor Page.

(** [TextEquivType(Unicode=u, conf=1.0, index=-1)] *)
Definition implicit (u : str) : TextEquivType :=
  TextEquiv u (Some (Float 1)) (Some (-1)).

(** The page and the variables of the function that outlive its loops:
    [sequences], [word] and [line]. *)
Record scan : Type := Scan {
  heap_of : heap;
  sequences : list (list entry);
  word_var : option handle;
  line_var : option handle
}.

(** [sequences[-1].append(x)] *)
Fixpoint append_last (sequences : list (list entry)) (x : entry)
  : result (list (list entry)) :=
  match sequences with
  | [] => Raise IndexError
  | [l] => Ok [l ++ [x]]
  | l :: rest => do r <- append_last rest x; Ok (l :: r)
  end.

(** [sequences[-1].append((TextEquivType(Unicode=u, conf=1.0, index=-1),
                           word, line))] *)
Definition append_implicit (u : str) (st : scan) : result scan :=
  let '(h, t) := new_TextEquiv (heap_of st) (implicit u) in
  do seqs <- append_last (sequences st) (t, word_var st, line_var st);
  Ok (Scan h seqs (word_var st) (line_var st)).

(** [sequences[-1].append((textequivs[0], word, line))] *)
Definition append_first (textequivs : list handle) (st : scan) : result scan :=
  do t <- py_index textequivs 0;
  do seqs <- append_last (sequences st) (t, word_var st, line_var st);
  Ok (Scan (heap_of st) seqs (word_var st) (line_var st)).

(** The body of [for glyph in glyphs]. *)
Definition scan_glyph (st : scan) (g : handle) : result scan :=
  let textequivs := glyph_TextEquiv (glyphs (heap_of st) g) in
  if nonempty textequivs then append_first textequivs st else Ok st.

Fixpoint scan_glyphs (st : scan) (gs : list handle) : result scan :=
  match gs with
  | [] => Ok st
  | g :: gs' => do st <- scan_glyph st g; scan_glyphs st gs'
  end.

(** The body of [for word in words]. *)
Definition scan_word (level : Level) (first_word : bool) (st : scan) (w : handle)
  : result scan :=
  let st := Scan (heap_of st) (sequences st) (Some w) (line_var st) in
  do st <- (if first_word then Ok st else append_implicit [SPACE] st);
  if level_eqb level word then
    let textequivs := word_TextEquiv (words (heap_of st) w) in
    if nonempty textequivs then append_first textequivs st else Ok st
  else
    let gs := word_Glyph (words (heap_of st) w) in
    if nonempty gs then scan_glyphs st gs else Ok st.

Fixpoint scan_words (level : Level) (first_word : bool) (st : scan) (ws : list handle)
  : result scan :=
  match ws with
  | [] => Ok st
  | w :: ws' => do st <- scan_word level first_word st w; scan_words level false st ws'
  end.

(** The body of [for line in lines]. *)
Definition scan_line (level : Level) (first_line : bool) (st : scan) (l : handle)
  : result scan :=
  let st := Scan (heap_of st) (sequences st) (word_var st) (Some l) in
  do st <- (if first_line then Ok st else append_implicit [NEWLINE] st);
  let st := Scan (heap_of st) (sequences st ++ [[]]) (word_var st) (line_var st) in
  if level_eqb level line then
    let textequivs := line_TextEquiv (lines (heap_of st) l) in
    if nonempty textequivs then append_first textequivs st else Ok st
  else
    let ws := line_Word (lines (heap_of st) l) in
    if nonempty ws then scan_words level true st ws else Ok st.

Fixpoint scan_lines (level : Level) (first_line : bool) (st : scan) (ls : list handle)
  : result scan :=
  match ls with
  | [] => Ok st
  | l :: ls' => do st <- scan_line level first_line st l; scan_lines level false st ls'
  end.

(** The body of [for region in regions]; it returns [first_region] with
    the variables. *)
Definition scan_region (level : Level) (first_region : bool) (st : scan) (r : handle)
  : result (scan * bool) :=
  let ls := region_TextLine (regions (heap_of st) r) in
  if nonempty ls then
    do st <- (if first_region then Ok st else append_implicit [NEWLINE] st);
    do st <- scan_lines level true st ls;
    Ok (st, false)
  else Ok (st, first_region).

Fixpoint scan_regions (level : Level) (first_region : bool) (st : scan) (rs : list handle)
  : result (scan * bool) :=
  match rs with
  | [] => Ok (st, first_region)
  | r :: rs' =>
      do x <- scan_region level first_region st r;
      scan_regions level (snd x) (fst x) rs'
  end.

(** [regions] is what [get_AllRegions(classes=['Text'],
    order='reading-order')] returns for the page.  The result is the page
    with the objects made for the implicit whitespace, and the lines. *)
Definition _page_get_line_sequences_at (level : Level) (h : heap) (regions : list handle)
  : result (heap * list (list entry)) :=
  do x <- scan_regions level true (Scan h [] None None) regions;
  let st := fst x in
  do st <- (if nonempty (sequences st) then append_implicit [NEWLINE] st else Ok st);
  Ok (heap_of st, filter (fun line : list entry => 1 < len line) (sequences st)).

(** *** What the lines are made of *)

(** [x.get_TextEquiv()[0]] where there is one *)
Definition first_of (textequivs : list handle) : list handle :=
  match textequivs with t :: _ => [t] | [] => [] end.

(** The text results of a word, a line and a page at the level, in reading
    order. *)
Definition word_elements (level : Level) (h : heap) (w : handle) : list handle :=
  if level_eqb level word then first_of (word_TextEquiv (words h w))
  else flat_map (fun g => first_of (glyph_TextEquiv (glyphs h g)))
         (word_Glyph (words h w)).

Definition line_elements (level : Level) (h : heap) (l : handle) : list handle :=
  if level_eqb level line then first_of (line_TextEquiv (lines h l))
  else flat_map (word_elements level h) (line_Word (lines h l)).

Definition page_elements (level : Level) (h : heap) (rs : list handle) : list handle :=
  flat_map (fun r => flat_map (line_elements level h) (region_TextLine (regions h r))) rs.

(** The element refers to the Word and the TextLine that hold its
    TextEquiv: at the line level to no Word and to the TextLine whose first
    TextEquiv it is, at the word level to the Word whose first TextEquiv
    it is, below to the Word with the Glyph whose first TextEquiv it is. *)
Definition placed (level : Level) (h : heap) (e : entry) : Prop :=
  match level with
  | line =>
      e.1.2 = None
      /\ exists l, e.2 = Some l /\ first_of (line_TextEquiv (lines h l)) = [e.1.1]
  | word =>
      exists w l, e.1.2 = Some w /\ e.2 = Some l
        /\ w ∈ line_Word (lines h l)
        /\ first_of (word_TextEquiv (words h w)) = [e.1.1]
  | _ =>
      exists g w l, e.1.2 = Some w /\ e.2 = Some l
        /\ w ∈ line_Word (lines h l)
        /\ g ∈ word_Glyph (words h w)
        /\ first_of (glyph_TextEquiv (glyphs h g)) = [e.1.1]
  end.

(** The page [h] comes from [h0] by making TextEquiv objects: what existed
    is as it was. *)
Definition grown (h0 h : heap) : Prop :=
  (te_next h0 <= te_next h)%nat
  /\ (forall t, (t < te_next h0)%nat -> tes h t = tes h0 t)
  /\ words h = words h0 /\ word_next h = word_next h0
  /\ glyphs h = glyphs h0 /\ lines h = lines h0 /\ regions h = regions h0.

(** An element of a line: an object of the page [h0] in its place, or an
    object made since, for an implicit space or newline. *)
Definition existing (h0 : heap) (t : handle) : Prop := (t < te_next h0)%nat.

Definition made (h0 h : heap) (u : str) (e : entry) : Prop :=
  (te_next h0 <= e.1.1 < te_next h)%nat /\ tes h e.1.1 = implicit u.

Definition inner (level : Level) (h0 h : heap) (e : entry) : Prop :=
  (existing h0 e.1.1 /\ placed level h0 e) \/ made h0 h [SPACE] e.

(** A line that has got its newline. *)
Definition closed_line (level : Level) (h0 h : heap) (line : list entry) : Prop :=
  exists body nl,
    line = body ++ [nl]
    /\ made h0 h [NEWLINE] nl
    /\ forall e, e ∈ body -> inner level h0 h e.

(** The state of [sequences]: every line but the last is closed, and the
    last is closed too or, where [open] holds, still waits for its
    newline. *)
Definition shaped (level : Level) (h0 h : heap) (open : bool)
  (sequences : list (list entry)) : Prop :=
  if open then
    exists init cur,
      sequences = init ++ [cur]
      /\ (forall line, line ∈ init -> closed_line level h0 h line)
      /\ forall e, e ∈ cur -> inner level h0 h e
  else forall line, line ∈ sequences -> closed_line level h0 h line.

Definition all_handles (sequences : list (list entry)) : list handle :=
  flat_map Layout.handles sequences.

(** What the loops keep: [done] lists the objects of the page put into
    the lines so far. *)
Definition invariant (level : Level) (h0 : heap) (open : bool) (done : list handle)
  (st : scan) : Prop :=
  grown h0 (heap_of st)
  /\ shaped level h0 (heap_of st) open (sequences st)
  /\ filter (fun t : handle => (t < te_next h0)%nat) (all_handles (sequences st)) = done
  /\ NoDup (filter (fun t : handle => (te_next h0 <= t)%nat) (all_handles (sequences st)))
  /\ (forall t, t ∈ all_handles (sequences st) -> (t < te_next (heap_of st))%nat)
  /\ (level = line -> word_var st = None
                      /\ forall seq e, seq ∈ sequences st -> e ∈ seq -> e.1.2 = None).

End Sequencer.

(** ** The result of an extraction, read off the store *)

Module Extracted.

Import EditDistributor Layout LineExtractor.

(** The confidences of the characters of a line: that of each element,
    once for every character of the element. *)
Definition conf_string (s : te_store) (es : list entry) : list pyfloat :=
  flat_map (fun e : entry =>
              replicate (length (content s e)) (conf_or_one (conf (s e.1.1)))) es.

(** What [_line_sequences2string_sequences] returns for the sequence [es],
    in terms of the store that it leaves. *)
Definition acc_of (s : te_store) (es : list entry) : line_acc :=
  LineAcc (len (line_string s es)) (line_string s es) (conf_string s es)
    (textequiv_map s es) (word_map s es) (textline_map s es).

End Extracted.

(** ** Elements that [_update_sequence] has committed *)

Module Committing.

Import EditDistributor Layout.

(** The element holds in [s] the content that it has in [sl]: with [sl]
    the store that the position maps were laid out from, its slice of the
    input line. *)
Definition holds_source (sl s : te_store) (e : entry) : bool :=
  str_eqb (Unicode (s e.1.1)) (content sl e).

(** The confidence of the element is [np.mean(prob or [1.0])] for a slice
    [prob = output_prob[a:b]] within the output line. *)
Definition committed (output_line : str) (output_prob : list Q) (s : te_store)
  (e : entry) : Prop :=
  exists a b, 0 <= a /\ a <= b /\ b <= len output_line
    /\ conf (s e.1.1) = Some (Unchanged.mean_prob output_prob a b).

End Committing.

(** * Properties of the embedding *)

Lemma norm_index_in n k : 0 <= k < n -> norm_index n k = Some k.
Proof.
  intros [H0 H1]. unfold norm_index.
  destruct (Z.leb_spec 0 k); [|lia]. destruct (Z.ltb_spec k n); [done|lia].
Qed.

Lemma norm_index_wrap n k : -1 <= k < n -> 1 <= n ->
  exists k', norm_index n k = Some k' /\ 0 <= k' < n.
Proof.
  intros Hk Hn. destruct (Z.eq_dec k (-1)) as [->|].
  - exists (n - 1). split; [|lia]. unfold norm_index. simpl.
    destruct (Z.leb_spec 0 (-1 + n)); [f_equal; lia|lia].
  - exists k. split; [apply norm_index_in|]; lia.
Qed.

Lemma py_index_in {A} (l : list A) k :
  0 <= k < Z.of_nat (length l) -> exists x, py_index l k = Ok x.
Proof.
  intros Hk. unfold py_index. rewrite norm_index_in by done.
  destruct (l !! Z.to_nat k) as [x|] eqn:E; [eauto|].
  apply lookup_ge_None in E. lia.
Qed.

#[local] Arguments Aligner.cells_fuel : simpl never.
#[local] Arguments Aligner.path_fuel : simpl never.

Section AlignerFacts.
Context {score : Type}.
Variable zero : score.
Variable add : score -> score -> score.
Variable f32 : score -> score.
Variable gtb : score -> score -> bool.
Variable alignment : list (list score).
Variable i_max j_max : Z.
Variable min_score : score.
Hypothesis Hi : 1 <= i_max.
Hypothesis Hj : 1 <= j_max.
Hypothesis Hsized : Aligner.well_sized alignment i_max j_max = true.

Local Abbreviation ndarray := (@Aligner.ndarray score).
Local Abbreviation nd_get := (Aligner.nd_get zero).
Local Abbreviation nd_set := (Aligner.nd_set f32).
Local Abbreviation alignment_at := (Aligner.alignment_at alignment).
Local Abbreviation bump := (Aligner.bump i_max j_max).
Local Abbreviation advance := (Aligner.advance gtb alignment i_max j_max min_score).
Local Abbreviation forward := (Aligner.forward zero add f32 gtb alignment i_max j_max min_score).
Local Abbreviation backward := (Aligner.backward zero gtb).
Local Abbreviation start_i := (Aligner.start_i zero gtb i_max j_max).
Local Abbreviation start_j := (Aligner.start_j zero gtb i_max j_max).
Local Abbreviation cells_fuel := (Aligner.cells_fuel i_max j_max).
Local Abbreviation path_fuel := (Aligner.path_fuel i_max j_max).
Local Abbreviation shaped := (Aligner.shaped (score:=score) i_max j_max).
Local Abbreviation rank := (Aligner.rank i_max).
Local Abbreviation in_rect := (Aligner.in_rect i_max j_max).
Local Abbreviation monotone := Aligner.monotone.
Local Abbreviation path_inv := (Aligner.path_inv i_max j_max).

Lemma alignment_at_ok i j :
  0 <= i < i_max -> 0 <= j < j_max -> exists a, alignment_at j i = Ok a.
Proof.
  intros Hi' Hj'. unfold Aligner.alignment_at.
  unfold Aligner.well_sized in Hsized.
  apply andb_true_iff in Hsized as [Hlen Hrows].
  apply Z.leb_le in Hlen.
  destruct (py_index_in alignment j) as [row Hrow]; [lia|].
  rewrite Hrow. simpl.
  apply py_index_in.
  unfold py_index in Hrow. rewrite norm_index_in in Hrow by lia.
  destruct (alignment !! Z.to_nat j) as [row'|] eqn:E; [|done].
  injection Hrow as ->.
  rewrite forallb_forall in Hrows.
  assert (Hin : In row (take (Z.to_nat j_max) alignment)).
  { apply list_elem_of_In, list_elem_of_lookup. exists (Z.to_nat j).
    rewrite lookup_take_lt by lia. done. }
  apply Hrows in Hin. apply Z.leb_le in Hin. lia.
Qed.

Lemma nd_get_ok (v : ndarray) i j :
  shaped v -> -1 <= i < i_max -> -1 <= j < j_max -> exists x, nd_get v i j = Ok x.
Proof.
  intros [H0 H1] Hi' Hj'. unfold Aligner.nd_get. rewrite H0, H1.
  destruct (norm_index_wrap i_max i) as (i' & -> & _); [lia..|].
  destruct (norm_index_wrap j_max j) as (j' & -> & _); [lia..|].
  eauto.
Qed.

Lemma nd_set_ok (v : ndarray) i j x :
  shaped v -> 0 <= i < i_max -> 0 <= j < j_max ->
  exists v', nd_set v i j x = Ok v' /\ shaped v'
    /\ Aligner.cells v' = <[(i, j) := f32 x]> (Aligner.cells v).
Proof.
  intros [H0 H1] Hi' Hj'. unfold Aligner.nd_set. rewrite H0, H1.
  rewrite !norm_index_in by lia. eexists. split; [done|]. split; [|done].
  split; done.
Qed.

Lemma rank_in_rect i j : in_rect i j -> 0 <= rank i j < i_max * j_max.
Proof. unfold in_rect, rank. nia. Qed.

Lemma bump_spec i j :
  in_rect i j ->
  match bump i j with
  | (i', j', true) => i' = i_max /\ j' = j_max
  | (i', j', false) => in_rect i' j'
  end /\ rank i j < rank (bump i j).1.1 (bump i j).1.2.
Proof.
  unfold in_rect, rank, Aligner.bump. intros [Hi' Hj'].
  destruct (Z.eqb_spec (i + 1) i_max) as [E|E].
  - destruct (Z.eqb_spec (j + 1) j_max) as [E'|E']; simpl; split; try nia.
  - simpl. split; nia.
Qed.

Lemma advance_progress fuel : forall i j,
  in_rect i j ->
  (Z.to_nat (i_max * j_max - rank i j) <= fuel)%nat ->
  exists i' j', advance fuel i j = Ok (i', j')
    /\ rank i j < rank i' j'
    /\ (in_rect i' j' \/ (i' = i_max /\ j' = j_max)).
Proof.
  induction fuel as [|fuel IH]; intros i j Hin Hfuel.
  - pose proof (rank_in_rect _ _ Hin). lia.
  - simpl. pose proof (bump_spec i j Hin) as [Hb Hr].
    destruct (bump i j) as [[i' j'] stop]. simpl in Hr.
    destruct stop.
    + exists i', j'. split; [done|]. split; [done|]. by right.
    + destruct (alignment_at_ok i' j') as [a Ha]; [apply Hb..|].
      rewrite Ha. simpl. destruct (gtb a min_score).
      * exists i', j'. split; [done|]. split; [done|]. by left.
      * destruct (IH i' j' Hb) as (i2 & j2 & Hadv & Hr2 & Hin2).
        { pose proof (rank_in_rect _ _ Hb). pose proof (rank_in_rect _ _ Hin). lia. }
        exists i2, j2. split; [done|]. split; [lia|done].
Qed.

Lemma forward_S fuel (v : ndarray) i j :
  forward (S fuel) v i j =
  if (i <? i_max) && (j <? j_max) then
    do im1 <- (if 0 <? i then nd_get v (i - 1) j else Ok zero);
    do jm1 <- (if 0 <? j then nd_get v i (j - 1) else Ok zero);
    do ijm1 <- (if (0 <? i) && (0 <? j) then nd_get v (i - 1) (j - 1)
                else Ok zero);
    do a <- alignment_at j i;
    do v' <- nd_set v i j (add a (Aligner.max3 gtb im1 jm1 ijm1));
    do ij <- advance cells_fuel i j;
    forward fuel v' (fst ij) (snd ij)
  else Ok v.
Proof. reflexivity. Qed.

Lemma forward_done fuel (v : ndarray) :
  forward fuel v i_max j_max = Ok v.
Proof. destruct fuel; simpl; rewrite Z.ltb_irrefl; reflexivity. Qed.

Lemma forward_ok fuel : forall (v : ndarray) i j,
  shaped v ->
  in_rect i j \/ (i = i_max /\ j = j_max) ->
  (Z.to_nat (i_max * j_max - rank i j) <= fuel)%nat ->
  exists v', forward fuel v i j = Ok v' /\ shaped v'.
Proof.
  induction fuel as [|fuel IH]; intros v i j Hv Hin Hfuel.
  - destruct Hin as [Hin|[-> ->]].
    + pose proof (rank_in_rect _ _ Hin). lia.
    + rewrite forward_done. eauto.
  - destruct Hin as [Hin|[-> ->]].
    2:{ rewrite forward_done. eauto. }
    pose proof Hin as [Hi' Hj'].
    rewrite forward_S.
    destruct (Z.ltb_spec i i_max); [|lia]. destruct (Z.ltb_spec j j_max); [|lia].
    cbn [andb].
    assert (exists x, (if 0 <? i then nd_get v (i - 1) j else Ok zero) = Ok x) as [im1 ->].
    { destruct (0 <? i); [apply nd_get_ok; [done|lia..]|eauto]. }
    cbn [bind].
    assert (exists x, (if 0 <? j then nd_get v i (j - 1) else Ok zero) = Ok x) as [jm1 ->].
    { destruct (0 <? j); [apply nd_get_ok; [done|lia..]|eauto]. }
    cbn [bind].
    assert (exists x, (if (0 <? i) && (0 <? j) then nd_get v (i - 1) (j - 1) else Ok zero) = Ok x)
      as [ijm1 ->].
    { destruct ((0 <? i) && (0 <? j)); [apply nd_get_ok; [done|lia..]|eauto]. }
    cbn [bind].
    destruct (alignment_at_ok i j) as [a ->]; [done..|].
    cbn [bind].
    destruct (nd_set_ok v i j (add a (Aligner.max3 gtb im1 jm1 ijm1)) Hv) as (v' & -> & Hv' & _);
      [done..|].
    cbn [bind].
    destruct (advance_progress cells_fuel i j Hin) as (i' & j' & -> & Hr & Hin').
    { unfold Aligner.cells_fuel. pose proof (rank_in_rect _ _ Hin). lia. }
    cbn [bind fst snd]. apply IH; [done|done|].
    destruct Hin' as [Hin'|[-> ->]].
    + pose proof (rank_in_rect _ _ Hin'). pose proof (rank_in_rect _ _ Hin). lia.
    + unfold rank. pose proof (rank_in_rect _ _ Hin). unfold rank in *. nia.
Qed.

Lemma argmax_from_bounds (l : list score) : forall best bi k,
  0 <= bi < k ->
  0 <= Aligner.argmax_from gtb best bi k l < k + Z.of_nat (length l).
Proof.
  induction l as [|x l IH]; intros best bi k Hb; simpl.
  - lia.
  - destruct (gtb x best).
    + specialize (IH x k (k + 1)). lia.
    + specialize (IH best bi (k + 1)). lia.
Qed.

Lemma np_argmax_bounds (l : list score) :
  (0 < length l)%nat ->
  exists k, Aligner.np_argmax gtb l = Ok k /\ 0 <= k < Z.of_nat (length l).
Proof.
  destruct l as [|x l]; simpl; [lia|]. intros _.
  eexists. split; [done|].
  pose proof (argmax_from_bounds l x 0 1). lia.
Qed.

Lemma start_i_ok (v : ndarray) :
  shaped v -> exists i, start_i v = Ok i /\ -1 <= i < i_max.
Proof.
  intros [H0 H1]. unfold Aligner.start_i.
  destruct (Z.leb_spec i_max j_max).
  - exists (i_max - 1). split; [done|lia].
  - unfold Aligner.nd_col_from. rewrite H0, H1.
    rewrite norm_index_in by lia. cbn [bind].
    set (st := slice_bound i_max (j_max - i_max - 2)).
    assert (Hst : st = Z.max 0 (j_max - 2)).
    { unfold st, slice_bound. destruct (Z.ltb_spec (j_max - i_max - 2) 0); lia. }
    match goal with |- context [Aligner.np_argmax gtb ?l] =>
      destruct (np_argmax_bounds l) as (k & -> & Hk) end.
    { rewrite length_map, length_seqZ. lia. }
    rewrite length_map, length_seqZ in Hk.
    cbn [bind]. eexists. split; [done|]. lia.
Qed.

Lemma start_j_ok (v : ndarray) :
  shaped v -> exists j, start_j v = Ok j /\ -1 <= j < j_max.
Proof.
  intros [H0 H1]. unfold Aligner.start_j.
  destruct (Z.leb_spec j_max i_max).
  - exists (j_max - 1). split; [done|lia].
  - unfold Aligner.nd_row_from. rewrite H0, H1.
    rewrite norm_index_in by lia. cbn [bind].
    set (st := slice_bound j_max (i_max - j_max - 2)).
    assert (Hst : st = Z.max 0 (i_max - 2)).
    { unfold st, slice_bound. destruct (Z.ltb_spec (i_max - j_max - 2) 0); lia. }
    match goal with |- context [Aligner.np_argmax gtb ?l] =>
      destruct (np_argmax_bounds l) as (k & -> & Hk) end.
    { rewrite length_map, length_seqZ. lia. }
    rewrite length_map, length_seqZ in Hk.
    cbn [bind]. eexists. split; [done|]. lia.
Qed.

Lemma path_inv_init i j : path_inv i j {[ i_max := j_max ]}.
Proof.
  split; [apply lookup_singleton_eq|]. split.
  - intros k x Hk. apply lookup_singleton_Some in Hk as [<- <-]. by left.
  - intros k1 x1 k2 x2 H1 H2. apply lookup_singleton_Some in H1 as [<- <-].
    apply lookup_singleton_Some in H2 as [<- <-]. lia.
Qed.

Lemma path_inv_weaken i j i' j' m :
  i' <= i -> j' <= j -> path_inv i j m -> path_inv i' j' m.
Proof.
  intros Hi' Hj' (Htop & Hb & Hm). split; [done|]. split; [|done].
  intros k x Hk. destruct (Hb k x Hk) as [?|?]; [by left|right; lia].
Qed.

Lemma path_inv_insert i j m :
  0 <= i < i_max -> 0 <= j < j_max -> path_inv i j m -> path_inv i j (<[i := j]> m).
Proof.
  intros Hi' Hj' (Htop & Hb & Hm). split; [|split].
  - rewrite lookup_insert_ne by lia. done.
  - intros k x Hk. apply lookup_insert_Some in Hk as [[<- <-]|[Hne Hk]].
    + right. lia.
    + by apply Hb.
  - intros k1 x1 k2 x2 H1 H2 Hlt.
    apply lookup_insert_Some in H1 as [[<- <-]|[Hne1 H1]];
      apply lookup_insert_Some in H2 as [[<- <-]|[Hne2 H2]].
    + lia.
    + destruct (Hb _ _ H2); lia.
    + destruct (Hb _ _ H1); lia.
    + by eapply Hm.
Qed.

Lemma backward_S fuel (v : ndarray) i j (m : gmap Z Z) :
  0 <= i -> 0 <= j ->
  backward (S fuel) v i j m =
    do up <- nd_get v (i - 1) j;
    do lft <- nd_get v i (j - 1);
    do diag <- nd_get v (i - 1) (j - 1);
    if gtb up lft then
      if gtb up diag then backward fuel v (i - 1) j (<[i := j]> m)
      else backward fuel v (i - 1) (j - 1) (<[i := j]> m)
    else
      if gtb lft diag then backward fuel v i (j - 1) (<[i := j]> m)
      else backward fuel v (i - 1) (j - 1) (<[i := j]> m).
Proof.
  intros Hi' Hj'. simpl.
  destruct (Z.leb_spec 0 i); [|lia]. destruct (Z.leb_spec 0 j); [|lia]. cbn [andb].
  destruct (nd_get v (i - 1) j); [|done..]. cbn [bind].
  destruct (nd_get v i (j - 1)); [|done..]. cbn [bind].
  destruct (gtb a a0); reflexivity.
Qed.

Lemma backward_stop fuel (v : ndarray) i j (m : gmap Z Z) :
  i < 0 \/ j < 0 -> backward fuel v i j m = Ok m.
Proof.
  intros H. destruct fuel; simpl;
    destruct (Z.leb_spec 0 i); destruct (Z.leb_spec 0 j); try reflexivity; lia.
Qed.

Lemma backward_spec fuel : forall (v : ndarray) i j m,
  shaped v -> -1 <= i < i_max -> -1 <= j < j_max ->
  (Z.to_nat (i + j + 2) <= fuel)%nat ->
  path_inv i j m ->
  exists m', backward fuel v i j m = Ok m' /\ path_inv (-1) (-1) m'.
Proof.
  induction fuel as [|fuel IH]; intros v i j m Hv Hi' Hj' Hfuel Hinv.
  - assert (i < 0 \/ j < 0) as Hneg by lia.
    rewrite backward_stop by done. exists m. split; [done|].
    eapply path_inv_weaken; [| |done]; lia.
  - destruct (Z_lt_le_dec i 0) as [Hn|Hp].
    { rewrite backward_stop by lia. exists m. split; [done|].
      eapply path_inv_weaken; [| |done]; lia. }
    destruct (Z_lt_le_dec j 0) as [Hn'|Hp'].
    { rewrite backward_stop by lia. exists m. split; [done|].
      eapply path_inv_weaken; [| |done]; lia. }
    rewrite backward_S by done.
    destruct (nd_get_ok v (i - 1) j) as [up ->]; [done|lia..|].
    destruct (nd_get_ok v i (j - 1)) as [lft ->]; [done|lia..|].
    destruct (nd_get_ok v (i - 1) (j - 1)) as [diag ->]; [done|lia..|].
    cbn [bind].
    assert (Hins : path_inv i j (<[i := j]> m)) by (apply path_inv_insert; [lia..|done]).
    destruct (gtb up lft); [destruct (gtb up diag)|destruct (gtb lft diag)];
      (apply IH; [done|lia|lia|lia|]; eapply path_inv_weaken; [| |exact Hins]; lia).
Qed.

Lemma path_inv_start m :
  path_inv (-1) (-1) m ->
  let p := <[0 := 0]> m in
  p !! 0 = Some 0 /\ p !! i_max = Some j_max /\ monotone p.
Proof.
  intros (Htop & Hb & Hm) p. split; [apply lookup_insert_eq|]. split.
  - unfold p. rewrite lookup_insert_ne by lia. done.
  - intros k1 x1 k2 x2 H1 H2 Hlt.
    apply lookup_insert_Some in H1 as [[<- <-]|[Hne1 H1]];
      apply lookup_insert_Some in H2 as [[<- <-]|[Hne2 H2]].
    + lia.
    + destruct (Hb _ _ H2); lia.
    + destruct (Hb _ _ H1); lia.
    + by eapply Hm.
Qed.

Lemma alignment2path_run :
  exists v i j m,
    Aligner.np_zeros (score:=score) i_max j_max = Ok (Aligner.NdArray i_max j_max ∅)
    /\ forward cells_fuel (Aligner.NdArray i_max j_max ∅) 0 0 = Ok v
    /\ start_i v = Ok i /\ start_j v = Ok j
    /\ backward path_fuel v i j {[ i_max := j_max ]} = Ok m
    /\ path_inv (-1) (-1) m
    /\ Aligner._alignment2path zero add f32 gtb alignment i_max j_max min_score
       = Ok (<[0 := 0]> m).
Proof.
  assert (Hz : Aligner.np_zeros (score:=score) i_max j_max = Ok (Aligner.NdArray i_max j_max ∅)).
  { unfold Aligner.np_zeros. destruct (Z.ltb_spec i_max 0); [lia|].
    destruct (Z.ltb_spec j_max 0); [lia|]. done. }
  destruct (forward_ok cells_fuel (Aligner.NdArray i_max j_max ∅) 0 0) as (v & Hfw & Hv).
  { split; done. }
  { left. split; lia. }
  { unfold Aligner.cells_fuel, rank. lia. }
  destruct (start_i_ok v Hv) as (i & Hsi & Hi').
  destruct (start_j_ok v Hv) as (j & Hsj & Hj').
  destruct (backward_spec path_fuel v i j {[ i_max := j_max ]}) as (m & Hbw & Hinv);
    [done..| |apply path_inv_init|].
  { unfold Aligner.path_fuel. lia. }
  exists v, i, j, m. do 6 (split; [done|]).
  unfold Aligner._alignment2path. rewrite Hz. cbn [bind].
  rewrite Hfw. cbn [bind]. rewrite Hsi. cbn [bind]. rewrite Hsj. cbn [bind].
  rewrite Hbw. done.
Qed.

Lemma backward_step fuel (v : ndarray) i j (m : gmap Z Z) :
  shaped v -> in_rect i j ->
  exists i' j', i - 1 <= i' <= i /\ j - 1 <= j' <= j /\ i' + j' < i + j
    /\ backward (S fuel) v i j m = backward fuel v i' j' (<[i := j]> m).
Proof.
  intros Hv [Hi' Hj']. rewrite backward_S by lia.
  destruct (nd_get_ok v (i - 1) j) as [up ->]; [done|lia..|].
  destruct (nd_get_ok v i (j - 1)) as [lft ->]; [done|lia..|].
  destruct (nd_get_ok v (i - 1) (j - 1)) as [diag ->]; [done|lia..|].
  cbn [bind].
  destruct (gtb up lft); [destruct (gtb up diag)|destruct (gtb lft diag)].
  - exists (i - 1), j. repeat split; lia || done.
  - exists (i - 1), (j - 1). repeat split; lia || done.
  - exists i, (j - 1). repeat split; lia || done.
  - exists (i - 1), (j - 1). repeat split; lia || done.
Qed.

(** The returned path is one that [_update_sequence] can walk: it starts
    at 0, does not decrease and stays within the output line. *)
Lemma alignment2path_valid_path :
  exists path,
    Aligner._alignment2path zero add f32 gtb alignment i_max j_max min_score = Ok path
    /\ Layout.valid_path j_max path.
Proof.
  destruct alignment2path_run as (v & i & j & m & _ & _ & _ & _ & _ & Hinv & Hrun).
  destruct (path_inv_start m Hinv) as (H0 & Htop & Hmono).
  exists (<[0 := 0]> m). split; [done|]. split; [done|]. split; [done|].
  intros k x Hk. destruct Hinv as (_ & Hb & _).
  apply lookup_insert_Some in Hk as [[<- <-]|[_ Hk]]; [lia|].
  destruct (Hb _ _ Hk); lia.
Qed.

(** C1: for a matrix that covers the [i_max] by [j_max] rectangle, with both
    lengths at least 1, [_alignment2path] returns a mapping that has the
    entries [0 -> 0] and [i_max -> j_max] and is non-decreasing: of two keys
    the smaller one has the smaller or equal value. *)
Theorem alignment2path_endpoints_monotone :
  exists path,
    Aligner._alignment2path zero add f32 gtb alignment i_max j_max min_score = Ok path
    /\ path !! 0 = Some 0
    /\ path !! i_max = Some j_max
    /\ (forall i1 i2 j1 j2,
          i1 < i2 -> path !! i1 = Some j1 -> path !! i2 = Some j2 -> j1 <= j2).
Proof.
  destruct alignment2path_run as (v & i & j & m & _ & _ & _ & _ & _ & Hinv & Hrun).
  destruct (path_inv_start m Hinv) as (H0 & Htop & Hmono).
  exists (<[0 := 0]> m). split; [done|]. split; [done|]. split; [done|].
  intros i1 i2 j1 j2 Hlt H1 H2. by eapply Hmono.
Qed.

(** C5: [_alignment2path] terminates with a path.  The inner loop of the
    forward sweep moves the cursor to a cell of strictly larger row-major
    rank, inside the rectangle or to the exit position [(i_max, j_max)];
    every turn of the backward walk lowers [i + j]; and both loops finish
    within the fuel the function allots, so the call returns a mapping. *)
Theorem alignment2path_terminates :
  (forall i j, in_rect i j ->
     exists i' j', advance cells_fuel i j = Ok (i', j')
       /\ rank i j < rank i' j'
       /\ (in_rect i' j' \/ (i' = i_max /\ j' = j_max)))
  /\ (forall fuel (v : ndarray) i j m, shaped v -> in_rect i j ->
        exists i' j', i' + j' < i + j
          /\ backward (S fuel) v i j m = backward fuel v i' j' (<[i := j]> m))
  /\ (exists v i j m,
        forward cells_fuel (Aligner.NdArray i_max j_max ∅) 0 0 = Ok v
        /\ start_i v = Ok i /\ start_j v = Ok j
        /\ backward path_fuel v i j {[ i_max := j_max ]} = Ok m)
  /\ exists path,
       Aligner._alignment2path zero add f32 gtb alignment i_max j_max min_score = Ok path.
Proof.
  split; [|split; [|split]].
  - intros i j Hin. apply advance_progress; [done|].
    unfold Aligner.cells_fuel. pose proof (rank_in_rect _ _ Hin). lia.
  - intros fuel v i j m Hv Hin.
    destruct (backward_step fuel v i j m Hv Hin) as (i' & j' & _ & _ & Hlt & Heq).
    by exists i', j'.
  - destruct alignment2path_run as (v & i & j & m & _ & Hfw & Hsi & Hsj & Hbw & _).
    by exists v, i, j, m.
  - destruct alignment2path_run as (v & i & j & m & _ & _ & _ & _ & _ & _ & Hrun).
    by eexists.
Qed.

End AlignerFacts.

Lemma alignment2path_endpoints_monotone_witness :
  exists path,
    path_of identity2 2 2 (1 # 10) = Ok path
    /\ path !! 0 = Some 0
    /\ path !! 2 = Some 2
    /\ (forall i1 i2 j1 j2,
          i1 < i2 -> path !! i1 = Some j1 -> path !! i2 = Some j2 -> j1 <= j2).
Proof.
  apply (alignment2path_endpoints_monotone 0%Q Qplus (fun x => x) Qgtb identity2 2 2 (1 # 10));
    [lia | lia | reflexivity].
Defined.

Lemma alignment2path_terminates_witness :
  exists path, path_of identity2 2 2 (1 # 10) = Ok path.
Proof.
  apply (alignment2path_terminates 0%Q Qplus (fun x => x) Qgtb identity2 2 2 (1 # 10));
    [lia | lia | reflexivity].
Defined.

(** ** Slices and string tests *)

Lemma slice_bound_in n k : 0 <= k <= n -> slice_bound n k = k.
Proof. intros H. unfold slice_bound. destruct (Z.ltb_spec k 0); lia. Qed.

Lemma py_slice_in {A} (l : list A) a b :
  0 <= a -> a <= b -> b <= len l ->
  py_slice l a b = take (Z.to_nat (b - a)) (drop (Z.to_nat a) l).
Proof.
  intros. unfold py_slice. rewrite !slice_bound_in by lia. done.
Qed.

Lemma len_py_slice {A} (l : list A) a b :
  0 <= a -> a <= b -> b <= len l -> len (py_slice l a b) = b - a.
Proof.
  intros. rewrite py_slice_in by done. unfold len in *.
  rewrite length_take, length_drop. lia.
Qed.

Lemma len_app {A} (a b : list A) : len (a ++ b) = len a + len b.
Proof. unfold len. rewrite length_app. lia. Qed.

Lemma len_nonneg {A} (l : list A) : 0 <= len l.
Proof. unfold len. lia. Qed.

Lemma py_slice_app_mid {A} (a b c : list A) :
  py_slice (a ++ b ++ c) (len a) (len a + len b) = b.
Proof.
  pose proof (len_nonneg a). pose proof (len_nonneg b). pose proof (len_nonneg c).
  rewrite py_slice_in; [|lia|lia|rewrite !len_app; lia].
  unfold len. rewrite Nat2Z.id, drop_app_length.
  replace (Z.to_nat (_ + _ - _)) with (length b) by lia.
  by rewrite take_app_length.
Qed.

Lemma py_slice_full {A} (l : list A) : py_slice l 0 (len l) = l.
Proof.
  pose proof (len_nonneg l).
  rewrite py_slice_in by lia. simpl. rewrite Z.sub_0_r.
  unfold len. rewrite Nat2Z.id. apply firstn_all.
Qed.

Lemma str_eqb_eq (a b : str) : str_eqb a b = true <-> a = b.
Proof. unfold str_eqb. apply bool_decide_eq_true. Qed.

Lemma last_snoc_eq {A} (l : list A) x : last (l ++ [x]) = Some x.
Proof. apply last_snoc. Qed.

Lemma py_init_snoc {A} (l : list A) x : py_init (l ++ [x]) = l.
Proof.
  unfold py_init, py_slice.
  assert (Hn : len (l ++ [x]) = len l + 1) by (rewrite len_app; done).
  rewrite Hn. pose proof (len_nonneg l) as Hl.
  assert (Hb : slice_bound (len l + 1) (-1) = len l).
  { unfold slice_bound. simpl. lia. }
  assert (Ha : slice_bound (len l + 1) 0 = 0).
  { unfold slice_bound. simpl. lia. }
  rewrite Ha, Hb. rewrite Z.sub_0_r. unfold len. rewrite Nat2Z.id.
  change (Z.to_nat 0) with 0%nat. rewrite drop_0.
  by rewrite take_app_length.
Qed.

Lemma split_on_nonempty sep s : split_on sep s <> [].
Proof.
  destruct s as [|c s]; simpl; [done|].
  destruct (c =? sep)%N; [done|]. destruct (split_on sep s); done.
Qed.

Lemma last_field_len s : len (last_field s) <= len s.
Proof.
  unfold last_field, len.
  enough (length (List.last (split_on SPACE s) []) <= length s)%nat by lia.
  induction s as [|c s IH]; simpl; [lia|].
  destruct (c =? SPACE)%N.
  - pose proof (split_on_nonempty SPACE s).
    destruct (split_on SPACE s) as [|t ts] eqn:E; [done|]. simpl in *. lia.
  - destruct (split_on SPACE s) as [|t ts] eqn:E; simpl in *; [lia|].
    destruct ts; simpl in *; lia.
Qed.

Lemma split_ws_from_nil cur s :
  split_ws_from cur s = [] <-> cur = [] /\ forallb is_space s = true.
Proof.
  revert cur. induction s as [|c s IH]; intros cur; simpl.
  - destruct cur; split; intros; try done. by destruct H.
  - destruct (is_space c); simpl.
    + destruct cur; [apply IH|]. split; [done|]. by intros [? _].
    + rewrite IH. split; [by intros [? _]|by intros [_ ?]].
Qed.

(** [s.split()] is empty exactly when [s] is made of whitespace only. *)
Lemma has_token_false s : has_token s = false <-> forallb is_space s = true.
Proof.
  unfold has_token, split_ws.
  destruct (split_ws_from [] s) eqn:E.
  - apply split_ws_from_nil in E as [_ E]. done.
  - split; [done|]. intros H.
    assert (split_ws_from [] s = []) by (apply split_ws_from_nil; done).
    congruence.
Qed.

Lemma forallb_false_witness {A} (f : A -> bool) (l : list A) :
  forallb f l = false -> exists x, x ∈ l /\ f x = false.
Proof.
  induction l as [|x l IH]; simpl; [done|].
  destruct (f x) eqn:E; simpl.
  - intros H. destruct (IH H) as (y & Hy & Hf). exists y. split; [by right|done].
  - intros _. exists x. split; [by left|done].
Qed.

Lemma has_token_true s : has_token s = true <-> exists c, c ∈ s /\ is_space c = false.
Proof.
  destruct (has_token s) eqn:E.
  - split; [intros _|done].
    destruct (forallb is_space s) eqn:F.
    + apply has_token_false in F. congruence.
    + by apply forallb_false_witness.
  - split; [done|]. intros (c & Hin & Hc). apply has_token_false in E.
    rewrite forallb_forall in E. apply list_elem_of_In, E in Hin. congruence.
Qed.

(** ** Redistribution in [_update_sequence] *)

Section EditDistributorFacts.
Import EditDistributor Layout Redistribution.

Lemma upd_same {A} (s : handle -> A) h x : upd s h x h = x.
Proof. unfold upd. by rewrite Nat.eqb_refl. Qed.

Lemma upd_other {A} (s : handle -> A) h x h' : h' <> h -> upd s h x h' = s h'.
Proof. intros H. unfold upd. by apply Nat.eqb_neq in H as ->. Qed.

Lemma shift_left_spec cond h : forall output s lj,
  exists moved rest s',
    shift_left cond h s lj output = (s', lj + len moved, rest)
    /\ output = moved ++ rest
    /\ s' h = TextEquiv (Unicode (s h) ++ moved) (conf (s h)) (index (s h))
    /\ (forall h', h' <> h -> s' h' = s h')
    /\ (rest = [] \/ cond rest = false).
Proof.
  induction output as [|c output IH]; intros s lj.
  - exists [], [], s. simpl. rewrite Z.add_0_r, app_nil_r.
    repeat split; [by destruct (s h)|by left].
  - simpl. destruct (cond (c :: output)) eqn:E.
    + destruct (IH (set_Unicode s h (Unicode (s h) ++ [c])) (lj + 1))
        as (moved & rest & s' & Heq & Hout & Hh & Hother & Hstop).
      exists (c :: moved), rest, s'.
      rewrite Heq. split.
      { f_equal. f_equal. unfold len. simpl length. lia. }
      split; [by rewrite Hout|]. split.
      { rewrite Hh. unfold set_Unicode. rewrite upd_same. simpl.
        by rewrite <- app_assoc. }
      split; [|done].
      intros h' Hne. rewrite Hother by done. unfold set_Unicode. by rewrite upd_other.
    + exists [], (c :: output), s. rewrite Z.add_0_r, app_nil_r.
      repeat split; [by destruct (s h)|by right].
Qed.

Lemma snoc_cases {A} (l : list A) : l = [] \/ exists l' x, l = l' ++ [x].
Proof.
  induction l as [|y l IH] using rev_ind; [by left|right; eauto].
Qed.

Lemma strip_right_spec fuel : forall j output j' output',
  strip_right fuel j output = (j', output') ->
  exists d, j' = j - d /\ len output' = len output - d /\ 0 <= d
    /\ exists tail, output = output' ++ tail.
Proof.
  induction fuel as [|fuel IH]; intros j output j' output' H; simpl in H.
  - injection H as <- <-. exists 0.
    split; [lia|]. split; [lia|]. split; [lia|]. exists []. by rewrite app_nil_r.
  - destruct (endswith_sp_nl output) eqn:E.
    + destruct (snoc_cases output) as [->|(l & x & ->)]; [done|].
      rewrite py_init_snoc in H.
      destruct (IH _ _ _ _ H) as (d & -> & Hlen & Hd & tail & ->).
      exists (d + 1). rewrite !len_app in *. change (len [x]) with 1.
      split; [lia|]. split; [lia|]. split; [lia|].
      exists (tail ++ [x]). by rewrite app_assoc.
    + injection H as <- <-. exists 0.
      split; [lia|]. split; [lia|]. split; [lia|]. exists []. by rewrite app_nil_r.
Qed.

Lemma cond_shift_spec (b : bool) cond hp s lj output s1 lj1 out1 :
  (if b then shift_left cond hp s lj output else (s, lj, output)) = (s1, lj1, out1) ->
  exists m,
    lj1 = lj + len m /\ output = m ++ out1
    /\ s1 hp = TextEquiv (Unicode (s hp) ++ m) (conf (s hp)) (index (s hp))
    /\ (forall h', h' <> hp -> s1 h' = s h').
Proof.
  destruct b.
  - destruct (shift_left_spec cond hp output s lj) as (m & r & s' & -> & ? & ? & ? & _).
    intros [= <- <- <-]. by exists m.
  - intros [= <- <- <-]. exists []. rewrite Z.add_0_r, app_nil_r.
    repeat split. by destruct (s hp).
Qed.

Lemma cut_right_spec (b : bool) output_line lj j output j1 out2 :
  0 <= lj -> j <= len output_line -> len output = j - lj ->
  (if b
   then (j - len (last_field output), py_slice output_line lj (j - len (last_field output)))
   else (j, output)) = (j1, out2) ->
  lj <= j1 <= j /\ len out2 = j1 - lj.
Proof.
  intros Hlj Hj Hlen. pose proof (len_nonneg output).
  pose proof (last_field_len output). pose proof (len_nonneg (last_field output)).
  destruct b; intros [= <- <-].
  - split; [lia|]. apply len_py_slice; lia.
  - split; [lia|done].
Qed.

Lemma redistribute_space_spec output_line s sequence lj j output :
  0 <= lj -> j <= len output_line -> len output = j - lj ->
  redistributed sequence s lj j (redistribute_space output_line s sequence lj j output).
Proof.
  intros Hlj Hj Hlen. unfold redistribute_space, redistributed.
  destruct (last sequence) as [[[hp w] l]|] eqn:Elast.
  - (* a previous element exists *)
    match goal with |- context [if lhs_cond output then ?a else ?b] =>
      destruct (if lhs_cond output then a else b) as [[s1 lj1] out1] eqn:E1 end.
    apply cond_shift_spec in E1 as (m1 & -> & Ho1 & Hh1 & Hoth1).
    pose proof (len_nonneg m1) as Hm1.
    assert (Hl1 : len out1 = j - (lj + len m1)).
    { rewrite Ho1, len_app in Hlen. lia. }
    match goal with |- context [if ?c then ?a else (j, out1)] =>
      destruct (if c then a else (j, out1)) as [j1 out2] eqn:E2 end.
    apply cut_right_spec in E2 as [Hj1 Hl2]; [|lia|done|done].
    match goal with |- context [if has_token out2 then ?a else ?b] =>
      destruct (if has_token out2 then a else b) as [[s3 lj3] out3] eqn:E3 end.
    apply cond_shift_spec in E3 as (m3 & -> & Ho3 & Hh3 & Hoth3).
    pose proof (len_nonneg m3) as Hm3. pose proof (len_nonneg out3) as Hout3.
    rewrite Ho3, len_app in Hl2.
    split; [lia|]. split; [lia|]. split; [lia|]. split; [lia|].
    rewrite Hh3, Hh1. simpl. rewrite !len_app. split; [lia|]. split; [done|].
    intros h' Hne. rewrite Hoth3, Hoth1; done.
  - (* no previous element *)
    cbv beta iota zeta.
    match goal with |- context [if ?c then ?a else ?b] =>
      destruct (if c then a else b) as [j1 out2] eqn:E2 end.
    apply cut_right_spec in E2 as [Hj1 Hl2]; [|lia|done|done].
    cbv beta iota zeta.
    split; [lia|]. split; [lia|]. split; [lia|]. split; [lia|]. split; [lia|done].
Qed.

Lemma redistribute_other_spec input_line s sequence i lj j output r :
  len output = j - lj ->
  redistribute_other input_line s sequence i lj j output = Ok r ->
  redistributed sequence s lj j r.
Proof.
  intros Hlen. unfold redistribute_other, redistributed.
  pose proof (len_nonneg output) as Hpos.
  match goal with |- context [match last sequence with Some x => @?a x | None => ?b end] =>
    destruct (match last sequence with Some x => a x | None => b end)
      as [[s1 lj1] out1] eqn:E1 end.
  assert (exists m1,
    lj1 = lj + len m1 /\ output = m1 ++ out1
    /\ match last sequence with
       | Some (hp, _, _) =>
           s1 hp = TextEquiv (Unicode (s hp) ++ m1) (conf (s hp)) (index (s hp))
           /\ forall h', h' <> hp -> s1 h' = s h'
       | None => m1 = [] /\ forall h', s1 h' = s h'
       end) as (m1 & -> & Ho1 & Hst).
  { destruct (last sequence) as [[[hp w] l]|].
    - apply cond_shift_spec in E1 as (m & ? & ? & ? & ?). by exists m.
    - injection E1 as <- <- <-. exists []. rewrite Z.add_0_r. done. }
  pose proof (len_nonneg m1) as Hm1. pose proof (len_nonneg out1) as Hout1.
  assert (Hl1 : len out1 = j - (lj + len m1)).
  { rewrite Ho1, len_app in Hlen. lia. }
  destruct (if endswith_sp_nl out1 && (i <? i_max input_line)
            then do c <- py_index input_line i; Ok (is_sp_nl c)
            else Ok false) as [next_is_space| |]; cbn [bind]; [|done..].
  match goal with |- context [if next_is_space then ?a else ?b] =>
    destruct (if next_is_space then a else b) as [j1 out2] eqn:E2 end.
  assert (j1 <= j /\ len out2 = len out1 - (j - j1) /\ 0 <= len out2)
    as (Hj1 & Hl2 & Hpos2).
  { pose proof (len_nonneg out2). destruct next_is_space.
    - apply strip_right_spec in E2 as (d & -> & ? & ? & _). repeat split; lia.
    - injection E2 as <- <-. repeat split; lia. }
  intros [= <-].
  split; [lia|]. split; [lia|]. split; [lia|]. split; [lia|].
  destruct (last sequence) as [[[hp w] l]|].
  - destruct Hst as [Hh Hoth]. rewrite Hh. simpl. rewrite len_app.
    split; [lia|]. split; done.
  - destruct Hst as [-> Hoth]. change (len []) with 0. split; [lia|done].
Qed.

(** ** Lengths along [_update_sequence] *)

Lemma seq_length_nonneg_any s es : 0 <= seq_length s es.
Proof.
  unfold seq_length. induction es as [|e es IH]; simpl; [lia|].
  pose proof (len_nonneg (content s e)). lia.
Qed.

Lemma seq_length_app s a b : seq_length s (a ++ b) = seq_length s a + seq_length s b.
Proof. unfold seq_length. induction a as [|e a IH]; simpl; [done|]. rewrite IH. lia. Qed.

Lemma seq_length_ext s s' es :
  (forall h, h ∈ handles es -> Unicode (s' h) = Unicode (s h)) ->
  seq_length s' es = seq_length s es.
Proof.
  unfold seq_length, handles, content. induction es as [|e es IH]; simpl; intros H; [done|].
  rewrite IH, H; [done|by left|]. intros h Hh. apply H. by right.
Qed.

Lemma seq_length_grow s s' seq hp w l d :
  last seq = Some (hp, w, l) -> NoDup (handles seq) ->
  (forall h', h' <> hp -> s' h' = s h') ->
  len (Unicode (s' hp)) = len (Unicode (s hp)) + d ->
  seq_length s' seq = seq_length s seq + d.
Proof.
  intros Hlast Hnd Hoth Hlen.
  apply last_Some in Hlast as [seq0 ->].
  unfold handles in Hnd. rewrite map_app in Hnd. simpl in Hnd.
  apply NoDup_app in Hnd as (_ & Hdisj & _).
  rewrite !seq_length_app.
  rewrite (seq_length_ext s s' seq0).
  - unfold seq_length, content. simpl. lia.
  - intros h Hh. rewrite Hoth; [done|]. intros ->. apply (Hdisj hp Hh). by left.
Qed.

Lemma redistributed_seq_length seq s lj j s1 lj1 j1 out1 :
  NoDup (handles seq) ->
  redistributed seq s lj j (s1, lj1, j1, out1) ->
  seq_length s1 seq = seq_length s seq + (lj1 - lj)
  /\ (forall h', h' ∉ handles seq -> s1 h' = s h').
Proof.
  intros Hnd (_ & _ & _ & _ & Hst).
  destruct (last seq) as [[[hp w] l]|] eqn:Elast.
  - destruct Hst as (Hlen & _ & Hoth). split.
    + by eapply seq_length_grow.
    + intros h' Hh'. apply Hoth. intros ->. apply Hh'.
      apply last_Some in Elast as [seq0 ->]. unfold handles. rewrite map_app.
      apply elem_of_app. right. by left.
  - destruct Hst as [-> Hoth]. split; [|by intros].
    rewrite (seq_length_ext s s1); [lia|]. intros h _. by rewrite Hoth.
Qed.

(** ** The layout of the position maps *)

Lemma len_line_string s es : len (line_string s es) = seq_length s es.
Proof.
  unfold line_string, seq_length. induction es as [|e es IH]; simpl; [done|].
  rewrite len_app, IH. done.
Qed.

Lemma starts_ends s es : forall k,
  starts s k es ++ [k + seq_length s es] = k :: ends s k es.
Proof.
  induction es as [|e es IH]; intros k; simpl.
  - by rewrite Z.add_0_r.
  - f_equal. rewrite <- IH. do 2 f_equal. unfold seq_length. simpl. lia.
Qed.

Lemma len_pos {A} (l : list A) : l <> [] -> 1 <= len l.
Proof. destruct l; [done|]. unfold len. simpl. lia. Qed.

Lemma starts_range s es : forall k key,
  nonempty_contents s es -> key ∈ starts s k es -> k <= key < k + seq_length s es.
Proof.
  induction es as [|e es IH]; intros k key Hne Hin; simpl in Hin.
  - by apply elem_of_nil in Hin.
  - assert (1 <= len (content s e)) by (apply len_pos, Hne; by left).
    pose proof (seq_length_nonneg_any s es) as Hpos.
    unfold seq_length. simpl. fold (seq_length s es).
    apply elem_of_cons in Hin as [->|Hin]; [lia|].
    apply IH in Hin; [lia|]. intros e' He'. apply Hne. by right.
Qed.

Lemma keys_zip {V} (ks : list Z) (vs : list V) :
  length ks = length vs -> keys (zip ks vs) = ks.
Proof.
  revert vs. induction ks as [|k ks IH]; intros [|v vs] Hlen; simpl in *; try done.
  f_equal. apply IH. lia.
Qed.

Lemma length_starts s es : forall k, length (starts s k es) = length es.
Proof. induction es as [|e es IH]; intros k; simpl; [done|]. by rewrite IH. Qed.

Lemma dict_get_app_miss {V} (pre d : dict V) k :
  (forall key, key ∈ keys pre -> key <> k) -> dict_get (pre ++ d) k = dict_get d k.
Proof.
  induction pre as [|[k' v] pre IH]; intros H; simpl; [done|].
  destruct (Z.eqb_spec k' k) as [->|_].
  - exfalso. apply (H k); [by left|done].
  - apply IH. intros key Hkey. apply H. by right.
Qed.

Lemma dict_has_false {V} (d : dict V) k :
  (forall key, key ∈ keys d -> key <> k) -> dict_has d k = false.
Proof.
  unfold dict_has. induction d as [|[k' v] d IH]; intros H; simpl; [done|].
  destruct (Z.eqb_spec k' k) as [->|_].
  - exfalso. apply (H k); [by left|done].
  - apply IH. intros key Hkey. apply H. by right.
Qed.

Lemma covers_layout s es : forall k (pre_te pre_w pre_l post_te : dict (option handle)),
  nonempty_contents s es ->
  (forall key, key ∈ keys pre_te -> key < k) ->
  (forall key, key ∈ keys pre_w -> key < k) ->
  (forall key, key ∈ keys pre_l -> key < k) ->
  covers
    (pre_te ++ zip (starts s k es) (map (fun e : entry => Some e.1.1) es) ++ post_te)
    (pre_w ++ zip (starts s k es) (map (fun e : entry => e.1.2) es))
    (pre_l ++ zip (starts s k es) (map (fun e : entry => e.2) es))
    s k es.
Proof.
  induction es as [|e es IH]; intros k pre_te pre_w pre_l post_te Hne Hte Hw Hl; [done|].
  assert (1 <= len (content s e)) by (apply len_pos, Hne; by left).
  cbn [covers starts map zip zip_with].
  split; [|split; [|split]].
  - rewrite dict_get_app_miss; [simpl; by rewrite Z.eqb_refl|].
    intros key Hkey ->. apply Hte in Hkey. lia.
  - rewrite dict_get_app_miss; [simpl; by rewrite Z.eqb_refl|].
    intros key Hkey ->. apply Hw in Hkey. lia.
  - rewrite dict_get_app_miss; [simpl; by rewrite Z.eqb_refl|].
    intros key Hkey ->. apply Hl in Hkey. lia.
  - assert (Hsnoc : forall V (pre : dict V) (v : V),
              (forall key, key ∈ keys pre -> key < k) ->
              forall key, key ∈ keys (pre ++ [(k, v)]) -> key < k + len (content s e)).
    { intros V pre v Hpre key Hkey. unfold keys in Hkey. rewrite map_app in Hkey.
      apply elem_of_app in Hkey as [Hkey|Hkey].
      - apply Hpre in Hkey. lia.
      - simpl in Hkey. apply list_elem_of_singleton in Hkey. lia. }
    specialize (IH (k + len (content s e))
                  (pre_te ++ [(k, Some e.1.1)]) (pre_w ++ [(k, e.1.2)])
                  (pre_l ++ [(k, e.2)]) post_te).
    rewrite <- !app_assoc in IH. apply IH.
    + intros e' He'. apply Hne. by right.
    + by apply Hsnoc.
    + by apply Hsnoc.
    + by apply Hsnoc.
Qed.

Section Line.
Variable input_line output_line : str.
Variable output_prob : list Q.
Variable realignment : gmap Z Z.
Variable tes wds tls : dict (option handle).

Local Abbreviation commit := (commit input_line output_line output_prob tes wds tls).
Local Abbreviation step := (step input_line output_line output_prob realignment tes wds tls).
Local Abbreviation loop := (loop input_line output_line output_prob realignment tes wds tls).

Lemma commit_redistributed s seq k lj i j s' j' seq' :
  0 <= lj -> lj <= j -> j <= len output_line ->
  commit s seq k lj i j = (s', Ok (j', seq')) ->
  exists s1 lj1 out1 h w l,
    redistributed seq s lj j (s1, lj1, j', out1)
    /\ dict_get tes k = Ok (Some h)
    /\ dict_get wds k = Ok w /\ dict_get tls k = Ok l
    /\ Unicode (s1 h) = py_slice input_line k i
    /\ seq' = seq ++ [(h, w, l)]
    /\ s' h = TextEquiv out1
              (Some (np_mean (if nonempty (py_slice output_prob lj1 j')
                              then py_slice output_prob lj1 j' else [1%Q])))
              (index (s1 h))
    /\ (forall h', h' <> h -> s' h' = s1 h').
Proof.
  intros Hlj Hle Hj. unfold EditDistributor.commit.
  assert (Hlen : len (py_slice output_line lj j) = j - lj) by (apply len_py_slice; lia).
  destruct (redistribute input_line output_line s seq k lj i j)
    as [[[[s1 lj1] j1] out1]| |] eqn:Er; [|done..].
  assert (Hred : redistributed seq s lj j (s1, lj1, j1, out1)).
  { unfold redistribute in Er. destruct (in_sp_nl (py_slice input_line k i)).
    - injection Er as Er. rewrite <- Er. by apply redistribute_space_spec.
    - by eapply redistribute_other_spec. }
  destruct (dict_get tes k) as [[h|]| |]; [|done..].
  destruct (str_eqb (Unicode (s1 h)) (py_slice input_line k i)) eqn:Eeq; [|done].
  apply str_eqb_eq in Eeq.
  destruct (dict_get wds k) as [w| |]; destruct (dict_get tls k) as [l| |]; try done.
  intros [= <- <- <-].
  exists s1, lj1, out1, h, w, l. do 6 (split; [done|]). split.
  - unfold set_conf, set_Unicode. rewrite !upd_same. done.
  - intros h' Hne. unfold set_conf, set_Unicode. rewrite !upd_other; done.
Qed.

Lemma commit_lengths s seq k lj i j s' j' seq' h :
  0 <= lj -> lj <= j -> j <= len output_line ->
  dict_get tes k = Ok (Some h) ->
  NoDup (handles seq ++ [h]) ->
  commit s seq k lj i j = (s', Ok (j', seq')) ->
  exists w l,
    seq' = seq ++ [(h, w, l)]
    /\ dict_get wds k = Ok w /\ dict_get tls k = Ok l
    /\ lj <= j' /\ j' <= j
    /\ seq_length s' seq' = seq_length s seq + (j' - lj)
    /\ (forall h', h' ∉ handles seq' -> s' h' = s h').
Proof.
  intros Hlj Hle Hj Hk Hnd Hc.
  apply commit_redistributed in Hc
    as (s1 & lj1 & out1 & h0 & w & l & Hred & Hk' & Hw & Hl & _ & -> & Hh & Hoth); [|done..].
  rewrite Hk in Hk'. injection Hk' as <-.
  apply NoDup_app in Hnd as (Hnd & Hdisj & _).
  destruct (redistributed_seq_length _ _ _ _ _ _ _ _ Hnd Hred) as [Hsl Hout].
  destruct Hred as (H1 & H2 & H3 & H4 & _).
  exists w, l. do 3 (split; [done|]). split; [lia|]. split; [done|]. split.
  - rewrite seq_length_app.
    rewrite (seq_length_ext s1 s' seq).
    + unfold seq_length at 2, content. simpl. rewrite Hh. simpl. lia.
    + intros h' Hh'. rewrite Hoth; [done|]. intros ->. apply (Hdisj h Hh'). by left.
  - intros h' Hh'. unfold handles in Hh'. rewrite map_app in Hh'.
    rewrite Hoth.
    + apply Hout. intros Hin. apply Hh'. apply elem_of_app. by left.
    + intros ->. apply Hh'. apply elem_of_app. right. by left.
Qed.

Variable s0 : te_store.
Hypothesis Hmono : Aligner.monotone realignment.
Hypothesis Hbound : forall k v, realignment !! k = Some v -> v <= len output_line.

Lemma loop_lengths : forall rest s k lj seq s' last' seq',
  covers tes wds tls s0 k rest ->
  NoDup (handles (seq ++ rest)) ->
  0 <= lj -> lj <= len output_line ->
  (forall k' v, realignment !! k' = Some v -> k <= k' -> lj <= v) ->
  loop s (Some (k, lj), seq) (ends s0 k rest) = (s', Ok (last', seq')) ->
  exists lj',
    last' = Some (k + seq_length s0 rest, lj')
    /\ seq' = seq ++ rest
    /\ lj <= lj'
    /\ seq_length s' seq' = seq_length s seq + (lj' - lj).
Proof.
  induction rest as [|e rest IH]; intros s k lj seq s' last' seq' Hcov Hnd Hlj HljJ Hfut Hloop.
  - simpl in Hloop. injection Hloop as <- <- <-.
    exists lj. simpl. rewrite Z.add_0_r, app_nil_r. repeat split; lia.
  - destruct e as [[h w] l]. destruct Hcov as (Hte & Hw & Hl & Hcov).
    cbn [ends EditDistributor.loop] in Hloop.
    set (i := k + len (content s0 (h, w, l))) in *.
    assert (Hki : k <= i) by (pose proof (len_nonneg (content s0 (h, w, l))); lia).
    unfold EditDistributor.step in Hloop.
    set (j := match realignment !! i with Some j => j | None => lj end).
    assert (Hj : lj <= j /\ j <= len output_line
                 /\ forall k' v, realignment !! k' = Some v -> i <= k' -> j <= v
                                 \/ (realignment !! i = None /\ j = lj)).
    { unfold j. destruct (realignment !! i) as [ji|] eqn:Ei.
      - split; [by eapply Hfut|]. split; [by eapply Hbound|].
        intros k' v Hk' Hle. left. destruct (decide (i = k')) as [<-|Hne].
        + rewrite Ei in Hk'. injection Hk' as <-. lia.
        + eapply Hmono; [exact Ei|exact Hk'|lia].
      - split; [lia|]. split; [lia|]. intros. by right. }
    destruct Hj as (Hj1 & Hj2 & Hj3).
    assert (Hstep : (match realignment !! i, Some (k, lj) with
                     | Some j, _ => Ok j
                     | None, Some (_, lj) => Ok lj
                     | None, None => Raise TypeError
                     end) = Ok j).
    { unfold j. by destruct (realignment !! i). }
    rewrite Hstep in Hloop. clear Hstep.
    destruct (commit s seq k lj i j) as [s1 [[j1 seq1]| |]] eqn:Ec; [|done..].
    unfold handles in Hnd. rewrite map_app in Hnd. simpl in Hnd.
    assert (Hnd1 : NoDup (handles seq ++ [h])).
    { unfold handles. rewrite cons_middle, app_assoc in Hnd.
      by apply NoDup_app in Hnd as (? & _ & _). }
    destruct (commit_lengths _ _ _ _ _ _ _ _ _ h Hlj Hj1 Hj2 Hte Hnd1 Ec)
      as (w' & l' & -> & Hw' & Hl' & Hle1 & Hle2 & Hsl & Hout).
    rewrite Hw in Hw'. rewrite Hl in Hl'. injection Hw' as <-. injection Hl' as <-.
    apply IH in Hloop as (lj' & -> & -> & Hle' & Hsl').
    + exists lj'. split.
      { f_equal. f_equal. unfold seq_length. simpl. fold (seq_length s0 rest).
        unfold i. lia. }
      split; [by rewrite <- ?app_assoc|]. split; [lia|].
      rewrite Hsl'. rewrite Hsl. lia.
    + exact Hcov.
    + unfold handles. rewrite !map_app. simpl. by rewrite <- app_assoc.
    + lia.
    + lia.
    + intros k' v Hk' Hle. destruct (Hj3 k' v Hk' Hle) as [?|[_ ->]]; [lia|].
      assert (lj <= v) by (eapply Hfut; [done|lia]). lia.
Qed.

End Line.

Lemma setdefault_layout s es :
  nonempty_contents s es ->
  setdefault (textequiv_map s es) (len (line_string s es)) None
  = textequiv_map s es ++ [(len (line_string s es), None)].
Proof.
  intros Hne. unfold setdefault. rewrite dict_has_false; [done|].
  intros key Hkey. unfold textequiv_map in Hkey.
  rewrite keys_zip in Hkey by (by rewrite length_starts, length_map).
  apply starts_range in Hkey; [|done]. rewrite len_line_string. lia.
Qed.

Lemma keys_setdefault_layout s es :
  nonempty_contents s es ->
  keys (setdefault (textequiv_map s es) (len (line_string s es)) None)
  = 0 :: ends s 0 es.
Proof.
  intros Hne. rewrite setdefault_layout by done.
  unfold keys. rewrite map_app. fold (keys (textequiv_map s es)).
  unfold textequiv_map. rewrite keys_zip by (by rewrite length_starts, length_map).
  simpl. rewrite len_line_string. apply (starts_ends s es 0).
Qed.

(** A successful [_update_sequence] on the maps of a line returns the
    elements of the line, and their new contents add up to the length of
    the output line. *)
Lemma update_sequence_lengths s0 es output_line output_prob path s' seq :
  valid_path (len output_line) path ->
  NoDup (handles es) ->
  nonempty_contents s0 es ->
  _update_sequence (line_string s0 es) output_line output_prob path
    (textequiv_map s0 es) (word_map s0 es) (textline_map s0 es) s0 = (s', Ok seq) ->
  seq = es /\ seq_length s' es = len output_line.
Proof.
  intros (Hp0 & Hmono & Hbound) Hnd Hne. unfold _update_sequence.
  destruct (first_line (textline_map s0 es)); [|done..].
  rewrite keys_setdefault_layout by done. rewrite setdefault_layout by done.
  cbn [EditDistributor.loop EditDistributor.step]. rewrite Hp0.
  match goal with |- context [EditDistributor.loop ?a ?b ?c ?d ?e ?f ?g ?s ?st ?ks] =>
    destruct (EditDistributor.loop a b c d e f g s st ks) as [s1 [[last1 seq1]| |]] eqn:El end;
    [|done..].
  eapply (loop_lengths _ _ _ _ _ _ _ s0) in El as (lj' & -> & -> & Hle & Hsl).
  - case_bool_decide as Hlast; [|done].
    destruct (forallb _ _); [|done].
    intros [= <- <-]. split; [done|].
    injection Hlast as _ Hj. simpl in Hsl.
    change (seq_length s0 []) with 0 in Hsl. lia.
  - exact Hmono.
  - intros k v Hk. by apply Hbound in Hk as [_ ?].
  - apply (covers_layout s0 es 0 [] [] [] [(len (line_string s0 es), None)]); try done.
    all: intros key Hkey; by apply elem_of_nil in Hkey.
  - done.
  - lia.
  - apply len_nonneg.
  - intros k' v Hk' _. by apply Hbound in Hk' as [? _].
Qed.

End EditDistributorFacts.

(** ** Line extraction *)

Section LineExtractorFacts.
Import EditDistributor Layout LineExtractor.

Variable GAP : char.
Variable mapping : gmap char Z.

Local Abbreviation extract_span := (extract_span GAP mapping).
Local Abbreviation extract_line := (extract_line GAP mapping).
Local Abbreviation extract_lines := (_line_sequences2string_sequences GAP mapping).

Lemma nonempty_true {A} (l : list A) : nonempty l = true <-> l <> [].
Proof. by destruct l. Qed.

(** The three outcomes of the loop body. *)
Lemma extract_span_full s a h w l :
  Unicode (s h) <> [] ->
  extract_span s a (h, w, l) =
    (s, Ok (LineAcc (acc_i a + len (Unicode (s h)))
              (input_line a ++ Unicode (s h))
              (conf_line a
                 ++ replicate (Z.to_nat (len (Unicode (s h)))) (conf_or_one (conf (s h))))
              (dict_set (textequiv_starts a) (acc_i a) (Some h))
              (dict_set (word_starts a) (acc_i a) w)
              (dict_set (textline_starts a) (acc_i a) l))).
Proof.
  intros Hne. unfold LineExtractor.extract_span.
  apply nonempty_true in Hne. rewrite Hne. done.
Qed.

Lemma extract_span_gap s a h w l :
  Unicode (s h) = [] -> mapping !! GAP = None ->
  extract_span s a (h, w, l) =
    (set_Unicode s h [GAP],
     Ok (LineAcc (acc_i a + 1)
           (input_line a ++ [GAP])
           (conf_line a ++ [conf_or_one (conf (s h))])
           (dict_set (textequiv_starts a) (acc_i a) (Some h))
           (dict_set (word_starts a) (acc_i a) w)
           (dict_set (textline_starts a) (acc_i a) l))).
Proof.
  intros Hempty Hgap. unfold LineExtractor.extract_span.
  rewrite Hempty. cbn [nonempty]. rewrite bool_decide_eq_true_2 by done.
  unfold set_Unicode. rewrite upd_same. done.
Qed.

Lemma extract_span_abort s a h w l :
  Unicode (s h) = [] -> mapping !! GAP <> None ->
  extract_span s a (h, w, l) = (s, Raise AssertGapMapped).
Proof.
  intros Hempty Hgap. unfold LineExtractor.extract_span.
  rewrite Hempty. cbn [nonempty]. rewrite bool_decide_eq_false_2 by done. done.
Qed.

(** Extraction only ever writes to an element that was empty, and leaves it
    non-empty. *)
Lemma extract_span_store s a e s' r :
  extract_span s a e = (s', r) ->
  (forall h, Unicode (s h) <> [] -> s' h = s h)
  /\ (forall a', r = Ok a' -> Unicode (s' e.1.1) <> []).
Proof.
  destruct e as [[h w] l]. destruct (decide (Unicode (s h) = [])) as [Hempty|Hfull].
  - destruct (decide (mapping !! GAP = None)) as [Hgap|Hgap].
    + rewrite extract_span_gap by done. intros [= <- <-]. split.
      * intros h' Hh'. unfold set_Unicode. apply upd_other. congruence.
      * intros _ _. simpl. unfold set_Unicode. rewrite upd_same. done.
    + rewrite extract_span_abort by done. intros [= <- <-]. split; done.
  - rewrite extract_span_full by done. intros [= <- <-]. split; done.
Qed.

Lemma extract_line_store : forall es s a s' r,
  extract_line s a es = (s', r) ->
  forall h, Unicode (s h) <> [] -> s' h = s h.
Proof.
  induction es as [|e es IH]; intros s a s' r H h Hh; simpl in H.
  - by injection H as <- <-.
  - destruct (extract_span s a e) as [s1 [a1| |]] eqn:E.
    + apply extract_span_store in E as [E _]. rewrite <- (E h Hh).
      eapply IH; [done|]. by rewrite E.
    + injection H as <- <-. apply extract_span_store in E as [E _]. by apply E.
    + injection H as <- <-. apply extract_span_store in E as [E _]. by apply E.
Qed.

Lemma extract_lines_store : forall lines s s' r,
  extract_lines s lines = (s', r) ->
  forall h, Unicode (s h) <> [] -> s' h = s h.
Proof.
  induction lines as [|es lines IH]; intros s s' r H h Hh; simpl in H.
  - by injection H as <- <-.
  - destruct (extract_line s empty_acc es) as [s1 [a1| |]] eqn:E.
    + pose proof (extract_line_store _ _ _ _ _ E h Hh) as E1.
      destruct (extract_lines s1 lines) as [s2 r2] eqn:E2.
      assert (s2 h = s1 h) as E3 by (eapply IH; [done|by rewrite E1]).
      destruct r2; injection H as <- <-; congruence.
    + injection H as <- <-. by eapply extract_line_store.
    + injection H as <- <-. by eapply extract_line_store.
Qed.

Lemma dict_set_fresh {V} (d : dict V) k v :
  (forall key, key ∈ keys d -> key < k) -> dict_set d k v = d ++ [(k, v)].
Proof.
  induction d as [|[k' v'] d IH]; intros H; simpl; [done|].
  destruct (Z.eqb_spec k' k) as [->|_].
  - exfalso. assert (k < k) by (apply H; by left). lia.
  - f_equal. apply IH. intros key Hkey. apply H. by right.
Qed.

Lemma keys_snoc_lt {V} (d : dict V) k v k' :
  (forall key, key ∈ keys d -> key < k) -> k < k' ->
  forall key, key ∈ keys (d ++ [(k, v)]) -> key < k'.
Proof.
  intros Hd Hlt key Hkey. unfold keys in Hkey. rewrite map_app in Hkey.
  apply elem_of_app in Hkey as [Hkey|Hkey].
  - apply Hd in Hkey. lia.
  - simpl in Hkey. apply list_elem_of_singleton in Hkey. lia.
Qed.

(** The result of extracting a line, in terms of the store it leaves. *)
Lemma extract_line_layout : forall es s0 a0 s a,
  extract_line s0 a0 es = (s, Ok a) ->
  (forall key, key ∈ keys (textequiv_starts a0) -> key < acc_i a0) ->
  (forall key, key ∈ keys (word_starts a0) -> key < acc_i a0) ->
  (forall key, key ∈ keys (textline_starts a0) -> key < acc_i a0) ->
  textequiv_starts a
    = textequiv_starts a0 ++ zip (starts s (acc_i a0) es) (map (fun e : entry => Some e.1.1) es)
  /\ word_starts a
    = word_starts a0 ++ zip (starts s (acc_i a0) es) (map (fun e : entry => e.1.2) es)
  /\ textline_starts a
    = textline_starts a0 ++ zip (starts s (acc_i a0) es) (map (fun e : entry => e.2) es)
  /\ input_line a = input_line a0 ++ line_string s es
  /\ nonempty_contents s es.
Proof.
  induction es as [|e es IH]; intros s0 a0 s a H Hte Hw Hl; simpl in H.
  - injection H as <- <-. simpl. unfold line_string. simpl. rewrite !app_nil_r.
    do 4 (split; [done|]). intros e He. by apply elem_of_nil in He.
  - destruct (extract_span s0 a0 e) as [s1 [a1| |]] eqn:E; [|done..].
    pose proof (extract_span_store _ _ _ _ _ E) as [_ Hfilled].
    specialize (Hfilled a1 eq_refl).
    assert (Hkeep : s e.1.1 = s1 e.1.1) by (eapply extract_line_store; done).
    assert (Ha1 : acc_i a1 = acc_i a0 + len (content s e)
                  /\ input_line a1 = input_line a0 ++ content s e
                  /\ textequiv_starts a1 = textequiv_starts a0 ++ [(acc_i a0, Some e.1.1)]
                  /\ word_starts a1 = word_starts a0 ++ [(acc_i a0, e.1.2)]
                  /\ textline_starts a1 = textline_starts a0 ++ [(acc_i a0, e.2)]).
    { unfold content. rewrite Hkeep. destruct e as [[h w] l].
      destruct (decide (Unicode (s0 h) = [])) as [Hempty|Hfull].
      - destruct (decide (mapping !! GAP = None)) as [Hgap|Hgap].
        + rewrite extract_span_gap in E by done. injection E as <- <-. simpl.
          unfold set_Unicode. rewrite upd_same. simpl.
          rewrite !dict_set_fresh by done. done.
        + rewrite extract_span_abort in E by done. done.
      - rewrite extract_span_full in E by done. injection E as <- <-. simpl.
        rewrite !dict_set_fresh by done. done. }
    destruct Ha1 as (Hi & Hin & Ht & Hwd & Htl).
    assert (Hpos : 1 <= len (content s e)).
    { apply len_pos. unfold content. by rewrite Hkeep. }
    apply IH in H as (H1 & H2 & H3 & H4 & H5).
    + rewrite H1, H2, H3, H4, Ht, Hwd, Htl, Hin, Hi.
      cbn [starts map zip zip_with]. rewrite <- !app_assoc.
      do 3 (split; [done|]). split.
      { unfold line_string. done. }
      intros e' He'. apply elem_of_cons in He' as [->|He']; [|by apply H5].
      unfold content. by rewrite Hkeep.
    + rewrite Ht, Hi. eapply keys_snoc_lt; [done|lia].
    + rewrite Hwd, Hi. eapply keys_snoc_lt; [done|lia].
    + rewrite Htl, Hi. eapply keys_snoc_lt; [done|lia].
Qed.

Lemma extract_line_maps es s0 s a :
  extract_line s0 empty_acc es = (s, Ok a) ->
  textequiv_starts a = textequiv_map s es
  /\ word_starts a = word_map s es
  /\ textline_starts a = textline_map s es
  /\ input_line a = line_string s es
  /\ nonempty_contents s es.
Proof.
  intros H. apply extract_line_layout in H; [done|..].
  all: intros key Hkey; by apply elem_of_nil in Hkey.
Qed.

Lemma spans_of_layout s es : forall k,
  spans_of (zip (starts s k es) (map (fun e : entry => Some e.1.1) es)) = handles es.
Proof.
  unfold spans_of, values, handles.
  induction es as [|e es IH]; intros k; simpl; [done|]. f_equal. apply IH.
Qed.

Lemma total_length_layout s s0 es :
  total_length s (textequiv_map s0 es) = seq_length s es.
Proof.
  unfold total_length, textequiv_map. rewrite spans_of_layout.
  unfold handles, seq_length, content. induction es as [|e es IH]; simpl; [done|].
  by rewrite IH.
Qed.

Lemma starts_ext s s' es : forall k,
  (forall h, h ∈ handles es -> Unicode (s' h) = Unicode (s h)) ->
  starts s' k es = starts s k es.
Proof.
  unfold handles. induction es as [|e es IH]; intros k H; simpl; [done|].
  assert (Hc : content s' e = content s e) by (apply H; by left).
  rewrite Hc. f_equal. apply IH. intros h Hh. apply H. by right.
Qed.

Lemma line_string_ext s s' es :
  (forall h, h ∈ handles es -> Unicode (s' h) = Unicode (s h)) ->
  line_string s' es = line_string s es.
Proof.
  unfold handles, line_string. induction es as [|e es IH]; intros H; simpl; [done|].
  assert (Hc : content s' e = content s e) by (apply H; by left).
  rewrite Hc. f_equal. apply IH. intros h Hh. apply H. by right.
Qed.

Lemma nonempty_contents_handles s es h :
  nonempty_contents s es -> h ∈ handles es -> Unicode (s h) <> [].
Proof.
  intros Hne Hh. unfold handles in Hh. apply list_elem_of_In, in_map_iff in Hh
    as (e & <- & He). apply list_elem_of_In in He. by apply Hne.
Qed.

Lemma elem_of_handles (e : entry) es : e ∈ es -> e.1.1 ∈ handles es.
Proof.
  intros He. unfold handles. apply list_elem_of_In.
  apply (in_map (fun e : entry => e.1.1)). by apply list_elem_of_In.
Qed.

Lemma nonempty_contents_ext s s' es :
  (forall h, h ∈ handles es -> Unicode (s' h) = Unicode (s h)) ->
  nonempty_contents s es -> nonempty_contents s' es.
Proof.
  intros H Hne e He. unfold content. rewrite H; [by apply Hne|].
  by apply elem_of_handles.
Qed.

(** Every line of a successful extraction has the maps of its sequence,
    read in the final store. *)
Lemma extract_lines_maps : forall lines s0 s accs,
  extract_lines s0 lines = (s, Ok accs) ->
  Forall2 (fun es a =>
             textequiv_starts a = textequiv_map s es
             /\ word_starts a = word_map s es
             /\ textline_starts a = textline_map s es
             /\ input_line a = line_string s es
             /\ nonempty_contents s es) lines accs.
Proof.
  induction lines as [|es lines IH]; intros s0 s accs H; simpl in H.
  - injection H as <- <-. constructor.
  - destruct (extract_line s0 empty_acc es) as [s1 [a1| |]] eqn:E; [|done..].
    destruct (extract_lines s1 lines) as [s2 [accs2| |]] eqn:E2; [|done..].
    injection H as <- <-. constructor; [|by eapply IH].
    apply extract_line_maps in E as (H1 & H2 & H3 & H4 & H5).
    assert (Hsame : forall h, h ∈ handles es -> Unicode (s2 h) = Unicode (s1 h)).
    { intros h Hh. f_equal. eapply extract_lines_store; [done|].
      by eapply nonempty_contents_handles. }
    unfold textequiv_map, word_map, textline_map.
    rewrite !(starts_ext s1 s2), (line_string_ext s1 s2) by done.
    do 4 (split; [done|]). by eapply nonempty_contents_ext.
Qed.

(** C4: in every line of a successful extraction, the lengths of the
    elements listed in the position map add up to the length of the line
    string; and when [_update_sequence] succeeds on that line (its elements
    being distinct objects still holding their extracted contents, the path
    starting at 0, non-decreasing and within the output line), the lengths
    of their new contents add up to the length of the output line. *)
Theorem position_map_lengths lines s0 s accs :
  extract_lines s0 lines = (s, Ok accs) ->
  Forall2 (fun es a =>
    lengths_agree s es (input_line a)
      (textequiv_starts a) (word_starts a) (textline_starts a)) lines accs.
Proof.
  intros H. apply extract_lines_maps in H.
  eapply Forall2_impl; [exact H|]. clear H.
  intros es a (H1 & H2 & H3 & H4 & H5). unfold lengths_agree. split.
  - rewrite H1, H4, total_length_layout, len_line_string. done.
  - intros s1 output_line output_prob path s' seq Hsame Hnd Hpath Hupd.
    rewrite H1, H2, H3, H4 in Hupd.
    unfold textequiv_map, word_map, textline_map in Hupd.
    rewrite <- !(starts_ext s s1), <- (line_string_ext s s1) in Hupd by done.
    apply update_sequence_lengths in Hupd as [_ Hlen]; [|done|done|].
    + by rewrite H1, total_length_layout.
    + by eapply nonempty_contents_ext.
Qed.

(** With [GAP] in the mapping, extraction never writes, and fails as soon
    as it meets an empty element. *)
Lemma extract_line_mapped : mapping !! GAP <> None -> forall es s a,
  exists r, extract_line s a es = (s, r)
    /\ ((exists e, e ∈ es /\ Unicode (s e.1.1) = []) -> r = Raise AssertGapMapped)
    /\ (r = Raise AssertGapMapped \/ exists a', r = Ok a').
Proof.
  intros Hgap. induction es as [|e es IH]; intros s a; simpl.
  - exists (Ok a). split; [done|]. split; [|right; eauto].
    intros (e & He & _). by apply elem_of_nil in He.
  - destruct e as [[h w] l]. destruct (decide (Unicode (s h) = [])) as [Hempty|Hfull].
    + rewrite extract_span_abort by done. exists (Raise AssertGapMapped).
      split; [done|]. split; [done|by left].
    + rewrite extract_span_full by done.
      match goal with |- context [extract_line s ?a' es] =>
        destruct (IH s a') as (r & -> & Hr1 & Hr2) end.
      exists r. split; [done|]. split; [|done].
      intros (e & He & Hempty). apply Hr1.
      apply elem_of_cons in He as [->|He]; [done|]. eauto.
Qed.

Lemma extract_lines_mapped : mapping !! GAP <> None -> forall lines s,
  exists r, extract_lines s lines = (s, r)
    /\ ((exists es e, es ∈ lines /\ e ∈ es /\ Unicode (s e.1.1) = [])
        -> r = Raise AssertGapMapped)
    /\ (r = Raise AssertGapMapped \/ exists accs, r = Ok accs).
Proof.
  intros Hgap. induction lines as [|es lines IH]; intros s; simpl.
  - exists (Ok []). split; [done|]. split; [|right; eauto].
    intros (es & e & Hes & _). by apply elem_of_nil in Hes.
  - destruct (extract_line_mapped Hgap es s empty_acc) as (r & -> & Hr1 & Hr2).
    destruct Hr2 as [->|[a1 ->]].
    + exists (Raise AssertGapMapped). split; [done|]. split; [done|by left].
    + destruct (IH s) as (r2 & -> & Hr3 & Hr4).
      destruct Hr4 as [->|[accs ->]].
      * exists (Raise AssertGapMapped). split; [done|]. split; [done|by left].
      * exists (Ok (a1 :: accs)). split; [done|]. split; [|right; eauto].
        intros (es' & e & Hes & He & Hempty).
        apply elem_of_cons in Hes as [->|Hes].
        -- assert (Ok a1 = Raise AssertGapMapped) by (apply Hr1; eauto). done.
        -- assert (Ok accs = Raise AssertGapMapped) by (apply Hr3; eauto). done.
Qed.

(** Without [GAP] in the mapping, extraction succeeds and leaves every
    element it has met non-empty. *)
Lemma extract_line_unmapped : mapping !! GAP = None -> forall es s a,
  exists s' a', extract_line s a es = (s', Ok a')
    /\ forall h, h ∈ handles es -> Unicode (s' h) <> [].
Proof.
  intros Hgap. induction es as [|e es IH]; intros s a; simpl.
  - exists s, a. split; [done|]. intros h Hh. by apply elem_of_nil in Hh.
  - destruct (extract_span s a e) as [s1 r1] eqn:E.
    pose proof (extract_span_store _ _ _ _ _ E) as [_ Hfilled].
    assert (exists a1, r1 = Ok a1) as [a1 ->].
    { destruct e as [[h w] l]. destruct (decide (Unicode (s h) = [])).
      - rewrite extract_span_gap in E by done. injection E as <- <-. eauto.
      - rewrite extract_span_full in E by done. injection E as <- <-. eauto. }
    destruct (IH s1 a1) as (s' & a' & Hrun & Hne).
    exists s', a'. split; [done|].
    intros h Hh. apply elem_of_cons in Hh as [->|Hh]; [|by apply Hne].
    erewrite extract_line_store; [by eapply Hfilled|done|by eapply Hfilled].
Qed.

Lemma extract_lines_unmapped : mapping !! GAP = None -> forall lines s,
  exists s' accs, extract_lines s lines = (s', Ok accs)
    /\ forall es h, es ∈ lines -> h ∈ handles es -> Unicode (s' h) <> [].
Proof.
  intros Hgap. induction lines as [|es lines IH]; intros s; simpl.
  - exists s, []. split; [done|]. intros es h Hes. by apply elem_of_nil in Hes.
  - destruct (extract_line_unmapped Hgap es s empty_acc) as (s1 & a1 & -> & Hne1).
    destruct (IH s1) as (s2 & accs & Hrun & Hne2). rewrite Hrun.
    exists s2, (a1 :: accs). split; [done|].
    intros es' h Hes Hh. apply elem_of_cons in Hes as [->|Hes]; [|by eapply Hne2].
    erewrite extract_lines_store; [by apply Hne1|done|by apply Hne1].
Qed.

(** The only thing extraction writes into an element is [GAP]. *)
Lemma extract_span_writes s a e s' r h :
  extract_span s a e = (s', r) ->
  s' h = s h \/ (Unicode (s h) = [] /\ Unicode (s' h) = [GAP]).
Proof.
  destruct e as [[h0 w] l]. destruct (decide (Unicode (s h0) = [])) as [Hempty|Hfull].
  - destruct (decide (mapping !! GAP = None)) as [Hgap|Hgap].
    + rewrite extract_span_gap by done. intros [= <- <-].
      destruct (decide (h = h0)) as [->|Hne].
      * right. split; [done|]. unfold set_Unicode. by rewrite upd_same.
      * left. unfold set_Unicode. by rewrite upd_other.
    + rewrite extract_span_abort by done. intros [= <- <-]. by left.
  - rewrite extract_span_full by done. intros [= <- <-]. by left.
Qed.

Lemma extract_line_writes : forall es s a s' r h,
  extract_line s a es = (s', r) ->
  s' h = s h \/ (Unicode (s h) = [] /\ Unicode (s' h) = [GAP]).
Proof.
  induction es as [|e es IH]; intros s a s' r h H; simpl in H.
  - injection H as <- <-. by left.
  - destruct (extract_span s a e) as [s1 r1] eqn:E.
    pose proof (extract_span_writes _ _ _ _ _ h E) as Hw.
    destruct r1 as [a1| |]; [|injection H as <- <-; done..].
    apply (IH _ _ _ _ h) in H. destruct H as [H|[H1 H2]].
    + rewrite H. done.
    + destruct Hw as [Hw|[Hw1 Hw2]]; [|congruence].
      right. by rewrite <- Hw.
Qed.

Lemma extract_lines_writes : forall lines s s' r h,
  extract_lines s lines = (s', r) ->
  s' h = s h \/ (Unicode (s h) = [] /\ Unicode (s' h) = [GAP]).
Proof.
  induction lines as [|es lines IH]; intros s s' r h H; simpl in H.
  - injection H as <- <-. by left.
  - destruct (extract_line s empty_acc es) as [s1 r1] eqn:E.
    pose proof (extract_line_writes _ _ _ _ _ h E) as Hw.
    destruct r1 as [a1| |]; [|injection H as <- <-; done..].
    destruct (extract_lines s1 lines) as [s2 r2] eqn:E2.
    assert (s' = s2) as -> by (destruct r2; by injection H as <- _).
    apply (IH _ _ _ h) in E2. destruct E2 as [H2|[H1 H2]].
    + rewrite H2. done.
    + destruct Hw as [Hw|[Hw1 Hw2]]; [|congruence].
      right. by rewrite <- Hw.
Qed.


End LineExtractorFacts.

(** ** Whitespace and the assertions of [_update_sequence] *)

Section AssertionFacts.
Import EditDistributor Layout Redistribution Checks.

Lemma strip_right_done fuel : forall j output j' output',
  (length output <= fuel)%nat ->
  strip_right fuel j output = (j', output') -> endswith_sp_nl output' = false.
Proof.
  induction fuel as [|fuel IH]; intros j output j' output' Hfuel H; simpl in H.
  - injection H as <- <-. destruct output; [done|simpl in Hfuel; lia].
  - destruct (endswith_sp_nl output) eqn:E.
    + destruct (snoc_cases output) as [->|(l & x & ->)]; [done|].
      rewrite py_init_snoc in H. eapply IH; [|done].
      rewrite length_app in Hfuel. simpl in Hfuel. lia.
    + by injection H as <- <-.
Qed.

Lemma startswith_space_prefix (a b : str) :
  startswith_space (a ++ b) = false -> startswith_space a = false.
Proof. by destruct a. Qed.

(** What the branch for a non-whitespace input guarantees about the
    segment it leaves. *)
Lemma redistribute_other_edges input_line s sequence i lj j output s' lj' j' output' :
  redistribute_other input_line s sequence i lj j output = Ok (s', lj', j', output') ->
  (forall hp w l, last sequence = Some (hp, w, l) -> is_synthetic (s hp) = true ->
     startswith_space output' = false)
  /\ (forall c, i < len input_line -> py_index input_line i = Ok c -> is_sp_nl c = true ->
        endswith_sp_nl output' = false).
Proof.
  unfold redistribute_other.
  match goal with |- context [match last sequence with Some x => @?a x | None => ?b end] =>
    destruct (match last sequence with Some x => a x | None => b end)
      as [[s1 lj1] out1] eqn:E1 end.
  assert (Hstart : forall hp w l, last sequence = Some (hp, w, l) ->
            is_synthetic (s hp) = true -> startswith_space out1 = false).
  { intros hp w l Hlast Hsyn. rewrite Hlast in E1. rewrite Hsyn, andb_true_r in E1.
    destruct (startswith_space output) eqn:Es.
    - destruct (shift_left_spec startswith_space hp output s lj)
        as (m & r & s2 & Heq & _ & _ & _ & Hstop).
      rewrite Heq in E1. injection E1 as <- <- <-. by destruct Hstop as [->|?].
    - by injection E1 as <- <- <-. }
  destruct (endswith_sp_nl out1 && (i <? i_max input_line)) eqn:Econd.
  - destruct (py_index input_line i) as [c| |] eqn:Ec; cbn [bind]; [|done..].
    destruct (is_sp_nl c) eqn:Ews.
    + destruct (strip_right (length out1) j out1) as [j1 out2] eqn:Es.
      intros [= <- <- <- <-]. split.
      * intros hp w l Hlast Hsyn.
        apply strip_right_spec in Es as (_ & _ & _ & _ & tail & Hpre).
        eapply startswith_space_prefix. rewrite <- Hpre. by eapply Hstart.
      * intros _ _ _ _. by eapply strip_right_done in Es.
    + intros [= <- <- <- <-]. split; [done|].
      intros c' _ [= <-]. congruence.
  - cbn [bind]. intros [= <- <- <- <-]. split; [done|].
    intros c Hi _ _. apply andb_false_iff in Econd as [?|Hlt]; [done|].
    unfold i_max in Hlt. apply Z.ltb_ge in Hlt. lia.
Qed.

(** A failing turn ends the loop, with the store as the turn left it. *)
Lemma loop_raise input_line output_line output_prob realignment tes wds tls s st i ks s' e :
  step input_line output_line output_prob realignment tes wds tls s st i = (s', Raise e) ->
  loop input_line output_line output_prob realignment tes wds tls s st (i :: ks)
  = (s', Raise e).
Proof. intros H. simpl. by rewrite H. Qed.

(** The part of the whitespace rule that the code keeps: when
    [_update_sequence] returns, no element whose content has a
    non-whitespace character is synthetic; when the loop has reached the
    top and there is such an element, the closing assertion raises.  For an
    input segment that is not a single space or newline, the segment left
    by the redistribution does not start with a space if the last element
    of the sequence is synthetic, and does not end with a space or newline
    if the next input character is one. *)
Theorem update_sequence_output_not_lost :
  (forall input_line output_line output_prob path tes wds tls s s' sequence,
     _update_sequence input_line output_line output_prob path tes wds tls s
       = (s', Ok sequence) ->
     forall e, e ∈ sequence -> has_token (content s' e) = true ->
               is_synthetic (s' e.1.1) = false)
  /\ (forall input_line output_line output_prob path tes wds tls s s' sequence l0 e,
        first_line tls = Ok l0 ->
        loop input_line output_line output_prob path
          (setdefault tes (len input_line) None) wds tls s (None, [])
          (keys (setdefault tes (len input_line) None))
          = (s', Ok (Some (len input_line, len output_line), sequence)) ->
        e ∈ sequence -> has_token (content s' e) = true ->
        is_synthetic (s' e.1.1) = true ->
        _update_sequence input_line output_line output_prob path tes wds tls s
          = (s', Raise AssertOutputLost))
  /\ (forall input_line s sequence i lj j output s' lj' j' output',
        redistribute_other input_line s sequence i lj j output = Ok (s', lj', j', output') ->
        (forall hp w l, last sequence = Some (hp, w, l) -> is_synthetic (s hp) = true ->
           startswith_space output' = false)
        /\ (forall c, i < len input_line -> py_index input_line i = Ok c ->
              is_sp_nl c = true -> endswith_sp_nl output' = false)).
Proof.
  split; [|split].
  - intros input_line output_line output_prob path tes wds tls s s' sequence H e He Htok.
    unfold _update_sequence in H.
    destruct (first_line tls); [|done..].
    destruct (loop _ _ _ _ _ _ _ _ _ _) as [s1 [[last1 seq1]| |]]; [|done..].
    case_bool_decide; [|done].
    destruct (forallb (check_not_lost s1) seq1) eqn:Hall; [|done].
    injection H as <- <-.
    rewrite forallb_forall in Hall. apply list_elem_of_In, Hall in He.
    unfold check_not_lost in He. unfold content in Htok. rewrite Htok in He.
    simpl in He. by apply negb_true_iff in He.
  - intros input_line output_line output_prob path tes wds tls s s' sequence l0 e
      Hline Hloop He Htok Hsyn.
    unfold _update_sequence. rewrite Hline, Hloop.
    rewrite bool_decide_eq_true_2 by done.
    destruct (forallb (check_not_lost s') sequence) eqn:Hall; [|done].
    rewrite forallb_forall in Hall. apply list_elem_of_In, Hall in He.
    unfold check_not_lost in He. unfold content in Htok. rewrite Htok, Hsyn in He. done.
  - intros. by eapply redistribute_other_edges.
Qed.

Section Line.
Variable input_line output_line : str.
Variable output_prob : list Q.
Variable realignment : gmap Z Z.
Variable tes wds tls : dict (option handle).

Local Abbreviation redistribute := (redistribute input_line output_line).
Local Abbreviation commit := (commit input_line output_line output_prob tes wds tls).
Local Abbreviation step := (step input_line output_line output_prob realignment tes wds tls).
Local Abbreviation loop := (loop input_line output_line output_prob realignment tes wds tls).

(** A redistribution writes to the last element of the sequence only. *)
Lemma redistribute_frame s sequence k lj i j s1 lj1 j1 out1 h :
  redistribute s sequence k lj i j = Ok (s1, lj1, j1, out1) ->
  h ∉ handles sequence -> s1 h = s h.
Proof.
  intros Hr Hh.
  assert (Hlast : forall hp w l, last sequence = Some (hp, w, l) -> h <> hp).
  { intros hp w l Hl ->. apply Hh. apply last_Some in Hl as [seq0 ->].
    unfold handles. rewrite map_app. apply elem_of_app. right. by left. }
  unfold EditDistributor.redistribute in Hr.
  destruct (in_sp_nl (py_slice input_line k i)).
  - injection Hr as Hr. unfold redistribute_space in Hr.
    destruct (last sequence) as [[[hp w] l]|] eqn:El.
    + specialize (Hlast hp w l eq_refl).
      match type of Hr with context [if lhs_cond ?o then ?a else ?b] =>
        destruct (if lhs_cond o then a else b) as [[s2 lj2] out2] eqn:E1 end.
      apply cond_shift_spec in E1 as (m1 & _ & _ & _ & Hoth1).
      match type of Hr with context [if ?c then ?a else (j, out2)] =>
        destruct (if c then a else (j, out2)) as [j3 out3] eqn:E2 end.
      match type of Hr with context [if has_token out3 then ?a else ?b] =>
        destruct (if has_token out3 then a else b) as [[s4 lj4] out4] eqn:E3 end.
      apply cond_shift_spec in E3 as (m3 & _ & _ & _ & Hoth3).
      injection Hr as <- <- <- <-. rewrite Hoth3, Hoth1; done.
    + cbv beta iota zeta in Hr.
      match type of Hr with context [if ?c then ?a else ?b] =>
        destruct (if c then a else b) as [j3 out3] eqn:E2 end.
      by injection Hr as <- <- <- <-.
  - unfold redistribute_other in Hr.
    match type of Hr with
      context [match last sequence with Some x => @?a x | None => ?b end] =>
      destruct (match last sequence with Some x => a x | None => b end)
        as [[s2 lj2] out2] eqn:E1 end.
    assert (s2 h = s h) as Hs2.
    { destruct (last sequence) as [[[hp w] l]|].
      - apply cond_shift_spec in E1 as (m & _ & _ & _ & Hoth). apply Hoth. by eapply Hlast.
      - by injection E1 as <- <- <-. }
    destruct (if endswith_sp_nl out2 && (i <? i_max input_line)
              then do c <- py_index input_line i; Ok (is_sp_nl c)
              else Ok false) as [b| |]; cbn [bind] in Hr; [|done..].
    destruct (if b then strip_right (length out2) j out2 else (j, out2)) as [j3 out3].
    by injection Hr as <- <- <- <-.
Qed.

End Line.

End AssertionFacts.

(** C2 fails on the word "ab" corrected to " ab", the first element of
    its line: the leading space is moved only onto a synthetic element that
    precedes the word, and there is none.  The line is processed without
    error, and the TextEquiv of the Word is left starting with a space,
    which the docstrings of [process] and [_update_sequence] rule out. *)
Lemma leading_space_stays_in_word :
  let r := correct_line store_ab (line_of 2) (py (" ab" ++ LF)) (repeat (9 # 10)%Q 4)
             shifted_alignment (1 # 10) in
  r.2 = Ok (line_of 2)
  /\ Unicode (r.1 0%nat) = py " ab"
  /\ is_synthetic (r.1 0%nat) = false
  /\ forallb (fun e : EditDistributor.entry => Checks.whitespace_pure (r.1 e.1.1))
       (line_of 2) = false.
Proof. vm_compute. repeat split. Qed.

Lemma update_sequence_output_not_lost_witness :
  let r := correct_line store_ab (line_of 2) (py (" ab" ++ LF)) (repeat (9 # 10)%Q 4)
             shifted_alignment (1 # 10) in
  has_token (Layout.content r.1 (0%nat, Some 0%nat, Some 0%nat)) = true
  /\ is_synthetic (r.1 0%nat) = false.
Proof.
  intros r. split; [vm_compute; reflexivity|].
  refine (proj1 update_sequence_output_not_lost
           (py ("ab" ++ LF)) (py (" ab" ++ LF)) (repeat (9 # 10)%Q 4)
           (<[0 := 0]> (<[1 := 2]> (<[2 := 3]> {[ 3 := 4 ]})))
           [(0, Some 0%nat); (2, Some 1%nat)]
           [(0, Some 0%nat); (2, Some 1%nat)]
           [(0, Some 0%nat); (2, Some 0%nat)]
           store_ab r.1 (line_of 2) _
           (0%nat, Some 0%nat, Some 0%nat) _ _).
  - vm_compute. reflexivity.
  - by left.
  - vm_compute. reflexivity.
Defined.


(** ** The path of an identity alignment *)

Lemma Qgtb_irrefl x : Qgtb x x = false.
Proof.
  unfold Qgtb. apply negb_false_iff, Qle_bool_iff. apply Qle_refl.
Qed.

Lemma Qgtb_true a b : Qgtb a b = true <-> (b < a)%Q.
Proof.
  unfold Qgtb. rewrite negb_true_iff. split.
  - intros H. apply Qnot_le_lt. intros Hle. apply Qle_bool_iff in Hle. congruence.
  - intros H. destruct (Qle_bool a b) eqn:E; [|done].
    apply Qle_bool_iff in E. exfalso. by apply (Qlt_not_le b a).
Qed.

Lemma Qgtb_asym a b : Qgtb a b = true -> Qgtb b a = false.
Proof.
  intros H. apply Qgtb_true in H. destruct (Qgtb b a) eqn:E; [|done].
  apply Qgtb_true in E. exfalso. apply (Qlt_irrefl a). by eapply Qlt_trans.
Qed.

Lemma norm_index_m1 m : 1 <= m -> norm_index m (-1) = Some (m - 1).
Proof.
  intros Hm. unfold norm_index.
  destruct (Z.leb_spec 0 (-1)); [lia|].
  destruct (Z.leb_spec 0 (-1 + m)); [f_equal; lia|lia].
Qed.

Section IdentityPath.
Variable alignment : list (list Q).
Variable n : Z.
Variable min_score : Q.
Hypothesis Hn : 1 <= n.
Hypothesis Hmin : Qle_bool 0 min_score = true.
Hypothesis Hid : effectively_identity alignment n min_score = true.

Local Abbreviation alignment_at := (Aligner.alignment_at alignment).
Local Abbreviation advance := (Aligner.advance Qgtb alignment n n min_score).
Local Abbreviation forward :=
  (Aligner.forward 0%Q Qplus (fun x => x) Qgtb alignment n n min_score).
Local Abbreviation backward := (Aligner.backward 0%Q Qgtb).
Local Abbreviation cell := (Aligner.cell 0%Q).
Local Abbreviation nd_get := (Aligner.nd_get 0%Q).

Lemma identity_score i j :
  0 <= i < n -> 0 <= j < n ->
  exists a, alignment_at j i = Ok a /\ Qgtb a min_score = (i =? j).
Proof.
  intros Hi Hj. unfold effectively_identity in Hid.
  rewrite forallb_forall in Hid.
  assert (Hjin : In j (seqZ 0 n)) by (apply list_elem_of_In, elem_of_seqZ; lia).
  apply Hid in Hjin. rewrite forallb_forall in Hjin.
  assert (Hiin : In i (seqZ 0 n)) by (apply list_elem_of_In, elem_of_seqZ; lia).
  apply Hjin in Hiin.
  destruct (alignment_at j i) as [a| |]; [|done..].
  exists a. split; [done|]. by apply eqb_prop in Hiin.
Qed.

Lemma identity_well_sized : Aligner.well_sized alignment n n = true.
Proof.
  unfold Aligner.well_sized.
  assert (Hrow : forall j, 0 <= j < n -> exists row,
            alignment !! Z.to_nat j = Some row /\ n <= Z.of_nat (length row)).
  { intros j Hj.
    destruct (identity_score (n - 1) j) as (a & Ha & _); [lia|done|].
    unfold Aligner.alignment_at, py_index in Ha.
    destruct (norm_index (Z.of_nat (length alignment)) j) as [j'|] eqn:Ej; [|done].
    unfold norm_index in Ej. destruct (Z.leb_spec 0 j); [|lia].
    destruct (Z.ltb_spec j (Z.of_nat (length alignment))); [|done].
    injection Ej as <-.
    destruct (alignment !! Z.to_nat j) as [row|]; [|done]. cbn [bind] in Ha.
    exists row. split; [done|].
    destruct (norm_index (Z.of_nat (length row)) (n - 1)) as [i'|] eqn:Ei; [|done].
    unfold norm_index in Ei. destruct (Z.leb_spec 0 (n - 1)); [|lia].
    destruct (Z.ltb_spec (n - 1) (Z.of_nat (length row))); [lia|done]. }
  apply andb_true_iff. split.
  - apply Z.leb_le. destruct (Hrow (n - 1)) as (row & Hrow' & _); [lia|].
    apply lookup_lt_Some in Hrow'. lia.
  - apply forallb_forall. intros row Hin.
    apply list_elem_of_In, list_elem_of_lookup in Hin as [jn Hjn].
    apply lookup_take_Some in Hjn as [Hjn Hlt].
    destruct (Hrow (Z.of_nat jn)) as (row' & Hrow' & Hlen); [lia|].
    rewrite Nat2Z.id in Hrow'. rewrite Hjn in Hrow'. injection Hrow' as <-.
    by apply Z.leb_le.
Qed.

(** From a cell between two diagonal cells, the inner loop runs on to the
    next diagonal cell, or to the exit position after the last one. *)
Lemma advance_to_diagonal k fuel : forall i j,
  0 <= k < n ->
  (j = k /\ k <= i < n) \/ (j = k + 1 /\ 0 <= i < k + 1 /\ k + 1 < n) ->
  (Z.to_nat ((k + 1) * n + (k + 1) - (j * n + i)) <= fuel)%nat ->
  advance fuel i j = Ok (k + 1, k + 1).
Proof.
  induction fuel as [|fuel IH]; intros i j Hk Hpos Hfuel.
  - exfalso. destruct Hpos as [[-> Hi]|(-> & Hi & Hlt)]; nia.
  - cbn [Aligner.advance]. unfold Aligner.bump.
    destruct Hpos as [[-> Hi]|(-> & Hi & Hlt)].
    + destruct (Z.eqb_spec (i + 1) n) as [E|E].
      * destruct (Z.eqb_spec (k + 1) n) as [E'|E'].
        -- cbv beta iota. by rewrite E, E'.
        -- cbv beta iota.
           destruct (identity_score 0 (k + 1)) as (a & -> & Ha); [lia..|].
           cbn [bind]. rewrite Ha.
           destruct (Z.eqb_spec 0 (k + 1)); [lia|].
           apply IH; [done|right; lia|nia].
      * cbv beta iota.
        destruct (identity_score (i + 1) k) as (a & -> & Ha); [lia..|].
        cbn [bind]. rewrite Ha.
        destruct (Z.eqb_spec (i + 1) k); [lia|].
        apply IH; [done|left; lia|nia].
    + destruct (Z.eqb_spec (i + 1) n) as [E|E]; [lia|].
      cbv beta iota.
      destruct (identity_score (i + 1) (k + 1)) as (a & -> & Ha); [lia..|].
      cbn [bind]. rewrite Ha.
      destruct (Z.eqb_spec (i + 1) (k + 1)) as [E'|E'].
      * by rewrite E'.
      * apply IH; [done|right; lia|nia].
Qed.

Lemma nd_get_cell (v : Aligner.ndarray) i j :
  Aligner.shaped n n v -> 0 <= i < n -> 0 <= j < n -> nd_get v i j = Ok (cell v i j).
Proof.
  intros [H0 H1] Hi Hj. unfold Aligner.nd_get. rewrite H0, H1.
  by rewrite !norm_index_in by lia.
Qed.

Lemma cell_unset (v : Aligner.ndarray) i j :
  Aligner.cells v !! (i, j) = None -> cell v i j = 0%Q.
Proof. intros H. unfold Aligner.cell. by rewrite H. Qed.

Lemma forward_identity fuel : forall k (v : Aligner.ndarray),
  0 <= k <= n -> diag_filled n k v ->
  (Z.to_nat (n - k) <= fuel)%nat ->
  exists v', forward fuel v k k = Ok v' /\ diag_filled n n v'.
Proof.
  induction fuel as [|fuel IH]; intros k v Hk Hv Hfuel.
  - assert (k = n) as -> by lia. rewrite forward_done. eauto.
  - destruct (Z.eq_dec k n) as [->|Hne]; [rewrite forward_done; eauto|].
    destruct Hv as (Hshape & Hdiag & Hunset).
    rewrite forward_S.
    destruct (Z.ltb_spec k n); [|lia]. cbn [andb].
    assert (Him1 : (if 0 <? k then nd_get v (k - 1) k else Ok 0%Q) = Ok 0%Q).
    { destruct (Z.ltb_spec 0 k); [|done].
      rewrite nd_get_cell by (done || lia). f_equal. apply cell_unset, Hunset. lia. }
    assert (Hjm1 : (if 0 <? k then nd_get v k (k - 1) else Ok 0%Q) = Ok 0%Q).
    { destruct (Z.ltb_spec 0 k); [|done].
      rewrite nd_get_cell by (done || lia). f_equal. apply cell_unset, Hunset. lia. }
    assert (Hijm1 : exists c, (if (0 <? k) && (0 <? k) then nd_get v (k - 1) (k - 1)
                               else Ok 0%Q) = Ok c
                              /\ (k = 0 /\ c = 0%Q \/ Qgtb c 0 = true)).
    { destruct (Z.ltb_spec 0 k); cbn [andb].
      - rewrite nd_get_cell by (done || lia). eexists. split; [done|].
        right. apply Hdiag. lia.
      - exists 0%Q. split; [done|]. left. split; [lia|done]. }
    destruct Hijm1 as (c & Hijm1 & Hc).
    rewrite Him1. cbn [bind]. rewrite Hjm1. cbn [bind]. rewrite Hijm1. cbn [bind].
    destruct (identity_score k k) as (a & -> & Ha); [lia..|]. cbn [bind].
    rewrite Z.eqb_refl in Ha.
    destruct (nd_set_ok (fun x => x) n n v k k
                (a + Aligner.max3 Qgtb 0 0 c)%Q Hshape) as (v' & -> & Hshape' & Hcells);
      [lia..|].
    cbn [bind].
    rewrite (advance_to_diagonal k); [|lia|left; lia|unfold Aligner.cells_fuel; nia].
    cbn [bind fst snd]. apply IH; [lia| |lia].
    split; [done|]. split.
    + intros i Hi. destruct (Z.eq_dec i k) as [->|Hik].
      * unfold Aligner.cell. rewrite Hcells, lookup_insert_eq. simpl.
        apply Qgtb_true. apply Qgtb_true in Ha. apply Qle_bool_iff in Hmin.
        assert (0 <= Aligner.max3 Qgtb 0 0 c)%Q as Hmax.
        { unfold Aligner.max3. rewrite Qgtb_irrefl.
          destruct (Qgtb c 0) eqn:Ec; [|apply Qle_refl].
          apply Qgtb_true in Ec. by apply Qlt_le_weak. }
        apply Qlt_le_trans with (y := (a + 0)%Q).
        -- rewrite Qplus_0_r. by apply Qle_lt_trans with (y := min_score).
        -- by apply Qplus_le_r.
      * unfold Aligner.cell. rewrite Hcells, lookup_insert_ne by congruence.
        apply Hdiag. lia.
    + intros i j Hij. rewrite Hcells, lookup_insert_ne.
      * apply Hunset. lia.
      * intros [= <- <-]. lia.
Qed.

Lemma backward_identity (v : Aligner.ndarray) fuel : forall k m,
  diag_filled n n v -> -1 <= k < n -> (Z.to_nat (k + 1) <= fuel)%nat ->
  exists m', backward fuel v k k m = Ok m'
    /\ forall i, m' !! i = if bool_decide (0 <= i <= k) then Some i else m !! i.
Proof.
  induction fuel as [|fuel IH]; intros k m Hv Hk Hfuel.
  - assert (k = -1) as -> by lia. exists m. split; [done|].
    intros i. rewrite bool_decide_eq_false_2 by lia. done.
  - destruct (Z.eq_dec k (-1)) as [->|Hne].
    { exists m. split; [done|]. intros i. rewrite bool_decide_eq_false_2 by lia. done. }
    pose proof Hv as (Hshape & Hdiag & Hunset).
    rewrite (backward_S 0%Q Qgtb) by lia.
    pose proof Hshape as [H0 H1].
    (* the row and column before [k], with numpy's wrap-around at 0 *)
    set (p := if k =? 0 then n - 1 else k - 1).
    assert (Hp : norm_index n (k - 1) = Some p /\ 0 <= p < n).
    { unfold p. destruct (Z.eqb_spec k 0) as [->|Hk0]; cbv iota.
      - split; [|lia]. change (0 - 1) with (-1). by apply norm_index_m1.
      - split; [apply norm_index_in|]; lia. }
    destruct Hp as [Hp Hprange].
    assert (Hup : nd_get v (k - 1) k = Ok (cell v p k)).
    { unfold Aligner.nd_get. rewrite H0, H1, Hp. by rewrite norm_index_in by lia. }
    assert (Hlft : nd_get v k (k - 1) = Ok (cell v k p)).
    { unfold Aligner.nd_get. rewrite H0, H1, Hp. by rewrite norm_index_in by lia. }
    assert (Hdg : nd_get v (k - 1) (k - 1) = Ok (cell v p p)).
    { unfold Aligner.nd_get. by rewrite H0, H1, Hp. }
    rewrite Hup, Hlft, Hdg. cbn [bind].
    assert (Hpp : Qgtb (cell v p p) 0 = true) by (apply Hdiag; lia).
    assert (Hcmp : Qgtb (cell v p k) (cell v k p) = false
                   /\ Qgtb (cell v k p) (cell v p p) = false).
    { destruct (Z.eq_dec p k) as [->|Hpk].
      - split; apply Qgtb_irrefl.
      - rewrite (cell_unset v p k), (cell_unset v k p) by (apply Hunset; lia).
        split; [apply Qgtb_irrefl|by apply Qgtb_asym]. }
    destruct Hcmp as [-> ->].
    destruct (IH (k - 1) (<[k := k]> m) Hv) as (m' & -> & Hm'); [lia..|].
    exists m'. split; [done|]. intros i. rewrite Hm'.
    destruct (decide (0 <= i <= k - 1)).
    + rewrite !bool_decide_eq_true_2 by lia. done.
    + rewrite (bool_decide_eq_false_2 (0 <= i <= k - 1)) by done.
      destruct (Z.eq_dec i k) as [->|Hik].
      * rewrite lookup_insert_eq, bool_decide_eq_true_2 by lia. done.
      * rewrite lookup_insert_ne by done. rewrite bool_decide_eq_false_2 by lia. done.
Qed.

(** The hard path of an identity alignment is the identity. *)
Lemma identity_path :
  exists path,
    path_of alignment n n min_score = Ok path
    /\ forall i, 0 <= i <= n -> path !! i = Some i.
Proof.
  unfold path_of, Aligner._alignment2path.
  assert (Hz : Aligner.np_zeros (score:=Q) n n = Ok (Aligner.NdArray n n ∅)).
  { unfold Aligner.np_zeros. destruct (Z.ltb_spec n 0); [lia|done]. }
  rewrite Hz. cbn [bind].
  destruct (forward_identity (Aligner.cells_fuel n n) 0 (Aligner.NdArray n n ∅))
    as (v & -> & Hv).
  { lia. }
  { split; [done|]. split; [intros; lia|]. intros. apply lookup_empty. }
  { unfold Aligner.cells_fuel. nia. }
  cbn [bind]. unfold Aligner.start_i, Aligner.start_j.
  rewrite Z.leb_refl. cbn [bind].
  destruct (backward_identity v (Aligner.path_fuel n n) (n - 1) {[ n := n ]} Hv)
    as (m & -> & Hm).
  { lia. }
  { unfold Aligner.path_fuel. lia. }
  cbn [bind]. eexists. split; [done|].
  intros i Hi. destruct (Z.eq_dec i 0) as [->|Hi0].
  - apply lookup_insert_eq.
  - rewrite lookup_insert_ne by done. rewrite Hm.
    destruct (Z.eq_dec i n) as [->|Hin].
    + rewrite bool_decide_eq_false_2 by lia. apply lookup_singleton_eq.
    + rewrite bool_decide_eq_true_2 by lia. done.
Qed.

End IdentityPath.

(** ** An identical correction *)

Section UnchangedFacts.
Import EditDistributor Layout Unchanged.

Lemma in_sp_nl_cases c : in_sp_nl c = true -> c = [SPACE] \/ c = [NEWLINE].
Proof.
  unfold in_sp_nl. intros H. apply orb_true_iff in H as [H|H]; apply str_eqb_eq in H; auto.
Qed.

Lemma redistribute_space_identity output_line s sequence lj j c :
  in_sp_nl c = true ->
  redistribute_space output_line s sequence lj j c = (s, lj, j, c).
Proof.
  intros H. unfold redistribute_space.
  apply in_sp_nl_cases in H as [->| ->]; destruct (last sequence) as [[[? ?] ?]|]; reflexivity.
Qed.

Lemma redistribute_other_identity input_line s sequence i lj j c :
  startswith_space c = false -> endswith_sp_nl c = false ->
  redistribute_other input_line s sequence i lj j c = Ok (s, lj, j, c).
Proof.
  intros Hs He. unfold redistribute_other. rewrite Hs.
  destruct (last sequence) as [[[? ?] ?]|]; cbn [andb]; cbv beta iota zeta;
    rewrite He; reflexivity.
Qed.

Section Line.
Variable input_line : str.
Variable output_prob : list Q.
Variable realignment : gmap Z Z.
Variable tes wds tls : dict (option handle).
Variable s0 : te_store.
Hypothesis Hpath : forall i, 0 <= i <= len input_line -> realignment !! i = Some i.

Local Abbreviation loop := (loop input_line input_line output_prob realignment tes wds tls).

Lemma loop_identity : forall rest s k sequence pre,
  covers tes wds tls s0 k rest ->
  input_line = pre ++ line_string s0 rest -> len pre = k ->
  forallb (clean_edges s0) rest = true ->
  (forall h, Unicode (s h) = Unicode (s0 h)) ->
  exists s',
    loop s (Some (k, k), sequence) (ends s0 k rest)
      = (s', Ok (Some (len input_line, len input_line), sequence ++ rest))
    /\ (forall h, Unicode (s' h) = Unicode (s0 h))
    /\ (forall h, index (s' h) = index (s h))
    /\ (forall h, h ∉ handles rest -> s' h = s h)
    /\ (NoDup (handles rest) -> mean_confidences output_prob s0 s' k rest).
Proof.
  induction rest as [|e rest IH]; intros s k sequence pre Hcov Hline Hk Hclean Hsame.
  - exists s. simpl. unfold line_string in Hline. simpl in Hline.
    rewrite app_nil_r in Hline. subst pre. rewrite Hk, app_nil_r. done.
  - destruct e as [[h w] l]. destruct Hcov as (Hte & Hw & Hl & Hcov).
    apply andb_true_iff in Hclean as [Hclean_e Hclean].
    set (c := content s0 (h, w, l)) in *.
    set (i := k + len c) in *.
    assert (Hline' : input_line = pre ++ c ++ line_string s0 rest) by done.
    assert (Hslice : py_slice input_line k i = c).
    { unfold i. rewrite <- Hk. rewrite Hline' at 1. apply py_slice_app_mid. }
    assert (Hi : 0 <= i <= len input_line).
    { pose proof (len_nonneg pre). pose proof (len_nonneg c).
      pose proof (len_nonneg (line_string s0 rest)).
      rewrite Hline', !len_app. lia. }
    assert (Hred : redistribute input_line input_line s sequence k k i i = Ok (s, k, i, c)).
    { unfold redistribute. rewrite Hslice. unfold clean_edges in Hclean_e. fold c in Hclean_e.
      destruct (in_sp_nl c) eqn:Ec.
      - by rewrite redistribute_space_identity.
      - simpl in Hclean_e. apply andb_true_iff in Hclean_e as [H1 H2].
        apply negb_true_iff in H1, H2. by apply redistribute_other_identity. }
    set (s1 := set_conf (set_Unicode s h c) h (Some (mean_prob output_prob k i))).
    assert (Hstep : step input_line input_line output_prob realignment tes wds tls
                      s (Some (k, k), sequence) i
                    = (s1, Ok (Some (i, i), sequence ++ [(h, w, l)]))).
    { unfold step. rewrite (Hpath i Hi). unfold commit.
      rewrite Hred, Hte, Hslice. rewrite Hsame. fold (content s0 (h, w, l)). fold c.
      unfold str_eqb. rewrite bool_decide_eq_true_2 by done. simpl in Hw, Hl.
      rewrite Hw, Hl. done. }
    assert (Hs1 : forall h', Unicode (s1 h') = Unicode (s0 h')).
    { intros h'. unfold s1, set_conf, set_Unicode.
      destruct (decide (h' = h)) as [->|Hne].
      - rewrite !upd_same. done.
      - rewrite !upd_other by done. apply Hsame. }
    assert (Hidx : forall h', index (s1 h') = index (s h')).
    { intros h'. unfold s1, set_conf, set_Unicode.
      destruct (decide (h' = h)) as [->|Hne].
      - rewrite !upd_same. done.
      - rewrite !upd_other by done. done. }
    destruct (IH s1 i (sequence ++ [(h, w, l)]) (pre ++ c)) as (s' & Hloop & HU & HI & HF & HC).
    + exact Hcov.
    + rewrite Hline'. by rewrite app_assoc.
    + rewrite len_app. unfold i. lia.
    + exact Hclean.
    + exact Hs1.
    + exists s'. split.
      { cbn [ends EditDistributor.loop]. fold c. fold i. rewrite Hstep.
        rewrite Hloop. by rewrite <- app_assoc. }
      split; [done|]. split; [intros h'; by rewrite HI|]. split.
      * intros h' Hh'. unfold handles in Hh'. simpl in Hh'.
        rewrite HF.
        -- unfold s1, set_conf, set_Unicode. rewrite !upd_other; [done|..].
           all: intros ->; apply Hh'; by left.
        -- intros Hin. apply Hh'. by right.
      * intros Hnd. unfold handles in Hnd. simpl in Hnd. apply NoDup_cons in Hnd as [Hnotin Hnd].
        cbn [mean_confidences]. fold c. fold i. split; [|by apply HC].
        simpl. rewrite HF by done. unfold s1, set_conf. rewrite upd_same. done.
Qed.

End Line.

Lemma forallb_filled s es : forallb (filled s) es = true -> nonempty_contents s es.
Proof.
  intros H e He. rewrite forallb_forall in H. apply list_elem_of_In, H in He.
  unfold filled in He. by destruct (content s e).
Qed.

(** With an output line equal to the input line and a path that is the
    identity, [_update_sequence] leaves the content of every object as it
    was, and sets the confidences to the means of the probabilities. *)
Lemma update_sequence_identity s0 es output_prob path :
  let input_line := line_string s0 es in
  (forall i, 0 <= i <= len input_line -> path !! i = Some i) ->
  forallb (filled s0) es = true ->
  forallb (clean_edges s0) es = true ->
  exists s' r,
    _update_sequence input_line input_line output_prob path
      (textequiv_map s0 es) (word_map s0 es) (textline_map s0 es) s0 = (s', r)
    /\ (forall h, Unicode (s' h) = Unicode (s0 h))
    /\ (forall h, index (s' h) = index (s0 h))
    /\ (NoDup (handles es) -> r <> Raise StopIteration ->
        mean_confidences output_prob s0 s' 0 es)
    /\ ((exists l0, first_line (textline_map s0 es) = Ok l0) ->
        forallb (fun e : entry => negb (is_synthetic (s0 e.1.1))
                                  || negb (has_token (content s0 e))) es = true ->
        r = Ok es).
Proof.
  intros input_line Hpath Hfilled Hclean.
  apply forallb_filled in Hfilled.
  unfold _update_sequence.
  destruct (first_line (textline_map s0 es)) as [l0| |] eqn:Hline.
  2:{ exists s0, (Raise e). split; [done|]. split; [done|]. split; [done|].
      split.
      - intros _ Hne. exfalso. apply Hne. f_equal.
        unfold first_line in Hline.
        destruct (filter is_Some (values (textline_map s0 es))) as [|[?|] ?]; congruence.
      - by intros [x Hx] _. }
  2:{ unfold first_line in Hline.
      destruct (filter is_Some (values (textline_map s0 es))) as [|[?|] ?]; done. }
  fold input_line.
  unfold input_line at 2 3. rewrite keys_setdefault_layout, setdefault_layout by done.
  fold input_line.
  cbn [EditDistributor.loop EditDistributor.step].
  rewrite (Hpath 0) by (pose proof (len_nonneg input_line); lia).
  destruct (loop_identity input_line output_prob path
              (textequiv_map s0 es ++ [(len input_line, None)])
              (word_map s0 es) (textline_map s0 es) s0 Hpath es s0 0 [] [])
    as (s' & Hloop & HU & HI & HF & HC).
  { apply (covers_layout s0 es 0 [] [] [] [(len (line_string s0 es), None)]); try done.
    all: intros key Hkey; by apply elem_of_nil in Hkey. }
  { done. }
  { done. }
  { done. }
  { done. }
  rewrite Hloop. rewrite bool_decide_eq_true_2 by done. cbn [app].
  exists s', (if forallb (check_not_lost s') es then Ok es else Raise AssertOutputLost).
  split; [by destruct (forallb (check_not_lost s') es)|].
  split; [done|]. split; [done|]. split.
  - intros Hnd _. by apply HC.
  - intros _ Hsyn.
    assert (Hall : forallb (check_not_lost s') es = true).
    { rewrite forallb_forall in Hsyn. apply forallb_forall. intros e He.
      apply Hsyn in He. unfold check_not_lost, is_synthetic. rewrite HU, HI.
      unfold is_synthetic, content in He. by rewrite orb_comm. }
    by rewrite Hall.
Qed.

End UnchangedFacts.

(** C3, as the code has it: when the alignment is effectively the identity
    (with a threshold that is not negative) the hard path maps every input
    offset to itself; and with the output line equal to the input line,
    [_update_sequence] on a line whose elements are not empty and have clean
    edges leaves the content of every object unchanged, while the confidence
    of each element becomes the mean of the output probabilities over its
    range.  The call succeeds when a TextLine is known and no synthetic
    element holds a non-whitespace character. *)
Theorem identity_correction alignment min_score s0 es output_prob :
  let input_line := Layout.line_string s0 es in
  let n := len input_line in
  1 <= n ->
  Qle_bool 0 min_score = true ->
  effectively_identity alignment n min_score = true ->
  forallb (Unchanged.filled s0) es = true ->
  forallb (Unchanged.clean_edges s0) es = true ->
  exists path s' r,
    path_of alignment n n min_score = Ok path
    /\ (forall i, 0 <= i <= n -> path !! i = Some i)
    /\ EditDistributor._update_sequence input_line input_line output_prob path
         (Layout.textequiv_map s0 es) (Layout.word_map s0 es) (Layout.textline_map s0 es)
         s0 = (s', r)
    /\ (forall h, Unicode (s' h) = Unicode (s0 h))
    /\ (NoDup (Layout.handles es) -> r <> Raise StopIteration ->
        Unchanged.mean_confidences output_prob s0 s' 0 es)
    /\ ((exists l0, EditDistributor.first_line (Layout.textline_map s0 es) = Ok l0) ->
        forallb (fun e : EditDistributor.entry =>
                   negb (is_synthetic (s0 e.1.1))
                   || negb (has_token (Layout.content s0 e))) es = true ->
        r = Ok es).
Proof.
  intros input_line n Hn Hmin Hid Hfilled Hclean.
  destruct (identity_path alignment n min_score Hn Hmin Hid) as (path & Hpath & Hident).
  destruct (update_sequence_identity s0 es output_prob path Hident Hfilled Hclean)
    as (s' & r & Hupd & HU & _ & HC & HR).
  exists path, s', r. done.
Qed.

Lemma identity_correction_witness :
  exists path s',
    path_of (identity_alignment 8) 8 8 (1 # 10) = Ok path
    /\ (forall i, 0 <= i <= 8 -> path !! i = Some i)
    /\ EditDistributor._update_sequence (py ("the cat" ++ LF)) (py ("the cat" ++ LF))
         (repeat (9 # 10)%Q 8) path
         (Layout.textequiv_map store_the_cat (line_of 4))
         (Layout.word_map store_the_cat (line_of 4))
         (Layout.textline_map store_the_cat (line_of 4))
         store_the_cat = (s', Ok (line_of 4))
    /\ (forall h, Unicode (s' h) = Unicode (store_the_cat h)).
Proof.
  destruct (identity_correction (identity_alignment 8) (1 # 10) store_the_cat (line_of 4)
              (repeat (9 # 10)%Q 8))
    as (path & s' & r & Hpath & Hident & Hupd & HU & _ & Hok).
  - vm_compute. discriminate.
  - reflexivity.
  - vm_compute. reflexivity.
  - reflexivity.
  - reflexivity.
  - exists path, s'. split; [exact Hpath|]. split; [exact Hident|]. split; [|exact HU].
    rewrite <- Hok; [exact Hupd|eexists; reflexivity|reflexivity].
Defined.

(** The claim of C3 fails in two ways.  On "the cat" with an identical
    output and the identity alignment the line is processed without error,
    but the confidence of "the" goes from 1/2 to the 9/10 of the model.  On
    a line whose second word is " a", the leading space moves from the word
    into the synthetic space before it. *)
Lemma identical_output_changes_spans :
  let r := correct_line store_the_cat (line_of 4) (py ("the cat" ++ LF))
             (repeat (9 # 10)%Q 8) (identity_alignment 8) (1 # 10) in
  let r' := correct_line store_x_a (line_of 4) (py ("x  a" ++ LF))
              (repeat (9 # 10)%Q 5) (identity_alignment 5) (1 # 10) in
  (r.2 = Ok (line_of 4)
   /\ conf (store_the_cat 0%nat) = Some (Float (1 # 2))
   /\ conf (r.1 0%nat) = Some (Float (9 # 10)))
  /\ (r'.2 = Ok (line_of 4)
      /\ Unicode (store_x_a 2%nat) = py " a" /\ Unicode (r'.1 2%nat) = py "a"
      /\ Unicode (store_x_a 1%nat) = py " " /\ Unicode (r'.1 1%nat) = py "  ").
Proof. vm_compute. repeat split. Qed.

(** ** Splitting and merging words *)

Section ResegmenterFacts.
Import Page.

Variable xywh_from_points : str -> xywh.
Variable points_from_xywh : xywh -> str.

Local Abbreviation _split_word_at_space :=
  (_split_word_at_space xywh_from_points points_from_xywh).
Local Abbreviation _merge_words := (_merge_words xywh_from_points points_from_xywh).

Lemma str_index_from_spec c : forall s k p,
  str_index_from k c s = Ok p ->
  exists pre post, s = pre ++ c :: post /\ p = k + len pre /\ c ∉ pre.
Proof.
  induction s as [|x s IH]; intros k p H; simpl in H; [done|].
  destruct (N.eqb_spec x c) as [->|Hne].
  - injection H as <-. exists [], s. split; [done|]. split; [unfold len; simpl; lia|].
    apply not_elem_of_nil.
  - apply IH in H as (pre & post & -> & -> & Hnot).
    exists (x :: pre), post. split; [done|]. split.
    + unfold len. simpl length. lia.
    + intros Hin. apply elem_of_cons in Hin as [->|Hin]; done.
Qed.

Lemma str_index_from_found c : forall s k,
  contains c s = true -> exists p, str_index_from k c s = Ok p.
Proof.
  induction s as [|x s IH]; intros k H; simpl in *; [done|].
  rewrite N.eqb_sym in H. destruct (x =? c)%N; [eauto|]. by apply IH.
Qed.

Lemma py_slice_prefix {A} (pre post : list A) x :
  py_slice (pre ++ x :: post) 0 (len pre) = pre.
Proof.
  pose proof (len_nonneg pre).
  rewrite py_slice_in; [|lia|lia|rewrite len_app; pose proof (len_nonneg (x :: post)); lia].
  rewrite Z.sub_0_r. change (Z.to_nat 0) with 0%nat. rewrite drop_0.
  unfold len. rewrite Nat2Z.id. by rewrite take_app_length.
Qed.

Lemma py_slice_suffix {A} (pre post : list A) x :
  py_slice (pre ++ x :: post) (len pre + 1) (len (pre ++ x :: post)) = post.
Proof.
  pose proof (len_nonneg pre). pose proof (len_nonneg post).
  assert (Hl : len (pre ++ x :: post) = len pre + 1 + len post).
  { rewrite len_app. unfold len. simpl length. lia. }
  rewrite py_slice_in; [|lia|lia|lia].
  rewrite Hl. replace (len pre + 1 + len post - (len pre + 1)) with (len post) by lia.
  unfold len. rewrite Nat2Z.id.
  replace (Z.to_nat (Z.of_nat (length pre) + 1)) with (length (pre ++ [x]))
    by (rewrite length_app; simpl; lia).
  rewrite (cons_middle x pre post), app_assoc, drop_app_length.
  apply firstn_all.
Qed.

Lemma py_index_0 {A} (x : A) l : py_index (x :: l) 0 = Ok x.
Proof.
  unfold py_index, norm_index. simpl (0 <=? 0).
  destruct (Z.ltb_spec 0 (Z.of_nat (length (x :: l)))); [done|].
  simpl in *. lia.
Qed.

(** C10: for a word whose first TextEquiv has a space in its content, with
    [p] the index of the first one, [_split_word_at_space] returns two new
    words; their TextEquivs hold the characters before [p] and those after
    [p], so that the content is the first part, the space and the second
    part; both carry the confidence of the original; and their boxes have
    the widths [w * (p / len)] and [w * (1 - p / len)] of the original
    width [w], the second one starting at [x + w * (p / len)]. *)
Theorem split_word_at_space_parts h w t rest :
  word_TextEquiv (words h w) = t :: rest ->
  contains SPACE (Unicode (tes h t)) = true ->
  let u := Unicode (tes h t) in
  let box := xywh_from_points (word_points (words h w)) in
  exists p h' prev_ next_ tp tn,
    str_index SPACE u = Ok p
    /\ 0 <= p < len u
    /\ _split_word_at_space h w = Ok (h', prev_, next_)
    /\ prev_ <> next_
    /\ word_TextEquiv (words h' prev_) = [tp]
    /\ word_TextEquiv (words h' next_) = [tn]
    /\ Unicode (tes h' tp) = take (Z.to_nat p) u
    /\ Unicode (tes h' tn) = drop (Z.to_nat (p + 1)) u
    /\ u = Unicode (tes h' tp) ++ [SPACE] ++ Unicode (tes h' tn)
    /\ (SPACE ∉ Unicode (tes h' tp))
    /\ conf (tes h' tp) = conf (tes h t)
    /\ conf (tes h' tn) = conf (tes h t)
    /\ word_points (words h' prev_)
       = points_from_xywh
           (XYWH (box_x box) (box_y box) (box_w box * fraction p (len u)) (box_h box))
    /\ word_points (words h' next_)
       = points_from_xywh
           (XYWH (box_x box + box_w box * fraction p (len u)) (box_y box)
              (box_w box * (1 - fraction p (len u))) (box_h box)).
Proof.
  intros Hte Hsp u box.
  destruct (str_index_from_found SPACE u 0 Hsp) as [p Hp].
  pose proof (str_index_from_spec SPACE u 0 p Hp) as (pre & post & Hu & Hpos & Hnot).
  rewrite Z.add_0_l in Hpos. subst p.
  pose proof (len_nonneg pre) as Hpre.
  assert (Hlen : len u = len pre + 1 + len post).
  { rewrite Hu, len_app. unfold len. simpl length. lia. }
  pose proof (len_nonneg post) as Hpost.
  eexists (len pre), _, (word_next h), (S (word_next h)), (te_next h), (S (te_next h)).
  split; [exact Hp|]. split; [lia|].
  split.
  { unfold Page._split_word_at_space. rewrite Hte, py_index_0. cbn [bind].
    fold u. unfold str_index. rewrite Hp. reflexivity. }
  split; [lia|].
  cbn [new_Word new_TextEquiv words tes te_next word_next fst snd].
  rewrite !upd_same. rewrite (upd_other _ _ _ (word_next h)) by lia. rewrite upd_same.
  rewrite (upd_other _ _ _ (te_next h)) by lia. rewrite upd_same.
  cbn [word_TextEquiv word_points Unicode conf].
  assert (Hprefix : py_slice u 0 (len pre) = pre) by (rewrite Hu; apply py_slice_prefix).
  assert (Hsuffix : py_slice u (len pre + 1) (len u) = post).
  { rewrite Hu at 1. rewrite Hu at 1. apply py_slice_suffix. }
  rewrite Hprefix, Hsuffix.
  assert (Htake : take (Z.to_nat (len pre)) u = pre).
  { rewrite Hu. unfold len. rewrite Nat2Z.id. by rewrite take_app_length. }
  assert (Hdrop : drop (Z.to_nat (len pre + 1)) u = post).
  { rewrite Hu. unfold len.
    replace (Z.to_nat (Z.of_nat (length pre) + 1)) with (length (pre ++ [SPACE]))
      by (rewrite length_app; simpl; lia).
    by rewrite (cons_middle SPACE pre post), app_assoc, drop_app_length. }
  rewrite Htake, Hdrop. do 6 (split; [done|]). done.
Qed.

(** What [_merge_words] does to the texts when both words have a
    TextEquiv: the new word takes over the TextEquiv list of the first
    word, whose first element gets the content of the second appended, and
    the product of the confidences if both are set and not zero. *)
Lemma merge_words_spec h p n tp restp tn restn :
  word_TextEquiv (words h p) = tp :: restp ->
  word_TextEquiv (words h n) = tn :: restn ->
  tp <> tn ->
  exists h',
    _merge_words h p n = Ok (h', word_next h)
    /\ word_TextEquiv (words h' (word_next h)) = tp :: restp
    /\ Unicode (tes h' tp) = Unicode (tes h tp) ++ Unicode (tes h tn)
    /\ conf (tes h' tp) =
         (if truthy_conf (conf (tes h tp)) && truthy_conf (conf (tes h tn))
          then match conf (tes h tp), conf (tes h tn) with
               | Some a, Some b => Some (mul_float a b)
               | _, _ => conf (tes h tp)
               end
          else conf (tes h tp))
    /\ (forall t, t <> tp -> tes h' t = tes h t)
    /\ lines h' = lines h.
Proof.
  intros Hp Hn Hne. unfold Page._merge_words. rewrite Hp, Hn. cbn [EditDistributor.nonempty].
  rewrite !py_index_0. cbn [bind].
  unfold set_Unicode at 1 2 3 4. rewrite !upd_same. rewrite (upd_other _ _ _ tn) by done.
  cbn [conf].
  destruct (truthy_conf (conf (tes h tp)) && truthy_conf (conf (tes h tn))) eqn:E.
  - apply andb_true_iff in E as [E1 E2].
    destruct (conf (tes h tp)) as [a|] eqn:Ea; [|done].
    destruct (conf (tes h tn)) as [b|] eqn:Eb; [|done].
    cbn [mul_conf bind]. eexists. split; [reflexivity|].
    cbn [new_Word with_tes words tes lines fst snd]. rewrite upd_same.
    cbn [word_TextEquiv]. split; [done|].
    unfold set_conf, set_Unicode. rewrite !upd_same. cbn [Unicode conf].
    do 2 (split; [done|]). split; [|done].
    intros t Ht. rewrite !upd_other; done.
  - eexists. split; [reflexivity|].
    cbn [new_Word with_tes words tes lines fst snd]. rewrite upd_same.
    cbn [word_TextEquiv]. split; [done|].
    unfold set_Unicode. rewrite !upd_same. cbn [Unicode conf].
    do 2 (split; [done|]). split; [|done].
    intros t Ht. rewrite !upd_other; done.
Qed.

End ResegmenterFacts.

Lemma split_word_at_space_parts_witness :
  exists h' prev_ next_ tp tn,
    Page._split_word_at_space Examples.box_100 Examples.any_points Examples.heap_a_lot 0%nat
      = Ok (h', prev_, next_)
    /\ Page.word_TextEquiv (Page.words h' prev_) = [tp]
    /\ Page.word_TextEquiv (Page.words h' next_) = [tn]
    /\ Unicode (Page.tes h' tp) = py "a"
    /\ Unicode (Page.tes h' tn) = py "lot"
    /\ conf (Page.tes h' tp) = Some (Float (9 # 10))
    /\ conf (Page.tes h' tn) = Some (Float (9 # 10)).
Proof.
  destruct (split_word_at_space_parts Examples.box_100 Examples.any_points
              Examples.heap_a_lot 0%nat 0%nat [] eq_refl eq_refl)
    as (p & h' & prev_ & next_ & tp & tn & Hp & _ & Hrun & _ & H1 & H2 & H3 & H4 & _ & _
        & H5 & H6 & _).
  injection Hp as <-.
  exists h', prev_, next_, tp, tn. repeat split; assumption.
Defined.

(** C8 fails on the line "a b c" corrected to "abc": after the first merge
    the word before the second deleted space is no longer in the word list
    of the line, so the second merged word is not put in, while the word
    after the space is taken out.  The line is left with the one word "ab". *)
Lemma chained_merges_lose_a_word :
  match Examples.resegment Examples.heap_abc Examples.sequence_abc Page.word with
  | Ok h' =>
      Page.line_Word (Page.lines Examples.heap_abc 0%nat) = [0; 1; 2]%nat
      /\ Page.line_Word (Page.lines h' 0%nat) = [3%nat]
      /\ Examples.line_words_text h' 0%nat = [py "ab"]
  | _ => False
  end.
Proof. vm_compute. repeat split. Qed.

(** A single merge does what C8 says, on "can not" corrected to "cannot". *)
Lemma single_merge_joins_words :
  match Examples.resegment Examples.heap_cannot Examples.sequence_cannot Page.word with
  | Ok h' =>
      Page.line_Word (Page.lines h' 0%nat) = [2%nat]
      /\ Examples.line_words_text h' 0%nat = [py "cannot"]
      /\ conf (Page.tes h' 0%nat) = Some (Float (18 # 25))
  | _ => False
  end.
Proof. vm_compute. repeat split. Qed.

(** With a confidence of 0.0 on the second word the product is not taken:
    the merged word keeps the 0.9 of the first. *)
Lemma merge_skips_zero_confidence :
  match Examples.resegment Examples.heap_cannot_zero Examples.sequence_cannot Page.word with
  | Ok h' =>
      Examples.line_words_text h' 0%nat = [py "cannot"]
      /\ conf (Page.tes h' 0%nat) = Some (Float (9 # 10))
  | _ => False
  end.
Proof. vm_compute. repeat split. Qed.

(** ** Propagation to the higher levels *)

Section LevelPropagatorFacts.
Import Page LevelPropagator Consistency.

Lemma extends_refl h : extends h h.
Proof. repeat split; done. Qed.

Lemma extends_trans h1 h2 h3 : extends h1 h2 -> extends h2 h3 -> extends h1 h3.
Proof.
  intros (A1 & A2 & A3 & A4 & A5 & A6) (B1 & B2 & B3 & B4 & B5 & B6).
  split; [lia|]. split.
  { intros t Ht. rewrite B2 by lia. by apply A2. }
  split; [intros g; by rewrite B3|]. split; [intros w; by rewrite B4|].
  split; [intros l; by rewrite B5|]. intros r; by rewrite B6.
Qed.

Lemma first_stable h h' (ts : list handle) :
  (forall t, t ∈ ts -> (t < te_next h)%nat) -> extends h h' ->
  first_Unicode h' ts = first_Unicode h ts /\ first_conf h' ts = first_conf h ts.
Proof.
  intros Hts (_ & Htes & _). destruct ts as [|t ts]; [done|]. simpl.
  rewrite Htes; [done|]. apply Hts. by left.
Qed.

Lemma word_value_stable h h' w :
  created h -> extends h h' ->
  word_unicode h' w = word_unicode h w /\ word_conf h' w = word_conf h w.
Proof.
  intros (Hg & _ & _ & _) Hext. pose proof Hext as (_ & _ & Hgl & Hwg & _).
  unfold word_unicode, word_conf. rewrite Hwg.
  assert (Hmap : forall g,
            first_Unicode h' (glyph_TextEquiv (glyphs h' g))
              = first_Unicode h (glyph_TextEquiv (glyphs h g))
            /\ first_conf h' (glyph_TextEquiv (glyphs h' g))
              = first_conf h (glyph_TextEquiv (glyphs h g))).
  { intros g. rewrite Hgl. apply first_stable; [|done]. apply Hg. }
  split; f_equal; apply map_ext; intros g; apply Hmap.
Qed.

Lemma line_value_stable h h' l :
  extends h h' ->
  (forall w, w ∈ line_Word (lines h l) ->
     first_Unicode h' (word_TextEquiv (words h' w))
       = first_Unicode h (word_TextEquiv (words h w))
     /\ first_conf h' (word_TextEquiv (words h' w))
       = first_conf h (word_TextEquiv (words h w))) ->
  line_unicode h' l = line_unicode h l /\ line_conf h' l = line_conf h l.
Proof.
  intros (_ & _ & _ & _ & Hlw & _) Hw. unfold line_unicode, line_conf. rewrite Hlw.
  split; f_equal; apply map_ext_in; intros w Hin; apply Hw; by apply list_elem_of_In.
Qed.

Lemma region_value_stable h h' r :
  extends h h' ->
  (forall l, l ∈ region_TextLine (regions h r) ->
     first_Unicode h' (line_TextEquiv (lines h' l))
       = first_Unicode h (line_TextEquiv (lines h l))
     /\ first_conf h' (line_TextEquiv (lines h' l))
       = first_conf h (line_TextEquiv (lines h l))) ->
  region_unicode h' r = region_unicode h r /\ region_conf h' r = region_conf h r.
Proof.
  intros (_ & _ & _ & _ & _ & Hrl) Hl. unfold region_unicode, region_conf. rewrite Hrl.
  split; f_equal; apply map_ext_in; intros l Hin; apply Hl; by apply list_elem_of_In.
Qed.

(** The first text and confidence of a finished word or line are its
    computed values. *)
Lemma word_done_first h w c :
  word_done h w -> word_conf h w = Ok c ->
  first_Unicode h (word_TextEquiv (words h w)) = word_unicode h w
  /\ first_conf h (word_TextEquiv (words h w)) = Some c.
Proof.
  intros (t & c' & Ht & Hc & Htes) Hc'. rewrite Ht. simpl. rewrite Htes. simpl.
  split; [done|]. congruence.
Qed.

Lemma line_done_first h l c :
  line_done h l -> line_conf h l = Ok c ->
  first_Unicode h (line_TextEquiv (lines h l)) = line_unicode h l
  /\ first_conf h (line_TextEquiv (lines h l)) = Some c.
Proof.
  intros (t & c' & Ht & Hc & Htes) Hc'. rewrite Ht. simpl. rewrite Htes. simpl.
  split; [done|]. congruence.
Qed.

Lemma word_done_values h h' w :
  word_done h w -> word_done h' w ->
  word_unicode h' w = word_unicode h w -> word_conf h' w = word_conf h w ->
  first_Unicode h' (word_TextEquiv (words h' w))
    = first_Unicode h (word_TextEquiv (words h w))
  /\ first_conf h' (word_TextEquiv (words h' w))
    = first_conf h (word_TextEquiv (words h w)).
Proof.
  intros Hd Hd' Hu Hc.
  pose proof Hd as (_ & c & _ & Hconf & _).
  destruct (word_done_first h w c Hd Hconf) as [-> ->].
  rewrite <- Hc in Hconf.
  destruct (word_done_first h' w c Hd' Hconf) as [-> ->]. done.
Qed.

Lemma line_done_values h h' l :
  line_done h l -> line_done h' l ->
  line_unicode h' l = line_unicode h l -> line_conf h' l = line_conf h l ->
  first_Unicode h' (line_TextEquiv (lines h' l))
    = first_Unicode h (line_TextEquiv (lines h l))
  /\ first_conf h' (line_TextEquiv (lines h' l))
    = first_conf h (line_TextEquiv (lines h l)).
Proof.
  intros Hd Hd' Hu Hc.
  pose proof Hd as (_ & c & _ & Hconf & _).
  destruct (line_done_first h l c Hd Hconf) as [-> ->].
  rewrite <- Hc in Hconf.
  destruct (line_done_first h' l c Hd' Hconf) as [-> ->]. done.
Qed.

(** *** The three writes *)

Lemma update_word_step h w h' :
  update_word h w = Ok h' -> created h ->
  extends h h' /\ created h' /\ word_done h' w
  /\ (forall w', w' <> w -> words h' w' = words h w')
  /\ (forall l, lines h' l = lines h l)
  /\ (forall r, regions h' r = regions h r).
Proof.
  unfold update_word. intros H Hcr.
  destruct (word_conf h w) as [c| |] eqn:Hc; [|done..]. cbn [bind] in H.
  injection H as <-.
  assert (Hext : extends h
            (set_word_TextEquiv
               (new_TextEquiv h (TextEquiv (word_unicode h w) (Some c) None)).1 w
               [te_next h])).
  { split; [simpl; lia|]. split.
    { intros t Ht. simpl. apply upd_other. lia. }
    split; [done|]. split.
    { intros w'. simpl. destruct (decide (w' = w)) as [->|Hne].
      - by rewrite upd_same.
      - by rewrite upd_other. }
    split; done. }
  cbn [new_TextEquiv fst snd] in *.
  split; [exact Hext|].
  destruct Hcr as (Hg & Hw & Hl & Hr).
  split; [|split; [|split; [|split]]].
  - split; [|split; [|split]].
    + intros g t Ht. simpl in *. apply Hg in Ht. lia.
    + intros w' t Ht. simpl in *. destruct (decide (w' = w)) as [->|Hne].
      * rewrite upd_same in Ht. simpl in Ht. apply list_elem_of_singleton in Ht. lia.
      * rewrite upd_other in Ht by done. apply Hw in Ht. lia.
    + intros l t Ht. simpl in *. apply Hl in Ht. lia.
    + intros r t Ht. simpl in *. apply Hr in Ht. lia.
  - exists (te_next h), c.
    destruct (word_value_stable h _ w (conj Hg (conj Hw (conj Hl Hr))) Hext) as [-> ->].
    split; [simpl; by rewrite upd_same|]. split; [done|].
    simpl. by rewrite upd_same.
  - intros w' Hne. simpl. by rewrite upd_other.
  - done.
  - done.
Qed.

Lemma finish_line_step h l h' :
  finish_line h l = Ok h' -> created h ->
  extends h h' /\ created h' /\ line_done h' l
  /\ (forall w, words h' w = words h w)
  /\ (forall l', l' <> l -> lines h' l' = lines h l')
  /\ (forall r, regions h' r = regions h r).
Proof.
  unfold finish_line. intros H Hcr.
  destruct (line_conf h l) as [c| |] eqn:Hc; [|done..]. cbn [bind] in H.
  injection H as <-.
  assert (Hext : extends h
            (set_line_TextEquiv
               (new_TextEquiv h (TextEquiv (line_unicode h l) (Some c) None)).1 l
               [te_next h])).
  { split; [simpl; lia|]. split.
    { intros t Ht. simpl. apply upd_other. lia. }
    split; [done|]. split; [done|]. split.
    { intros l'. simpl. destruct (decide (l' = l)) as [->|Hne].
      - by rewrite upd_same.
      - by rewrite upd_other. }
    done. }
  cbn [new_TextEquiv fst snd] in *.
  split; [exact Hext|].
  destruct Hcr as (Hg & Hw & Hl & Hr).
  split; [|split; [|split; [|split]]].
  - split; [|split; [|split]].
    + intros g t Ht. simpl in *. apply Hg in Ht. lia.
    + intros w' t Ht. simpl in *. apply Hw in Ht. lia.
    + intros l' t Ht. simpl in *. destruct (decide (l' = l)) as [->|Hne].
      * rewrite upd_same in Ht. simpl in Ht. apply list_elem_of_singleton in Ht. lia.
      * rewrite upd_other in Ht by done. apply Hl in Ht. lia.
    + intros r t Ht. simpl in *. apply Hr in Ht. lia.
  - exists (te_next h), c.
    assert (Hval : line_unicode
                     (set_line_TextEquiv
                        (Heap (upd (tes h) (te_next h)
                                 (TextEquiv (line_unicode h l) (Some c) None))
                           (S (te_next h)) (words h) (word_next h) (glyphs h)
                           (lines h) (regions h)) l [te_next h]) l
                   = line_unicode h l
                   /\ line_conf
                        (set_line_TextEquiv
                           (Heap (upd (tes h) (te_next h)
                                    (TextEquiv (line_unicode h l) (Some c) None))
                              (S (te_next h)) (words h) (word_next h) (glyphs h)
                              (lines h) (regions h)) l [te_next h]) l
                      = line_conf h l).
    { apply line_value_stable; [exact Hext|].
      intros w _. apply first_stable; [|exact Hext]. apply Hw. }
    destruct Hval as [-> ->].
    split; [simpl; by rewrite upd_same|]. split; [done|].
    simpl. by rewrite upd_same.
  - done.
  - intros l' Hne. simpl. by rewrite upd_other.
  - done.
Qed.

Lemma finish_region_step h r h' :
  finish_region h r = Ok h' -> created h ->
  extends h h' /\ created h' /\ region_done h' r
  /\ (forall w, words h' w = words h w)
  /\ (forall l, lines h' l = lines h l)
  /\ (forall r', r' <> r -> regions h' r' = regions h r').
Proof.
  unfold finish_region. intros H Hcr.
  destruct (region_conf h r) as [c| |] eqn:Hc; [|done..]. cbn [bind] in H.
  injection H as <-.
  assert (Hext : extends h
            (set_region_TextEquiv
               (new_TextEquiv h (TextEquiv (region_unicode h r) (Some c) None)).1 r
               [te_next h])).
  { split; [simpl; lia|]. split.
    { intros t Ht. simpl. apply upd_other. lia. }
    split; [done|]. split; [done|]. split; [done|].
    intros r'. simpl. destruct (decide (r' = r)) as [->|Hne].
    - by rewrite upd_same.
    - by rewrite upd_other. }
  cbn [new_TextEquiv fst snd] in *.
  split; [exact Hext|].
  destruct Hcr as (Hg & Hw & Hl & Hr).
  split; [|split; [|split; [|split]]].
  - split; [|split; [|split]].
    + intros g t Ht. simpl in *. apply Hg in Ht. lia.
    + intros w' t Ht. simpl in *. apply Hw in Ht. lia.
    + intros l' t Ht. simpl in *. apply Hl in Ht. lia.
    + intros r' t Ht. simpl in *. destruct (decide (r' = r)) as [->|Hne].
      * rewrite upd_same in Ht. simpl in Ht. apply list_elem_of_singleton in Ht. lia.
      * rewrite upd_other in Ht by done. apply Hr in Ht. lia.
  - exists (te_next h), c.
    assert (Hval : region_unicode
                     (set_region_TextEquiv
                        (Heap (upd (tes h) (te_next h)
                                 (TextEquiv (region_unicode h r) (Some c) None))
                           (S (te_next h)) (words h) (word_next h) (glyphs h)
                           (lines h) (regions h)) r [te_next h]) r
                   = region_unicode h r
                   /\ region_conf
                        (set_region_TextEquiv
                           (Heap (upd (tes h) (te_next h)
                                    (TextEquiv (region_unicode h r) (Some c) None))
                              (S (te_next h)) (words h) (word_next h) (glyphs h)
                              (lines h) (regions h)) r [te_next h]) r
                      = region_conf h r).
    { apply region_value_stable; [exact Hext|].
      intros l _. apply first_stable; [|exact Hext]. apply Hl. }
    destruct Hval as [-> ->].
    split; [simpl; by rewrite upd_same|]. split; [done|].
    simpl. by rewrite upd_same.
  - done.
  - done.
  - intros r' Hne. simpl. by rewrite upd_other.
Qed.

(** *** What is finished stays finished *)

Lemma word_done_kept h h' w :
  created h -> extends h h' -> words h' w = words h w ->
  word_done h w -> word_done h' w.
Proof.
  intros Hcr Hext Hsame (t & c & Ht & Hc & Htes).
  pose proof Hcr as (_ & Hw & _). pose proof Hext as (_ & Hstable & _).
  destruct (word_value_stable h h' w Hcr Hext) as [Hu Hco].
  exists t, c. rewrite Hsame, Hu, Hco. split; [done|]. split; [done|].
  rewrite Hstable; [done|]. apply (Hw w). rewrite Ht. by left.
Qed.

Lemma line_done_kept h h' l :
  created h -> extends h h' -> lines h' l = lines h l ->
  line_unicode h' l = line_unicode h l -> line_conf h' l = line_conf h l ->
  line_done h l -> line_done h' l.
Proof.
  intros Hcr Hext Hsame Hu Hco (t & c & Ht & Hc & Htes).
  pose proof Hcr as (_ & _ & Hl & _). pose proof Hext as (_ & Hstable & _).
  exists t, c. rewrite Hsame, Hu, Hco. split; [done|]. split; [done|].
  rewrite Hstable; [done|]. apply (Hl l). rewrite Ht. by left.
Qed.

Lemma region_done_kept h h' r :
  created h -> extends h h' -> regions h' r = regions h r ->
  region_unicode h' r = region_unicode h r -> region_conf h' r = region_conf h r ->
  region_done h r -> region_done h' r.
Proof.
  intros Hcr Hext Hsame Hu Hco (t & c & Ht & Hc & Htes).
  pose proof Hcr as (_ & _ & _ & Hr). pose proof Hext as (_ & Hstable & _).
  exists t, c. rewrite Hsame, Hu, Hco. split; [done|]. split; [done|].
  rewrite Hstable; [done|]. apply (Hr r). rewrite Ht. by left.
Qed.

(** The first text of an object that was not written to. *)
Lemma untouched_word_first h h' w :
  created h -> extends h h' -> words h' w = words h w ->
  first_Unicode h' (word_TextEquiv (words h' w))
    = first_Unicode h (word_TextEquiv (words h w))
  /\ first_conf h' (word_TextEquiv (words h' w))
    = first_conf h (word_TextEquiv (words h w)).
Proof.
  intros (_ & Hw & _) Hext ->. apply first_stable; [apply Hw|done].
Qed.

Lemma untouched_line_first h h' l :
  created h -> extends h h' -> lines h' l = lines h l ->
  first_Unicode h' (line_TextEquiv (lines h' l))
    = first_Unicode h (line_TextEquiv (lines h l))
  /\ first_conf h' (line_TextEquiv (lines h' l))
    = first_conf h (line_TextEquiv (lines h l)).
Proof.
  intros (_ & _ & Hl & _) Hext ->. apply first_stable; [apply Hl|done].
Qed.

Lemma progress_update_word lower dw dl dr h w h' :
  progress true lower dw dl dr h -> update_word h w = Ok h' ->
  progress true lower (w :: dw) dl dr h' /\ extends h h'.
Proof.
  intros (Hcr & HW & HL & HR) Hupd.
  destruct (update_word_step h w h' Hupd Hcr)
    as (Hext & Hcr' & Hdone & Hwords & Hlines & Hregions).
  assert (Hw_all : forall w0, w0 ∈ w :: dw -> word_done h' w0).
  { intros w0 Hin. destruct (decide (w0 = w)) as [->|Hne]; [done|].
    apply elem_of_cons in Hin as [?|Hin]; [done|].
    apply (word_done_kept h); [done|done|by apply Hwords|by apply HW]. }
  assert (Hl_all : forall l, l ∈ dl ->
            line_unicode h' l = line_unicode h l /\ line_conf h' l = line_conf h l).
  { intros l Hl. destruct (HL l Hl) as [_ Hsub].
    apply line_value_stable; [done|]. intros w0 Hw0.
    assert (Hin : w0 ∈ dw) by (by apply Hsub).
    destruct (word_value_stable h h' w0 Hcr Hext) as [Hu Hco].
    apply word_done_values; [by apply HW|apply Hw_all; by right|done|done]. }
  split; [|done]. split; [done|]. split; [done|]. split.
  - intros l Hl. destruct (HL l Hl) as [Hld Hsub]. split.
    + destruct (Hl_all l Hl) as [Hu Hco]. by apply (line_done_kept h).
    + intros _ w0 Hw0. rewrite Hlines in Hw0. right. by apply Hsub.
  - intros r Hr. destruct (HR r Hr) as [Hrd Hsub]. split.
    + assert (region_unicode h' r = region_unicode h r
              /\ region_conf h' r = region_conf h r) as [Hu Hco].
      { apply region_value_stable; [done|]. intros l _.
        by apply untouched_line_first. }
      by apply (region_done_kept h).
    + intros Hlow l Hl. rewrite Hregions in Hl. by apply Hsub.
Qed.

Lemma progress_finish_line deep dw dl dr h l h' :
  progress deep true dw dl dr h ->
  (deep = true -> forall w, w ∈ line_Word (lines h l) -> w ∈ dw) ->
  finish_line h l = Ok h' ->
  progress deep true dw (l :: dl) dr h' /\ extends h h'.
Proof.
  intros (Hcr & HW & HL & HR) Hsub_l Hfin.
  destruct (finish_line_step h l h' Hfin Hcr)
    as (Hext & Hcr' & Hdone & Hwords & Hlines & Hregions).
  pose proof Hext as (_ & _ & _ & _ & Hlw & _).
  assert (Hval : forall l0, line_unicode h' l0 = line_unicode h l0
                            /\ line_conf h' l0 = line_conf h l0).
  { intros l0. apply line_value_stable; [done|]. intros w0 _.
    by apply untouched_word_first. }
  assert (Hl_all : forall l0, l0 ∈ l :: dl -> line_done h' l0).
  { intros l0 Hin. destruct (decide (l0 = l)) as [->|Hne]; [done|].
    apply elem_of_cons in Hin as [?|Hin]; [done|].
    destruct (Hval l0) as [Hu Hco]. destruct (HL l0 Hin) as [Hld _].
    apply (line_done_kept h); [done|done|by apply Hlines|done|done|done]. }
  split; [|done]. split; [done|]. split.
  { intros w0 Hw0. apply (word_done_kept h); [done|done|by apply Hwords|by apply HW]. }
  split.
  - intros l0 Hin. split; [by apply Hl_all|].
    intros Hdeep w0 Hw0. rewrite Hlw in Hw0.
    apply elem_of_cons in Hin as [->|Hin]; [by apply Hsub_l|].
    destruct (HL l0 Hin) as [_ Hsub]. by apply Hsub.
  - intros r Hr. destruct (HR r Hr) as [Hrd Hsub]. split.
    + assert (region_unicode h' r = region_unicode h r
              /\ region_conf h' r = region_conf h r) as [Hu Hco].
      { apply region_value_stable; [done|]. intros l0 Hl0.
        assert (Hin : l0 ∈ dl) by (by apply Hsub).
        destruct (Hval l0) as [Hu Hco]. destruct (HL l0 Hin) as [Hld _].
        apply line_done_values; [done|apply Hl_all; by right|done|done]. }
      by apply (region_done_kept h).
    + intros _ l0 Hl0. rewrite Hregions in Hl0. right. by apply Hsub.
Qed.

Lemma progress_finish_region deep lower dw dl dr h r h' :
  progress deep lower dw dl dr h ->
  (lower = true -> forall l, l ∈ region_TextLine (regions h r) -> l ∈ dl) ->
  finish_region h r = Ok h' ->
  progress deep lower dw dl (r :: dr) h' /\ extends h h'.
Proof.
  intros (Hcr & HW & HL & HR) Hsub_r Hfin.
  destruct (finish_region_step h r h' Hfin Hcr)
    as (Hext & Hcr' & Hdone & Hwords & Hlines & Hregions).
  pose proof Hext as (_ & _ & _ & _ & Hlw & Hrl).
  assert (Hlval : forall l0, line_unicode h' l0 = line_unicode h l0
                             /\ line_conf h' l0 = line_conf h l0).
  { intros l0. apply line_value_stable; [done|]. intros w0 _.
    by apply untouched_word_first. }
  assert (Hrval : forall r0, region_unicode h' r0 = region_unicode h r0
                             /\ region_conf h' r0 = region_conf h r0).
  { intros r0. apply region_value_stable; [done|]. intros l0 _.
    by apply untouched_line_first. }
  split; [|done]. split; [done|]. split.
  { intros w0 Hw0. apply (word_done_kept h); [done|done|by apply Hwords|by apply HW]. }
  split.
  - intros l0 Hin. destruct (HL l0 Hin) as [Hld Hsub]. split.
    + destruct (Hlval l0) as [Hu Hco].
      apply (line_done_kept h); [done|done|by apply Hlines|done|done|done].
    + intros Hdeep w0 Hw0. rewrite Hlw in Hw0. by apply Hsub.
  - intros r0 Hin. destruct (decide (r0 = r)) as [->|Hne].
    + split; [done|]. intros Hlow l0 Hl0. rewrite Hrl in Hl0. by apply Hsub_r.
    + apply elem_of_cons in Hin as [?|Hin]; [done|].
      destruct (HR r0 Hin) as [Hrd Hsub]. split.
      * destruct (Hrval r0) as [Hu Hco].
        apply (region_done_kept h); [done|done|by apply Hregions|done|done|done].
      * intros Hlow l0 Hl0. rewrite Hrl in Hl0. by apply Hsub.
Qed.

(** The lists of finished objects only matter as sets. *)
Lemma progress_subset deep lower dw dl dr dw' dl' dr' h :
  progress deep lower dw dl dr h ->
  (forall w, w ∈ dw' <-> w ∈ dw) -> (forall l, l ∈ dl' <-> l ∈ dl) ->
  (forall r, r ∈ dr' <-> r ∈ dr) ->
  progress deep lower dw' dl' dr' h.
Proof.
  intros (Hcr & HW & HL & HR) Ew El Er. split; [done|]. split.
  { intros w Hw. apply HW. by apply Ew. }
  split.
  - intros l Hl. apply El in Hl. destruct (HL l Hl) as [Hld Hsub]. split; [done|].
    intros Hd w Hw. apply Ew. by apply Hsub.
  - intros r Hr. apply Er in Hr. destruct (HR r Hr) as [Hrd Hsub]. split; [done|].
    intros Hl l Hl0. apply El. by apply Hsub.
Qed.

(** *** The loops *)

Lemma elem_of_cons_app_swap {A} (x y : A) (l1 l2 : list A) :
  x ∈ (y :: l1) ++ l2 <-> x ∈ l1 ++ y :: l2.
Proof.
  change ((y :: l1) ++ l2) with (y :: (l1 ++ l2)).
  rewrite elem_of_cons, !elem_of_app, elem_of_cons. tauto.
Qed.

Lemma progress_update_words lower : forall ws dw dl dr h h',
  progress true lower dw dl dr h -> update_words h ws = Ok h' ->
  progress true lower (ws ++ dw) dl dr h' /\ extends h h'.
Proof.
  induction ws as [|w ws IH]; intros dw dl dr h h' Hp Hupd; simpl in Hupd.
  - injection Hupd as <-. split; [done|apply extends_refl].
  - destruct (update_word h w) as [h1| |] eqn:E; [|done..]. cbn [bind] in Hupd.
    destruct (progress_update_word _ _ _ _ _ _ _ Hp E) as [Hp1 Hext1].
    destruct (IH _ _ _ _ _ Hp1 Hupd) as [Hp2 Hext2].
    split; [|by eapply extends_trans].
    eapply progress_subset; [exact Hp2| |done|done].
    intros w0. apply elem_of_cons_app_swap.
Qed.

Lemma progress_update_line level dw dl dr h l h' :
  progress (negb (level_eqb level word)) true dw dl dr h ->
  update_line level h l = Ok h' ->
  exists dw',
    progress (negb (level_eqb level word)) true dw' (l :: dl) dr h'
    /\ (forall w, w ∈ dw -> w ∈ dw') /\ extends h h'.
Proof.
  intros Hp Hupd. unfold update_line in Hupd.
  destruct (negb (level_eqb level word)) eqn:Edeep.
  - destruct (update_words h (line_Word (lines h l))) as [h1| |] eqn:E; [|done..].
    cbn [bind] in Hupd.
    destruct (progress_update_words _ _ _ _ _ _ _ Hp E) as [Hp1 Hext1].
    pose proof Hext1 as (_ & _ & _ & _ & Hlw & _).
    assert (Hsub : true = true -> forall w, w ∈ line_Word (lines h1 l) ->
                                   w ∈ line_Word (lines h l) ++ dw).
    { intros _ w Hw. rewrite Hlw in Hw. apply elem_of_app. by left. }
    destruct (progress_finish_line _ _ _ _ _ _ _ Hp1 Hsub Hupd) as [Hp2 Hext2].
    exists (line_Word (lines h l) ++ dw). split; [done|]. split.
    + intros w Hw. apply elem_of_app. by right.
    + by eapply extends_trans.
  - cbn [bind] in Hupd.
    assert (Hsub : false = true -> forall w, w ∈ line_Word (lines h l) -> w ∈ dw) by done.
    destruct (progress_finish_line _ _ _ _ _ _ _ Hp Hsub Hupd) as [Hp2 Hext2].
    exists dw. done.
Qed.

Lemma progress_update_lines level : forall ls dw dl dr h h',
  progress (negb (level_eqb level word)) true dw dl dr h ->
  update_lines level h ls = Ok h' ->
  exists dw',
    progress (negb (level_eqb level word)) true dw' (ls ++ dl) dr h'
    /\ (forall w, w ∈ dw -> w ∈ dw') /\ extends h h'.
Proof.
  induction ls as [|l ls IH]; intros dw dl dr h h' Hp Hupd; simpl in Hupd.
  - injection Hupd as <-. exists dw. split; [done|]. split; [done|apply extends_refl].
  - destruct (update_line level h l) as [h1| |] eqn:E; [|done..]. cbn [bind] in Hupd.
    destruct (progress_update_line _ _ _ _ _ _ _ Hp E) as (dw1 & Hp1 & Hsub1 & Hext1).
    destruct (IH _ _ _ _ _ Hp1 Hupd) as (dw2 & Hp2 & Hsub2 & Hext2).
    exists dw2. split; [|split; [auto|by eapply extends_trans]].
    eapply progress_subset; [exact Hp2|done| |done].
    intros l0. apply elem_of_cons_app_swap.
Qed.

Lemma progress_update_region level dw dl dr h r h' :
  progress (negb (level_eqb level word)) (negb (level_eqb level line)) dw dl dr h ->
  update_region level h r = Ok h' ->
  exists dw' dl',
    progress (negb (level_eqb level word)) (negb (level_eqb level line))
      dw' dl' (r :: dr) h'
    /\ extends h h'.
Proof.
  intros Hp Hupd. unfold update_region in Hupd.
  destruct (negb (level_eqb level line)) eqn:Elow.
  - destruct (update_lines level h (region_TextLine (regions h r))) as [h1| |] eqn:E;
      [|done..].
    cbn [bind] in Hupd.
    destruct (progress_update_lines _ _ _ _ _ _ _ Hp E) as (dw1 & Hp1 & _ & Hext1).
    pose proof Hext1 as (_ & _ & _ & _ & _ & Hrl).
    assert (Hsub : true = true -> forall l, l ∈ region_TextLine (regions h1 r) ->
                                   l ∈ region_TextLine (regions h r) ++ dl).
    { intros _ l Hl. rewrite Hrl in Hl. apply elem_of_app. by left. }
    destruct (progress_finish_region _ _ _ _ _ _ _ _ Hp1 Hsub Hupd) as [Hp2 Hext2].
    exists dw1, (region_TextLine (regions h r) ++ dl).
    split; [done|by eapply extends_trans].
  - cbn [bind] in Hupd.
    assert (Hsub : false = true -> forall l, l ∈ region_TextLine (regions h r) -> l ∈ dl)
      by done.
    destruct (progress_finish_region _ _ _ _ _ _ _ _ Hp Hsub Hupd) as [Hp2 Hext2].
    exists dw, dl. done.
Qed.

Lemma progress_update_regions level : forall rs dw dl dr h h',
  progress (negb (level_eqb level word)) (negb (level_eqb level line)) dw dl dr h ->
  update_regions level h rs = Ok h' ->
  exists dw' dl',
    progress (negb (level_eqb level word)) (negb (level_eqb level line))
      dw' dl' (rs ++ dr) h'
    /\ extends h h'.
Proof.
  induction rs as [|r rs IH]; intros dw dl dr h h' Hp Hupd; simpl in Hupd.
  - injection Hupd as <-. exists dw, dl. split; [done|apply extends_refl].
  - destruct (update_region level h r) as [h1| |] eqn:E; [|done..]. cbn [bind] in Hupd.
    destruct (progress_update_region _ _ _ _ _ _ _ Hp E) as (dw1 & dl1 & Hp1 & Hext1).
    destruct (IH _ _ _ _ _ Hp1 Hupd) as (dw2 & dl2 & Hp2 & Hext2).
    exists dw2, dl2. split; [|by eapply extends_trans].
    eapply progress_subset; [exact Hp2|done|done|].
    intros r0. apply elem_of_cons_app_swap.
Qed.

(** C9, as the code has it: after [page_update_higher_textequiv_levels] on
    a page whose TextEquiv references exist, every level above the
    processing level has been given a new, single TextEquiv.  That of a
    region holds the texts of its lines joined by a newline, that of a line
    the texts of its words joined by a space, that of a word the
    concatenation of the texts of its glyphs, a child without TextEquiv
    counting as the empty string; the confidence is the mean of the
    confidences of the children, a child without TextEquiv counting as
    1.0.  Without any children that mean is [nan], and not 1.0.  At the
    region level nothing is changed. *)
Theorem higher_levels_recomputed level h rs h' :
  created h ->
  page_update_higher_textequiv_levels level h rs = Ok h' ->
  (level = region -> h' = h)
  /\ (level <> region -> forall r, r ∈ rs -> region_done h' r)
  /\ (level = glyph \/ level = word -> forall r l,
        r ∈ rs -> l ∈ region_TextLine (regions h' r) -> line_done h' l)
  /\ (level = glyph -> forall r l w,
        r ∈ rs -> l ∈ region_TextLine (regions h' r) -> w ∈ line_Word (lines h' l) ->
        word_done h' w)
  /\ np_mean_conf [] = Ok NaN
  /\ (forall h0, first_Unicode h0 [] = [] /\ first_conf h0 [] = Some (Float 1)).
Proof.
  intros Hcr Hupd. unfold page_update_higher_textequiv_levels in Hupd.
  split.
  { intros ->. simpl in Hupd. by injection Hupd as <-. }
  assert (Hlast : np_mean_conf [] = Ok NaN
                  /\ (forall h0, first_Unicode h0 [] = [] /\ first_conf h0 [] = Some (Float 1)))
    by done.
  destruct (level_eqb level region) eqn:Ereg.
  { assert (level = region) as -> by (by destruct level).
    split; [done|]. split; [by intros [?|?]|]. split; done. }
  cbn [negb] in Hupd.
  assert (Hp0 : progress (negb (level_eqb level word)) (negb (level_eqb level line))
                  [] [] [] h).
  { split; [done|]. split; [|split]; intros x Hx; by apply elem_of_nil in Hx. }
  destruct (progress_update_regions _ _ _ _ _ _ _ Hp0 Hupd)
    as (dw & dl & (_ & HW & HL & HR) & _).
  rewrite app_nil_r in HR.
  split.
  { intros _ r Hr. by apply HR. }
  split.
  { intros Hlev r l Hr Hl. destruct (HR r Hr) as [_ Hsub].
    apply HL, Hsub; [|done]. by destruct Hlev as [-> | ->]. }
  split; [|done].
  intros -> r l w Hr Hl Hw. destruct (HR r Hr) as [_ Hsub].
  destruct (HL l (Hsub eq_refl l Hl)) as [_ Hsubw]. by apply HW, Hsubw.
Qed.

End LevelPropagatorFacts.

Lemma created_the_cat : Consistency.created Examples.heap_the_cat.
Proof.
  split; [|split; [|split]].
  - intros g t Ht. by apply elem_of_nil in Ht.
  - intros [|[|w]] t Ht; simpl in Ht.
    + apply list_elem_of_singleton in Ht as ->. simpl. lia.
    + apply list_elem_of_singleton in Ht as ->. simpl. lia.
    + destruct w; by apply elem_of_nil in Ht.
  - intros [|l] t Ht; simpl in Ht.
    + by apply elem_of_nil in Ht.
    + destruct l; by apply elem_of_nil in Ht.
  - intros r t Ht. by apply elem_of_nil in Ht.
Qed.

Lemma higher_levels_recomputed_witness :
  exists h',
    LevelPropagator.page_update_higher_textequiv_levels Page.word
      Examples.heap_the_cat [0%nat] = Ok h'
    /\ Consistency.region_done h' 0%nat
    /\ Consistency.line_done h' 0%nat
    /\ Consistency.line_done h' 1%nat.
Proof.
  destruct (LevelPropagator.page_update_higher_textequiv_levels Page.word
              Examples.heap_the_cat [0%nat]) as [h'| |] eqn:E;
    [|vm_compute in E; discriminate E..].
  destruct (higher_levels_recomputed Page.word Examples.heap_the_cat [0%nat] h'
              created_the_cat E) as (_ & Hr & Hl & _).
  assert (Hlines : Page.region_TextLine (Page.regions h' 0%nat) = [0%nat; 1%nat]).
  { vm_compute in E. injection E as <-. reflexivity. }
  exists h'. split; [reflexivity|]. split.
  - apply Hr; [discriminate|]. by left.
  - split; apply (Hl (or_intror eq_refl) 0%nat); try (by left); rewrite Hlines.
    + by left.
    + right. by left.
Defined.

(** The claim of C9 fails on a line without words: at the word level its
    new TextEquiv gets the empty text and the confidence [nan], not 1.0.
    The line of "the" (0.9) and "cat" (0.8) next to it gets "the cat" and
    17/20. *)
Lemma empty_line_confidence_is_nan :
  match LevelPropagator.page_update_higher_textequiv_levels Page.word
          Examples.heap_the_cat [0%nat] with
  | Ok h' =>
      Page.line_Word (Page.lines h' 1%nat) = []
      /\ map (Page.tes h') (Page.line_TextEquiv (Page.lines h' 1%nat))
         = [TextEquiv [] (Some NaN) None]
      /\ map (Page.tes h') (Page.line_TextEquiv (Page.lines h' 0%nat))
         = [TextEquiv (py "the cat") (Some (Float (17 # 20))) None]
  | _ => False
  end.
Proof. vm_compute. repeat split. Qed.

Lemma position_map_lengths_witness :
  exists accs,
    LineExtractor._line_sequences2string_sequences BELL ∅ store_the_cat [line_of 4]
      = (store_the_cat, Ok accs)
    /\ Forall2 (fun es a =>
         Layout.lengths_agree store_the_cat es
           (LineExtractor.input_line a) (LineExtractor.textequiv_starts a)
           (LineExtractor.word_starts a) (LineExtractor.textline_starts a))
         [line_of 4] accs.
Proof.
  eexists. split; [reflexivity|].
  apply (position_map_lengths BELL ∅ [line_of 4] store_the_cat store_the_cat).
  reflexivity.
Defined.


(** ** One line through extraction, alignment and update *)

Section LineFacts.
Import EditDistributor Layout LineExtractor.

(** When the whole chain succeeds on a line of distinct objects, with a
    matrix that covers the input and output lines, the elements returned
    are those of the line and their new contents add up to the length of
    the output line. *)
Lemma correct_line_lengths s0 es output_line output_prob alignment min_score s' seq :
  NoDup (handles es) ->
  es <> [] ->
  1 <= len output_line ->
  (forall s1 a, extract_line BELL ∅ s0 empty_acc es = (s1, Ok a) ->
     Aligner.well_sized alignment (len (input_line a)) (len output_line) = true) ->
  correct_line s0 es output_line output_prob alignment min_score = (s', Ok seq) ->
  seq = es /\ seq_length s' es = len output_line.
Proof.
  intros Hnd Hes Hout Hsized. unfold correct_line.
  destruct (extract_line BELL ∅ s0 empty_acc es) as [s1 [a| |]] eqn:E; [|done..].
  specialize (Hsized s1 a eq_refl).
  apply extract_line_maps in E as (H1 & H2 & H3 & H4 & H5).
  assert (Hin : 1 <= len (input_line a)).
  { rewrite H4, len_line_string. destruct es as [|e es']; [done|].
    unfold seq_length. simpl. fold (seq_length s1 es').
    pose proof (seq_length_nonneg_any s1 es') as Hrest.
    assert (content s1 e <> []) as Hc by (apply H5; left).
    unfold content in *. destruct (Unicode (s1 e.1.1)); [done|].
    unfold len in *. simpl length. lia. }
  destruct (alignment2path_valid_path 0%Q Qplus (fun x => x) Qgtb alignment
              (len (input_line a)) (len output_line) min_score Hin Hout Hsized)
    as (path & Hpath & Hvalid).
  unfold path_of. rewrite Hpath, H1, H2, H3, H4.
  intros Hupd. by eapply update_sequence_lengths.
Qed.

End LineFacts.

(** ** The text along [_update_sequence] *)

Section RewritingFacts.
Import EditDistributor Layout Rewriting.

Lemma py_slice_split {A} (l : list A) a b c :
  0 <= a -> a <= b -> b <= c -> c <= len l ->
  py_slice l a c = py_slice l a b ++ py_slice l b c.
Proof.
  intros. rewrite !py_slice_in by lia.
  replace (Z.to_nat (c - a)) with (Z.to_nat (b - a) + Z.to_nat (c - b))%nat by lia.
  rewrite <- take_take_drop. f_equal. rewrite drop_drop. f_equal. f_equal. lia.
Qed.

Lemma py_slice_cut {A} (l : list A) a c (m r : list A) :
  0 <= a -> a <= c -> c <= len l ->
  py_slice l a c = m ++ r ->
  m = py_slice l a (a + len m) /\ r = py_slice l (a + len m) c.
Proof.
  intros Ha Hac Hc Heq.
  assert (Hlen : len m + len r = c - a).
  { rewrite <- len_app, <- Heq. by apply len_py_slice. }
  pose proof (len_nonneg m). pose proof (len_nonneg r).
  rewrite (py_slice_split l a (a + len m) c) in Heq by lia.
  assert (len (py_slice l a (a + len m)) = len m) as Hl by (rewrite len_py_slice; lia).
  assert (length (py_slice l a (a + len m)) = length m) as Hl' by (apply Nat2Z.inj; exact Hl).
  destruct (app_inj_1 _ _ _ _ Hl' Heq) as [H1 H2]. by split.
Qed.

Lemma cond_shift_text (b : bool) cond hp output_line s lj j s1 lj1 out1 :
  0 <= lj -> lj <= j -> j <= len output_line ->
  (if b then shift_left cond hp s lj (py_slice output_line lj j)
   else (s, lj, py_slice output_line lj j)) = (s1, lj1, out1) ->
  lj <= lj1 <= j /\ out1 = py_slice output_line lj1 j
  /\ s1 hp = TextEquiv (Unicode (s hp) ++ py_slice output_line lj lj1)
               (conf (s hp)) (index (s hp))
  /\ (forall h', h' <> hp -> s1 h' = s h').
Proof.
  intros Hlj Hle Hj E.
  apply cond_shift_spec in E as (m & -> & Hout & Hh & Hoth).
  pose proof (len_nonneg m) as Hm. pose proof (len_nonneg out1) as Ho.
  assert (Hlen : len m + len out1 = j - lj).
  { rewrite <- len_app, <- Hout. apply len_py_slice; lia. }
  apply py_slice_cut in Hout as [Hm' Hout']; [|lia..].
  split; [lia|]. split; [done|]. split; [by rewrite <- Hm'|done].
Qed.

Lemma redistribute_space_text output_line s sequence lj j :
  0 <= lj -> lj <= j -> j <= len output_line ->
  moved_text output_line sequence s lj j
    (redistribute_space output_line s sequence lj j (py_slice output_line lj j)).
Proof.
  intros Hlj Hle Hj. unfold redistribute_space, moved_text.
  assert (Hcut : forall (b : bool) lj1 j1 out2,
            lj <= lj1 <= j ->
            (if b
             then (j - len (last_field (py_slice output_line lj1 j)),
                   py_slice output_line lj1
                     (j - len (last_field (py_slice output_line lj1 j))))
             else (j, py_slice output_line lj1 j)) = (j1, out2) ->
            lj1 <= j1 <= j /\ out2 = py_slice output_line lj1 j1).
  { intros b lj1 j1 out2 Hr E.
    pose proof (last_field_len (py_slice output_line lj1 j)) as Hlf.
    pose proof (len_nonneg (last_field (py_slice output_line lj1 j))).
    rewrite len_py_slice in Hlf by lia.
    destruct b; injection E as <- <-; (split; [lia|done]). }
  destruct (last sequence) as [[[hp w] l]|] eqn:Elast.
  - match goal with |- context [if lhs_cond ?o then ?a else ?b] =>
      destruct (if lhs_cond o then a else b) as [[s1 lj1] out1] eqn:E1 end.
    apply cond_shift_text in E1 as (Hr1 & -> & Hh1 & Hoth1); [|lia..].
    match goal with |- context [if nonempty ?o && ?d then ?a else ?b] =>
      destruct (if nonempty o && d then a else b) as [j1 out2] eqn:E2 end.
    apply Hcut in E2 as (Hj1 & ->); [|done].
    match goal with |- context [if has_token ?o then ?a else ?b] =>
      destruct (if has_token o then a else b) as [[s3 lj3] out3] eqn:E3 end.
    apply cond_shift_text in E3 as (Hr3 & -> & Hh3 & Hoth3); [|lia..].
    split; [lia|]. split; [lia|]. split; [lia|]. split; [done|]. split.
    + rewrite Hh3, Hh1. cbn [Unicode conf index]. f_equal.
      rewrite <- app_assoc. f_equal. symmetry. apply py_slice_split; lia.
    + intros h' Hne. rewrite Hoth3, Hoth1; done.
  - cbv beta iota zeta.
    match goal with |- context [if nonempty ?o && ?d then ?a else ?b] =>
      destruct (if nonempty o && d then a else b) as [j1 out2] eqn:E2 end.
    apply Hcut in E2 as (Hj1 & ->); [|lia].
    cbv beta iota zeta.
    split; [lia|]. split; [lia|]. split; [lia|]. split; [done|]. split; done.
Qed.

Lemma strip_right_text output_line lj fuel : forall j j' output',
  0 <= lj -> lj <= j -> j <= len output_line ->
  strip_right fuel j (py_slice output_line lj j) = (j', output') ->
  lj <= j' <= j /\ output' = py_slice output_line lj j'.
Proof.
  intros j j' output' Hlj Hle Hj E.
  apply strip_right_spec in E as (d & -> & Hlen & Hd & tail & Htail).
  pose proof (len_nonneg output') as Ho.
  rewrite len_py_slice in Hlen by lia.
  apply py_slice_cut in Htail as [Hout _]; [|lia..].
  replace (lj + len output') with (j - d) in Hout by lia.
  split; [lia|done].
Qed.

Lemma redistribute_other_text input_line output_line s sequence i lj j :
  0 <= lj -> lj <= j -> j <= len output_line -> 0 <= i ->
  exists r,
    redistribute_other input_line s sequence i lj j (py_slice output_line lj j) = Ok r
    /\ moved_text output_line sequence s lj j r.
Proof.
  intros Hlj Hle Hj Hi. unfold redistribute_other, moved_text.
  match goal with |- context [match last sequence with Some x => @?a x | None => ?b end] =>
    destruct (match last sequence with Some x => a x | None => b end)
      as [[s1 lj1] out1] eqn:E1 end.
  assert (lj <= lj1 <= j /\ out1 = py_slice output_line lj1 j
          /\ match last sequence with
             | Some (hp, _, _) =>
                 s1 hp = TextEquiv (Unicode (s hp) ++ py_slice output_line lj lj1)
                           (conf (s hp)) (index (s hp))
                 /\ forall h', h' <> hp -> s1 h' = s h'
             | None => lj1 = lj /\ forall h', s1 h' = s h'
             end) as (Hr1 & -> & Hst).
  { destruct (last sequence) as [[[hp w] l]|].
    - apply cond_shift_text in E1 as (? & ? & ? & ?); done.
    - injection E1 as <- <- <-. split; [lia|]. done. }
  assert (exists b, (if endswith_sp_nl (py_slice output_line lj1 j) && (i <? i_max input_line)
            then do c <- py_index input_line i; Ok (is_sp_nl c)
            else Ok false) = Ok b) as [next_is_space ->].
  { destruct (endswith_sp_nl _); cbn [andb]; [|eauto].
    destruct (Z.ltb_spec i (i_max input_line)); [|eauto].
    destruct (py_index_in input_line i) as [c ->]; [done|]. cbn [bind]. eauto. }
  cbn [bind].
  match goal with |- context [if next_is_space then ?a else ?b] =>
    destruct (if next_is_space then a else b) as [j1 out2] eqn:E2 end.
  assert (lj1 <= j1 <= j /\ out2 = py_slice output_line lj1 j1) as (Hj1 & ->).
  { destruct next_is_space.
    - apply strip_right_text in E2; [done|lia..].
    - injection E2 as <- <-. split; [lia|done]. }
  eexists. split; [reflexivity|]. cbv beta iota zeta.
  split; [lia|]. split; [lia|]. split; [lia|]. split; [done|]. done.
Qed.

Lemma line_string_app s a b :
  line_string s (a ++ b) = line_string s a ++ line_string s b.
Proof. unfold line_string. by rewrite map_app, concat_app. Qed.

Lemma py_slice_empty {A} (l : list A) a : 0 <= a -> a <= len l -> py_slice l a a = [].
Proof.
  intros. rewrite py_slice_in by lia. by rewrite Z.sub_diag.
Qed.

(** What a redistribution does to the text of the elements emitted so
    far. *)
Lemma moved_line_string output_line seq s lj j s1 lj1 j1 out1 :
  0 <= lj -> j <= len output_line ->
  NoDup (handles seq) ->
  moved_text output_line seq s lj j (s1, lj1, j1, out1) ->
  line_string s1 seq = line_string s seq ++ py_slice output_line lj lj1
  /\ (forall h', h' ∉ handles seq -> s1 h' = s h')
  /\ (forall x, index (s1 x) = index (s x)).
Proof.
  intros Hlj Hj Hnd (H1 & H2 & H3 & _ & Hst).
  destruct (last seq) as [[[hp w] l]|] eqn:Elast.
  - destruct Hst as [Hh Hoth].
    apply last_Some in Elast as [seq0 ->].
    unfold handles in Hnd. rewrite map_app in Hnd. simpl in Hnd.
    apply NoDup_app in Hnd as (_ & Hdisj & _).
    split; [|split].
    + rewrite !line_string_app. rewrite (line_string_ext s s1 seq0).
      * unfold line_string, content. simpl. rewrite Hh. simpl.
        by rewrite !app_nil_r, app_assoc.
      * intros h Hh'. rewrite Hoth; [done|]. intros ->. apply (Hdisj hp Hh'). by left.
    + intros h' Hh'. apply Hoth. intros ->. apply Hh'.
      unfold handles. rewrite map_app. apply elem_of_app. right. by left.
    + intros x. destruct (decide (x = hp)) as [->|Hne]; [by rewrite Hh|by rewrite Hoth].
  - destruct Hst as [-> Hoth]. rewrite py_slice_empty by lia. rewrite app_nil_r.
    split; [|split].
    + apply line_string_ext. intros h _. by rewrite Hoth.
    + intros h' _. apply Hoth.
    + intros x. by rewrite Hoth.
Qed.

Section Line.
Variable input_line output_line : str.
Variable output_prob : list Q.
Variable realignment : gmap Z Z.
Variable tes wds tls : dict (option handle).

Local Abbreviation commit := (commit input_line output_line output_prob tes wds tls).
Local Abbreviation loop := (loop input_line output_line output_prob realignment tes wds tls).

(** The part of the loop body under [if last:] never fails on an element
    that still holds its slice of the input line, and it extends the text
    of the elements emitted so far by the slice of the output line up to
    the new [j]. *)
Lemma commit_text s seq k lj i j h w l :
  0 <= lj -> lj <= j -> j <= len output_line -> 0 <= i ->
  dict_get tes k = Ok (Some h) -> dict_get wds k = Ok w -> dict_get tls k = Ok l ->
  NoDup (handles seq ++ [h]) ->
  Unicode (s h) = py_slice input_line k i ->
  exists s' j',
    commit s seq k lj i j = (s', Ok (j', seq ++ [(h, w, l)]))
    /\ lj <= j' <= j
    /\ line_string s' (seq ++ [(h, w, l)])
       = line_string s seq ++ py_slice output_line lj j'
    /\ (forall h', h' ∉ handles seq -> h' <> h -> s' h' = s h')
    /\ (forall x, index (s' x) = index (s x)).
Proof.
  intros Hlj Hle Hj Hi Hte Hw Hl Hnd Hsame. unfold EditDistributor.commit.
  apply NoDup_app in Hnd as (Hnd & Hdisj & _).
  assert (Hh : h ∉ handles seq).
  { intros Hin. apply (Hdisj h Hin). by left. }
  assert (exists r, redistribute input_line output_line s seq k lj i j = Ok r
                    /\ moved_text output_line seq s lj j r) as (r & -> & Hmv).
  { unfold redistribute. destruct (in_sp_nl (py_slice input_line k i)).
    - eexists. split; [reflexivity|]. by apply redistribute_space_text.
    - by apply redistribute_other_text. }
  destruct r as [[[s1 lj1] j1] out1].
  destruct (moved_line_string _ _ _ _ _ _ _ _ _ Hlj Hj Hnd Hmv) as (Hls & Hfr & Hidx).
  destruct Hmv as (H1 & H2 & H3 & Hout & _).
  rewrite Hte, Hw, Hl. rewrite (Hfr h Hh), Hsame.
  assert (Heq : str_eqb (py_slice input_line k i) (py_slice input_line k i) = true)
    by (by apply str_eqb_eq).
  rewrite Heq.
  eexists _, j1. split; [reflexivity|]. split; [lia|].
  set (s2 := set_conf _ h _).
  assert (Hs2h : Unicode (s2 h) = out1).
  { unfold s2, set_conf, set_Unicode. by rewrite !upd_same. }
  assert (Hs2o : forall h', h' <> h -> s2 h' = s1 h').
  { intros h' Hne. unfold s2, set_conf, set_Unicode. by rewrite !upd_other. }
  split; [|split].
  - rewrite line_string_app. rewrite (line_string_ext s1 s2 seq).
    + rewrite Hls. unfold line_string at 2, content. simpl. rewrite Hs2h, app_nil_r.
      rewrite <- app_assoc. f_equal. rewrite Hout. symmetry. apply py_slice_split; lia.
    + intros h' Hh'. rewrite Hs2o; [done|]. by intros ->.
  - intros h' Hh' Hne. rewrite Hs2o by done. by apply Hfr.
  - intros x. destruct (decide (x = h)) as [->|Hne].
    + unfold s2, set_conf, set_Unicode. rewrite !upd_same. simpl. apply Hidx.
    + rewrite Hs2o by done. apply Hidx.
Qed.

Variable s0 : te_store.
Hypothesis Hmono : Aligner.monotone realignment.
Hypothesis Hbound : forall k v, realignment !! k = Some v -> v <= len output_line.

(** From the second key on, the loop of [_update_sequence] runs through
    without an error on the maps of a line, and the elements it has emitted
    hold the output line up to the last [j]. *)
Lemma loop_text : forall rest s k lj seq pre,
  input_line = pre ++ line_string s0 rest -> len pre = k ->
  covers tes wds tls s0 k rest ->
  NoDup (handles (seq ++ rest)) ->
  (forall h, h ∈ handles rest -> s h = s0 h) ->
  0 <= lj -> lj <= len output_line ->
  (forall k' v, realignment !! k' = Some v -> k <= k' -> lj <= v) ->
  line_string s seq = py_slice output_line 0 lj ->
  exists s' lj',
    loop s (Some (k, lj), seq) (ends s0 k rest)
      = (s', Ok (Some (k + seq_length s0 rest, lj'), seq ++ rest))
    /\ lj <= lj' /\ lj' <= len output_line
    /\ line_string s' (seq ++ rest) = py_slice output_line 0 lj'
    /\ (forall x, index (s' x) = index (s x))
    /\ (forall h', h' ∉ handles (seq ++ rest) -> s' h' = s h').
Proof.
  induction rest as [|e rest IH];
    intros s k lj seq pre Hin Hpre Hcov Hnd Hs0 Hlj HljJ Hfut Htext.
  - exists s, lj. simpl. rewrite Z.add_0_r, app_nil_r. repeat split; (lia || done).
  - destruct e as [[h w] l]. destruct Hcov as (Hte & Hw & Hl & Hcov).
    cbn [ends EditDistributor.loop].
    set (i := k + len (content s0 (h, w, l))) in *.
    pose proof (len_nonneg (content s0 (h, w, l))) as Hc.
    pose proof (len_nonneg pre) as Hp.
    assert (Hki : k <= i) by lia.
    unfold EditDistributor.step.
    set (j := match realignment !! i with Some j => j | None => lj end).
    assert (Hj : lj <= j /\ j <= len output_line
                 /\ forall k' v, realignment !! k' = Some v -> i <= k' -> j <= v
                                 \/ (realignment !! i = None /\ j = lj)).
    { unfold j. destruct (realignment !! i) as [ji|] eqn:Ei.
      - split; [by eapply Hfut|]. split; [by eapply Hbound|].
        intros k' v Hk' Hle. left. destruct (decide (i = k')) as [<-|Hne].
        + rewrite Ei in Hk'. injection Hk' as <-. lia.
        + eapply Hmono; [exact Ei|exact Hk'|lia].
      - split; [lia|]. split; [lia|]. intros. by right. }
    destruct Hj as (Hj1 & Hj2 & Hj3).
    assert (Hstep : (match realignment !! i, Some (k, lj) with
                     | Some j, _ => Ok j
                     | None, Some (_, lj) => Ok lj
                     | None, None => Raise TypeError
                     end) = Ok j).
    { unfold j. by destruct (realignment !! i). }
    rewrite Hstep. clear Hstep.
    unfold handles in Hnd. rewrite map_app in Hnd. simpl in Hnd.
    assert (Hnd1 : NoDup (handles seq ++ [h])).
    { unfold handles. rewrite cons_middle, app_assoc in Hnd.
      by apply NoDup_app in Hnd as (? & _ & _). }
    assert (Hslice : Unicode (s h) = py_slice input_line k i).
    { rewrite Hs0 by (by left). rewrite Hin. unfold line_string. simpl.
      rewrite <- Hpre. unfold i. rewrite <- Hpre. symmetry. apply py_slice_app_mid. }
    destruct (commit_text s seq k lj i j h w l Hlj Hj1 Hj2 ltac:(lia) Hte Hw Hl Hnd1 Hslice)
      as (s1 & j1 & -> & Hj1' & Hls & Hfr & Hidx).
    destruct (IH s1 i j1 (seq ++ [(h, w, l)]) (pre ++ content s0 (h, w, l)))
      as (s' & lj' & Hloop & Hle' & HleJ & Htext' & Hidx' & Hfr').
    + rewrite Hin. unfold line_string. simpl. by rewrite app_assoc.
    + rewrite len_app. unfold i. lia.
    + exact Hcov.
    + unfold handles. rewrite !map_app. simpl. by rewrite <- app_assoc.
    + intros h' Hh'. rewrite <- Hs0 by (by right). apply Hfr.
      * intros Hin'. rewrite cons_middle, app_assoc in Hnd.
        apply NoDup_app in Hnd as (_ & Hdisj & _).
        apply (Hdisj h'); [|done]. apply elem_of_app. by left.
      * intros ->. apply NoDup_app in Hnd as (_ & _ & Hnd).
        apply NoDup_cons in Hnd as [Hnot _]. done.
    + lia.
    + lia.
    + intros k' v Hk' Hle. destruct (Hj3 k' v Hk' Hle) as [?|[_ Hjlj]]; [lia|].
      assert (lj <= v) by (eapply Hfut; [done|lia]). lia.
    + rewrite Hls, Htext. symmetry. apply py_slice_split; lia.
    + exists s', lj'. rewrite Hloop. split.
      { f_equal. f_equal. f_equal; [f_equal; f_equal|by rewrite <- app_assoc].
        unfold seq_length. simpl. fold (seq_length s0 rest). unfold i. lia. }
      split; [lia|]. split; [done|]. split.
      { by rewrite <- app_assoc in Htext'. }
      split.
      { intros x. by rewrite Hidx', Hidx. }
      intros h' Hh'. rewrite Hfr'.
      * apply Hfr.
        -- intros Hin'. apply Hh'. unfold handles. rewrite map_app.
           apply elem_of_app. by left.
        -- intros ->. apply Hh'. unfold handles. rewrite map_app.
           apply elem_of_app. right. by left.
      * by rewrite <- app_assoc.
Qed.

End Line.

Lemma first_line_cases (d : dict (option handle)) :
  (exists l, first_line d = Ok l)
  \/ (first_line d = Raise StopIteration /\ forall v, v ∈ values d -> v = None).
Proof.
  unfold first_line. induction d as [|[k [l|]] d IH]; cbn [values map snd].
  - right. split; [done|]. intros v Hv. by apply elem_of_nil in Hv.
  - left. rewrite filter_cons_True by done. eauto.
  - rewrite filter_cons_False by (by intros [x Hx]).
    destruct IH as [IH|[IH Hall]]; [by left|right]. split; [done|].
    intros v Hv. apply elem_of_cons in Hv as [->|Hv]; [done|by apply Hall].
Qed.

(** [_update_sequence] on the maps of a line, for a path that starts at 0,
    does not decrease and stays within the output line: the loop runs
    through, and only the closing assertions decide. *)
Lemma update_sequence_run s0 es output_line output_prob path :
  valid_path (len output_line) path ->
  NoDup (handles es) ->
  nonempty_contents s0 es ->
  exists s1 lj,
    0 <= lj /\ lj <= len output_line
    /\ line_string s1 es = py_slice output_line 0 lj
    /\ (forall x, index (s1 x) = index (s0 x))
    /\ (forall h, h ∉ handles es -> s1 h = s0 h)
    /\ _update_sequence (line_string s0 es) output_line output_prob path
         (textequiv_map s0 es) (word_map s0 es) (textline_map s0 es) s0
       = match first_line (textline_map s0 es) with
         | Ok _ =>
             if bool_decide (lj = len output_line) then
               if forallb (check_not_lost s1) es then (s1, Ok es)
               else (s1, Raise AssertOutputLost)
             else (s1, Raise AssertPathNotAtTop)
         | Raise e => (s0, Raise e)
         | OutOfFuel => (s0, OutOfFuel)
         end.
Proof.
  intros (Hp0 & Hmono & Hbound) Hnd Hne.
  destruct (loop_text (line_string s0 es) output_line output_prob path
              (textequiv_map s0 es ++ [(len (line_string s0 es), None)])
              (word_map s0 es) (textline_map s0 es) s0 Hmono
              (fun k v Hk => proj2 (Hbound k v Hk))
              es s0 0 0 [] [])
    as (s1 & lj & Hloop & Hlj & HljJ & Htext & Hidx & Hfr).
  - done.
  - done.
  - apply (covers_layout s0 es 0 [] [] [] [(len (line_string s0 es), None)]); try done.
    all: intros key Hkey; by apply elem_of_nil in Hkey.
  - done.
  - done.
  - lia.
  - apply len_nonneg.
  - intros k' v Hk' _. by apply Hbound in Hk' as [? _].
  - unfold line_string. simpl. symmetry. apply py_slice_empty; [lia|apply len_nonneg].
  - exists s1, lj. do 5 (split; [done|]).
    unfold _update_sequence.
    destruct (first_line (textline_map s0 es)); [|done..].
    rewrite keys_setdefault_layout by done. rewrite setdefault_layout by done.
    cbn [EditDistributor.loop EditDistributor.step]. rewrite Hp0.
    rewrite Hloop. simpl app.
    rewrite Z.add_0_l, <- len_line_string.
    destruct (decide (lj = len output_line)) as [->|Hne'].
    + rewrite !bool_decide_eq_true_2 by done. done.
    + rewrite !bool_decide_eq_false_2; [done|done|].
      intros [= ?]. done.
Qed.

Section Extracted.
Variable GAP : char.
Variable mapping : gmap char Z.

(** After a line has been extracted, a successful [_update_sequence] with
    such a path returns the elements of the line in their order, and their
    new contents, put one after the other, are the output line: no
    character of it is lost or written twice.  No other object is
    written, and no object changes its [index]. *)
Theorem update_sequence_rewrites_line s00 es s0 a output_line output_prob path s' seq :
  LineExtractor.extract_line GAP mapping s00 LineExtractor.empty_acc es = (s0, Ok a) ->
  NoDup (handles es) ->
  valid_path (len output_line) path ->
  _update_sequence (LineExtractor.input_line a) output_line output_prob path
    (LineExtractor.textequiv_starts a) (LineExtractor.word_starts a)
    (LineExtractor.textline_starts a) s0 = (s', Ok seq) ->
  seq = es
  /\ line_string s' es = output_line
  /\ (forall h, h ∉ handles es -> s' h = s0 h)
  /\ (forall h, index (s' h) = index (s0 h)).
Proof.
  intros Hex Hnd Hpath.
  apply extract_line_maps in Hex as (-> & -> & -> & -> & Hne).
  destruct (update_sequence_run s0 es output_line output_prob path Hpath Hnd Hne)
    as (s1 & lj & Hlj & HljJ & Htext & Hidx & Hfr & ->).
  destruct (first_line (textline_map s0 es)); [|done..].
  case_bool_decide as Hlast; [|done].
  destruct (forallb _ _); [|done].
  intros [= <- <-]. split; [done|]. split; [|done].
  rewrite Htext, Hlast. apply py_slice_full.
Qed.

(** On the maps of an extracted line, and with such a path,
    [_update_sequence] never fails inside its loop: there is no source
    mismatch, no missing key and no index out of range.  It returns the
    sequence, or fails in one of the two closing assertions, or, for a
    line none of whose elements has a TextLine, in the [next] at its
    start, before anything is written. *)
Theorem update_sequence_outcomes s00 es s0 a output_line output_prob path s' r :
  LineExtractor.extract_line GAP mapping s00 LineExtractor.empty_acc es = (s0, Ok a) ->
  NoDup (handles es) ->
  valid_path (len output_line) path ->
  _update_sequence (LineExtractor.input_line a) output_line output_prob path
    (LineExtractor.textequiv_starts a) (LineExtractor.word_starts a)
    (LineExtractor.textline_starts a) s0 = (s', r) ->
  line_outcome r
  /\ (r = Raise StopIteration -> s' = s0 /\ forall e, e ∈ es -> e.2 = None)
  /\ ((exists e, e ∈ es /\ e.2 <> None) -> r <> Raise StopIteration).
Proof.
  intros Hex Hnd Hpath.
  apply extract_line_maps in Hex as (-> & -> & -> & -> & Hne).
  destruct (update_sequence_run s0 es output_line output_prob path Hpath Hnd Hne)
    as (s1 & lj & Hlj & HljJ & Htext & Hidx & Hfr & ->).
  assert (Hvals : forall e, e ∈ es -> e.2 ∈ values (textline_map s0 es)).
  { intros e He. unfold textline_map, values.
    rewrite snd_zip by (rewrite length_starts, length_map; lia).
    apply list_elem_of_In, in_map_iff. exists e. split; [done|].
    by apply list_elem_of_In. }
  destruct (first_line_cases (textline_map s0 es)) as [[l ->]|[-> Hall]].
  - case_bool_decide.
    + destruct (forallb _ _); intros [= <- <-].
      * split; [left; eauto|]. split; done.
      * split; [right; right; by left|]. split; done.
    + intros [= <- <-]. split; [right; by left|]. split; done.
  - intros [= <- <-]. split; [right; right; by right|]. split.
    + intros _. split; [done|]. intros e He. apply Hall. by apply Hvals.
    + intros (e & He & Hsome) _. apply Hsome, Hall. by apply Hvals.
Qed.

End Extracted.

End RewritingFacts.

Lemma update_sequence_rewrites_line_witness :
  let s0 := store_of [real "teh" (1 # 2); synthetic " "; real "cat" (1 # 2); synthetic LF] in
  exists a path s',
    LineExtractor.extract_line BELL ∅ s0 LineExtractor.empty_acc (line_of 4) = (s0, Ok a)
    /\ path_of (identity_alignment 8) 8 8 (1 # 10) = Ok path
    /\ EditDistributor._update_sequence (LineExtractor.input_line a)
         (py ("the cat" ++ LF)) (repeat (9 # 10)%Q 8) path
         (LineExtractor.textequiv_starts a) (LineExtractor.word_starts a)
         (LineExtractor.textline_starts a) s0 = (s', Ok (line_of 4))
    /\ Layout.line_string s0 (line_of 4) = py ("teh cat" ++ LF)
    /\ Layout.line_string s' (line_of 4) = py ("the cat" ++ LF).
Proof.
  intros s0.
  destruct (alignment2path_valid_path 0%Q Qplus (fun x => x) Qgtb (identity_alignment 8)
              8 8 (1 # 10)) as (path & Hpath & Hvalid); [lia|lia|reflexivity|].
  pose proof Hpath as Hp. vm_compute in Hp. injection Hp as Hp. subst path.
  set (a := match (LineExtractor.extract_line BELL ∅ s0 LineExtractor.empty_acc
                     (line_of 4)).2 with
            | Ok a => a
            | _ => LineExtractor.empty_acc
            end).
  assert (Ea : LineExtractor.extract_line BELL ∅ s0 LineExtractor.empty_acc (line_of 4)
               = (s0, Ok a)) by (vm_compute; reflexivity).
  match type of Hpath with _ = Ok ?p => set (path := p) in * end.
  set (s' := (EditDistributor._update_sequence (LineExtractor.input_line a)
                (py ("the cat" ++ LF)) (repeat (9 # 10)%Q 8) path
                (LineExtractor.textequiv_starts a) (LineExtractor.word_starts a)
                (LineExtractor.textline_starts a) s0).1).
  assert (Eu : EditDistributor._update_sequence (LineExtractor.input_line a)
                 (py ("the cat" ++ LF)) (repeat (9 # 10)%Q 8) path
                 (LineExtractor.textequiv_starts a) (LineExtractor.word_starts a)
                 (LineExtractor.textline_starts a) s0 = (s', Ok (line_of 4)))
    by (vm_compute; reflexivity).
  destruct (update_sequence_rewrites_line BELL ∅ s0 (line_of 4) s0 a
              (py ("the cat" ++ LF)) (repeat (9 # 10)%Q 8) path s' (line_of 4)
              Ea ltac:(by apply (bool_decide_unpack _)) Hvalid Eu) as (_ & Htext & _).
  exists a, path, s'. split; [exact Ea|]. split; [exact Hpath|].
  split; [exact Eu|]. split; [reflexivity|exact Htext].
Defined.

Lemma update_sequence_outcomes_witness :
  exists a path s' r,
    LineExtractor.extract_line BELL ∅ store_a LineExtractor.empty_acc (line_of 2)
      = (store_a, Ok a)
    /\ path_of alignment_a_b 2 3 (1 # 10) = Ok path
    /\ EditDistributor._update_sequence (LineExtractor.input_line a)
         (py "a b") (repeat (9 # 10)%Q 3) path
         (LineExtractor.textequiv_starts a) (LineExtractor.word_starts a)
         (LineExtractor.textline_starts a) store_a = (s', r)
    /\ Rewriting.line_outcome r
    /\ r <> Raise StopIteration.
Proof.
  destruct (alignment2path_valid_path 0%Q Qplus (fun x => x) Qgtb alignment_a_b
              2 3 (1 # 10)) as (path & Hpath & Hvalid); [lia|lia|reflexivity|].
  set (a := match (LineExtractor.extract_line BELL ∅ store_a LineExtractor.empty_acc
                     (line_of 2)).2 with
            | Ok a => a
            | _ => LineExtractor.empty_acc
            end).
  assert (Ea : LineExtractor.extract_line BELL ∅ store_a LineExtractor.empty_acc (line_of 2)
               = (store_a, Ok a)) by (vm_compute; reflexivity).
  destruct (EditDistributor._update_sequence (LineExtractor.input_line a)
              (py "a b") (repeat (9 # 10)%Q 3) path
              (LineExtractor.textequiv_starts a) (LineExtractor.word_starts a)
              (LineExtractor.textline_starts a) store_a) as [s' r] eqn:Eu.
  destruct (update_sequence_outcomes BELL ∅ store_a (line_of 2) store_a a
              (py "a b") (repeat (9 # 10)%Q 3) path s' r
              Ea ltac:(by apply (bool_decide_unpack _)) Hvalid Eu) as (Hout & _ & Hstop).
  exists a, path, s', r. split; [exact Ea|]. split; [exact Hpath|].
  split; [exact Eu|]. split; [exact Hout|].
  apply Hstop. exists (0%nat, Some 0%nat, Some 0%nat). split; [by left|discriminate].
Defined.

(** ** The sequences of a page *)

Section SequencerFacts.
Import EditDistributor Page Sequencer.

Variable level : Level.
Variable h0 : heap.
Hypothesis Hcreated : Consistency.created h0.

Local Abbreviation invariant := (invariant level h0).
Local Abbreviation shaped := (shaped level h0).
Local Abbreviation inner := (inner level h0).
Local Abbreviation closed_line := (closed_line level h0).

Lemma append_last_snoc init cur x :
  append_last (init ++ [cur]) x = Ok (init ++ [cur ++ [x]]).
Proof.
  induction init as [|l init IH]; [done|].
  cbn [app append_last]. rewrite IH.
  destruct (init ++ [cur]) eqn:E; [by destruct init|done].
Qed.

Lemma all_handles_snoc init cur (x : entry) :
  all_handles (init ++ [cur ++ [x]]) = all_handles (init ++ [cur]) ++ [x.1.1].
Proof.
  unfold all_handles. rewrite !flat_map_app. simpl. rewrite !app_nil_r.
  unfold Layout.handles. rewrite map_app. simpl. by rewrite app_assoc.
Qed.

Lemma all_handles_push seqs : all_handles (seqs ++ [[]]) = all_handles seqs.
Proof. unfold all_handles. rewrite flat_map_app. simpl. by rewrite app_nil_r. Qed.

Lemma elem_of_all_handles t seqs :
  t ∈ all_handles seqs <-> exists seq e, seq ∈ seqs /\ e ∈ seq /\ e.1.1 = t.
Proof.
  unfold all_handles. rewrite list_elem_of_In, in_flat_map. split.
  - intros (seq & Hseq & Ht). unfold Layout.handles in Ht.
    apply in_map_iff in Ht as (e & <- & He).
    exists seq, e. by rewrite !list_elem_of_In.
  - intros (seq & e & Hseq & He & <-). exists seq. rewrite <- list_elem_of_In.
    split; [done|]. apply in_map_iff. exists e. by rewrite <- list_elem_of_In.
Qed.

Lemma grown_refl : grown h0 h0.
Proof. repeat split; done. Qed.

Lemma grown_new h t :
  grown h0 h -> grown h0 (new_TextEquiv h t).1.
Proof.
  intros (H1 & H2 & H3 & H4 & H5 & H6 & H7). cbn [new_TextEquiv fst].
  split; [cbn; lia|]. split; [|done].
  intros t0 Ht0. cbn [tes]. rewrite upd_other by lia. by apply H2.
Qed.

Lemma made_new h t u e :
  made h0 h u e -> made h0 (new_TextEquiv h t).1 u e.
Proof.
  intros [Hr He]. split; [cbn; lia|]. cbn [new_TextEquiv fst tes].
  rewrite upd_other by lia. done.
Qed.

Lemma inner_new h t e : inner h e -> inner (new_TextEquiv h t).1 e.
Proof. intros [?|?]; [by left|right]. by apply made_new. Qed.

Lemma closed_line_new h t ln : closed_line h ln -> closed_line (new_TextEquiv h t).1 ln.
Proof.
  intros (body & nl & -> & Hnl & Hbody). exists body, nl.
  split; [done|]. split; [by apply made_new|].
  intros e He. by apply inner_new, Hbody.
Qed.

Lemma shaped_new h t open seqs :
  shaped h open seqs -> shaped (new_TextEquiv h t).1 open seqs.
Proof.
  destruct open; cbn.
  - intros (init & cur & -> & Hinit & Hcur). exists init, cur.
    split; [done|]. split.
    + intros ln Hln. by apply closed_line_new, Hinit.
    + intros e He. by apply inner_new, Hcur.
  - intros H ln Hln. by apply closed_line_new, H.
Qed.

(** Putting an object of the page at the end of the open line. *)
Lemma step_existing done st (t : handle) (rest : list handle) :
  invariant true done st ->
  (t < te_next h0)%nat ->
  placed level h0 (t, word_var st, line_var st) ->
  exists st',
    append_first (t :: rest) st = Ok st'
    /\ invariant true (done ++ [t]) st'
    /\ word_var st' = word_var st /\ line_var st' = line_var st.
Proof.
  intros (Hg & Hsh & Hdone & Hnd & Hlt & Hline) Ht Hpl.
  destruct Hsh as (init & cur & Hseq & Hinit & Hcur).
  unfold append_first. rewrite py_index_0. cbn [bind].
  rewrite Hseq, append_last_snoc. cbn [bind].
  eexists. split; [reflexivity|]. split; [|done].
  split; [done|]. split.
  { exists init, (cur ++ [(t, word_var st, line_var st)]).
    split; [done|]. split; [done|].
    intros e He. apply elem_of_app in He as [He|He]; [by apply Hcur|].
    apply list_elem_of_singleton in He as ->. by left. }
  cbn [sequences heap_of]. rewrite all_handles_snoc, <- Hseq. rewrite !filter_app.
  cbn [fst]. split.
  { f_equal; [exact Hdone|]. by rewrite filter_cons_True, filter_nil. }
  split.
  { rewrite filter_cons_False by lia. by rewrite filter_nil, app_nil_r. }
  split.
  { destruct Hg as (Hle & _).
    intros t' Ht'. apply elem_of_app in Ht' as [Ht'|Ht']; [by apply Hlt|].
    apply list_elem_of_singleton in Ht' as ->. lia. }
  intros Hl. destruct (Hline Hl) as [Hw Hall]. split; [done|].
  intros seq e Hs He. apply elem_of_app in Hs as [Hs|Hs].
  - apply (Hall seq e); [|done]. rewrite Hseq. apply elem_of_app. by left.
  - apply list_elem_of_singleton in Hs as ->.
    apply elem_of_app in He as [He|He].
    + apply (Hall cur e); [|done]. rewrite Hseq. apply elem_of_app. right. by left.
    + apply list_elem_of_singleton in He as ->. done.
Qed.

(** Putting a new implicit object at the end of the open line. *)
Lemma step_made done st u :
  invariant true done st ->
  exists init cur st',
    sequences st = init ++ [cur]
    /\ append_implicit u st = Ok st'
    /\ sequences st' = init ++ [cur ++ [(te_next (heap_of st), word_var st, line_var st)]]
    /\ heap_of st' = (new_TextEquiv (heap_of st) (implicit u)).1
    /\ word_var st' = word_var st /\ line_var st' = line_var st
    /\ grown h0 (heap_of st')
    /\ made h0 (heap_of st') u (te_next (heap_of st), word_var st, line_var st)
    /\ (forall ln, ln ∈ init -> closed_line (heap_of st') ln)
    /\ (forall e, e ∈ cur -> inner (heap_of st') e)
    /\ filter (fun t : handle => (t < te_next h0)%nat) (all_handles (sequences st')) = done
    /\ NoDup (filter (fun t : handle => (te_next h0 <= t)%nat) (all_handles (sequences st')))
    /\ (forall t, t ∈ all_handles (sequences st') -> (t < te_next (heap_of st'))%nat)
    /\ (level = line -> word_var st' = None
                        /\ forall seq e, seq ∈ sequences st' -> e ∈ seq -> e.1.2 = None).
Proof.
  intros (Hg & Hsh & Hdone & Hnd & Hlt & Hline).
  destruct Hsh as (init & cur & Hseq & Hinit & Hcur).
  exists init, cur. unfold append_implicit. cbn [new_TextEquiv].
  rewrite Hseq, append_last_snoc. cbn [bind].
  eexists. split; [done|]. split; [reflexivity|].
  cbn [sequences heap_of word_var line_var fst].
  do 4 (split; [done|]). split; [by apply (grown_new _ (implicit u))|].
  destruct Hg as (Hle & _).
  split.
  { split; [cbn; lia|]. cbn [tes fst]. by rewrite upd_same. }
  split.
  { intros ln Hln. by apply (closed_line_new _ (implicit u)), Hinit. }
  split.
  { intros e He. by apply (inner_new _ (implicit u)), Hcur. }
  rewrite all_handles_snoc, <- Hseq. rewrite !filter_app. cbn [fst].
  split.
  { rewrite filter_cons_False by lia. by rewrite filter_nil, app_nil_r. }
  split.
  { rewrite filter_cons_True by lia. rewrite filter_nil.
    apply NoDup_app. split; [done|]. split; [|apply NoDup_singleton].
    intros t Ht Ht'. apply list_elem_of_singleton in Ht' as ->.
    apply list_elem_of_filter in Ht as [_ Ht]. apply Hlt in Ht. lia. }
  split.
  { intros t' Ht'. cbn [te_next]. apply elem_of_app in Ht' as [Ht'|Ht'].
    - apply Hlt in Ht'. lia.
    - apply list_elem_of_singleton in Ht' as ->. lia. }
  intros Hl. destruct (Hline Hl) as [Hw Hall]. split; [done|].
  intros seq e Hs He. apply elem_of_app in Hs as [Hs|Hs].
  - apply (Hall seq e); [|done]. rewrite Hseq. apply elem_of_app. by left.
  - apply list_elem_of_singleton in Hs as ->.
    apply elem_of_app in He as [He|He].
    + apply (Hall cur e); [|done]. rewrite Hseq. apply elem_of_app. right. by left.
    + apply list_elem_of_singleton in He as ->. done.
Qed.

Lemma step_space done st :
  invariant true done st ->
  exists st',
    append_implicit [SPACE] st = Ok st'
    /\ invariant true done st'
    /\ word_var st' = word_var st /\ line_var st' = line_var st.
Proof.
  intros Hinv.
  destruct (step_made done st [SPACE] Hinv)
    as (init & cur & st' & Hseq & Hrun & Hseq' & Hh & Hw & Hl & Hg & Hm & Hinit & Hcur
        & Hdone & Hnd & Hlt & Hline).
  exists st'. split; [done|]. split; [|done].
  split; [done|]. split; [|done].
  exists init, (cur ++ [(te_next (heap_of st), word_var st, line_var st)]).
  split; [done|]. split; [done|].
  intros e He. apply elem_of_app in He as [He|He]; [by apply Hcur|].
  apply list_elem_of_singleton in He as ->. by right.
Qed.

Lemma step_newline done st :
  invariant true done st ->
  exists st',
    append_implicit [NEWLINE] st = Ok st'
    /\ invariant false done st'
    /\ sequences st' <> []
    /\ word_var st' = word_var st /\ line_var st' = line_var st.
Proof.
  intros Hinv.
  destruct (step_made done st [NEWLINE] Hinv)
    as (init & cur & st' & Hseq & Hrun & Hseq' & Hh & Hw & Hl & Hg & Hm & Hinit & Hcur
        & Hdone & Hnd & Hlt & Hline).
  exists st'. split; [done|]. split; [|split; [|done]].
  - split; [done|]. split; [|done].
    intros ln Hln. rewrite Hseq' in Hln. apply elem_of_app in Hln as [Hln|Hln].
    + by apply Hinit.
    + apply list_elem_of_singleton in Hln as ->.
      exists cur, (te_next (heap_of st), word_var st, line_var st). done.
  - rewrite Hseq'. by destruct init.
Qed.

(** [sequences.append([])] *)
Lemma step_push done st wv lv :
  invariant false done st ->
  (level = line -> wv = None) ->
  invariant true done (Scan (heap_of st) (sequences st ++ [[]]) wv lv).
Proof.
  intros (Hg & Hsh & Hdone & Hnd & Hlt & Hline) Hwv.
  split; [done|]. split.
  { exists (sequences st), []. split; [done|]. split; [done|].
    intros e He. by apply elem_of_nil in He. }
  cbn [sequences heap_of word_var]. rewrite all_handles_push.
  do 3 (split; [done|]).
  intros Hl. split; [by apply Hwv|].
  destruct (Hline Hl) as [_ Hall].
  intros seq e Hs He. apply elem_of_app in Hs as [Hs|Hs]; [by eapply Hall|].
  apply list_elem_of_singleton in Hs as ->. by apply elem_of_nil in He.
Qed.

(** Assigning the loop variables. *)
Lemma invariant_vars open done st wv lv :
  invariant open done st ->
  (level = line -> wv = None) ->
  invariant open done (Scan (heap_of st) (sequences st) wv lv).
Proof.
  intros (Hg & Hsh & Hdone & Hnd & Hlt & Hline) Hwv.
  do 5 (split; [done|]). intros Hl. split; [by apply Hwv|].
  by destruct (Hline Hl).
Qed.

Lemma is_glyph_level :
  level_eqb level word = false -> level_eqb level line = false ->
  level = glyph \/ level = region.
Proof. destruct level; intros; try done; auto. Qed.

Lemma scan_glyphs_inv w l :
  level_eqb level word = false -> level_eqb level line = false ->
  w ∈ line_Word (lines h0 l) ->
  forall gs done st,
    invariant true done st -> word_var st = Some w -> line_var st = Some l ->
    (forall g, g ∈ gs -> g ∈ word_Glyph (words h0 w)) ->
    exists st',
      scan_glyphs st gs = Ok st'
      /\ invariant true
           (done ++ flat_map (fun g => first_of (glyph_TextEquiv (glyphs h0 g))) gs) st'
      /\ word_var st' = Some w /\ line_var st' = Some l.
Proof.
  intros Hw Hl Hin. induction gs as [|g gs IH]; intros done st Hinv Hwv Hlv Hgs.
  - exists st. simpl. rewrite app_nil_r. done.
  - cbn [scan_glyphs flat_map]. unfold scan_glyph.
    assert (Hglyphs : glyphs (heap_of st) = glyphs h0).
    { destruct Hinv as ((_ & _ & _ & _ & ? & _) & _). done. }
    rewrite Hglyphs.
    destruct (glyph_TextEquiv (glyphs h0 g)) as [|t rest] eqn:Eg; cbn [nonempty first_of].
    + cbn [bind app]. apply IH; [done..|]. intros g' Hg'. apply Hgs. by right.
    + assert (Ht : (t < te_next h0)%nat).
      { destruct Hcreated as (Hc & _). apply (Hc g). rewrite Eg. by left. }
      destruct (step_existing done st t rest Hinv Ht) as (st1 & -> & Hinv1 & Hwv1 & Hlv1).
      { rewrite Hwv, Hlv.
        destruct (is_glyph_level Hw Hl) as [-> | ->];
          (exists g, w, l; do 3 (split; [done|]); split; [apply Hgs; by left|];
           by rewrite Eg). }
      cbn [bind].
      destruct (IH (done ++ [t]) st1 Hinv1) as (st' & Hrun & Hinv' & Hwv' & Hlv').
      * by rewrite Hwv1.
      * by rewrite Hlv1.
      * intros g' Hg'. apply Hgs. by right.
      * exists st'. split; [done|]. rewrite <- app_assoc in Hinv'. done.
Qed.

Lemma scan_word_inv l first w done st :
  level_eqb level line = false ->
  w ∈ line_Word (lines h0 l) ->
  invariant true done st -> line_var st = Some l ->
  exists st',
    scan_word level first st w = Ok st'
    /\ invariant true (done ++ word_elements level h0 w) st'
    /\ line_var st' = Some l.
Proof.
  intros Hl Hin Hinv Hlv. unfold scan_word.
  assert (Hnl : level = line -> Some w = None) by (intros ->; done).
  pose proof (invariant_vars true done st (Some w) (line_var st) Hinv Hnl) as Hinv0.
  set (st0 := Scan (heap_of st) (sequences st) (Some w) (line_var st)) in *.
  assert (exists st1,
             (if first then Ok st0 else append_implicit [SPACE] st0) = Ok st1
             /\ invariant true done st1
             /\ word_var st1 = Some w /\ line_var st1 = Some l) as (st1 & -> & Hinv1 & Hwv1 & Hlv1).
  { destruct first.
    - exists st0. done.
    - destruct (step_space done st0 Hinv0) as (st1 & ? & ? & Hw1 & Hl1).
      exists st1. split; [done|]. split; [done|].
      split; [by rewrite Hw1|rewrite Hl1; exact Hlv]. }
  cbn [bind].
  assert (Hwords : words (heap_of st1) = words h0).
  { destruct Hinv1 as ((_ & _ & ? & _) & _). done. }
  rewrite Hwords. unfold word_elements.
  destruct (level_eqb level word) eqn:Ew.
  - assert (level = word) as Hlev by (by destruct level).
    destruct (word_TextEquiv (words h0 w)) as [|t rest] eqn:Et; cbn [nonempty first_of].
    + exists st1. by rewrite app_nil_r.
    + assert (Ht : (t < te_next h0)%nat).
      { destruct Hcreated as (_ & Hc & _). apply (Hc w). rewrite Et. by left. }
      destruct (step_existing done st1 t rest Hinv1 Ht) as (st2 & -> & Hinv2 & Hwv2 & Hlv2).
      { rewrite Hwv1, Hlv1, Hlev. exists w, l. do 3 (split; [done|]). by rewrite Et. }
      exists st2. split; [done|]. split; [done|]. congruence.
  - destruct (scan_glyphs_inv w l Ew Hl Hin (word_Glyph (words h0 w)) done st1)
      as (st2 & Hrun & Hinv2 & _ & Hlv2); [done..|].
    exists st2. split; [|done].
    destruct (word_Glyph (words h0 w)); [|done]. simpl in *. done.
Qed.

Lemma scan_words_inv l :
  level_eqb level line = false ->
  forall ws first done st,
    (forall w, w ∈ ws -> w ∈ line_Word (lines h0 l)) ->
    invariant true done st -> line_var st = Some l ->
    exists st',
      scan_words level first st ws = Ok st'
      /\ invariant true (done ++ flat_map (word_elements level h0) ws) st'
      /\ line_var st' = Some l.
Proof.
  intros Hl. induction ws as [|w ws IH]; intros first done st Hws Hinv Hlv.
  - exists st. simpl. by rewrite app_nil_r.
  - cbn [scan_words flat_map].
    destruct (scan_word_inv l first w done st Hl) as (st1 & -> & Hinv1 & Hlv1);
      [apply Hws; by left|done..|].
    cbn [bind].
    destruct (IH false (done ++ word_elements level h0 w) st1)
      as (st' & Hrun & Hinv' & Hlv'); [|done..|].
    { intros w' Hw'. apply Hws. by right. }
    exists st'. split; [done|]. by rewrite <- app_assoc in Hinv'.
Qed.

Lemma scan_line_inv first l done st :
  invariant (negb first) done st ->
  exists st',
    scan_line level first st l = Ok st'
    /\ invariant true (done ++ line_elements level h0 l) st'.
Proof.
  intros Hinv. unfold scan_line.
  assert (Hwv : level = line -> word_var st = None).
  { intros Hlev. destruct Hinv as (_ & _ & _ & _ & _ & Hline). by apply Hline. }
  pose proof (invariant_vars _ done st (word_var st) (Some l) Hinv Hwv) as Hinv0.
  set (st0 := Scan (heap_of st) (sequences st) (word_var st) (Some l)) in *.
  assert (exists st1,
             (if first then Ok st0 else append_implicit [NEWLINE] st0) = Ok st1
             /\ invariant false done st1
             /\ word_var st1 = word_var st /\ line_var st1 = Some l)
    as (st1 & -> & Hinv1 & Hwv1 & Hlv1).
  { destruct first.
    - exists st0. done.
    - destruct (step_newline done st0 Hinv0) as (st1 & ? & ? & _ & ? & ?).
      exists st1. done. }
  cbn [bind].
  assert (Hwv1' : level = line -> word_var st1 = None) by (rewrite Hwv1; done).
  pose proof (step_push done st1 (word_var st1) (line_var st1) Hinv1 Hwv1') as Hinv2.
  set (st2 := Scan (heap_of st1) (sequences st1 ++ [[]]) (word_var st1) (line_var st1)) in *.
  assert (Hlines : lines (heap_of st2) = lines h0).
  { destruct Hinv2 as ((_ & _ & _ & _ & _ & ? & _) & _). done. }
  rewrite Hlines. unfold line_elements.
  destruct (level_eqb level line) eqn:El.
  - assert (level = line) as Hlev by (by destruct level).
    destruct (line_TextEquiv (lines h0 l)) as [|t rest] eqn:Et; cbn [nonempty first_of].
    + exists st2. by rewrite app_nil_r.
    + assert (Ht : (t < te_next h0)%nat).
      { destruct Hcreated as (_ & _ & Hc & _). apply (Hc l). rewrite Et. by left. }
      destruct (step_existing done st2 t rest Hinv2 Ht) as (st3 & -> & Hinv3 & _).
      { cbn [st2 word_var line_var]. rewrite Hlv1, (Hwv1' Hlev), Hlev.
        split; [done|]. exists l. split; [done|]. by rewrite Et. }
      exists st3. done.
  - destruct (scan_words_inv l El (line_Word (lines h0 l)) true done st2)
      as (st3 & Hrun & Hinv3 & _); [done..|].
    exists st3. split; [|done].
    destruct (line_Word (lines h0 l)); [|done]. simpl in *. done.
Qed.

Lemma scan_lines_inv : forall ls first done st,
  invariant (negb first) done st ->
  exists st',
    scan_lines level first st ls = Ok st'
    /\ invariant (match ls with [] => negb first | _ => true end)
         (done ++ flat_map (line_elements level h0) ls) st'.
Proof.
  induction ls as [|l ls IH]; intros first done st Hinv.
  - exists st. simpl. by rewrite app_nil_r.
  - cbn [scan_lines flat_map].
    destruct (scan_line_inv first l done st Hinv) as (st1 & -> & Hinv1).
    cbn [bind].
    destruct (IH false (done ++ line_elements level h0 l) st1 Hinv1)
      as (st' & Hrun & Hinv').
    exists st'. split; [done|]. rewrite <- app_assoc in Hinv'.
    by destruct ls.
Qed.

Lemma scan_region_inv first r done st :
  invariant (negb first) done st ->
  (first = true -> sequences st = []) ->
  exists st' first',
    scan_region level first st r = Ok (st', first')
    /\ invariant (negb first')
         (done ++ flat_map (line_elements level h0) (region_TextLine (regions h0 r))) st'
    /\ (first' = true -> sequences st' = []).
Proof.
  intros Hinv Hfirst. unfold scan_region.
  assert (Hregions : regions (heap_of st) = regions h0).
  { destruct Hinv as ((_ & _ & _ & _ & _ & _ & ?) & _). done. }
  rewrite Hregions.
  destruct (region_TextLine (regions h0 r)) as [|l ls] eqn:Er; cbn [nonempty].
  - exists st, first. simpl. by rewrite app_nil_r.
  - assert (exists st1,
               (if first then Ok st else append_implicit [NEWLINE] st) = Ok st1
               /\ invariant false done st1) as (st1 & -> & Hinv1).
    { destruct first.
      - exists st. done.
      - destruct (step_newline done st Hinv) as (st1 & ? & ? & _). exists st1. done. }
    cbn [bind].
    destruct (scan_lines_inv (l :: ls) true done st1 Hinv1) as (st2 & -> & Hinv2).
    cbn [bind]. exists st2, false. done.
Qed.

Lemma scan_regions_inv : forall rs first done st,
  invariant (negb first) done st ->
  (first = true -> sequences st = []) ->
  exists st' first',
    scan_regions level first st rs = Ok (st', first')
    /\ invariant (negb first') (done ++ page_elements level h0 rs) st'
    /\ (first' = true -> sequences st' = []).
Proof.
  induction rs as [|r rs IH]; intros first done st Hinv Hfirst.
  - exists st, first. simpl. unfold page_elements. simpl. by rewrite app_nil_r.
  - cbn [scan_regions].
    destruct (scan_region_inv first r done st Hinv Hfirst) as (st1 & f1 & -> & Hinv1 & Hf1).
    cbn [bind fst snd].
    destruct (IH f1 _ st1 Hinv1 Hf1) as (st' & f' & Hrun & Hinv' & Hf').
    exists st', f'. split; [done|]. split; [|done].
    unfold page_elements in *. cbn [flat_map]. by rewrite app_assoc.
Qed.

(** The run of the function: it returns, and its loops leave every line
    closed. *)
Lemma page_scan rs :
  exists st,
    _page_get_line_sequences_at level h0 rs
      = Ok (heap_of st, filter (fun ln : list entry => 1 < len ln) (sequences st))
    /\ invariant false (page_elements level h0 rs) st.
Proof.
  unfold _page_get_line_sequences_at.
  destruct (scan_regions_inv rs true [] (Scan h0 [] None None))
    as (st1 & f1 & -> & Hinv1 & Hf1).
  { split; [apply grown_refl|]. split.
    { intros ln Hln. by apply elem_of_nil in Hln. }
    cbn. split; [done|]. split; [apply NoDup_nil_2|]. split.
    { intros t Ht. by apply elem_of_nil in Ht. }
    intros _. split; [done|]. intros seq e Hseq. by apply elem_of_nil in Hseq. }
  { done. }
  cbn [bind fst app] in *.
  destruct (sequences st1) as [|s1 ss] eqn:Es; cbn [nonempty].
  - cbn [bind]. exists st1. rewrite Es. split; [done|].
    destruct f1; [done|].
    destruct Hinv1 as (_ & (init & cur & Hseq & _) & _).
    rewrite Es in Hseq. by destruct init.
  - destruct f1; [by specialize (Hf1 eq_refl)|].
    destruct (step_newline _ st1 Hinv1) as (st2 & -> & Hinv2 & _).
    cbn [bind]. exists st2. done.
Qed.

Lemma all_handles_cons (ln : list entry) seqs :
  all_handles (ln :: seqs) = Layout.handles ln ++ all_handles seqs.
Proof. done. Qed.

Lemma short_closed_line h ln :
  closed_line h ln -> ¬ 1 < len ln ->
  filter (fun t : handle => (t < te_next h0)%nat) (Layout.handles ln) = [].
Proof.
  intros (body & nl & -> & [Hnl _] & _) Hlen.
  destruct body as [|e body].
  - unfold Layout.handles. cbn [app map]. rewrite filter_cons_False by lia. done.
  - exfalso. apply Hlen. unfold len. rewrite length_app. simpl. lia.
Qed.

Lemma existing_of_kept h seqs :
  (forall ln, ln ∈ seqs -> closed_line h ln) ->
  filter (fun t : handle => (t < te_next h0)%nat)
    (all_handles (filter (fun ln : list entry => 1 < len ln) seqs))
  = filter (fun t : handle => (t < te_next h0)%nat) (all_handles seqs).
Proof.
  induction seqs as [|ln seqs IH]; intros Hcl; [done|].
  assert (IH' := IH (fun ln' Hln' => Hcl ln' (list_elem_of_further _ _ _ Hln'))).
  rewrite all_handles_cons, filter_app.
  destruct (decide (1 < len ln)) as [Hlong|Hshort].
  - rewrite filter_cons_True by done. rewrite all_handles_cons, filter_app.
    f_equal. exact IH'.
  - rewrite filter_cons_False by done.
    pose proof (short_closed_line h ln (Hcl ln ltac:(by left)) Hshort) as Hs.
    etrans; [exact IH'|]. symmetry.
    etrans; [exact (f_equal (fun x => x ++ _) Hs)|done].
Qed.

Lemma NoDup_of_kept (P : handle -> Prop) `{!forall t, Decision (P t)}
    (R : list entry -> Prop) `{!forall ln, Decision (R ln)} seqs :
  NoDup (filter P (all_handles seqs)) ->
  NoDup (filter P (all_handles (filter R seqs))).
Proof.
  induction seqs as [|ln seqs IH]; [done|].
  rewrite all_handles_cons, filter_app. intros Hnd.
  apply NoDup_app in Hnd as (Hnd1 & Hdisj & Hnd2).
  destruct (decide (R ln)).
  - rewrite filter_cons_True by done. rewrite all_handles_cons, filter_app.
    apply NoDup_app. split; [done|]. split; [|by apply IH].
    intros t Ht Ht'. apply (Hdisj t Ht).
    apply list_elem_of_filter in Ht' as [HP Ht']. apply list_elem_of_filter.
    split; [done|]. apply elem_of_all_handles in Ht' as (seq & e & Hseq & He & <-).
    apply elem_of_all_handles. exists seq, e. split; [|done].
    by apply list_elem_of_filter in Hseq as [_ ?].
  - rewrite filter_cons_False by done. by apply IH.
Qed.

Lemma NoDup_of_parts (l : list handle) (n : nat) :
  NoDup (filter (fun t : handle => (t < n)%nat) l) ->
  NoDup (filter (fun t : handle => (n <= t)%nat) l) ->
  NoDup l.
Proof.
  induction l as [|t l IH]; intros H1 H2; [apply NoDup_nil_2|].
  destruct (decide (t < n)%nat) as [Hlt|Hge].
  - rewrite filter_cons_True in H1 by done. rewrite filter_cons_False in H2 by lia.
    apply NoDup_cons in H1 as [Hnot H1]. apply NoDup_cons. split; [|by apply IH].
    intros Hin. apply Hnot. by apply list_elem_of_filter.
  - rewrite filter_cons_False in H1 by done. rewrite filter_cons_True in H2 by lia.
    apply NoDup_cons in H2 as [Hnot H2]. apply NoDup_cons. split; [|by apply IH].
    intros Hin. apply Hnot. apply list_elem_of_filter. split; [lia|done].
Qed.

Lemma NoDup_all_handles seqs ln :
  NoDup (all_handles seqs) -> ln ∈ seqs -> NoDup (Layout.handles ln).
Proof.
  induction seqs as [|ln' seqs IH]; intros Hnd Hln; [by apply elem_of_nil in Hln|].
  rewrite all_handles_cons in Hnd. apply NoDup_app in Hnd as (H1 & _ & H2).
  apply elem_of_cons in Hln as [->|Hln]; [done|by apply IH].
Qed.

(** [_page_get_line_sequences_at] returns for every page.  Each of its
    lines has at least one element before a last one, which is an implicit
    newline made by the call; the elements before are text results of the
    page, each with the Word and TextLine that hold it, or implicit spaces
    made by the call; at the line level no element has a Word.  What
    existed on the page is as it was. *)
Theorem page_lines_closed rs :
  exists h' lns,
    _page_get_line_sequences_at level h0 rs = Ok (h', lns)
    /\ grown h0 h'
    /\ (forall ln, ln ∈ lns -> 1 < len ln /\ closed_line h' ln)
    /\ (level = line -> forall ln e, ln ∈ lns -> e ∈ ln -> e.1.2 = None).
Proof.
  destruct (page_scan rs) as (st & Hrun & Hg & Hsh & _ & _ & _ & Hline).
  exists (heap_of st), (filter (fun ln : list entry => 1 < len ln) (sequences st)).
  split; [done|]. split; [done|]. split.
  - intros ln Hln. apply list_elem_of_filter in Hln as [Hlen Hln]. split; [done|].
    by apply Hsh.
  - intros Hl ln e Hln He. apply list_elem_of_filter in Hln as [_ Hln].
    destruct (Hline Hl) as [_ Hall]. by eapply Hall.
Qed.

(** The text results of the page at the level are in the lines, each
    once and in reading order, and no other object of the page is. *)
Theorem page_lines_in_reading_order rs h' lns :
  _page_get_line_sequences_at level h0 rs = Ok (h', lns) ->
  filter (fun t : handle => (t < te_next h0)%nat) (all_handles lns) = page_elements level h0 rs.
Proof.
  destruct (page_scan rs) as (st & -> & Hg & Hsh & Hdone & _).
  intros [= <- <-]. rewrite (existing_of_kept (heap_of st)); done.
Qed.

(** If the text results of the page at the level are distinct objects, no
    object is twice in the lines: the elements of every line are
    distinct. *)
Theorem page_lines_distinct rs h' lns :
  NoDup (page_elements level h0 rs) ->
  _page_get_line_sequences_at level h0 rs = Ok (h', lns) ->
  NoDup (all_handles lns) /\ forall ln, ln ∈ lns -> NoDup (Layout.handles ln).
Proof.
  intros Hnd.
  destruct (page_scan rs) as (st & -> & Hg & Hsh & Hdone & Hfresh & _).
  intros [= <- <-].
  assert (Hall : NoDup (all_handles
                          (filter (fun ln : list entry => 1 < len ln) (sequences st)))).
  { apply (NoDup_of_parts _ (te_next h0)).
    - rewrite (existing_of_kept (heap_of st)) by done. by rewrite Hdone.
    - by apply NoDup_of_kept. }
  split; [done|]. intros ln Hln. by eapply NoDup_all_handles.
Qed.

End SequencerFacts.

Lemma page_lines_closed_witness :
  exists h' lns,
    Sequencer._page_get_line_sequences_at Page.word Examples.heap_the_cat [0%nat]
      = Ok (h', lns)
    /\ lns = [[(0, Some 0, Some 0); (2, Some 1, Some 0);
               (1, Some 1, Some 0); (3, Some 1, Some 1)]]%nat
    /\ Sequencer.grown Examples.heap_the_cat h'
    /\ forall ln, ln ∈ lns ->
         1 < len ln /\ Sequencer.closed_line Page.word Examples.heap_the_cat h' ln.
Proof.
  destruct (page_lines_closed Page.word Examples.heap_the_cat created_the_cat [0%nat])
    as (h' & lns & Hrun & Hg & Hcl & _).
  exists h', lns. split; [exact Hrun|]. split; [|split; [exact Hg|exact Hcl]].
  vm_compute in Hrun. injection Hrun as _ <-. reflexivity.
Defined.

Lemma page_lines_in_reading_order_witness :
  exists h' lns,
    Sequencer._page_get_line_sequences_at Page.word Examples.heap_the_cat [0%nat]
      = Ok (h', lns)
    /\ Sequencer.page_elements Page.word Examples.heap_the_cat [0%nat] = [0; 1]%nat
    /\ filter (fun t : handle => (t < Page.te_next Examples.heap_the_cat)%nat)
         (Sequencer.all_handles lns) = [0; 1]%nat.
Proof.
  destruct (Sequencer._page_get_line_sequences_at Page.word Examples.heap_the_cat [0%nat])
    as [[h' lns]| |] eqn:E; [|vm_compute in E; discriminate E..].
  exists h', lns. split; [reflexivity|]. split; [reflexivity|].
  exact (page_lines_in_reading_order Page.word Examples.heap_the_cat created_the_cat
           [0%nat] h' lns E).
Defined.

Lemma page_lines_distinct_witness :
  exists h' lns,
    Sequencer._page_get_line_sequences_at Page.word Examples.heap_the_cat [0%nat]
      = Ok (h', lns)
    /\ NoDup (Sequencer.all_handles lns).
Proof.
  destruct (Sequencer._page_get_line_sequences_at Page.word Examples.heap_the_cat [0%nat])
    as [[h' lns]| |] eqn:E; [|vm_compute in E; discriminate E..].
  exists h', lns. split; [reflexivity|].
  apply (page_lines_distinct Page.word Examples.heap_the_cat created_the_cat
           [0%nat] h' lns); [|exact E].
  by apply (bool_decide_unpack _).
Defined.

(** ** The confidences and the repetition of an extraction *)

Section ExtractedFacts.
Import EditDistributor Layout LineExtractor Extracted.

Variable GAP : char.
Variable mapping : gmap char Z.

Local Abbreviation extract_span := (extract_span GAP mapping).
Local Abbreviation extract_line := (extract_line GAP mapping).
Local Abbreviation extract_lines := (_line_sequences2string_sequences GAP mapping).

(** Extraction never touches a confidence. *)
Lemma extract_span_conf s a e s' r h :
  extract_span s a e = (s', r) -> conf (s' h) = conf (s h).
Proof.
  destruct e as [[h0 w] l]. destruct (decide (Unicode (s h0) = [])) as [Hempty|Hfull].
  - destruct (decide (mapping !! GAP = None)) as [Hgap|Hgap].
    + rewrite extract_span_gap by done. intros [= <- <-].
      unfold set_Unicode. destruct (decide (h = h0)) as [->|Hne].
      * by rewrite upd_same.
      * by rewrite upd_other.
    + rewrite extract_span_abort by done. by intros [= <- <-].
  - rewrite extract_span_full by done. by intros [= <- <-].
Qed.

Lemma extract_line_conf : forall es s a s' r h,
  extract_line s a es = (s', r) -> conf (s' h) = conf (s h).
Proof.
  induction es as [|e es IH]; intros s a s' r h H; simpl in H.
  - by injection H as <- <-.
  - destruct (LineExtractor.extract_span GAP mapping s a e) as [s1 [a1| |]] eqn:E.
    + rewrite (IH _ _ _ _ h H). by eapply extract_span_conf.
    + injection H as <- <-. by eapply extract_span_conf.
    + injection H as <- <-. by eapply extract_span_conf.
Qed.

Lemma extract_line_counts : forall es s0 a0 s a,
  extract_line s0 a0 es = (s, Ok a) ->
  acc_i a = acc_i a0 + len (line_string s es)
  /\ conf_line a = conf_line a0 ++ conf_string s es.
Proof.
  induction es as [|e es IH]; intros s0 a0 s a H; simpl in H.
  - injection H as <- <-. unfold line_string, conf_string. simpl.
    rewrite app_nil_r. split; [|done]. change (len []) with 0. lia.
  - destruct (LineExtractor.extract_span GAP mapping s0 a0 e) as [s1 [a1| |]] eqn:E;
      [|done..].
    pose proof (extract_span_store _ _ _ _ _ _ _ E) as [_ Hfilled].
    specialize (Hfilled a1 eq_refl).
    assert (Hkeep : s e.1.1 = s1 e.1.1) by (eapply extract_line_store; done).
    assert (Ha1 : acc_i a1 = acc_i a0 + len (content s e)
                  /\ conf_line a1
                     = conf_line a0
                       ++ replicate (length (content s e)) (conf_or_one (conf (s e.1.1)))).
    { unfold content. rewrite Hkeep. destruct e as [[h w] l].
      destruct (decide (Unicode (s0 h) = [])) as [Hempty|Hfull].
      - destruct (decide (mapping !! GAP = None)) as [Hgap|Hgap].
        + rewrite extract_span_gap in E by done. injection E as <- <-. simpl.
          unfold set_Unicode. rewrite upd_same. simpl. done.
        + rewrite extract_span_abort in E by done. done.
      - rewrite extract_span_full in E by done. injection E as <- <-. simpl.
        unfold len. by rewrite Nat2Z.id. }
    destruct Ha1 as [Hi Hc].
    apply IH in H as [H1 H2]. rewrite H1, H2, Hi, Hc.
    unfold line_string, conf_string. cbn [map concat flat_map].
    rewrite len_app, <- app_assoc. split; [lia|done].
Qed.

Lemma extract_line_acc es s0 s a :
  extract_line s0 empty_acc es = (s, Ok a) -> a = acc_of s es.
Proof.
  intros H. pose proof (extract_line_counts _ _ _ _ _ H) as [Hi Hc].
  apply extract_line_maps in H as (H1 & H2 & H3 & H4 & _).
  destruct a as [i u c t w l]. simpl in *. unfold acc_of. subst. f_equal; lia.
Qed.

Lemma conf_string_ext s s' es :
  (forall h, h ∈ handles es -> s' h = s h) -> conf_string s' es = conf_string s es.
Proof.
  unfold conf_string, handles, content. induction es as [|e es IH]; intros H; [done|].
  cbn [flat_map]. rewrite H by (by left). f_equal. apply IH.
  intros h Hh. apply H. by right.
Qed.

Lemma acc_of_ext s s' es :
  (forall h, h ∈ handles es -> s' h = s h) -> acc_of s' es = acc_of s es.
Proof.
  intros H. unfold acc_of, textequiv_map, word_map, textline_map.
  assert (HU : forall h, h ∈ handles es -> Unicode (s' h) = Unicode (s h)).
  { intros h Hh. by rewrite H. }
  by rewrite (conf_string_ext s s'), (line_string_ext s s'), (starts_ext s s').
Qed.

(** Every line of a successful extraction, in terms of the final store. *)
Lemma extract_lines_acc : forall lines s0 s accs,
  extract_lines s0 lines = (s, Ok accs) ->
  accs = map (acc_of s) lines
  /\ forall es, es ∈ lines -> nonempty_contents s es.
Proof.
  induction lines as [|es lines IH]; intros s0 s accs H; simpl in H.
  - injection H as <- <-. split; [done|]. intros es Hes. by apply elem_of_nil in Hes.
  - destruct (LineExtractor.extract_line GAP mapping s0 empty_acc es)
      as [s1 [a1| |]] eqn:E; [|done..].
    destruct (_line_sequences2string_sequences GAP mapping s1 lines)
      as [s2 [accs2| |]] eqn:E2; [|done..].
    injection H as <- <-.
    pose proof (extract_line_acc _ _ _ _ E) as ->.
    apply extract_line_maps in E as (_ & _ & _ & _ & Hne).
    assert (Hsame : forall h, h ∈ handles es -> s2 h = s1 h).
    { intros h Hh. eapply extract_lines_store; [done|].
      by eapply nonempty_contents_handles. }
    destruct (IH _ _ _ E2) as [-> Hall]. split.
    + cbn [map]. f_equal. symmetry. by apply acc_of_ext.
    + intros es' Hes'. apply elem_of_cons in Hes' as [->|Hes']; [|by apply Hall].
      eapply nonempty_contents_ext; [|done]. intros h Hh. by rewrite Hsame.
Qed.

(** On a store in which no element of the lines is empty, extraction
    writes nothing. *)
Lemma extract_line_filled : forall es s a0,
  nonempty_contents s es -> exists a, extract_line s a0 es = (s, Ok a).
Proof.
  induction es as [|[[h w] l] es IH]; intros s a0 Hne;
    cbn [LineExtractor.extract_line]; [eauto|].
  rewrite extract_span_full.
  - apply IH. intros e He. apply Hne. by right.
  - apply (Hne (h, w, l)). by left.
Qed.

Lemma extract_lines_filled : forall lines s,
  (forall es, es ∈ lines -> nonempty_contents s es) ->
  extract_lines s lines = (s, Ok (map (acc_of s) lines)).
Proof.
  induction lines as [|es lines IH]; intros s Hall;
    cbn [_line_sequences2string_sequences map]; [done|].
  destruct (extract_line_filled es s empty_acc) as [a Ha]; [apply Hall; by left|].
  rewrite Ha. rewrite IH by (intros es' Hes'; apply Hall; by right).
  by rewrite (extract_line_acc _ _ _ _ Ha).
Qed.

Lemma len_conf_string s es : len (conf_string s es) = len (line_string s es).
Proof.
  unfold conf_string, line_string. induction es as [|e es IH]; [done|].
  cbn [flat_map map concat]. rewrite !len_app, IH. unfold len.
  by rewrite length_replicate.
Qed.

(** The confidence list of every extracted line has one entry for each
    character of the line string: the confidence of the element that the
    character comes from, or 1.0 where that element has no confidence or
    the confidence 0.  The three position maps of a line have the same
    keys, there is one result per line, and extraction leaves every
    confidence as it was. *)
Theorem extraction_confidences lines s0 s accs :
  _line_sequences2string_sequences GAP mapping s0 lines = (s, Ok accs) ->
  length accs = length lines
  /\ (forall h, conf (s h) = conf (s0 h))
  /\ Forall2 (fun es a =>
       conf_line a = conf_string s es
       /\ len (conf_line a) = len (input_line a)
       /\ acc_i a = len (input_line a)
       /\ keys (word_starts a) = keys (textequiv_starts a)
       /\ keys (textline_starts a) = keys (textequiv_starts a)) lines accs.
Proof.
  intros H. split; [|split].
  - apply extract_lines_acc in H as [-> _]. by rewrite length_map.
  - intros h. revert s0 s accs H.
    induction lines as [|es lines IH]; intros s0 s accs H; simpl in H.
    + by injection H as <- <-.
    + destruct (LineExtractor.extract_line GAP mapping s0 empty_acc es)
        as [s1 [a1| |]] eqn:E; [|done..].
      destruct (_line_sequences2string_sequences GAP mapping s1 lines)
        as [s2 [accs2| |]] eqn:E2; [|done..].
      injection H as <- <-. rewrite (IH _ _ _ E2). by eapply extract_line_conf.
  - apply extract_lines_acc in H as [-> _].
    apply Forall2_fmap_r, Forall_Forall2_diag, Forall_forall. intros es _.
    unfold acc_of, word_map, textline_map, textequiv_map. simpl.
    split; [done|]. split; [apply len_conf_string|]. split; [done|].
    fold (keys (zip (starts s 0 es) (map (fun e : entry => Some e.1.1) es))).
    fold (keys (zip (starts s 0 es) (map (fun e : entry => e.1.2) es))).
    fold (keys (zip (starts s 0 es) (map (fun e : entry => e.2) es))).
    rewrite !keys_zip by (by rewrite length_starts, length_map). done.
Qed.

(** Extraction can be repeated: on the store that a successful extraction
    has left, it returns the same lines, confidences and maps, and writes
    nothing (the replacement of an empty element by [GAP] happens once). *)
Theorem extraction_repeatable lines s0 s accs :
  _line_sequences2string_sequences GAP mapping s0 lines = (s, Ok accs) ->
  _line_sequences2string_sequences GAP mapping s lines = (s, Ok accs).
Proof.
  intros H. apply extract_lines_acc in H as [-> Hall].
  by apply extract_lines_filled.
Qed.

End ExtractedFacts.

Lemma extraction_confidences_witness :
  exists s accs,
    LineExtractor._line_sequences2string_sequences BELL ∅ store_rejected [line_of 2]
      = (s, Ok accs)
    /\ map LineExtractor.input_line accs = [[BELL; NEWLINE]]
    /\ map LineExtractor.conf_line accs = [[Float (1 # 2); Float 1]]
    /\ Forall2 (fun es a =>
         LineExtractor.conf_line a = Extracted.conf_string s es
         /\ len (LineExtractor.conf_line a) = len (LineExtractor.input_line a)
         /\ LineExtractor.acc_i a = len (LineExtractor.input_line a)
         /\ keys (LineExtractor.word_starts a) = keys (LineExtractor.textequiv_starts a)
         /\ keys (LineExtractor.textline_starts a)
            = keys (LineExtractor.textequiv_starts a)) [line_of 2] accs.
Proof.
  destruct (LineExtractor._line_sequences2string_sequences BELL ∅ store_rejected [line_of 2])
    as [s [accs| |]] eqn:E; [|vm_compute in E; discriminate E..].
  destruct (extraction_confidences BELL ∅ [line_of 2] store_rejected s accs E)
    as (_ & _ & HF).
  exists s, accs. split; [reflexivity|].
  split; [vm_compute in E; injection E as _ <-; reflexivity|].
  split; [vm_compute in E; injection E as _ <-; reflexivity|exact HF].
Defined.

Lemma extraction_repeatable_witness :
  exists s accs,
    LineExtractor._line_sequences2string_sequences BELL ∅ store_rejected [line_of 2]
      = (s, Ok accs)
    /\ Unicode (store_rejected 0%nat) = [] /\ Unicode (s 0%nat) = [BELL]
    /\ LineExtractor._line_sequences2string_sequences BELL ∅ s [line_of 2] = (s, Ok accs).
Proof.
  destruct (LineExtractor._line_sequences2string_sequences BELL ∅ store_rejected [line_of 2])
    as [s [accs| |]] eqn:E; [|vm_compute in E; discriminate E..].
  exists s, accs. split; [reflexivity|]. split; [reflexivity|].
  split; [vm_compute in E; injection E as <- _; reflexivity|].
  exact (extraction_repeatable BELL ∅ [line_of 2] store_rejected s accs E).
Defined.

(** ** The edges of [_alignment2path] *)

Section AlignerEdges.
Context {score : Type}.
Variable zero : score.
Variable add : score -> score -> score.
Variable f32 : score -> score.
Variable gtb : score -> score -> bool.
Variable alignment : list (list score).
Variable min_score : score.

(** Every entry of the returned path lies within the two lines, and only
    the end of the input line is mapped to the end of the output line. *)
Theorem alignment2path_within_bounds i_max j_max :
  1 <= i_max -> 1 <= j_max ->
  Aligner.well_sized alignment i_max j_max = true ->
  exists path,
    Aligner._alignment2path zero add f32 gtb alignment i_max j_max min_score = Ok path
    /\ forall i j, path !! i = Some j ->
         0 <= i <= i_max /\ 0 <= j <= j_max /\ (i < i_max <-> j < j_max).
Proof.
  intros Hi Hj Hsized.
  destruct (alignment2path_run zero add f32 gtb alignment i_max j_max min_score Hi Hj Hsized)
    as (v & i0 & j0 & m & _ & _ & _ & _ & _ & (_ & Hb & _) & Hrun).
  exists (<[0 := 0]> m). split; [done|].
  intros i j Hij. apply lookup_insert_Some in Hij as [[<- <-]|[_ Hij]]; [lia|].
  destruct (Hb _ _ Hij); lia.
Qed.

(** Lines of length zero: two empty lines give the path [{0: 0}]; an
    empty line against a line that is not empty is an [IndexError] (the
    start of the backward pass indexes an axis of length 0); a negative
    length is the [ValueError] of [np.zeros]. *)
Theorem alignment2path_empty_lines i_max j_max :
  (i_max = 0 /\ j_max = 0 ->
     Aligner._alignment2path zero add f32 gtb alignment i_max j_max min_score
     = Ok {[ 0 := 0 ]})
  /\ ((i_max = 0 /\ 1 <= j_max) \/ (1 <= i_max /\ j_max = 0) ->
     Aligner._alignment2path zero add f32 gtb alignment i_max j_max min_score
     = Raise IndexError)
  /\ (i_max < 0 \/ j_max < 0 ->
     Aligner._alignment2path zero add f32 gtb alignment i_max j_max min_score
     = Raise ValueError).
Proof.
  unfold Aligner._alignment2path. split; [|split].
  - intros [-> ->]. vm_compute. reflexivity.
  - intros [[-> Hj]|[Hi ->]].
    + unfold Aligner.np_zeros. cbn [Z.ltb Z.compare orb].
      destruct (Z.ltb_spec j_max 0); [lia|]. cbn [bind].
      assert (Hfw : forall fuel v, Aligner.forward zero add f32 gtb alignment 0 j_max
                                     min_score fuel v 0 0 = Ok v).
      { intros fuel v. by destruct fuel. }
      rewrite Hfw. cbn [bind]. unfold Aligner.start_i.
      destruct (Z.leb_spec 0 j_max); [|lia]. cbn [bind].
      unfold Aligner.start_j. destruct (Z.leb_spec j_max 0); [lia|].
      unfold Aligner.nd_row_from. cbn. done.
    + unfold Aligner.np_zeros. destruct (Z.ltb_spec i_max 0); [lia|].
      cbn [Z.ltb Z.compare orb bind].
      assert (Hfw : forall fuel v, Aligner.forward zero add f32 gtb alignment i_max 0
                                     min_score fuel v 0 0 = Ok v).
      { intros fuel v. destruct fuel; cbn [Aligner.forward]; by rewrite andb_false_r. }
      rewrite Hfw. cbn [bind]. unfold Aligner.start_i.
      destruct (Z.leb_spec i_max 0); [lia|].
      unfold Aligner.nd_col_from. cbn. done.
  - intros H. unfold Aligner.np_zeros.
    assert ((i_max <? 0) || (j_max <? 0) = true) as ->; [|done].
    apply orb_true_iff. destruct H; [left|right]; by apply Z.ltb_lt.
Qed.

Section Rectangle.
Variable i_max j_max : Z.
Hypothesis Hi : 1 <= i_max.
Hypothesis Hj : 1 <= j_max.

Local Abbreviation in_rect := (Aligner.in_rect i_max j_max).
Local Abbreviation rank := (Aligner.rank i_max).
Local Abbreviation alignment_at := (Aligner.alignment_at alignment).
Local Abbreviation advance := (Aligner.advance gtb alignment i_max j_max min_score).
Local Abbreviation forward :=
  (Aligner.forward zero add f32 gtb alignment i_max j_max min_score).

Lemma py_index_cases {A} (l : list A) k :
  (exists x, py_index l k = Ok x) \/ py_index l k = Raise IndexError.
Proof.
  unfold py_index. destruct (norm_index _ k); [|by right].
  destruct (l !! _); [left; eauto|by right].
Qed.

Lemma alignment_at_cases i j :
  (exists a, alignment_at j i = Ok a) \/ alignment_at j i = Raise IndexError.
Proof.
  unfold Aligner.alignment_at.
  destruct (py_index_cases alignment j) as [[row ->]| ->]; [|by right].
  cbn [bind]. apply py_index_cases.
Qed.

Lemma py_index_length {A} (l : list A) : py_index l (len l) = Raise IndexError.
Proof.
  unfold py_index, norm_index, len.
  destruct (Z.leb_spec 0 (Z.of_nat (length l))); [|lia].
  by rewrite Z.ltb_irrefl.
Qed.

(** A matrix that does not cover the rectangle has a cell in it that
    cannot be read. *)
Lemma missing_cell :
  Aligner.well_sized alignment i_max j_max = false ->
  exists i j, in_rect i j /\ alignment_at j i = Raise IndexError.
Proof.
  unfold Aligner.well_sized. intros H. apply andb_false_iff in H as [H|H].
  - apply Z.leb_gt in H. exists 0, (len alignment).
    split; [unfold Aligner.in_rect, len; lia|].
    unfold Aligner.alignment_at. by rewrite py_index_length.
  - apply forallb_false_witness in H as (row & Hrow & Hlen).
    apply Z.leb_gt in Hlen.
    apply list_elem_of_lookup in Hrow as [k Hk].
    apply lookup_take_Some in Hk as [Hk Hlt].
    exists (len row), (Z.of_nat k). split; [unfold Aligner.in_rect, len; lia|].
    unfold Aligner.alignment_at.
    assert (Hget : py_index alignment (Z.of_nat k) = Ok row).
    { unfold py_index. apply lookup_lt_Some in Hk as Hklt.
      rewrite norm_index_in by lia. by rewrite Nat2Z.id, Hk. }
    rewrite Hget. cbn [bind]. apply py_index_length.
Qed.

Lemma rank_inj i j i' j' :
  in_rect i j -> in_rect i' j' -> rank i j = rank i' j' -> i = i' /\ j = j'.
Proof.
  unfold Aligner.in_rect, Aligner.rank. intros [? ?] [? ?] Heq.
  destruct (Z.lt_trichotomy j j') as [Hlt|[->|Hgt]].
  - assert ((j + 1) * i_max <= j' * i_max) by (apply Z.mul_le_mono_nonneg_r; lia). lia.
  - split; lia.
  - assert ((j' + 1) * i_max <= j * i_max) by (apply Z.mul_le_mono_nonneg_r; lia). lia.
Qed.

Lemma bump_next i j bi bj :
  in_rect i j -> in_rect bi bj -> rank i j < rank bi bj ->
  exists i' j', Aligner.bump i_max j_max i j = (i', j', false)
    /\ in_rect i' j' /\ rank i' j' = rank i j + 1.
Proof.
  unfold Aligner.in_rect, Aligner.rank, Aligner.bump. intros [? ?] [? ?] Hlt.
  destruct (Z.eqb_spec (i + 1) i_max) as [E|E].
  - destruct (Z.eqb_spec (j + 1) j_max) as [E'|E'].
    + exfalso. nia.
    + exists 0, (j + 1). split; [done|]. split; nia.
  - exists (i + 1), j. split; [done|]. split; nia.
Qed.

(** With a missing cell ahead, the inner loop stops at a cell before it
    or at it, or fails on it. *)
Lemma advance_missing bi bj :
  in_rect bi bj -> alignment_at bj bi = Raise IndexError ->
  forall fuel i j,
    in_rect i j -> rank i j < rank bi bj ->
    (Z.to_nat (rank bi bj - rank i j) <= fuel)%nat ->
    advance fuel i j = Raise IndexError
    \/ exists i' j', advance fuel i j = Ok (i', j')
         /\ in_rect i' j' /\ rank i j < rank i' j' /\ rank i' j' < rank bi bj.
Proof.
  intros Hb Hbad. induction fuel as [|fuel IH]; intros i j Hin Hlt Hfuel; [lia|].
  cbn [Aligner.advance].
  destruct (bump_next i j bi bj Hin Hb Hlt) as (i' & j' & -> & Hin' & Hr).
  destruct (alignment_at_cases i' j') as [[a Ha]|Ha]; rewrite Ha; cbn [bind]; [|by left].
  assert (Hne : rank i' j' <> rank bi bj).
  { intros Heq. apply rank_inj in Heq as [-> ->]; [|done..]. congruence. }
  destruct (gtb a min_score).
  - right. exists i', j'. split; [done|]. split; [done|]. lia.
  - destruct (IH i' j' Hin') as [->|(i2 & j2 & -> & Hin2 & Hr2 & Hr3)]; [lia|lia|by left|].
    right. exists i2, j2. split; [done|]. split; [done|]. lia.
Qed.

(** With a missing cell at the cursor or ahead of it, the forward pass
    fails. *)
Lemma forward_missing bi bj :
  in_rect bi bj -> alignment_at bj bi = Raise IndexError ->
  forall fuel (v : Aligner.ndarray) i j,
    Aligner.shaped i_max j_max v ->
    in_rect i j -> rank i j <= rank bi bj ->
    (Z.to_nat (rank bi bj - rank i j) < fuel)%nat ->
    forward fuel v i j = Raise IndexError.
Proof.
  intros Hb Hbad. induction fuel as [|fuel IH]; intros v i j Hv Hin Hle Hfuel; [lia|].
  rewrite forward_S. destruct Hin as [Hi' Hj'].
  destruct (Z.ltb_spec i i_max); [|lia]. destruct (Z.ltb_spec j j_max); [|lia].
  cbn [andb].
  assert (exists im1, (if 0 <? i then Aligner.nd_get zero v (i - 1) j else Ok zero)
                      = Ok im1) as [im1 ->].
  { destruct (0 <? i); [|eauto]. apply (nd_get_ok zero i_max j_max); (done || lia). }
  assert (exists jm1, (if 0 <? j then Aligner.nd_get zero v i (j - 1) else Ok zero)
                      = Ok jm1) as [jm1 ->].
  { destruct (0 <? j); [|eauto]. apply (nd_get_ok zero i_max j_max); (done || lia). }
  assert (exists ijm1, (if (0 <? i) && (0 <? j) then Aligner.nd_get zero v (i - 1) (j - 1)
                        else Ok zero) = Ok ijm1) as [ijm1 ->].
  { destruct ((0 <? i) && (0 <? j)); [|eauto].
    apply (nd_get_ok zero i_max j_max); (done || lia). }
  cbn [bind].
  destruct (alignment_at_cases i j) as [[a Ha]|Ha]; rewrite Ha; cbn [bind]; [|done].
  assert (Hlt : rank i j < rank bi bj).
  { destruct (decide (rank i j = rank bi bj)) as [Heq|Hne]; [|lia].
    apply rank_inj in Heq as [-> ->]; [congruence|done..]. }
  destruct (nd_set_ok f32 i_max j_max v i j (add a (Aligner.max3 gtb im1 jm1 ijm1)))
    as (v' & -> & Hv' & _); [done..|].
  cbn [bind].
  pose proof (rank_in_rect i_max j_max Hi Hj bi bj Hb) as Hrb.
  pose proof (rank_in_rect i_max j_max Hi Hj i j (conj Hi' Hj')) as Hri.
  destruct (advance_missing bi bj Hb Hbad (Aligner.cells_fuel i_max j_max) i j)
    as [->|(i2 & j2 & -> & Hin2 & Hr2 & Hr3)]; [done|done| |done|].
  { unfold Aligner.cells_fuel. lia. }
  cbn [bind fst snd]. apply IH; [done|done|lia|lia].
Qed.

(** [_alignment2path] reads every cell of the rectangle: on lines that are
    not empty it returns a path exactly for a matrix that covers the
    [i_max] by [j_max] rectangle, and fails with an [IndexError] for any
    other one. *)
Theorem alignment2path_reads_every_cell :
  (Aligner.well_sized alignment i_max j_max = true ->
     exists path,
       Aligner._alignment2path zero add f32 gtb alignment i_max j_max min_score = Ok path)
  /\ (Aligner.well_sized alignment i_max j_max = false ->
     Aligner._alignment2path zero add f32 gtb alignment i_max j_max min_score
     = Raise IndexError).
Proof.
  split.
  - intros Hsized.
    destruct (alignment2path_run zero add f32 gtb alignment i_max j_max min_score
                Hi Hj Hsized) as (_ & _ & _ & m & _ & _ & _ & _ & _ & _ & Hrun).
    eauto.
  - intros Hsized. destruct (missing_cell Hsized) as (bi & bj & Hb & Hbad).
    unfold Aligner._alignment2path, Aligner.np_zeros.
    destruct (Z.ltb_spec i_max 0); [lia|]. destruct (Z.ltb_spec j_max 0); [lia|].
    cbn [orb bind].
    rewrite (forward_missing bi bj Hb Hbad); [done|done|..].
    + unfold Aligner.in_rect. lia.
    + pose proof (rank_in_rect i_max j_max Hi Hj bi bj Hb). unfold Aligner.rank in *. lia.
    + pose proof (rank_in_rect i_max j_max Hi Hj bi bj Hb).
      unfold Aligner.cells_fuel, Aligner.rank in *. lia.
Qed.

End Rectangle.

End AlignerEdges.

Lemma alignment2path_within_bounds_witness :
  exists path,
    path_of identity2 2 2 (1 # 10) = Ok path
    /\ forall i j, path !! i = Some j -> 0 <= i <= 2 /\ 0 <= j <= 2 /\ (i < 2 <-> j < 2).
Proof.
  apply (alignment2path_within_bounds 0%Q Qplus (fun x => x) Qgtb identity2 (1 # 10) 2 2);
    [lia|lia|reflexivity].
Defined.

Lemma alignment2path_empty_lines_witness :
  path_of identity2 0 0 (1 # 10) = Ok {[ 0 := 0 ]}
  /\ path_of identity2 2 0 (1 # 10) = Raise IndexError
  /\ path_of identity2 0 2 (1 # 10) = Raise IndexError
  /\ path_of identity2 (-1) 2 (1 # 10) = Raise ValueError.
Proof.
  split; [|split; [|split]].
  - apply (alignment2path_empty_lines 0%Q Qplus (fun x => x) Qgtb identity2 (1 # 10) 0 0).
    split; reflexivity.
  - apply (alignment2path_empty_lines 0%Q Qplus (fun x => x) Qgtb identity2 (1 # 10) 2 0).
    right. split; [lia|reflexivity].
  - apply (alignment2path_empty_lines 0%Q Qplus (fun x => x) Qgtb identity2 (1 # 10) 0 2).
    left. split; [reflexivity|lia].
  - apply (alignment2path_empty_lines 0%Q Qplus (fun x => x) Qgtb identity2 (1 # 10) (-1) 2).
    left. lia.
Defined.

Lemma alignment2path_reads_every_cell_witness :
  (exists path, path_of identity2 2 2 (1 # 10) = Ok path)
  /\ path_of [[1%Q; 0%Q]; [0%Q]] 2 2 (1 # 10) = Raise IndexError
  /\ path_of [[1%Q; 0%Q]] 2 2 (1 # 10) = Raise IndexError.
Proof.
  split; [|split].
  - apply (alignment2path_reads_every_cell 0%Q Qplus (fun x => x) Qgtb identity2
             (1 # 10) 2 2); [lia|lia|reflexivity].
  - apply (alignment2path_reads_every_cell 0%Q Qplus (fun x => x) Qgtb [[1%Q; 0%Q]; [0%Q]]
             (1 # 10) 2 2); [lia|lia|reflexivity].
  - apply (alignment2path_reads_every_cell 0%Q Qplus (fun x => x) Qgtb [[1%Q; 0%Q]]
             (1 # 10) 2 2); [lia|lia|reflexivity].
Defined.

(** ** Splitting a word at every space *)

Section SplitFacts.
Import EditDistributor Page LevelPropagator.

Variable xywh_from_points : str -> xywh.
Variable points_from_xywh : xywh -> str.
Variable textequiv_eq : heap -> handle -> handle -> bool.
Variable glyph_eq : heap -> handle -> handle -> bool.

Local Abbreviation _split_word_at_space :=
  (_split_word_at_space xywh_from_points points_from_xywh).
Local Abbreviation split_at_spaces :=
  (split_at_spaces xywh_from_points points_from_xywh).
Local Abbreviation resegment_step :=
  (resegment_step xywh_from_points points_from_xywh textequiv_eq glyph_eq).

Lemma contains_elem c (s : str) : contains c s = true <-> c ∈ s.
Proof.
  unfold contains. rewrite existsb_exists. split.
  - intros (x & Hx & Heq). apply N.eqb_eq in Heq as ->. by apply list_elem_of_In.
  - intros H. exists c. split; [by apply list_elem_of_In|apply N.eqb_refl].
Qed.

Lemma first_space (s : str) :
  contains SPACE s = true -> exists pre post, s = pre ++ SPACE :: post /\ SPACE ∉ pre.
Proof.
  intros H. destruct (str_index_from_found SPACE s 0 H) as [p Hp].
  apply str_index_from_spec in Hp as (pre & post & ? & _ & ?). eauto.
Qed.

Lemma str_index_first (pre post : str) :
  SPACE ∉ pre -> str_index SPACE (pre ++ SPACE :: post) = Ok (len pre).
Proof.
  intros Hnot. unfold str_index.
  assert (H : forall k, str_index_from k SPACE (pre ++ SPACE :: post) = Ok (k + len pre)).
  { induction pre as [|c pre IH]; intros k; simpl.
    - f_equal. unfold len. simpl. lia.
    - destruct (N.eqb_spec c SPACE) as [->|Hne].
      + exfalso. apply Hnot. by left.
      + rewrite IH.
        * f_equal. unfold len. simpl length. lia.
        * intros Hin. apply Hnot. by right. }
  by rewrite H.
Qed.

Lemma split_on_first (pre post : str) :
  SPACE ∉ pre -> split_on SPACE (pre ++ SPACE :: post) = pre :: split_on SPACE post.
Proof.
  induction pre as [|c pre IH]; intros Hnot; simpl.
  - done.
  - destruct (N.eqb_spec c SPACE) as [->|Hne].
    + exfalso. apply Hnot. by left.
    + rewrite IH; [done|]. intros Hin. apply Hnot. by right.
Qed.

Lemma split_on_none (s : str) : contains SPACE s = false -> split_on SPACE s = [s].
Proof.
  induction s as [|c s IH]; [done|].
  intros H. cbn [contains existsb] in H. apply orb_false_iff in H as [H1 H2].
  rewrite N.eqb_sym in H1. cbn [split_on]. rewrite H1.
  unfold contains in IH. by rewrite IH.
Qed.

(** [' '.join(s.split(' ')) == s] *)
Lemma join_split_on (s : str) : join [SPACE] (split_on SPACE s) = s.
Proof.
  induction s as [|c s IH]; [done|]. cbn [split_on].
  pose proof (split_on_nonempty SPACE s) as Hne.
  destruct (split_on SPACE s) as [|t ts] eqn:Es; [done|].
  destruct (c =? SPACE)%N eqn:E.
  - apply N.eqb_eq in E as ->.
    change (join [SPACE] ([] :: t :: ts)) with ([] ++ [SPACE] ++ join [SPACE] (t :: ts)).
    by rewrite IH.
  - destruct ts as [|t' ts].
    + change (join [SPACE] [t]) with t in IH. by rewrite <- IH.
    + change (join [SPACE] (t :: t' :: ts))
        with (t ++ [SPACE] ++ join [SPACE] (t' :: ts)) in IH.
      change (join [SPACE] ((c :: t) :: t' :: ts))
        with ((c :: t) ++ [SPACE] ++ join [SPACE] (t' :: ts)).
      by rewrite <- IH.
Qed.

(** One call of [_split_word_at_space]: the two new words and TextEquivs,
    and what it leaves as it was. *)
Lemma split_step h w t rest (pre post : str) :
  word_TextEquiv (words h w) = t :: rest ->
  Unicode (tes h t) = pre ++ SPACE :: post -> SPACE ∉ pre ->
  exists h',
    _split_word_at_space h w = Ok (h', word_next h, S (word_next h))
    /\ te_next h' = S (S (te_next h)) /\ word_next h' = S (S (word_next h))
    /\ (forall t', (t' < te_next h)%nat -> tes h' t' = tes h t')
    /\ (forall w', (w' < word_next h)%nat -> words h' w' = words h w')
    /\ lines h' = lines h
    /\ word_TextEquiv (words h' (word_next h)) = [te_next h]
    /\ word_TextEquiv (words h' (S (word_next h))) = [S (te_next h)]
    /\ tes h' (te_next h) = TextEquiv pre (conf (tes h t)) None
    /\ tes h' (S (te_next h)) = TextEquiv post (conf (tes h t)) None.
Proof.
  intros Hte Hu Hnot. unfold Page._split_word_at_space.
  rewrite Hte, py_index_0. cbn [bind]. rewrite Hu, (str_index_first pre post Hnot).
  cbn [bind]. eexists. split; [reflexivity|].
  cbn [new_Word new_TextEquiv words tes te_next word_next lines fst snd].
  split; [done|]. split; [done|]. split.
  { intros t' Ht'. rewrite !upd_other by lia. done. }
  split.
  { intros w' Hw'. rewrite !upd_other by lia. done. }
  split; [done|].
  rewrite !upd_same. rewrite (upd_other _ _ _ (word_next h)) by lia. rewrite upd_same.
  rewrite (upd_other _ _ _ (te_next h)) by lia. rewrite upd_same.
  cbn [word_TextEquiv]. split; [done|]. split; [done|].
  rewrite py_slice_prefix.
  pose proof (py_slice_suffix pre post SPACE) as Hs. rewrite Hs. done.
Qed.

(** The [while True] of the word level: the words it makes hold the
    pieces of the text between the spaces. *)
Lemma split_loop : forall fuel h nxt acc t rest,
  word_TextEquiv (words h nxt) = t :: rest ->
  contains SPACE (Unicode (tes h t)) = true ->
  (length (Unicode (tes h t)) < fuel)%nat ->
  exists h' new,
    split_at_spaces fuel h nxt acc = Ok (h', acc ++ new)
    /\ map (fun p => first_Unicode h' (word_TextEquiv (words h' p))) new
       = split_on SPACE (Unicode (tes h t))
    /\ (forall p, p ∈ new ->
          (word_next h <= p < word_next h')%nat
          /\ first_conf h' (word_TextEquiv (words h' p)) = conf (tes h t))
    /\ (te_next h <= te_next h')%nat /\ (word_next h <= word_next h')%nat
    /\ (forall t', (t' < te_next h)%nat -> tes h' t' = tes h t')
    /\ (forall w', (w' < word_next h)%nat -> words h' w' = words h w')
    /\ lines h' = lines h.
Proof.
  induction fuel as [|fuel IH]; intros h nxt acc t rest Hte Hsp Hfuel; [lia|].
  destruct (first_space _ Hsp) as (pre & post & Hu & Hnot).
  destruct (split_step h nxt t rest pre post Hte Hu Hnot)
    as (h1 & Hrun & Htn & Hwn & Hft & Hfw & Hl & Hp & Hn & Htp & Htnx).
  cbn [Page.split_at_spaces]. rewrite Hrun. cbn [bind]. rewrite Hn, py_index_0.
  cbn [bind]. rewrite Htnx. cbn [Unicode].
  assert (Hlen : length (Unicode (tes h t)) = (length pre + 1 + length post)%nat).
  { rewrite Hu, length_app. simpl. lia. }
  rewrite Hu, (split_on_first pre post Hnot).
  destruct (contains SPACE post) eqn:Epost.
  - destruct (IH h1 (S (word_next h)) (acc ++ [word_next h]) (S (te_next h)) [])
      as (h' & new & Hrun' & Htexts & Hnew & Hle1 & Hle2 & Hft' & Hfw' & Hl');
      [done|by rewrite Htnx|rewrite Htnx; simpl; lia|].
    rewrite Htnx in Htexts. cbn [Unicode] in Htexts.
    exists h', (word_next h :: new). split.
    { rewrite Hrun'. by rewrite <- app_assoc. }
    split.
    { cbn [map]. rewrite Htexts. f_equal.
      rewrite Hfw' by lia. rewrite Hp. cbn [first_Unicode].
      rewrite Hft' by lia. by rewrite Htp. }
    split.
    { intros p Hin. apply elem_of_cons in Hin as [->|Hin].
      - split; [lia|]. rewrite Hfw' by lia. rewrite Hp. cbn [first_conf].
        rewrite Hft' by lia. by rewrite Htp.
      - destruct (Hnew p Hin) as [Hr Hc]. split; [lia|].
        rewrite Hc, Htnx. done. }
    split; [lia|]. split; [lia|]. split.
    { intros t' Ht'. rewrite Hft' by lia. by apply Hft. }
    split; [|congruence].
    intros w' Hw'. rewrite Hfw' by lia. by apply Hfw.
  - exists h1, [word_next h; S (word_next h)]. split; [done|].
    split.
    { cbn [map]. rewrite Hp, Hn. cbn [first_Unicode]. rewrite Htp, Htnx. cbn [Unicode].
      by rewrite (split_on_none post Epost). }
    split.
    { intros p Hin. apply elem_of_cons in Hin as [->|Hin].
      - split; [lia|]. rewrite Hp. cbn [first_conf]. by rewrite Htp.
      - apply list_elem_of_singleton in Hin as ->. split; [lia|].
        rewrite Hn. cbn [first_conf]. by rewrite Htnx. }
    split; [lia|]. split; [lia|]. done.
Qed.

Lemma flat_map_replace {A} (f : A -> bool) (x : A) (parts before after : list A) :
  f x = true -> (forall y, y ∈ before ++ after -> f y = false) ->
  flat_map (fun y => if f y then parts else [y]) (before ++ x :: after)
  = before ++ parts ++ after.
Proof.
  intros Hx Hy.
  assert (Hid : forall l, (forall y, y ∈ l -> f y = false) ->
                          flat_map (fun y => if f y then parts else [y]) l = l).
  { induction l as [|y l IH]; intros Hl; [done|]. cbn [flat_map].
    rewrite (Hl y) by (by left). cbn [app]. f_equal. apply IH.
    intros z Hz. apply Hl. by right. }
  rewrite flat_map_app. cbn [flat_map]. rewrite Hx.
  rewrite !Hid; [done|..]; intros y Hin; apply Hy, elem_of_app; auto.
Qed.

(** At an element that is no implicit whitespace and whose text has got
    spaces, above the glyph level: the Word is replaced, at its place in
    the TextLine, by one new Word for every piece of the text between the
    spaces, each with the confidence of the text; joined by spaces, the
    texts of the new Words give the text back.  The objects that existed
    are as they were, apart from the Word list of the line. *)
Theorem split_at_introduced_spaces level sequence h i t w l rest before after :
  level <> glyph ->
  is_synthetic (tes h t) = false ->
  contains SPACE (Unicode (tes h t)) = true ->
  word_TextEquiv (words h w) = t :: rest ->
  line_Word (lines h l) = before ++ w :: after ->
  w ∉ before ++ after ->
  exists h' parts,
    resegment_step level sequence h i (t, Some w, Some l) = Ok h'
    /\ line_Word (lines h' l) = before ++ parts ++ after
    /\ map (fun p => first_Unicode h' (word_TextEquiv (words h' p))) parts
       = split_on SPACE (Unicode (tes h t))
    /\ join [SPACE] (map (fun p => first_Unicode h' (word_TextEquiv (words h' p))) parts)
       = Unicode (tes h t)
    /\ (forall p, p ∈ parts ->
          (word_next h <= p)%nat
          /\ first_conf h' (word_TextEquiv (words h' p)) = conf (tes h t))
    /\ (forall t', (t' < te_next h)%nat -> tes h' t' = tes h t')
    /\ (forall w', (w' < word_next h)%nat -> words h' w' = words h w')
    /\ (forall l', l' <> l -> lines h' l' = lines h l').
Proof.
  intros Hlev Hsyn Hsp Hte Hline Hnot.
  unfold Page.resegment_step. rewrite Hsyn, Hsp.
  assert (level_eqb level glyph = false) as -> by (by destruct level).
  rewrite Hte, py_index_0. cbn [bind].
  destruct (split_loop (S (length (Unicode (tes h t)))) h w [] t rest Hte Hsp)
    as (h1 & parts & Hrun & Htexts & Hnew & Hle1 & Hle2 & Hft & Hfw & Hl); [lia|].
  rewrite Hrun. cbn [bind app deref].
  eexists _, parts. split; [reflexivity|].
  cbn [set_line_Word lines words tes]. rewrite upd_same. cbn [line_Word].
  rewrite Hl, Hline. split.
  { apply (flat_map_replace (fun w' => Nat.eqb w' w)); [apply Nat.eqb_refl|].
    intros y Hy. apply Nat.eqb_neq. intros ->. done. }
  split; [exact Htexts|]. split.
  { etrans; [|apply join_split_on]. f_equal. exact Htexts. }
  split.
  { intros p Hp. destruct (Hnew p Hp) as [Hr Hc]. split; [lia|exact Hc]. }
  split; [done|]. split; [done|].
  intros l' Hne. by rewrite upd_other.
Qed.

(** ** Splitting a word at a glyph *)

Local Abbreviation _split_word_at_glyph :=
  (_split_word_at_glyph xywh_from_points points_from_xywh glyph_eq).

Lemma glyph_index_first h g (pre post : list handle) : forall k,
  (forall x, x ∈ pre -> x <> g /\ glyph_eq h x g = false) ->
  glyph_index glyph_eq h g k (pre ++ g :: post) = Ok (k + len pre).
Proof.
  induction pre as [|x pre IH]; intros k Hpre; cbn [app glyph_index].
  - rewrite Nat.eqb_refl. cbn [orb]. f_equal. unfold len. simpl. lia.
  - destruct (Hpre x) as [Hne Heq]; [by left|].
    apply Nat.eqb_neq in Hne. rewrite Hne, Heq. cbn [orb].
    rewrite IH by (intros y Hy; apply Hpre; by right).
    f_equal. unfold len. simpl length. lia.
Qed.

Lemma glyph_index_miss h g : forall (gs : list handle) k,
  (forall x, x ∈ gs -> x <> g /\ glyph_eq h x g = false) ->
  glyph_index glyph_eq h g k gs = Raise ValueError.
Proof.
  induction gs as [|x gs IH]; intros k Hgs; cbn [glyph_index]; [done|].
  destruct (Hgs x) as [Hne Heq]; [by left|].
  apply Nat.eqb_neq in Hne. rewrite Hne, Heq. cbn [orb].
  apply IH. intros y Hy. apply Hgs. by right.
Qed.

(** [_split_word_at_glyph] at the first glyph of the word that is equal to
    the given one: the first new word gets the glyphs before it and the
    second those after it, the glyph itself goes to neither, and neither
    has a TextEquiv; the widths of the two boxes add up to the width of
    the word, the first ending where the glyph starts; the second is made
    to start at the glyph's [x] minus the glyph's width.  Without such a
    glyph in the word the call is a [ValueError]. *)
Theorem split_word_at_glyph_parts h w g :
  (forall pre post,
     word_Glyph (words h w) = pre ++ g :: post ->
     (forall x, x ∈ pre -> x <> g /\ glyph_eq h x g = false) ->
     let box := xywh_from_points (word_points (words h w)) in
     let gbox := xywh_from_points (glyph_points (glyphs h g)) in
     exists h' bp bn,
       _split_word_at_glyph h w g = Ok (h', word_next h, S (word_next h))
       /\ word_Glyph (words h' (word_next h)) = pre
       /\ word_Glyph (words h' (S (word_next h))) = post
       /\ word_TextEquiv (words h' (word_next h)) = []
       /\ word_TextEquiv (words h' (S (word_next h))) = []
       /\ word_points (words h' (word_next h)) = points_from_xywh bp
       /\ word_points (words h' (S (word_next h))) = points_from_xywh bn
       /\ (box_x bp = box_x box /\ box_x bp + box_w bp == box_x gbox)%Q
       /\ (box_x bn = box_x gbox - box_w gbox /\ box_w bp + box_w bn == box_w box)%Q
       /\ (forall w', (w' < word_next h)%nat -> words h' w' = words h w')
       /\ tes h' = tes h /\ lines h' = lines h /\ glyphs h' = glyphs h)
  /\ ((forall x, x ∈ word_Glyph (words h w) -> x <> g /\ glyph_eq h x g = false) ->
      _split_word_at_glyph h w g = Raise ValueError).
Proof.
  split.
  - intros pre post Hgl Hpre box gbox. unfold Page._split_word_at_glyph.
    rewrite Hgl, (glyph_index_first h g pre post 0 Hpre). cbn [bind].
    rewrite Z.add_0_l.
    eexists _, _, _. split; [reflexivity|].
    cbn [new_Word words tes lines glyphs word_next fst snd].
    rewrite !upd_same. rewrite (upd_other _ _ _ (word_next h)) by lia. rewrite upd_same.
    cbn [word_Glyph word_TextEquiv word_points].
    rewrite py_slice_prefix.
    pose proof (py_slice_suffix pre post g) as Hs. rewrite Hs.
    do 6 (split; [reflexivity|]). cbn [box_x box_w]. subst box gbox.
    split; [split; [reflexivity|ring]|].
    split; [split; [reflexivity|ring]|].
    split; [|done]. intros w' Hw'. rewrite !upd_other by lia. done.
  - intros Hmiss. unfold Page._split_word_at_glyph.
    by rewrite (glyph_index_miss h g _ 0 Hmiss).
Qed.

(** ** Merging two words *)

Ltac heap_simpl :=
  repeat (cbn [new_Word new_TextEquiv with_tes words tes lines glyphs regions
               word_next te_next fst snd word_TextEquiv word_Glyph word_id word_points
               first_Unicode Unicode conf index];
          rewrite ?upd_same).

Local Abbreviation _merge_words := (_merge_words xywh_from_points points_from_xywh).

(** [_merge_words] always returns; the text of the new word is the text
    of the first followed by that of the second, a word without TextEquiv
    counting as the empty text. *)
Lemma merge_words_text h p n :
  (forall t, t ∈ word_TextEquiv (words h n) -> (t < te_next h)%nat) ->
  exists h',
    _merge_words h p n = Ok (h', word_next h)
    /\ first_Unicode h' (word_TextEquiv (words h' (word_next h)))
       = first_Unicode h (word_TextEquiv (words h p))
         ++ first_Unicode h (word_TextEquiv (words h n))
    /\ word_Glyph (words h' (word_next h))
       = word_Glyph (words h p) ++ word_Glyph (words h n)
    /\ word_id (words h' (word_next h))
       = word_id (words h p) ++ py "." ++ word_id (words h n)
    /\ lines h' = lines h
    /\ (forall w', w' <> word_next h -> words h' w' = words h w').
Proof.
  intros Hcr. unfold Page._merge_words.
  assert (Hgl : (if nonempty (word_Glyph (words h p)) || nonempty (word_Glyph (words h n))
                 then word_Glyph (words h p) ++ word_Glyph (words h n) else [])
                = word_Glyph (words h p) ++ word_Glyph (words h n)).
  { destruct (word_Glyph (words h p)); [|done]. by destruct (word_Glyph (words h n)). }
  rewrite Hgl. clear Hgl. cbn [word_id word_points word_language word_TextStyle word_Glyph].
  destruct (word_TextEquiv (words h p)) as [|tp rp] eqn:Ep;
    destruct (word_TextEquiv (words h n)) as [|tn rn] eqn:En;
    cbn [nonempty new_TextEquiv first_Unicode].
  - (* neither has a TextEquiv *)
    cbn [bind]. eexists. split; [reflexivity|]. heap_simpl.
    do 4 (split; [done|]). intros w' Hne. by rewrite upd_other.
  - (* only the second has one *)
    rewrite !py_index_0. cbn [bind tes].
    assert (Htn : (tn < te_next h)%nat) by (apply Hcr; by left).
    unfold set_Unicode at 1 2 3 4. rewrite !upd_same.
    rewrite !(upd_other _ _ _ tn) by lia. cbn [conf Unicode app].
    destruct (truthy_conf (conf (tes h tn))) eqn:Et; cbn [truthy_conf Qeq_bool andb negb].
    + destruct (conf (tes h tn)) as [c|] eqn:Ec; [|done].
      cbn [mul_conf bind]. eexists. split; [reflexivity|]. heap_simpl.
      unfold set_conf, set_Unicode. heap_simpl.
      do 4 (split; [done|]). intros w' Hne. by rewrite upd_other.
    + eexists. split; [reflexivity|]. heap_simpl.
      unfold set_Unicode. heap_simpl.
      do 4 (split; [done|]). intros w' Hne. by rewrite upd_other.
  - (* only the first has one *)
    cbn [bind]. eexists. split; [reflexivity|]. heap_simpl. rewrite app_nil_r.
    do 4 (split; [done|]). intros w' Hne. by rewrite upd_other.
  - (* both have one *)
    rewrite !py_index_0. cbn [bind].
    set (s := set_Unicode (tes h) tp (Unicode (tes h tp) ++ Unicode (tes h tn))).
    assert (Hs : Unicode (s tp) = Unicode (tes h tp) ++ Unicode (tes h tn)).
    { unfold s, set_Unicode. by rewrite upd_same. }
    destruct (truthy_conf (conf (s tp)) && truthy_conf (conf (s tn))) eqn:Et.
    + apply andb_true_iff in Et as [E1 E2].
      destruct (conf (s tp)) as [a|] eqn:Ea; [|done].
      destruct (conf (s tn)) as [b|] eqn:Eb; [|done].
      cbn [mul_conf bind]. eexists. split; [reflexivity|]. heap_simpl.
      unfold set_conf. heap_simpl.
      do 4 (split; [done|]). intros w' Hne. by rewrite upd_other.
    + eexists. split; [reflexivity|]. heap_simpl.
      do 4 (split; [done|]). intros w' Hne. by rewrite upd_other.
Qed.

Lemma merge_in_list (p n m : handle) (before after : list handle) :
  NoDup (before ++ p :: n :: after) ->
  map (fun w => if Nat.eqb w p then m else w)
    (filter (fun w => w <> n) (before ++ p :: n :: after))
  = before ++ m :: after.
Proof.
  intros Hnd. apply NoDup_app in Hnd as (_ & Hdisj & Hnd).
  apply NoDup_cons in Hnd as [Hp Hnd]. apply NoDup_cons in Hnd as [Hn _].
  assert (Hpn : p <> n). { intros ->. apply Hp. by left. }
  assert (Hkeep : forall l : list handle, p ∉ l -> n ∉ l ->
            map (fun w => if Nat.eqb w p then m else w) (filter (fun w => w <> n) l) = l).
  { induction l as [|x l IH]; intros Hpl Hnl; [done|].
    rewrite filter_cons_True by (intros ->; apply Hnl; by left).
    cbn [map]. assert (x <> p) as Hx by (intros ->; apply Hpl; by left).
    apply Nat.eqb_neq in Hx. rewrite Hx. f_equal. apply IH.
    - intros H. apply Hpl. by right.
    - intros H. apply Hnl. by right. }
  rewrite filter_app, map_app.
  rewrite Hkeep.
  - f_equal. rewrite filter_cons_True by done. cbn [map]. rewrite Nat.eqb_refl.
    f_equal. rewrite filter_cons_False by (by intros H; apply H).
    apply Hkeep.
    + intros H. apply Hp. by right.
    + done.
  - intros H. apply (Hdisj p H). by left.
  - intros H. apply (Hdisj n H). right. by left.
Qed.

(** At an implicit whitespace that has lost its text, between two
    elements with Words that follow each other in the TextLine: the two
    Words are replaced, at the place of the first, by one new Word; its
    text is the text of the first followed by that of the second, its
    glyphs are those of the first followed by those of the second, and its
    id is the two ids joined by a dot.  The other lines and the Words that
    existed are as they were. *)
Theorem merge_at_deleted_space level sequence h (i : nat) t wd l
    (pe ne : entry) p n before after :
  Consistency.created h ->
  is_synthetic (tes h t) = true -> Unicode (tes h t) = [] ->
  (0 < i)%nat -> (S i < length sequence)%nat ->
  sequence !! (i - 1)%nat = Some pe -> sequence !! S i = Some ne ->
  pe.1.2 = Some p -> ne.1.2 = Some n ->
  line_Word (lines h l) = before ++ p :: n :: after ->
  NoDup (before ++ p :: n :: after) ->
  exists h',
    resegment_step level sequence h i (t, wd, Some l) = Ok h'
    /\ line_Word (lines h' l) = before ++ word_next h :: after
    /\ first_Unicode h' (word_TextEquiv (words h' (word_next h)))
       = first_Unicode h (word_TextEquiv (words h p))
         ++ first_Unicode h (word_TextEquiv (words h n))
    /\ word_Glyph (words h' (word_next h))
       = word_Glyph (words h p) ++ word_Glyph (words h n)
    /\ word_id (words h' (word_next h))
       = word_id (words h p) ++ py "." ++ word_id (words h n)
    /\ (forall l', l' <> l -> lines h' l' = lines h l')
    /\ (forall w', w' <> word_next h -> words h' w' = words h w').
Proof.
  intros Hcr Hsyn Hempty Hi0 Hi1 Hpe Hne Hp Hn Hline Hnd.
  unfold Page.resegment_step. rewrite Hsyn, Hempty. cbn [nonempty].
  assert (Hcond : Nat.eqb i 0 || (Z.of_nat i =? len sequence - 1) = false).
  { apply orb_false_iff. split; [apply Nat.eqb_neq; lia|].
    apply Z.eqb_neq. unfold len. lia. }
  rewrite Hcond.
  assert (Hget : forall (k : nat) x, sequence !! k = Some x ->
                   py_index sequence (Z.of_nat k) = Ok x).
  { intros k x Hk. unfold py_index. apply lookup_lt_Some in Hk as Hlt.
    rewrite norm_index_in by lia. by rewrite Nat2Z.id, Hk. }
  replace (Z.of_nat i - 1) with (Z.of_nat (i - 1)) by lia.
  replace (Z.of_nat i + 1) with (Z.of_nat (S i)) by lia.
  rewrite (Hget _ _ Hpe), (Hget _ _ Hne). cbn [bind]. rewrite Hp, Hn.
  destruct (merge_words_text h p n) as (h1 & -> & Htext & Hgl & Hid & Hl & Hw).
  { destruct Hcr as (_ & Hc & _). intros t' Ht'. by eapply Hc. }
  cbn [bind deref]. eexists. split; [reflexivity|].
  cbn [set_line_Word lines words tes]. rewrite upd_same. cbn [line_Word].
  rewrite Hl, Hline. split; [by apply merge_in_list|].
  split; [exact Htext|]. split; [exact Hgl|]. split; [exact Hid|].
  split; [|exact Hw]. intros l' Hl'. by rewrite upd_other.
Qed.

(** ** Sequences that need no resegmentation *)

(** If no implicit whitespace of the sequence has lost its text and no
    other element has a space in its text, [_resegment_sequence] leaves
    the page as it is. *)
Theorem resegment_nothing_to_do h sequence level :
  (forall e : entry, e ∈ sequence ->
     if is_synthetic (tes h e.1.1) then Unicode (tes h e.1.1) <> []
     else SPACE ∉ Unicode (tes h e.1.1)) ->
  _resegment_sequence xywh_from_points points_from_xywh textequiv_eq glyph_eq
    h sequence level = Ok h.
Proof.
  intros Hq. unfold Page._resegment_sequence.
  assert (Hfrom : forall (rest : list entry) k,
            (forall e, e ∈ rest -> e ∈ sequence) ->
            resegment_from xywh_from_points points_from_xywh textequiv_eq glyph_eq
              level sequence h k rest = Ok h).
  { induction rest as [|[[t w] l] rest IH]; intros k Hsub; [done|].
    cbn [Page.resegment_from].
    assert (Hstep : resegment_step level sequence h k (t, w, l) = Ok h).
    { unfold Page.resegment_step. specialize (Hq (t, w, l) (Hsub _ ltac:(by left))).
      cbn [fst snd] in Hq. destruct (is_synthetic (tes h t)).
      - destruct (Unicode (tes h t)); [by destruct Hq|done].
      - destruct (contains SPACE (Unicode (tes h t))) eqn:E; [|done].
        by apply contains_elem in E. }
    rewrite Hstep. cbn [bind]. apply IH. intros e He. apply Hsub. by right. }
  by apply Hfrom.
Qed.

End SplitFacts.

Lemma split_at_introduced_spaces_witness :
  let h := Page.Heap (store_of [real "a lot more" (9 # 10)]) 1%nat
             (fun w => Examples.a_word "w" 0%nat) 1%nat
             (fun _ => Examples.no_glyph)
             (fun _ => Page.TextLine (py "l") [0%nat] [])
             (fun _ => Examples.no_region) in
  exists h' parts,
    Page.resegment_step Examples.box_100 Examples.any_points
      Examples.same_object Examples.same_object Page.word
      [(0%nat, Some 0%nat, Some 0%nat)] h 0%nat (0%nat, Some 0%nat, Some 0%nat) = Ok h'
    /\ Page.line_Word (Page.lines h' 0%nat) = parts
    /\ map (fun p => LevelPropagator.first_Unicode h' (Page.word_TextEquiv (Page.words h' p)))
         parts = [py "a"; py "lot"; py "more"].
Proof.
  intros h.
  destruct (split_at_introduced_spaces Examples.box_100 Examples.any_points
              Examples.same_object Examples.same_object Page.word
              [(0%nat, Some 0%nat, Some 0%nat)] h 0%nat 0%nat 0%nat 0%nat [] [] [])
    as (h' & parts & Hrun & Hline & Htexts & _); [done|reflexivity|reflexivity|
      reflexivity|reflexivity|apply not_elem_of_nil|].
  exists h', parts. split; [exact Hrun|]. split.
  - rewrite Hline. by rewrite app_nil_r.
  - exact Htexts.
Defined.

Lemma split_word_at_glyph_parts_witness :
  let h := Page.Heap (store_of []) 0%nat
             (fun w => Page.Word (py "w") [] None None [0; 1; 2]%nat []) 1%nat
             (fun _ => Examples.no_glyph) (fun _ => Examples.no_line)
             (fun _ => Examples.no_region) in
  (exists h' prev_ next_,
     Page._split_word_at_glyph Examples.box_100 Examples.any_points Examples.same_object
       h 0%nat 1%nat = Ok (h', prev_, next_)
     /\ Page.word_Glyph (Page.words h' prev_) = [0%nat]
     /\ Page.word_Glyph (Page.words h' next_) = [2%nat])
  /\ Page._split_word_at_glyph Examples.box_100 Examples.any_points Examples.same_object
       h 0%nat 7%nat = Raise ValueError.
Proof.
  intros h. split.
  - destruct (proj1 (split_word_at_glyph_parts Examples.box_100 Examples.any_points
                Examples.same_object h 0%nat 1%nat) [0%nat] [2%nat])
      as (h' & bp & bn & Hrun & Hpre & Hpost & _); [reflexivity| |].
    + intros x Hx. apply list_elem_of_singleton in Hx as ->. split; [lia|reflexivity].
    + exists h', 1%nat, 2%nat. split; [exact Hrun|]. split; [exact Hpre|exact Hpost].
  - apply (proj2 (split_word_at_glyph_parts Examples.box_100 Examples.any_points
             Examples.same_object h 0%nat 7%nat)).
    intros x Hx. cbn in Hx.
    repeat (apply elem_of_cons in Hx as [->|Hx]; [split; [lia|reflexivity]|]).
    by apply elem_of_nil in Hx.
Defined.

Lemma created_cannot : Consistency.created Examples.heap_cannot.
Proof.
  split; [|split; [|split]].
  - intros g t Ht. by apply elem_of_nil in Ht.
  - intros [|[|w]] t Ht; simpl in Ht.
    + apply list_elem_of_singleton in Ht as ->. simpl. lia.
    + apply list_elem_of_singleton in Ht as ->. simpl. lia.
    + destruct w; by apply elem_of_nil in Ht.
  - intros l t Ht. by apply elem_of_nil in Ht.
  - intros r t Ht. by apply elem_of_nil in Ht.
Qed.

Lemma merge_at_deleted_space_witness :
  exists h',
    Page.resegment_step Examples.any_box Examples.any_points
      Examples.same_object Examples.same_object Page.word
      Examples.sequence_cannot Examples.heap_cannot 1%nat (1%nat, Some 1%nat, Some 0%nat)
      = Ok h'
    /\ Page.line_Word (Page.lines Examples.heap_cannot 0%nat) = [0; 1]%nat
    /\ Page.line_Word (Page.lines h' 0%nat) = [2%nat]
    /\ LevelPropagator.first_Unicode h' (Page.word_TextEquiv (Page.words h' 2%nat))
       = py "cannot".
Proof.
  destruct (merge_at_deleted_space Examples.any_box Examples.any_points
              Examples.same_object Examples.same_object Page.word
              Examples.sequence_cannot Examples.heap_cannot 1%nat 1%nat (Some 1%nat) 0%nat
              (0%nat, Some 0%nat, Some 0%nat) (2%nat, Some 1%nat, Some 0%nat)
              0%nat 1%nat [] [] created_cannot)
    as (h' & Hrun & Hline & Htext & _);
    [reflexivity|reflexivity|lia|simpl; lia|reflexivity|reflexivity|reflexivity|reflexivity|
     reflexivity|by apply (bool_decide_unpack _)|].
  exists h'. split; [exact Hrun|]. split; [reflexivity|]. split; [exact Hline|exact Htext].
Defined.

Lemma resegment_nothing_to_do_witness :
  Examples.resegment Examples.heap_the_cat
    [(0%nat, Some 0%nat, Some 0%nat); (1%nat, Some 1%nat, Some 0%nat)] Page.word
  = Ok Examples.heap_the_cat.
Proof.
  apply (resegment_nothing_to_do Examples.any_box Examples.any_points
           Examples.same_object Examples.same_object).
  intros e He.
  repeat (apply elem_of_cons in He as [->|He];
          [cbn; intros Hin;
           repeat (apply elem_of_cons in Hin as [Hin|Hin]; [discriminate Hin|]);
           by apply elem_of_nil in Hin|]).
  by apply elem_of_nil in He.
Defined.

(** ** The stages in a row *)

Section StageFacts.
Import EditDistributor Layout LineExtractor Page.

(** The line strings of a page: every line that
    [_page_get_line_sequences_at] returns gives, in
    [_line_sequences2string_sequences], a string of at least one character
    followed by the newline, which is its last character. *)
Theorem page_line_strings_end_in_newline GAP mapping level h rs h' lns s accs :
  Consistency.created h ->
  Sequencer._page_get_line_sequences_at level h rs = Ok (h', lns) ->
  _line_sequences2string_sequences GAP mapping (tes h') lns = (s, Ok accs) ->
  length accs = length lns
  /\ Forall (fun a => exists body, input_line a = body ++ [NEWLINE] /\ body <> []) accs.
Proof.
  intros Hcr Hseq Hex.
  destruct (page_scan level h Hcr rs) as (st & Hrun & _ & Hsh & _).
  rewrite Hseq in Hrun. injection Hrun as -> ->.
  assert (Hcl : forall ln,
            ln ∈ filter (fun ln : list entry => 1 < len ln) (Sequencer.sequences st) ->
            1 < len ln /\ Sequencer.closed_line level h (Sequencer.heap_of st) ln).
  { intros ln Hln. apply list_elem_of_filter in Hln as [Hlen Hln]. split; [done|].
    by apply Hsh. }
  pose proof (extract_lines_store _ _ _ _ _ _ Hex) as Hkeep.
  apply extract_lines_acc in Hex as [-> Hne]. split; [by rewrite length_map|].
  apply Forall_fmap, Forall_forall. intros ln Hln.
  destruct (Hcl ln Hln) as [Hlen (body & nl & -> & [_ Hnl] & _)].
  exists (line_string s body). cbn [Extracted.acc_of input_line]. split.
  - rewrite line_string_app. f_equal. unfold line_string, content. cbn [map concat].
    rewrite app_nil_r. rewrite Hkeep by (by rewrite Hnl). by rewrite Hnl.
  - destruct body as [|e body].
    + unfold len in Hlen. simpl in Hlen. lia.
    + unfold line_string. cbn [map concat]. intros Happ.
      apply app_eq_nil in Happ as [He _].
      apply (Hne _ Hln e); [|done]. apply elem_of_app. left. by left.
Qed.

(** ** What the propagation to the higher levels leaves alone *)

Import LevelPropagator Consistency.

Lemma update_lines_upper : forall ls h h',
  created h -> update_lines word h ls = Ok h' ->
  created h' /\ (forall w, words h' w = words h w)
  /\ (forall r, regions h' r = regions h r).
Proof.
  induction ls as [|l ls IH]; intros h h' Hcr H; cbn [update_lines] in H.
  - injection H as <-. done.
  - unfold update_line in H. cbn [level_eqb negb bind] in H.
    destruct (finish_line h l) as [h1| |] eqn:E; [|done..]. cbn [bind] in H.
    apply finish_line_step in E as (_ & Hcr1 & _ & Hw & _ & Hr); [|done].
    destruct (IH _ _ Hcr1 H) as (Hcr' & Hw' & Hr'). split; [done|]. split.
    + intros w. by rewrite Hw', Hw.
    + intros r. by rewrite Hr', Hr.
Qed.

Lemma update_regions_upper level : forall rs h h',
  level = word \/ level = line ->
  created h -> update_regions level h rs = Ok h' ->
  created h' /\ (forall w, words h' w = words h w)
  /\ (level = line -> forall l, lines h' l = lines h l).
Proof.
  induction rs as [|r rs IH]; intros h h' Hlev Hcr H; cbn [update_regions] in H.
  - injection H as <-. done.
  - unfold update_region in H.
    destruct (if negb (level_eqb level line)
              then update_lines level h (region_TextLine (regions h r))
              else Ok h) as [h1| |] eqn:E1; [|done..].
    cbn [bind] in H.
    destruct (finish_region h1 r) as [h2| |] eqn:E2; [|done..]. cbn [bind] in H.
    assert (created h1 /\ (forall w, words h1 w = words h w)
            /\ (level = line -> forall l, lines h1 l = lines h l)) as (Hcr1 & Hw1 & Hl1).
    { destruct Hlev as [-> | ->]; cbn [level_eqb negb] in E1.
      - apply update_lines_upper in E1 as (? & ? & _); done.
      - injection E1 as <-. done. }
    apply finish_region_step in E2 as (_ & Hcr2 & _ & Hw2 & Hl2 & _); [|done].
    destruct (IH _ _ Hlev Hcr2 H) as (Hcr' & Hw' & Hl'). split; [done|]. split.
    + intros w. by rewrite Hw', Hw2, Hw1.
    + intros Hline l. by rewrite (Hl' Hline), Hl2, (Hl1 Hline).
Qed.

(** [page_update_higher_textequiv_levels] only makes new TextEquivs and
    puts them into the elements above the level: no TextEquiv that existed
    is changed, nor any glyph, nor the list of glyphs of a word, of words of
    a line or of lines of a region.  At the word and line levels no Word is
    changed at all, at the line level no TextLine, and at the region level
    nothing. *)
Theorem higher_levels_keep_lower level h rs h' :
  created h ->
  page_update_higher_textequiv_levels level h rs = Ok h' ->
  extends h h'
  /\ (level = word \/ level = line -> forall w, words h' w = words h w)
  /\ (level = line -> forall l, lines h' l = lines h l)
  /\ (level = region -> h' = h).
Proof.
  intros Hcr Hupd. unfold page_update_higher_textequiv_levels in Hupd.
  destruct (level_eqb level region) eqn:Ereg.
  { assert (level = region) as -> by (by destruct level).
    cbn [negb] in Hupd. injection Hupd as <-.
    split; [apply extends_refl|]. split; [by intros [?|?]|done]. }
  cbn [negb] in Hupd.
  cut (extends h h'
       /\ (level = word \/ level = line -> forall w, words h' w = words h w)
       /\ (level = line -> forall l, lines h' l = lines h l)).
  { intros (? & ? & ?). split; [done|]. split; [done|]. split; [done|].
    intros ->. done. }
  split.
  - assert (Hp0 : progress (negb (level_eqb level word)) (negb (level_eqb level line))
                    [] [] [] h).
    { split; [done|]. split; [|split]; intros x Hx; by apply elem_of_nil in Hx. }
    by destruct (progress_update_regions _ _ _ _ _ _ _ Hp0 Hupd) as (dw & dl & _ & ?).
  - split.
    + intros Hlev. by destruct (update_regions_upper level rs h h' Hlev Hcr Hupd) as (_ & ? & _).
    + intros Hlev.
      destruct (update_regions_upper level rs h h' (or_intror Hlev) Hcr Hupd) as (_ & _ & Hl).
      by apply Hl.
Qed.

End StageFacts.

Lemma page_line_strings_end_in_newline_witness :
  exists h' lns s accs,
    Sequencer._page_get_line_sequences_at Page.word Examples.heap_the_cat [0%nat]
      = Ok (h', lns)
    /\ LineExtractor._line_sequences2string_sequences BELL ∅ (Page.tes h') lns
       = (s, Ok accs)
    /\ map LineExtractor.input_line accs = [py ("the cat" ++ LF)]
    /\ Forall (fun a => exists body,
                 LineExtractor.input_line a = body ++ [NEWLINE] /\ body <> []) accs.
Proof.
  destruct (Sequencer._page_get_line_sequences_at Page.word Examples.heap_the_cat [0%nat])
    as [[h' lns]| |] eqn:E; [|vm_compute in E; discriminate E..].
  destruct (LineExtractor._line_sequences2string_sequences BELL ∅ (Page.tes h') lns)
    as [s [accs| |]] eqn:E2;
    [|vm_compute in E; injection E as <- <-; vm_compute in E2; discriminate E2..].
  destruct (page_line_strings_end_in_newline BELL ∅ Page.word Examples.heap_the_cat
              [0%nat] h' lns s accs created_the_cat E E2) as [_ HF].
  exists h', lns, s, accs. split; [reflexivity|]. split; [exact E2|]. split; [|exact HF].
  vm_compute in E. injection E as <- <-. vm_compute in E2. injection E2 as _ <-.
  reflexivity.
Defined.

Lemma higher_levels_keep_lower_witness :
  exists h',
    LevelPropagator.page_update_higher_textequiv_levels Page.word
      Examples.heap_the_cat [0%nat] = Ok h'
    /\ Consistency.extends Examples.heap_the_cat h'
    /\ forall w, Page.words h' w = Page.words Examples.heap_the_cat w.
Proof.
  destruct (LevelPropagator.page_update_higher_textequiv_levels Page.word
              Examples.heap_the_cat [0%nat]) as [h'| |] eqn:E;
    [|vm_compute in E; discriminate E..].
  destruct (higher_levels_keep_lower Page.word Examples.heap_the_cat [0%nat] h'
              created_the_cat E) as (Hext & Hw & _ & _).
  exists h'. split; [reflexivity|]. split; [exact Hext|]. apply Hw. by left.
Defined.

(** ** The source check of [_update_sequence] *)

Section MismatchFacts.
Import EditDistributor Layout Rewriting Checks Unchanged Committing.

Lemma forallb_agree {A} (f g : A -> bool) (l : list A) :
  (forall x, x ∈ l -> f x = g x) -> forallb f l = forallb g l.
Proof.
  induction l as [|x l IH]; intros H; simpl; [done|].
  rewrite (H x) by (by left). f_equal. apply IH. intros y Hy. apply H. by right.
Qed.

(** On the maps of a line, [mismatch_free] asks every element for the
    content that the layout gives it. *)
Lemma mismatch_free_layout sl s : forall rest pre k,
  len pre = k ->
  mismatch_free (pre ++ line_string sl rest) s
    (zip (starts sl k rest) (map (fun e : entry => Some e.1.1) rest)
       ++ [(k + seq_length sl rest, None)])
  = forallb (holds_source sl s) rest.
Proof.
  induction rest as [|e rest IH]; intros pre k Hk; [done|].
  cbn [starts map zip zip_with app forallb].
  set (k' := k + len (content sl e)).
  assert (Hseq : k + seq_length sl (e :: rest) = k' + seq_length sl rest).
  { unfold seq_length, k'. simpl. lia. }
  rewrite Hseq.
  assert (Hin : pre ++ line_string sl (e :: rest)
                = (pre ++ content sl e) ++ line_string sl rest).
  { unfold line_string. simpl. by rewrite app_assoc. }
  specialize (IH (pre ++ content sl e) k').
  rewrite <- Hin in IH. rewrite <- IH by (rewrite len_app; unfold k'; lia).
  assert (Hhd : exists v d,
            zip (starts sl k' rest) (map (fun e : entry => Some e.1.1) rest)
              ++ [(k' + seq_length sl rest, None)] = (k', v) :: d).
  { destruct rest as [|e' rest'].
    - exists None, []. simpl. unfold seq_length. simpl. by rewrite Z.add_0_r.
    - eexists _, _. simpl. reflexivity. }
  destruct Hhd as (v & d & Hd). rewrite Hd. cbn [mismatch_free]. f_equal.
  unfold holds_source. f_equal.
  unfold line_string. simpl. rewrite <- Hk. unfold k'. rewrite <- Hk.
  apply py_slice_app_mid.
Qed.

Lemma first_line_found (d : dict (option handle)) l :
  first_line d = Ok l -> Some l ∈ values d.
Proof.
  unfold first_line. induction d as [|[k [l'|]] d IH]; cbn [values map snd].
  - done.
  - rewrite filter_cons_True by done. intros [= ->]. by left.
  - rewrite filter_cons_False by (by intros [x Hx]). intros H. right. by apply IH.
Qed.

Section Line.
Variable input_line output_line : str.
Variable output_prob : list Q.
Variable realignment : gmap Z Z.
Variable tes wds tls : dict (option handle).

Local Abbreviation commit := (commit input_line output_line output_prob tes wds tls).
Local Abbreviation loop := (loop input_line output_line output_prob realignment tes wds tls).
Local Abbreviation committed := (committed output_line output_prob).

Lemma redistribute_moved s seq k lj i j :
  0 <= lj -> lj <= j -> j <= len output_line -> 0 <= i ->
  exists r, redistribute input_line output_line s seq k lj i j = Ok r
            /\ moved_text output_line seq s lj j r.
Proof.
  intros. unfold redistribute. destruct (in_sp_nl (py_slice input_line k i)).
  - eexists. split; [reflexivity|]. by apply redistribute_space_text.
  - by apply redistribute_other_text.
Qed.

Lemma moved_conf seq s lj j s1 lj1 j1 out1 :
  moved_text output_line seq s lj j (s1, lj1, j1, out1) ->
  forall x, conf (s1 x) = conf (s x).
Proof.
  intros (_ & _ & _ & _ & Hst) x.
  destruct (last seq) as [[[hp w] l]|].
  - destruct Hst as [Hh Hoth].
    destruct (decide (x = hp)) as [->|Hne]; [by rewrite Hh|by rewrite Hoth].
  - destruct Hst as [_ Hoth]. by rewrite Hoth.
Qed.

(** The part of the loop body under [if last:], on an element that the
    maps answer for: the redistribution goes through, and the comparison of
    the element with its slice of the input line decides between the
    assertion error and the two writes. *)
Lemma commit_cases s seq k lj i j h w l :
  0 <= lj -> lj <= j -> j <= len output_line -> 0 <= i ->
  dict_get tes k = Ok (Some h) -> dict_get wds k = Ok w -> dict_get tls k = Ok l ->
  NoDup (handles seq ++ [h]) ->
  exists s1 lj1 j1,
    lj <= lj1 /\ lj1 <= j1 /\ j1 <= j
    /\ (forall h', h' ∉ handles seq -> s1 h' = s h')
    /\ (forall x, conf (s1 x) = conf (s x))
    /\ (forall x, index (s1 x) = index (s x))
    /\ line_string s1 seq = line_string s seq ++ py_slice output_line lj lj1
    /\ commit s seq k lj i j
       = if str_eqb (Unicode (s h)) (py_slice input_line k i)
         then (set_conf (set_Unicode s1 h (py_slice output_line lj1 j1)) h
                 (Some (mean_prob output_prob lj1 j1)),
               Ok (j1, seq ++ [(h, w, l)]))
         else (s1, Raise AssertSourceMismatch).
Proof.
  intros Hlj Hle Hj Hi Hte Hw Hl Hnd.
  apply NoDup_app in Hnd as (Hnd & Hdisj & _).
  assert (Hh : h ∉ handles seq).
  { intros Hin. apply (Hdisj h Hin). by left. }
  destruct (redistribute_moved s seq k lj i j Hlj Hle Hj Hi)
    as ([[[s1 lj1] j1] out1] & Hr & Hmv).
  destruct (moved_line_string _ _ _ _ _ _ _ _ _ Hlj Hj Hnd Hmv) as (Hls & Hfr & Hidx).
  pose proof (moved_conf _ _ _ _ _ _ _ _ Hmv) as Hconf.
  destruct Hmv as (H1 & H2 & H3 & Hout & _).
  exists s1, lj1, j1. do 7 (split; [done|]).
  unfold EditDistributor.commit. rewrite Hr, Hte, Hw, Hl, (Hfr h Hh), Hout.
  destruct (str_eqb _ _); reflexivity.
Qed.

Variable sl : te_store.
Hypothesis Hmono : Aligner.monotone realignment.
Hypothesis Hbound : forall k v, realignment !! k = Some v -> v <= len output_line.

(** From the second key on, the loop of [_update_sequence] on the maps of
    a line laid out from [sl], run on a store [s]: it commits the elements
    one by one as long as they hold in [s] what they hold in [sl], and ends
    in the mismatch assertion at the first one that does not, which it
    leaves as it is like all elements after it. *)
Lemma loop_scan : forall rest s k lj seq pre,
  input_line = pre ++ line_string sl rest -> len pre = k ->
  covers tes wds tls sl k rest ->
  NoDup (handles (seq ++ rest)) ->
  0 <= lj -> lj <= len output_line ->
  (forall k' v, realignment !! k' = Some v -> k <= k' -> lj <= v) ->
  line_string s seq = py_slice output_line 0 lj ->
  (forall x, x ∈ seq -> committed s x) ->
  exists s' r,
    loop s (Some (k, lj), seq) (ends sl k rest) = (s', r)
    /\ (forall h', h' ∉ handles (seq ++ rest) -> s' h' = s h')
    /\ (forall x, index (s' x) = index (s x))
    /\ ((forallb (holds_source sl s) rest = true
         /\ exists lj',
              r = Ok (Some (k + seq_length sl rest, lj'), seq ++ rest)
              /\ lj' <= len output_line
              /\ line_string s' (seq ++ rest) = py_slice output_line 0 lj'
              /\ forall x, x ∈ seq ++ rest -> committed s' x)
        \/ (exists done e post lj',
              rest = done ++ e :: post
              /\ forallb (holds_source sl s) done = true
              /\ holds_source sl s e = false
              /\ r = Raise AssertSourceMismatch
              /\ (forall x, x ∈ e :: post -> s' x.1.1 = s x.1.1)
              /\ line_string s' (seq ++ done) = py_slice output_line 0 lj'
              /\ forall x, x ∈ seq ++ done -> committed s' x)).
Proof.
  induction rest as [|e rest IH];
    intros s k lj seq pre Hin Hpre Hcov Hnd Hlj HljJ Hfut Htext Hcom.
  - exists s, (Ok (Some (k, lj), seq)). split; [done|]. split; [done|]. split; [done|].
    left. split; [done|]. exists lj. simpl. rewrite Z.add_0_r, !app_nil_r. done.
  - destruct e as [[h w] l]. destruct Hcov as (Hte & Hw & Hl & Hcov).
    cbn [ends EditDistributor.loop].
    set (i := k + len (content sl (h, w, l))) in *.
    pose proof (len_nonneg (content sl (h, w, l))) as Hc.
    pose proof (len_nonneg pre) as Hp.
    assert (Hki : k <= i) by lia.
    unfold EditDistributor.step.
    set (j := match realignment !! i with Some j => j | None => lj end).
    assert (Hj : lj <= j /\ j <= len output_line
                 /\ forall k' v, realignment !! k' = Some v -> i <= k' -> j <= v
                                 \/ (realignment !! i = None /\ j = lj)).
    { unfold j. destruct (realignment !! i) as [ji|] eqn:Ei.
      - split; [by eapply Hfut|]. split; [by eapply Hbound|].
        intros k' v Hk' Hle. left. destruct (decide (i = k')) as [<-|Hne].
        + rewrite Ei in Hk'. injection Hk' as <-. lia.
        + eapply Hmono; [exact Ei|exact Hk'|lia].
      - split; [lia|]. split; [lia|]. intros. by right. }
    destruct Hj as (Hj1 & Hj2 & Hj3).
    assert (Hstep : (match realignment !! i, Some (k, lj) with
                     | Some j, _ => Ok j
                     | None, Some (_, lj) => Ok lj
                     | None, None => Raise TypeError
                     end) = Ok j).
    { unfold j. by destruct (realignment !! i). }
    rewrite Hstep. clear Hstep.
    unfold handles in Hnd. rewrite map_app in Hnd. simpl in Hnd.
    assert (Hnd1 : NoDup (handles seq ++ [h])).
    { unfold handles. rewrite cons_middle, app_assoc in Hnd.
      by apply NoDup_app in Hnd as (? & _ & _). }
    assert (Hnotin : forall x : entry, x ∈ (h, w, l) :: rest -> x.1.1 ∉ handles seq).
    { intros x Hx Hin'. apply NoDup_app in Hnd as (_ & Hdisj & _).
      apply (Hdisj _ Hin'). apply (elem_of_handles x ((h, w, l) :: rest) Hx). }
    assert (Hrest_h : forall x : entry, x ∈ rest -> x.1.1 <> h).
    { intros x Hx Heq. apply NoDup_app in Hnd as (_ & _ & Hnd).
      apply NoDup_cons in Hnd as [Hnot _]. apply Hnot. rewrite <- Heq.
      apply (elem_of_handles x rest Hx). }
    assert (Hslice : py_slice input_line k i = content sl (h, w, l)).
    { rewrite Hin. unfold line_string. simpl.
      rewrite <- Hpre. unfold i. rewrite <- Hpre. apply py_slice_app_mid. }
    destruct (commit_cases s seq k lj i j h w l Hlj Hj1 Hj2 ltac:(lia) Hte Hw Hl Hnd1)
      as (s1 & lj1 & j1 & Hl1 & Hl2 & Hl3 & Hfr & Hconf & Hidx & Hls & ->).
    rewrite Hslice.
    assert (Hhere : holds_source sl s (h, w, l)
                    = str_eqb (Unicode (s h)) (content sl (h, w, l))) by done.
    destruct (str_eqb (Unicode (s h)) (content sl (h, w, l))) eqn:Eeq.
    + (* the element holds its slice: it is committed *)
      set (s2 := set_conf (set_Unicode s1 h (py_slice output_line lj1 j1)) h
                   (Some (mean_prob output_prob lj1 j1))).
      assert (Hs2h : s2 h = TextEquiv (py_slice output_line lj1 j1)
                              (Some (mean_prob output_prob lj1 j1)) (index (s1 h))).
      { unfold s2, set_conf, set_Unicode. rewrite !upd_same. done. }
      assert (Hs2o : forall h', h' <> h -> s2 h' = s1 h').
      { intros h' Hne. unfold s2, set_conf, set_Unicode. by rewrite !upd_other. }
      assert (Hseq_h : forall h', h' ∈ handles seq -> h' <> h).
      { intros h' Hh' ->. apply NoDup_app in Hnd1 as (_ & Hdisj & _).
        apply (Hdisj h Hh'). by left. }
      assert (Hkeep : forall x : entry, x ∈ rest -> s2 x.1.1 = s x.1.1).
      { intros x Hx. rewrite Hs2o by (by apply Hrest_h). apply Hfr, Hnotin. by right. }
      destruct (IH s2 i j1 (seq ++ [(h, w, l)]) (pre ++ content sl (h, w, l)))
        as (s' & r & Hloop & Hfr' & Hidx' & Hcases).
      * rewrite Hin. unfold line_string. simpl. by rewrite app_assoc.
      * rewrite len_app. unfold i. lia.
      * exact Hcov.
      * unfold handles. rewrite !map_app. simpl. by rewrite <- app_assoc.
      * lia.
      * lia.
      * intros k' v Hk' Hle. destruct (Hj3 k' v Hk' Hle) as [?|[_ Hjlj]]; [lia|].
        assert (lj <= v) by (eapply Hfut; [done|lia]). lia.
      * rewrite line_string_app. rewrite (line_string_ext s1 s2 seq).
        -- rewrite Hls, Htext. unfold line_string at 1, content. simpl.
           rewrite Hs2h. simpl. rewrite app_nil_r.
           rewrite <- (py_slice_split output_line 0 lj lj1) by lia.
           symmetry. apply py_slice_split; lia.
        -- intros h' Hh'. by rewrite Hs2o by (by apply Hseq_h).
      * intros x Hx. apply elem_of_app in Hx as [Hx|Hx].
        -- destruct (Hcom x Hx) as (a & b & ? & ? & ? & Hcx). exists a, b.
           do 3 (split; [done|]).
           rewrite Hs2o by (apply Hseq_h; by apply elem_of_handles).
           by rewrite Hconf.
        -- apply list_elem_of_singleton in Hx as ->. exists lj1, j1.
           split; [lia|]. split; [lia|]. split; [lia|]. simpl. by rewrite Hs2h.
      * cbv beta iota. fold s2. exists s', r. split; [exact Hloop|]. split; [|split].
        -- intros h' Hh'.
           assert (Hh1 : h' ∉ handles seq).
           { intros Hx. apply Hh'. unfold handles. rewrite map_app.
             apply elem_of_app. by left. }
           assert (Hh2 : h' <> h).
           { intros ->. apply Hh'. unfold handles. rewrite map_app.
             apply elem_of_app. right. by left. }
           rewrite Hfr'.
           ++ rewrite Hs2o by done. by apply Hfr.
           ++ intros Hx. apply Hh'. unfold handles in *. rewrite !map_app in *.
              simpl in *. by rewrite <- app_assoc in Hx.
        -- intros x. rewrite Hidx'. destruct (decide (x = h)) as [->|Hne].
           ++ rewrite Hs2h. simpl. apply Hidx.
           ++ rewrite Hs2o by done. apply Hidx.
        -- destruct Hcases as [(Hall & lj' & -> & HljJ' & Htext' & Hcom')
                              |(done & e' & post & lj' & -> & Hdone & He' & -> & Hun
                                & Htext' & Hcom')].
           ++ left. split.
              { cbn [forallb]. rewrite Hhere. cbn [andb].
                rewrite <- Hall. apply forallb_agree. intros x Hx.
                unfold holds_source. by rewrite Hkeep. }
              exists lj'. rewrite <- app_assoc in Htext', Hcom'. simpl in Htext', Hcom'.
              split; [|done].
              rewrite <- app_assoc. simpl. do 4 f_equal.
              unfold seq_length. simpl. fold (seq_length sl rest). unfold i. lia.
           ++ right. exists ((h, w, l) :: done), e', post, lj'.
              rewrite <- app_assoc in Htext', Hcom'. simpl in Htext', Hcom'.
              split; [done|]. split.
              { cbn [forallb]. rewrite Hhere. cbn [andb].
                rewrite <- Hdone. apply forallb_agree. intros x Hx.
                unfold holds_source. rewrite Hkeep; [done|].
                apply elem_of_app. by left. }
              split.
              { rewrite <- He'. unfold holds_source. rewrite Hkeep; [done|].
                apply elem_of_app. right. by left. }
              split; [done|]. split; [|done].
              intros x Hx. rewrite Hun by done. apply Hkeep.
              apply elem_of_app. by right.
    + (* it does not: the assertion fails *)
      cbv beta iota. exists s1, (Raise AssertSourceMismatch).
      split; [done|]. split; [|split; [done|]].
      * intros h' Hh'. apply Hfr. intros Hx. apply Hh'. unfold handles.
        rewrite map_app. apply elem_of_app. by left.
      * right. exists [], (h, w, l), rest, lj1. rewrite app_nil_r.
        split; [done|]. split; [done|]. split; [done|]. split; [done|]. split.
        { intros x Hx. by apply Hfr, Hnotin. }
        split.
        { rewrite Hls, Htext. symmetry. apply py_slice_split; lia. }
        intros x Hx. destruct (Hcom x Hx) as (a & b & ? & ? & ? & Hcx). exists a, b.
        do 3 (split; [done|]). by rewrite Hconf.
Qed.

End Line.

Section Extracted.
Variable GAP : char.
Variable mapping : gmap char Z.


End Extracted.

End MismatchFacts.


(** ** The loop body of [process] for one line *)

Section LineStages.
Import EditDistributor Layout LineExtractor Rewriting.

Variable GAP : char.
Variable mapping : gmap char Z.

(** The loop body of [process] for one line of distinct elements, with a
    [GAP] that is not mapped: the extraction of the line succeeds; for any
    output line that is not empty, any [min_score] and any scores in a
    matrix that covers the two lines, [_alignment2path] returns a path; and
    [_update_sequence] with that path returns the sequence or fails in one
    of its two closing assertions, or in the [next] at its start, which
    happens exactly for a line without any TextLine and before anything is
    written.  It never fails inside its loop.  When it returns, the
    elements are those of the line and their contents, one after the other,
    are the output line. *)
Theorem line_through_the_stages s0 es output_line output_prob alignment min_score :
  mapping !! GAP = None -> NoDup (handles es) -> es <> [] -> 1 <= len output_line ->
  exists s1 a,
    extract_line GAP mapping s0 empty_acc es = (s1, Ok a)
    /\ (Aligner.well_sized alignment (len (input_line a)) (len output_line) = true ->
        exists path,
          path_of alignment (len (input_line a)) (len output_line) min_score = Ok path
          /\ forall s' r,
               _update_sequence (input_line a) output_line output_prob path
                 (textequiv_starts a) (word_starts a) (textline_starts a) s1 = (s', r) ->
               line_outcome r
               /\ (r = Raise StopIteration <-> forall e, e ∈ es -> e.2 = None)
               /\ (r = Raise StopIteration -> s' = s1)
               /\ (forall seq, r = Ok seq -> seq = es /\ line_string s' es = output_line)).
Proof.
  intros Hgap Hnd Hes Hout.
  destruct (extract_line_unmapped GAP mapping Hgap es s0 empty_acc) as (s1 & a & E & _).
  exists s1, a. split; [exact E|]. intros Hsized.
  apply extract_line_maps in E as (H1 & H2 & H3 & H4 & H5).
  assert (Hin : 1 <= len (input_line a)).
  { rewrite H4, len_line_string. destruct es as [|e es']; [done|].
    unfold seq_length. simpl. fold (seq_length s1 es').
    pose proof (seq_length_nonneg_any s1 es') as Hrest.
    assert (1 <= len (content s1 e)) by (apply len_pos, H5; left). lia. }
  destruct (alignment2path_valid_path 0%Q Qplus (fun x => x) Qgtb alignment
              (len (input_line a)) (len output_line) min_score Hin Hout Hsized)
    as (path & Hpath & Hvalid).
  exists path. split; [exact Hpath|]. rewrite H1, H2, H3, H4.
  destruct (update_sequence_run s1 es output_line output_prob path Hvalid Hnd H5)
    as (s2 & lj & Hlj & HljJ & Htext & _ & _ & ->).
  assert (Hvals : forall e, e ∈ es -> e.2 ∈ values (textline_map s1 es)).
  { intros e He. unfold textline_map, values.
    rewrite snd_zip by (rewrite length_starts, length_map; lia).
    apply list_elem_of_In, in_map_iff. exists e. split; [done|].
    by apply list_elem_of_In. }
  intros s' r.
  destruct (first_line_cases (textline_map s1 es)) as [[l Hfl]|[-> Hall]].
  - assert (Hsome : ~ forall e, e ∈ es -> e.2 = None).
    { intros Hnone. apply first_line_found in Hfl.
      unfold textline_map, values in Hfl.
      rewrite snd_zip in Hfl by (rewrite length_starts, length_map; lia).
      apply list_elem_of_In, in_map_iff in Hfl as (e & He2 & He).
      apply list_elem_of_In, Hnone in He. congruence. }
    rewrite Hfl. case_bool_decide as Hlast.
    + destruct (forallb _ _); intros [= <- <-].
      * split; [left; eauto|]. split; [done|]. split; [done|].
        intros seq [= <-]. split; [done|].
        rewrite Htext, Hlast. apply py_slice_full.
      * split; [right; right; by left|]. done.
    + intros [= <- <-]. split; [right; by left|]. done.
  - intros [= <- <-]. split; [right; right; by right|]. split; [|done].
    split; [|done]. intros _ e He. apply Hall. by apply Hvals.
Qed.

End LineStages.

Lemma line_through_the_stages_witness :
  let s0 := store_of [real "teh" (1 # 2); synthetic " "; real "cat" (1 # 2); synthetic LF] in
  exists s1 a path s',
    LineExtractor.extract_line BELL ∅ s0 LineExtractor.empty_acc (line_of 4) = (s1, Ok a)
    /\ path_of (identity_alignment 8) (len (LineExtractor.input_line a)) 8 (1 # 10)
       = Ok path
    /\ EditDistributor._update_sequence (LineExtractor.input_line a)
         (py ("the cat" ++ LF)) (repeat (9 # 10)%Q 8) path
         (LineExtractor.textequiv_starts a) (LineExtractor.word_starts a)
         (LineExtractor.textline_starts a) s1 = (s', Ok (line_of 4))
    /\ Layout.line_string s0 (line_of 4) = py ("teh cat" ++ LF)
    /\ Layout.line_string s' (line_of 4) = py ("the cat" ++ LF).
Proof.
  intros s0.
  destruct (line_through_the_stages BELL ∅ s0 (line_of 4) (py ("the cat" ++ LF))
              (repeat (9 # 10)%Q 8) (identity_alignment 8) (1 # 10))
    as (s1 & a & Ea & Hrest);
    [apply lookup_empty|by apply (bool_decide_unpack _)|done|vm_compute; discriminate|].
  pose proof Ea as Ea'. vm_compute in Ea'. injection Ea' as Hs1 Ha.
  destruct Hrest as (path & Hpath & Hupd); [by rewrite <- Ha|].
  destruct (EditDistributor._update_sequence (LineExtractor.input_line a)
              (py ("the cat" ++ LF)) (repeat (9 # 10)%Q 8) path
              (LineExtractor.textequiv_starts a) (LineExtractor.word_starts a)
              (LineExtractor.textline_starts a) s1) as [s' r] eqn:Eu.
  destruct (Hupd s' r eq_refl) as (_ & _ & _ & Hok).
  assert (Hr : r = Ok (line_of 4)).
  { pose proof Hpath as Hp. rewrite <- Ha in Hp. vm_compute in Hp. injection Hp as Hp.
    rewrite <- Hp, <- Ha, <- Hs1 in Eu. vm_compute in Eu. by injection Eu as _ <-. }
  subst r. exists s1, a, path, s'. split; [exact Ea|]. split; [exact Hpath|].
  split; [exact Eu|]. split; [reflexivity|].
  by destruct (Hok (line_of 4) eq_refl).
Defined.

(** ** The confidence of a rejected element *)

